(** * Geohash encoding and decoding: a model of the three Python variants

    The repository holds three implementations of the same bisection and
    interleaving scheme: [sonnet_geo.py] (validated, typed API),
    [codex_geo.py] (refactored helpers) and [geohash.py] (the original,
    working on strings of bits).  Each is embedded below as it is written.
    Python's [float] is IEEE 754 binary64, modelled by Rocq's primitive
    floats; [int] is [Z]; [str] is [string]; an exception is a value of
    [exn] carried by [result]. *)

From Stdlib Require Import ZArith Zpower QArith Qpower Qabs Qround Lia Lqa.
From Stdlib Require Import List String Ascii Bool Floats.
Import ListNotations.

Local Open Scope Z_scope.

(** ** Python runtime *)

Inductive exn : Type :=
| InvalidGeohashError (msg : string)
| InvalidCoordinateError (axis : string) (value : float)
| InvalidPrecisionError (precision : Z)
| ValueError (msg : string)
| IndexError
| ZeroDivisionError.

Inductive result (A : Type) : Type :=
| Ok (a : A)
| Raise (e : exn).
Arguments Ok {A} a.
Arguments Raise {A} e.

Definition bind {A B} (r : result A) (k : A -> result B) : result B :=
  match r with
  | Ok a => k a
  | Raise e => Raise e
  end.

Notation "x <- r ;; k" := (bind r (fun x => k))
  (at level 61, r at next level, right associativity).

Fixpoint mapM {A B} (f : A -> result B) (l : list A) : result (list B) :=
  match l with
  | [] => Ok []
  | a :: l' => b <- f a ;; bs <- mapM f l' ;; Ok (b :: bs)
  end.

(** [s[i]] on a sequence, negative indices counting from the end. *)
Definition py_index {A} (l : list A) (i : Z) : result A :=
  let n := Z.of_nat (List.length l) in
  let j := if i <? 0 then i + n else i in
  if (0 <=? j) && (j <? n) then
    match nth_error l (Z.to_nat j) with
    | Some a => Ok a
    | None => Raise IndexError
    end
  else Raise IndexError.

(** [l[::2]] and [l[1::2]]. *)
Fixpoint evens {A} (l : list A) : list A :=
  match l with
  | [] => []
  | a :: l' => a :: odds l'
  end
with odds {A} (l : list A) : list A :=
  match l with
  | [] => []
  | _ :: l' => evens l'
  end.

Fixpoint enumerate_from {A} (i : Z) (l : list A) : list (Z * A) :=
  match l with
  | [] => []
  | a :: l' => (i, a) :: enumerate_from (i + 1) l'
  end.

(** A [dict] with character keys, as an association list without
    repeated keys: [d[k] = v] replaces the entry of [k]. *)
Definition dict_set (d : list (ascii * Z)) (k : ascii) (v : Z) : list (ascii * Z) :=
  (k, v) :: filter (fun kv => negb (Ascii.eqb (fst kv) k)) d.

Fixpoint dict_get (d : list (ascii * Z)) (k : ascii) : option Z :=
  match d with
  | [] => None
  | (k', v) :: d' => if Ascii.eqb k' k then Some v else dict_get d' k
  end.

Module PyFloat.

(** C's [fmod] on binary64: the remainder [x - n*y], [n] being [x/y]
    truncated toward zero.  The result is always representable, so no
    rounding is involved; it carries the sign of [x]. *)
Definition SFfmod (x y : spec_float) : spec_float :=
  match x, y with
  | S754_nan, _ | _, S754_nan => S754_nan
  | S754_infinity _, _ => S754_nan
  | _, S754_zero _ => S754_nan
  | S754_zero _, _ => x
  | S754_finite _ _ _, S754_infinity _ => x
  | S754_finite sx mx ex, S754_finite sy my ey =>
      let ez := Z.min ex ey in
      let X := Zpos (fst (shl_align mx ex ez)) in
      let Y := Zpos (fst (shl_align my ey ez)) in
      binary_normalize prec emax (cond_Zopp sx (Z.rem X Y)) ez sx
  end.

Definition fmod (x y : float) : float :=
  SF2Prim (SFfmod (Prim2SF x) (Prim2SF y)).

(** [v % w] on floats (CPython's [float_rem]): [fmod], then the result is
    moved to the sign of the divisor. *)
Definition mod_ (v w : float) : result float :=
  if (w =? 0)%float then Raise ZeroDivisionError
  else
    let m := fmod v w in
    if negb (m =? 0)%float then
      if xorb (w <? 0)%float (m <? 0)%float then Ok (m + w)%float else Ok m
    else Ok (if (w <? 0)%float then (-0)%float else 0%float).

(** The builtins [min(a, b)] and [max(a, b)]: the first argument is kept
    unless the second compares strictly below (above) it. *)
Definition min (a b : float) : float := if (b <? a)%float then b else a.
Definition max (a b : float) : float := if (a <? b)%float then b else a.

(** [float(i)], as in [i * x] for an [int] [i] and a [float] [x]. *)
Definition of_int (i : Z) : float :=
  if i <? 0 then (- of_uint63 (Uint63.of_Z (- i)))%float
  else of_uint63 (Uint63.of_Z i).

(** [sum((a, b))]: the running total starts at the integer [0]. *)
Definition sum2 (a b : float) : float := (0 + a + b)%float.

End PyFloat.

(** ** sonnet_geo.py *)

Module sonnet_geo.

Definition BASE32_ALPHABET : string := "0123456789bcdefghjkmnpqrstuvwxyz".

Definition BASE32_DECODE_MAP : list (ascii * Z) :=
  fold_left (fun d ic => dict_set d (snd ic) (fst ic))
            (enumerate_from 0 (list_ascii_of_string BASE32_ALPHABET)) [].

Definition BITS_PER_CHAR : Z := 5.
Definition LON_RANGE : float * float := ((-180)%float, 180%float).
Definition LAT_RANGE : float * float := ((-90)%float, 90%float).
Definition LON_SPAN : float := 360%float.
Definition DEFAULT_PRECISION : Z := 12.

Record DecodedCell : Type := mkCell {
  lon : float;
  lat : float;
  lon_err : float;
  lat_err : float;
  geohash : string
}.

(** The loop state of [_bits_to_geohash]. *)
Record pack_state : Type := mkPack {
  geohash_chars : list ascii;
  accumulator : Z;
  count : Z
}.

Definition pack_bit (st : result pack_state) (bit : Z) : result pack_state :=
  st <- st ;;
  let accumulator := Z.lor (Z.shiftl (accumulator st) 1) bit in
  let count := count st + 1 in
  if count =? BITS_PER_CHAR then
    c <- py_index (list_ascii_of_string BASE32_ALPHABET) accumulator ;;
    Ok (mkPack (geohash_chars st ++ [c]) 0 0)
  else Ok (mkPack (geohash_chars st) accumulator count).

Definition _bits_to_geohash (bits : list Z) : result string :=
  if negb (Z.of_nat (List.length bits) mod BITS_PER_CHAR =? 0) then
    Raise (ValueError "Bit sequence length must be a multiple of 5")
  else
    st <- fold_left pack_bit bits (Ok (mkPack [] 0 0)) ;;
    Ok (string_of_list_ascii (geohash_chars st)).

(** The message of the f-string, for a character [char] of one byte
    (an ASCII character). *)
Definition invalid_character_message (char : ascii) : string :=
  "Invalid geohash character '" ++ String char "'. Valid characters: "
    ++ BASE32_ALPHABET.

(** [range(BITS_PER_CHAR - 1, -1, -1)] *)
Definition shifts : list Z := [4; 3; 2; 1; 0].

Definition char_bits (value : Z) : list Z :=
  map (fun shift => Z.land (Z.shiftr value shift) 1) shifts.

Fixpoint _geohash_to_bits_from (bits : list Z) (geohash : list ascii)
  : result (list Z) :=
  match geohash with
  | [] => Ok bits
  | char :: rest =>
      match dict_get BASE32_DECODE_MAP char with
      | None => Raise (InvalidGeohashError (invalid_character_message char))
      | Some value => _geohash_to_bits_from (bits ++ char_bits value) rest
      end
  end.

Definition _geohash_to_bits (geohash : string) : result (list Z) :=
  _geohash_to_bits_from [] (list_ascii_of_string geohash).

Definition refine_bit (interval : float * float) (bit : Z) : float * float :=
  let '(low, high) := interval in
  let mid := ((low + high) / 2)%float in
  if negb (bit =? 0) then (mid, high) else (low, mid).

Definition _refine_interval (bits : list Z) (initial_range : float * float)
  : float * float :=
  fold_left refine_bit bits initial_range.

Definition _total_bits (precision : Z) : result Z :=
  if precision <=? 0 then Raise (InvalidPrecisionError precision)
  else Ok (precision * BITS_PER_CHAR).

Definition _wrap_longitude (lon : float) : result float :=
  m <- PyFloat.mod_ (lon - fst LON_RANGE)%float LON_SPAN ;;
  let wrapped := (m + fst LON_RANGE)%float in
  Ok (if (wrapped =? snd LON_RANGE)%float then fst LON_RANGE else wrapped).

Definition _clamp_latitude (lat : float) : float :=
  PyFloat.max (fst LAT_RANGE) (PyFloat.min lat (snd LAT_RANGE)).

Definition from_geohash (geohash : string) : result DecodedCell :=
  bits <- _geohash_to_bits geohash ;;
  let lon_bits := evens bits in
  let lat_bits := odds bits in
  let '(lon_min, lon_max) := _refine_interval lon_bits LON_RANGE in
  let '(lat_min, lat_max) := _refine_interval lat_bits LAT_RANGE in
  let lon := ((lon_min + lon_max) / 2)%float in
  let lat := ((lat_min + lat_max) / 2)%float in
  let lon_err := ((lon_max - lon_min) / 2)%float in
  let lat_err := ((lat_max - lat_min) / 2)%float in
  Ok (mkCell lon lat lon_err lat_err geohash).

Definition to_point (self : DecodedCell) : float * float :=
  (lon self, lat self).

Definition to_pointerr (self : DecodedCell) : float * float * float * float :=
  (lon self, lat self, lon_err self, lat_err self).

Definition to_bbox (self : DecodedCell) : float * float * float * float :=
  ((lon self - lon_err self)%float,
   (lat self - lat_err self)%float,
   (lon self + lon_err self)%float,
   (lat self + lat_err self)%float).

Definition to_polygon (self : DecodedCell) (closed : bool)
  : list (float * float) :=
  let west := (lon self - lon_err self)%float in
  let east := (lon self + lon_err self)%float in
  let south := (lat self - lat_err self)%float in
  let north := (lat self + lat_err self)%float in
  let corners := [(west, south); (east, south); (east, north); (west, north)] in
  if closed then corners ++ [(west, south)] else corners.

(** The variables the loop of [encode] updates. *)
Record encode_state : Type := mkEnc {
  lon_interval : float * float;
  lat_interval : float * float;
  bits : list Z;
  use_lon : bool
}.

Definition encode_step (lon lat : float) (st : encode_state) : encode_state :=
  let interval := if use_lon st then lon_interval st else lat_interval st in
  let value := if use_lon st then lon else lat in
  let mid := ((fst interval + snd interval) / 2)%float in
  let '(bit, interval') :=
    if (mid <=? value)%float then (1, (mid, snd interval))
    else (0, (fst interval, mid)) in
  mkEnc (if use_lon st then interval' else lon_interval st)
        (if use_lon st then lat_interval st else interval')
        (bits st ++ [bit])
        (negb (use_lon st)).

Fixpoint encode_loop (n : nat) (lon lat : float) (st : encode_state)
  : encode_state :=
  match n with
  | O => st
  | S n' => encode_loop n' lon lat (encode_step lon lat st)
  end.

Definition encode (lon lat : float) (precision : Z) : result string :=
  if negb ((fst LAT_RANGE <=? lat)%float && (lat <=? snd LAT_RANGE)%float) then
    Raise (InvalidCoordinateError "Latitude" lat)
  else if negb ((fst LON_RANGE <=? lon)%float && (lon <=? snd LON_RANGE)%float) then
    Raise (InvalidCoordinateError "Longitude" lon)
  else
    total_bits <- _total_bits precision ;;
    let st := encode_loop (Z.to_nat total_bits) lon lat
                (mkEnc LON_RANGE LAT_RANGE [] true) in
    _bits_to_geohash (bits st).

Definition decode (geohash : string) : result DecodedCell :=
  from_geohash geohash.

Definition neighbors (geohash : string) : result (list string) :=
  cell <- decode geohash ;;
  let lon_step := (lon_err cell * 2)%float in
  let lat_step := (lat_err cell * 2)%float in
  let precision := Z.of_nat (String.length geohash) in
  rows <- mapM (fun lat_delta =>
            let candidate_lat :=
              _clamp_latitude (lat cell + PyFloat.of_int lat_delta * lat_step)%float in
            mapM (fun lon_delta =>
                    candidate_lon <-
                      _wrap_longitude
                        (lon cell + PyFloat.of_int lon_delta * lon_step)%float ;;
                    encode candidate_lon candidate_lat precision)
                 [-1; 0; 1])
          [1; 0; -1] ;;
  Ok (List.concat rows).

(** [geohash[:-1]] drops the last character. *)
Definition parent (geohash : string) : string :=
  if 1 <? Z.of_nat (String.length geohash)
  then string_of_list_ascii (removelast (list_ascii_of_string geohash))
  else geohash.

Definition bbox (geohash : string) : result (float * float * float * float) :=
  cell <- decode geohash ;;
  Ok (to_bbox cell).

(** The properties [center], [width_degrees], [height_degrees] and
    [height_meters] of a cell. *)
Definition METERS_PER_DEGREE_LAT : Z := 110540.

Definition center (self : DecodedCell) : float * float := to_point self.

Definition width_degrees (self : DecodedCell) : float := (lon_err self * 2)%float.

Definition height_degrees (self : DecodedCell) : float := (lat_err self * 2)%float.

Definition height_meters (self : DecodedCell) : float :=
  (lat_err self * 2 * PyFloat.of_int METERS_PER_DEGREE_LAT)%float.

(** [[geohash + char for char in BASE32_ALPHABET]] *)
Definition children (geohash : string) : list string :=
  map (fun char => (geohash ++ String char "")%string)
      (list_ascii_of_string BASE32_ALPHABET).

(** The loop of [common_prefix] over [zip(hash1, hash2)], with its
    [break] at the first pair that differs.  Python compares the
    characters of a [str]; a [string] here is a list of bytes, which is
    the same on ASCII strings, so on every geohash. *)
Fixpoint common_prefix_loop (hash1 hash2 : list ascii) (prefix : list ascii)
  : list ascii :=
  match hash1, hash2 with
  | c1 :: rest1, c2 :: rest2 =>
      if Ascii.eqb c1 c2 then common_prefix_loop rest1 rest2 (prefix ++ [c1])
      else prefix
  | _, _ => prefix
  end.

Definition common_prefix (hash1 hash2 : string) : string :=
  string_of_list_ascii
    (common_prefix_loop (list_ascii_of_string hash1) (list_ascii_of_string hash2) []).

End sonnet_geo.

(** ** codex_geo.py *)

Module codex_geo.

Definition BASE32_ALPHABET : string := "0123456789bcdefghjkmnpqrstuvwxyz".

Definition BASE32_DECODE_MAP : list (ascii * Z) :=
  fold_left (fun d ic => dict_set d (snd ic) (fst ic))
            (enumerate_from 0 (list_ascii_of_string BASE32_ALPHABET)) [].

Definition BITS_PER_CHAR : Z := 5.

Record DecodedCell : Type := mkCell {
  lon : float;
  lat : float;
  lon_err : float;
  lat_err : float
}.

Definition to_point (self : DecodedCell) : float * float :=
  (lon self, lat self).

Definition to_pointerr (self : DecodedCell) : float * float * float * float :=
  (lon self, lat self, lon_err self, lat_err self).

Definition to_polygon (self : DecodedCell) : list (float * float) :=
  let west := (lon self - lon_err self)%float in
  let east := (lon self + lon_err self)%float in
  let south := (lat self - lat_err self)%float in
  let north := (lat self + lat_err self)%float in
  [(west, south); (east, south); (west, north); (east, north)].

Record pack_state : Type := mkPack {
  geohash_chars : list ascii;
  accumulator : Z;
  count : Z
}.

Definition pack_bit (st : result pack_state) (bit : Z) : result pack_state :=
  st <- st ;;
  let accumulator := Z.lor (Z.shiftl (accumulator st) 1) bit in
  let count := count st + 1 in
  if count =? BITS_PER_CHAR then
    c <- py_index (list_ascii_of_string BASE32_ALPHABET) accumulator ;;
    Ok (mkPack (geohash_chars st ++ [c]) 0 0)
  else Ok (mkPack (geohash_chars st) accumulator count).

Definition _bits_to_geohash (bits : list Z) : result string :=
  if negb (Z.of_nat (List.length bits) mod BITS_PER_CHAR =? 0) then
    Raise (ValueError "Bit sequence length must be a multiple of 5")
  else
    st <- fold_left pack_bit bits (Ok (mkPack [] 0 0)) ;;
    Ok (string_of_list_ascii (geohash_chars st)).

Definition char_bits (value : Z) : list Z :=
  map (fun shift => Z.land (Z.shiftr value shift) 1) [4; 3; 2; 1; 0].

Fixpoint _geohash_to_bits_from (bits : list Z) (geohash : list ascii)
  : result (list Z) :=
  match geohash with
  | [] => Ok bits
  | char :: rest =>
      match dict_get BASE32_DECODE_MAP char with
      | None =>
          Raise (ValueError
                   "Invalid geohash character. Use 0-9 and b-h, j, k, m, n, p-z.")
      | Some value => _geohash_to_bits_from (bits ++ char_bits value) rest
      end
  end.

Definition _geohash_to_bits (geohash : string) : result (list Z) :=
  _geohash_to_bits_from [] (list_ascii_of_string geohash).

(** [_refine_interval] updates the two-element list in place; the caller
    reads the list afterwards, so the model returns it. *)
Definition refine_bit (interval : float * float) (bit : Z) : float * float :=
  let mid := ((fst interval + snd interval) / 2)%float in
  if negb (bit =? 0) then (mid, snd interval) else (fst interval, mid).

Definition _refine_interval (bits : list Z) (interval : float * float)
  : float * float :=
  fold_left refine_bit bits interval.

Definition _total_bits (precision : Z) : result Z :=
  if precision <=? 0 then Raise (ValueError "Precision must be a positive integer")
  else Ok (precision * BITS_PER_CHAR).

Definition _wrap_longitude (lon : float) : result float :=
  m <- PyFloat.mod_ (lon + 180)%float 360%float ;;
  let wrapped := (m - 180)%float in
  Ok (if (wrapped =? 180)%float then (-180)%float else wrapped).

Record encode_state : Type := mkEnc {
  lon_interval : float * float;
  lat_interval : float * float;
  bits : list Z;
  use_lon : bool
}.

Definition encode_step (lon lat : float) (st : encode_state) : encode_state :=
  let interval := if use_lon st then lon_interval st else lat_interval st in
  let value := if use_lon st then lon else lat in
  let mid := ((fst interval + snd interval) / 2)%float in
  let '(bit, interval') :=
    if (mid <=? value)%float then (1, (mid, snd interval))
    else (0, (fst interval, mid)) in
  mkEnc (if use_lon st then interval' else lon_interval st)
        (if use_lon st then lat_interval st else interval')
        (bits st ++ [bit])
        (negb (use_lon st)).

Fixpoint encode_loop (n : nat) (lon lat : float) (st : encode_state)
  : encode_state :=
  match n with
  | O => st
  | S n' => encode_loop n' lon lat (encode_step lon lat st)
  end.

Definition encode (lon lat : float) (precision : Z) : result string :=
  total_bits <- _total_bits precision ;;
  let st := encode_loop (Z.to_nat total_bits) lon lat
              (mkEnc ((-180)%float, 180%float) ((-90)%float, 90%float) [] true) in
  _bits_to_geohash (bits st).

(** What [decode] returns, by [geotype]. *)
Inductive decoded : Type :=
| Point (p : float * float)
| PointErr (p : float * float * float * float)
| Polygon (p : list (float * float)).

Definition decode_cell (geohash : string) : result DecodedCell :=
  bits <- _geohash_to_bits geohash ;;
  let lon_bits := evens bits in
  let lat_bits := odds bits in
  let lon_interval := _refine_interval lon_bits ((-180)%float, 180%float) in
  let lat_interval := _refine_interval lat_bits ((-90)%float, 90%float) in
  let lon := (PyFloat.sum2 (fst lon_interval) (snd lon_interval) / 2)%float in
  let lat := (PyFloat.sum2 (fst lat_interval) (snd lat_interval) / 2)%float in
  let lon_err := ((snd lon_interval - fst lon_interval) / 2)%float in
  let lat_err := ((snd lat_interval - fst lat_interval) / 2)%float in
  Ok (mkCell lon lat lon_err lat_err).

Definition decode (geohash : string) (geotype : string) : result decoded :=
  cell <- decode_cell geohash ;;
  if String.eqb geotype "point" then Ok (Point (to_point cell))
  else if String.eqb geotype "pointerr" then Ok (PointErr (to_pointerr cell))
  else if String.eqb geotype "polygon" then Ok (Polygon (to_polygon cell))
  else Raise (ValueError "geotype must be 'point', 'pointerr', or 'polygon'").

Definition neighbors (geohash : string) : result (list string) :=
  d <- decode geohash "pointerr" ;;
  match d with
  | PointErr (lon, lat, lon_err, lat_err) =>
      let lon_step := (lon_err * 2)%float in
      let lat_step := (lat_err * 2)%float in
      let precision := Z.of_nat (String.length geohash) in
      cols <- mapM (fun lon_delta =>
                candidate_lon <-
                  _wrap_longitude (lon + PyFloat.of_int lon_delta * lon_step)%float ;;
                mapM (fun lat_delta =>
                        let candidate_lat :=
                          PyFloat.max
                            (PyFloat.min
                               (lat + PyFloat.of_int lat_delta * lat_step)%float
                               90%float)
                            (-90)%float in
                        encode candidate_lon candidate_lat precision)
                     [1; 0; -1])
              [-1; 0; 1] ;;
      Ok (List.concat cols)
  | _ => Raise (ValueError "not enough values to unpack")
  end.

End codex_geo.

(** ** geohash.py *)

Module geohash.

Definition base32 : list ascii :=
  list_ascii_of_string "0123456789bcdefghjkmnpqrstuvwxyz".

Definition dict32 : list (ascii * Z) :=
  [("0", 0); ("1", 1); ("2", 2); ("3", 3); ("4", 4); ("5", 5); ("6", 6);
   ("7", 7); ("8", 8); ("9", 9); ("b", 10); ("c", 11); ("d", 12); ("e", 13);
   ("f", 14); ("g", 15); ("h", 16); ("j", 17); ("k", 18); ("m", 19);
   ("n", 20); ("p", 21); ("q", 22); ("r", 23); ("s", 24); ("t", 25);
   ("u", 26); ("v", 27); ("w", 28); ("x", 29); ("y", 30); ("z", 31)]%char.

(** Binary digits of a positive number, most significant first. *)
Fixpoint pos_digits (p : positive) (acc : list ascii) : list ascii :=
  match p with
  | xH => "1"%char :: acc
  | xO p' => pos_digits p' ("0"%char :: acc)
  | xI p' => pos_digits p' ("1"%char :: acc)
  end.

(** [bin(i)]: ['0b101'], ['0b0'], ['-0b1']. *)
Definition bin (i : Z) : list ascii :=
  match i with
  | Z0 => list_ascii_of_string "0b0"
  | Zpos p => list_ascii_of_string "0b" ++ pos_digits p []
  | Zneg p => list_ascii_of_string "-0b" ++ pos_digits p []
  end.

(** [s.zfill(width)]: zeros go after a leading sign. *)
Definition zfill (s : list ascii) (width : nat) : list ascii :=
  let pad := repeat "0"%char (width - List.length s) in
  match s with
  | c :: s' =>
      if Ascii.eqb c "+" || Ascii.eqb c "-" then c :: pad ++ s' else pad ++ s
  | [] => pad
  end.

Definition is_bit (c : ascii) : bool := Ascii.eqb c "0" || Ascii.eqb c "1".

Definition bits_value (s : list ascii) : Z :=
  fold_left (fun n c => 2 * n + (if Ascii.eqb c "1" then 1 else 0)) s 0.

(** [int(s, 2)] on the strings these functions build (made of the
    characters ['0'], ['1'] and, from [bin] of a negative number, ['b']):
    binary digits, after an optional ['0b'] prefix; anything else is a
    [ValueError]. *)
Definition int2 (s : list ascii) : result Z :=
  let digits :=
    match s with
    | c0 :: c1 :: s' =>
        if Ascii.eqb c0 "0" && (Ascii.eqb c1 "b" || Ascii.eqb c1 "B") then s' else s
    | _ => s
    end in
  match digits with
  | [] => Raise (ValueError "invalid literal for int() with base 2")
  | _ =>
      if forallb is_bit digits then Ok (bits_value digits)
      else Raise (ValueError "invalid literal for int() with base 2")
  end.

(** [''.join(''.join(x) for x in zip_longest(a, b, fillvalue=''))] *)
Fixpoint zip_join (a b : list ascii) : list ascii :=
  match a, b with
  | [], _ => b
  | _, [] => a
  | x :: a', y :: b' => x :: y :: zip_join a' b'
  end.

(** [s[i:j]] for [0 <= i <= j]. *)
Definition slice {A} (s : list A) (i j : nat) : list A :=
  firstn (j - i) (skipn i s).

(** The loop of [get_bits]. *)
Fixpoint get_bits_loop (n : nat) (degrees : float) (result : list ascii)
  (tup_range : float * float) : list ascii :=
  match n with
  | O => result
  | S n' =>
      let mid := (PyFloat.sum2 (fst tup_range) (snd tup_range) / 2)%float in
      if (mid <? degrees)%float
      then get_bits_loop n' degrees (result ++ ["1"%char]) (mid, snd tup_range)
      else get_bits_loop n' degrees (result ++ ["0"%char]) (fst tup_range, mid)
  end.

Definition get_bits (degrees : float) (precision : Z) (range_ends : Z)
  : list ascii :=
  let tup_range := (PyFloat.of_int (- range_ends), PyFloat.of_int range_ends) in
  let n := (precision * 5) / 2 + (precision * 5) mod 2 in
  get_bits_loop (Z.to_nat n) degrees [] tup_range.

(** The loop [for i in range(n): geohash += base32[int(geobits[i*5:i*5+5], 2)]]. *)
Fixpoint pack_loop (i : nat) (n : nat) (geobits : list ascii) (geohash : list ascii)
  : result (list ascii) :=
  match n with
  | O => Ok geohash
  | S n' =>
      v <- int2 (slice geobits (i * 5) (i * 5 + 5)) ;;
      c <- py_index base32 v ;;
      pack_loop (S i) n' geobits (geohash ++ [c])
  end.

Definition encode (lon lat : float) (precision : Z) : result string :=
  let lon_bits := get_bits lon precision 180 in
  let lat_bits := get_bits lat precision 90 in
  let geobits := zip_join lon_bits lat_bits in
  geohash <- pack_loop 0 (Z.to_nat precision) geobits [] ;;
  Ok (string_of_list_ascii geohash).

Definition invalid_message : list ascii :=
  list_ascii_of_string "Invalid geohash character.  Use 0-9, b-h, j, k, m, n, p-z.".

(** [get_geobits] returns the bits, or the message above when a
    character is not a key of [dict32]. *)
Fixpoint get_geobits_from (geobits : list ascii) (geohash : list ascii)
  : list ascii :=
  match geohash with
  | [] => geobits
  | i :: rest =>
      match dict_get dict32 i with
      | Some v => get_geobits_from (geobits ++ zfill (skipn 2 (bin v)) 5) rest
      | None => invalid_message
      end
  end.

Definition get_geobits (geohash : string) : list ascii :=
  get_geobits_from [] (list_ascii_of_string geohash).

Definition get_degrees (bits : list ascii) (range_ends : Z) : float * float :=
  let tup_range :=
    fold_left
      (fun tup_range i =>
         let mid := (PyFloat.sum2 (fst tup_range) (snd tup_range) / 2)%float in
         if Ascii.eqb i "0" then (fst tup_range, mid) else (mid, snd tup_range))
      bits (PyFloat.of_int (- range_ends), PyFloat.of_int range_ends) in
  let degrees := (PyFloat.sum2 (fst tup_range) (snd tup_range) / 2)%float in
  let precision := abs (degrees - fst tup_range)%float in
  (degrees, precision).

(** What [decode] returns, by [geotype]. *)
Inductive decoded : Type :=
| Point (p : float * float)
| PointErr (p : list float)
| Polygon (p : list (float * float)).

Definition decode (geohash : string) (geotype : string) : decoded :=
  let geobits := get_geobits geohash in
  let lon_bits := evens geobits in
  let lat_bits := odds geobits in
  let '(lon, lon_err) := get_degrees lon_bits 180 in
  let '(lat, lat_err) := get_degrees lat_bits 90 in
  if String.eqb geotype "pointerr" then PointErr [lat; lon; lat_err; lon_err]
  else if String.eqb geotype "polygon" then
    Polygon [((lon - lon_err)%float, (lat - lat_err)%float);
             ((lon + lon_err)%float, (lat - lat_err)%float);
             ((lon - lon_err)%float, (lat + lat_err)%float);
             ((lon + lon_err)%float, (lat + lat_err)%float)]
  else Point (lon, lat).

Definition neighbors (geohash : string) : result (list string) :=
  let geobits := get_geobits geohash in
  let lon_bits := evens geobits in
  let lat_bits := odds geobits in
  lon_int <- int2 lon_bits ;;
  lat_int <- int2 lat_bits ;;
  let lon_len := List.length lon_bits in
  let lat_len := List.length lat_bits in
  let hash_len := String.length geohash in
  let lon_list := [lon_int - 1; lon_int; lon_int + 1] in
  let lat_list := [lat_int + 1; lat_int; lat_int - 1] in
  cols <- mapM (fun i =>
            let lon_bits := zfill (skipn 2 (bin i)) lon_len in
            mapM (fun j =>
                    let lat_bits := zfill (skipn 2 (bin j)) lat_len in
                    let geobits := zip_join lon_bits lat_bits in
                    geohash <- pack_loop 0 hash_len geobits [] ;;
                    Ok (string_of_list_ascii geohash))
                 lat_list)
          lon_list ;;
  Ok (List.concat cols).

End geohash.

(** * Binary64 numbers as rationals

    [B2Q] gives the rational a finite float stands for; the definitions
    below state what rounding to nearest does in terms of it. *)

Module Bin64.

Definition pow2 (e : Z) : Q := (2 ^ e)%Q.

Definition dy (m e : Z) : Q := (inject_Z m * pow2 e)%Q.

Definition inexact (mrs : shr_record) : bool := shr_r mrs || shr_s mrs.

(** [(m, inexact?)] at exponent [e] stands for the real [v]. *)
Definition repr (m : Z) (ix : bool) (e : Z) (v : Q) : Prop :=
  0 <= m /\
  if ix then (dy m e < v /\ v < dy (m + 1) e)%Q else (v == dy m e)%Q.

Definition SF2Q (x : spec_float) : Q :=
  match x with
  | S754_finite s m e => dy (cond_Zopp s (Zpos m)) e
  | _ => 0%Q
  end.

Definition SFfinite (x : spec_float) : bool :=
  match x with
  | S754_zero _ | S754_finite _ _ _ => true
  | _ => false
  end.

(** A rational that a binary64 number can hold, overflow apart. *)
Definition format (u : Q) : Prop :=
  exists M E, (u == dy M E)%Q /\ Z.abs M <= 2 ^ 53 /\ -1074 <= E.

(** Both bounds lie strictly inside the range of finite numbers. *)
Definition in_range (a b : Q) : Prop := (- dy 1 1024 < a)%Q /\ (b < dy 1 1024)%Q.

Definition SFtwo : spec_float := S754_finite false 4503599627370496 (-51).

Definition cmp_rel (p q : Q) (c : comparison) : Prop :=
  match c with
  | Lt => (p < q)%Q
  | Eq => (p == q)%Q
  | Gt => (q < p)%Q
  end.

Definition B2Q (x : float) : Q := SF2Q (Prim2SF x).

Definition finite (x : float) : bool := SFfinite (Prim2SF x).

End Bin64.

(** * Notions the statements use *)

(** A bit of a bit stream. *)
Definition bit (b : Z) : Prop := b = 0 \/ b = 1.

(** [c] is one of the 32 symbols. *)
Definition in_alphabet (c : ascii) : bool :=
  existsb (Ascii.eqb c) (list_ascii_of_string sonnet_geo.BASE32_ALPHABET).

(** A geohash: every character is a symbol of the alphabet. *)
Definition valid_geohash (h : string) : bool :=
  forallb in_alphabet (list_ascii_of_string h).

(** An interval of finite numbers, in order, inside [[-1000, 1000]]. *)
Definition bounded_interval (itv : float * float) : Prop :=
  Bin64.finite (fst itv) = true /\ Bin64.finite (snd itv) = true /\
  (-1000 <= Bin64.B2Q (fst itv))%Q /\
  (Bin64.B2Q (fst itv) <= Bin64.B2Q (snd itv))%Q /\
  (Bin64.B2Q (snd itv) <= 1000)%Q.

(** [inner] is an interval of finite numbers inside [outer]. *)
Definition nested (inner outer : float * float) : Prop :=
  Bin64.finite (fst inner) = true /\ Bin64.finite (snd inner) = true /\
  (Bin64.B2Q (fst outer) <= Bin64.B2Q (fst inner))%Q /\
  (Bin64.B2Q (fst inner) <= Bin64.B2Q (snd inner))%Q /\
  (Bin64.B2Q (snd inner) <= Bin64.B2Q (snd outer))%Q.

(** The finite number [v] lies in the closed interval [itv]. *)
Definition contains (itv : float * float) (v : float) : Prop :=
  (Bin64.B2Q (fst itv) <= Bin64.B2Q v)%Q /\ (Bin64.B2Q v <= Bin64.B2Q (snd itv))%Q.

(** The interval is a cell of the exact dyadic grid after [k] bisections
    of [[-45 * 2^c, 45 * 2^c]] ([c = 2] for longitude, [1] for latitude). *)
Definition grid (c k : Z) (itv : float * float) : Prop :=
  Bin64.finite (fst itv) = true /\ Bin64.finite (snd itv) = true /\
  exists a : Z,
    - 2 ^ k <= a /\ a + 2 <= 2 ^ k /\
    (Bin64.B2Q (fst itv) == Bin64.dy (45 * a) (c - k))%Q /\
    (Bin64.B2Q (snd itv) == Bin64.dy (45 * (a + 2)) (c - k))%Q.

(** The body of the loops of [sonnet_geo.neighbors]: the geohash of the
    cell [lon_delta] columns to the east and [lat_delta] rows to the
    north of [cell]. *)
Definition sonnet_neighbor (cell : sonnet_geo.DecodedCell) (precision : Z)
  (lon_delta lat_delta : Z) : result string :=
  candidate_lon <-
    sonnet_geo._wrap_longitude
      (sonnet_geo.lon cell
       + PyFloat.of_int lon_delta * (sonnet_geo.lon_err cell * 2))%float ;;
  sonnet_geo.encode candidate_lon
    (sonnet_geo._clamp_latitude
       (sonnet_geo.lat cell
        + PyFloat.of_int lat_delta * (sonnet_geo.lat_err cell * 2))%float)
    precision.

(** The same for [codex_geo.neighbors]. *)
Definition codex_neighbor (cell : codex_geo.DecodedCell) (precision : Z)
  (lon_delta lat_delta : Z) : result string :=
  candidate_lon <-
    codex_geo._wrap_longitude
      (codex_geo.lon cell
       + PyFloat.of_int lon_delta * (codex_geo.lon_err cell * 2))%float ;;
  codex_geo.encode candidate_lon
    (PyFloat.max
       (PyFloat.min
          (codex_geo.lat cell
           + PyFloat.of_int lat_delta * (codex_geo.lat_err cell * 2))%float
          90%float)
       (-90)%float)
    precision.

(** [codex_geo] repeats the loop states of [sonnet_geo] as records of its
    own; these maps read one as the other. *)
Definition pack_sim (s : codex_geo.pack_state) : sonnet_geo.pack_state :=
  sonnet_geo.mkPack (codex_geo.geohash_chars s) (codex_geo.accumulator s)
                    (codex_geo.count s).

Definition enc_sim (s : codex_geo.encode_state) : sonnet_geo.encode_state :=
  sonnet_geo.mkEnc (codex_geo.lon_interval s) (codex_geo.lat_interval s)
                   (codex_geo.bits s) (codex_geo.use_lon s).

Definition result_map {A B} (f : A -> B) (r : result A) : result B :=
  match r with
  | Ok a => Ok (f a)
  | Raise e => Raise e
  end.

(** The state [encode] starts its loop from. *)
Definition encode_start : sonnet_geo.encode_state :=
  sonnet_geo.mkEnc sonnet_geo.LON_RANGE sonnet_geo.LAT_RANGE [] true.

(** A decoded axis: a finite centre within [[-r, r]] and a finite
    half-width between 0 and 180. *)
Definition centred (c e : float) (r : Q) : Prop :=
  Bin64.finite c = true /\ Bin64.finite e = true /\
  (- r <= Bin64.B2Q c)%Q /\ (Bin64.B2Q c <= r)%Q /\
  (0 <= Bin64.B2Q e)%Q /\ (Bin64.B2Q e <= 180)%Q.

(** The body of the loops of [geohash.neighbors]: the geohash packed
    from the bits of column [i] and row [j]. *)
Definition legacy_neighbor (lon_len lat_len hash_len : nat) (i j : Z)
  : result string :=
  let lon_bits := geohash.zfill (skipn 2 (geohash.bin i)) lon_len in
  let lat_bits := geohash.zfill (skipn 2 (geohash.bin j)) lat_len in
  let geobits := geohash.zip_join lon_bits lat_bits in
  geohash <- geohash.pack_loop 0 hash_len geobits [] ;;
  Ok (string_of_list_ascii geohash).

(** The longitude [135 + 45 * 2^-45], written [135.00000000000128]. *)
Definition lon_19 : float := 0x1.0e0000000002dp+7%float.

(** The interval is within [el] and [eh] units of [2^(c-50)] of a cell
    of the dyadic grid at depth [k]: what is left of [grid] once the
    midpoints are rounded. *)
Definition near (c k : Z) (el eh : Q) (itv : float * float) : Prop :=
  Bin64.finite (fst itv) = true /\ Bin64.finite (snd itv) = true /\
  exists a : Z,
    - 2 ^ k <= a /\ a + 2 <= 2 ^ k /\
    (Bin64.dy (45 * a) (c - k) - el * Bin64.dy 1 (c - 50) <= Bin64.B2Q (fst itv))%Q /\
    (Bin64.B2Q (fst itv) <= Bin64.dy (45 * a) (c - k) + el * Bin64.dy 1 (c - 50))%Q /\
    (Bin64.dy (45 * (a + 2)) (c - k) - eh * Bin64.dy 1 (c - 50)
     <= Bin64.B2Q (snd itv))%Q /\
    (Bin64.B2Q (snd itv)
     <= Bin64.dy (45 * (a + 2)) (c - k) + eh * Bin64.dy 1 (c - 50))%Q.

(** The longest common prefix of two lists of characters, by recursion
    on both: what the loop of [sonnet_geo.common_prefix] accumulates. *)
Fixpoint lcp (l1 l2 : list ascii) : list ascii :=
  match l1, l2 with
  | c1 :: r1, c2 :: r2 => if Ascii.eqb c1 c2 then c1 :: lcp r1 r2 else []
  | _, _ => []
  end.

(** The character [geohash.py] writes for a bit. *)
Definition bit_char (b : Z) : ascii := if b =? 0 then "0"%char else "1"%char.

(** Two intervals whose bounds are finite and equal as numbers (they
    can differ in the sign of a zero). *)
Definition same_interval (a b : float * float) : Prop :=
  Bin64.finite (fst a) = true /\ Bin64.finite (snd a) = true /\
  (Bin64.B2Q (fst a) == Bin64.B2Q (fst b))%Q /\
  (Bin64.B2Q (snd a) == Bin64.B2Q (snd b))%Q.

(** The column and the row of a geohash in [geohash.neighbors]: its
    longitude bits and its latitude bits, read as binary numbers. *)
Definition legacy_column (g : string) : result Z :=
  geohash.int2 (evens (geohash.get_geobits g)).

Definition legacy_row (g : string) : result Z :=
  geohash.int2 (odds (geohash.get_geobits g)).

(** The number a list of bits spells, most significant bit first. *)
Definition bits_number (l : list Z) : Z := fold_left (fun n b => 2 * n + b) l 0.

(** [grid] with its index: the interval is the cell
    [[45 * a * 2^(c-k), 45 * (a + 2) * 2^(c-k)]]. *)
Definition grid_at (c k a : Z) (itv : float * float) : Prop :=
  Bin64.finite (fst itv) = true /\ Bin64.finite (snd itv) = true /\
  - 2 ^ k <= a /\ a + 2 <= 2 ^ k /\
  (Bin64.B2Q (fst itv) == Bin64.dy (45 * a) (c - k))%Q /\
  (Bin64.B2Q (snd itv) == Bin64.dy (45 * (a + 2)) (c - k))%Q.

(** A character below 128 is one byte of a Rocq [string] and one
    character of a Python [str]; on strings of such characters the two
    agree. *)
Definition one_byte (c : ascii) : bool := (nat_of_ascii c <? 128)%nat.

Definition ascii_string (s : string) : bool :=
  forallb one_byte (list_ascii_of_string s).

(** * Rounding to nearest in binary64 *)

Module Rounding.
Import Bin64.

Lemma pow2_pos e : (0 < pow2 e)%Q.
Proof. apply Qpower_0_lt. reflexivity. Qed.

Lemma pow2_add a b : (pow2 (a + b) == pow2 a * pow2 b)%Q.
Proof. apply Qpower_plus. discriminate. Qed.

Lemma pow2_Z e : 0 <= e -> (pow2 e == inject_Z (2 ^ e))%Q.
Proof. intros H. unfold pow2. now rewrite Zpower_Qpower. Qed.

Lemma dy_shift m e k : 0 <= k -> (dy (m * 2 ^ k) e == dy m (e + k))%Q.
Proof.
  intros H. unfold dy. rewrite pow2_add, (pow2_Z k H), inject_Z_mult. ring.
Qed.

Lemma dy_le a b e : (dy a e <= dy b e)%Q <-> a <= b.
Proof.
  unfold dy. pose proof (pow2_pos e) as Hp. rewrite Zle_Qle. split; intros H.
  - apply Qmult_le_r in H; assumption.
  - apply Qmult_le_r; assumption.
Qed.

Lemma dy_lt a b e : (dy a e < dy b e)%Q <-> a < b.
Proof.
  unfold dy. pose proof (pow2_pos e) as Hp. rewrite Zlt_Qlt. split; intros H.
  - apply Qmult_lt_r in H; assumption.
  - apply Qmult_lt_r; assumption.
Qed.

Lemma dy_eq a b e : (dy a e == dy b e)%Q <-> a = b.
Proof.
  split; intros H.
  - apply Z.le_antisymm; apply (dy_le _ _ e); rewrite H; apply Qle_refl.
  - subst. reflexivity.
Qed.

Lemma dy_0 e : (dy 0 e == 0)%Q.
Proof. unfold dy. ring. Qed.

Lemma dy_add a b e : (dy (a + b) e == dy a e + dy b e)%Q.
Proof. unfold dy. rewrite inject_Z_plus. ring. Qed.

Lemma dy_opp a e : (dy (- a) e == - dy a e)%Q.
Proof. unfold dy. rewrite inject_Z_opp. ring. Qed.

Lemma digits2_pos_spec m :
  2 ^ (Zpos (digits2_pos m) - 1) <= Zpos m < 2 ^ Zpos (digits2_pos m).
Proof.
  induction m as [m IH | m IH | ]; cbn [digits2_pos].
  - rewrite Pos2Z.inj_succ, Z.pow_succ_r by lia.
    replace (Z.succ (Zpos (digits2_pos m)) - 1) with (Z.succ (Zpos (digits2_pos m) - 1)) by lia.
    rewrite Z.pow_succ_r by lia. lia.
  - rewrite Pos2Z.inj_succ, Z.pow_succ_r by lia.
    replace (Z.succ (Zpos (digits2_pos m)) - 1) with (Z.succ (Zpos (digits2_pos m) - 1)) by lia.
    rewrite Z.pow_succ_r by lia. lia.
  - cbn. lia.
Qed.

Lemma dy_rescale m e1 e2 : e2 <= e1 -> (dy m e1 == dy (m * 2 ^ (e1 - e2)) e2)%Q.
Proof.
  intros H. rewrite dy_shift by lia. replace (e2 + (e1 - e2)) with e1 by lia.
  reflexivity.
Qed.

Lemma dy_mono_e m e1 e2 : 0 <= m -> e1 <= e2 -> (dy m e1 <= dy m e2)%Q.
Proof.
  intros Hm He. rewrite (dy_rescale m e2 e1 He). apply dy_le.
  assert (0 < 2 ^ (e2 - e1)) by (apply Z.pow_pos_nonneg; lia). nia.
Qed.

Lemma dy_nonneg m e : 0 <= m -> (0 <= dy m e)%Q.
Proof. intros H. rewrite <- (dy_0 e). now apply dy_le. Qed.

Lemma dy_pos m e : 0 < m -> (0 < dy m e)%Q.
Proof. intros H. rewrite <- (dy_0 e). now apply dy_lt. Qed.

(** ** Shifting right with round and sticky bits *)

Lemma shr_1_repr mrs e v :
  repr (shr_m mrs) (inexact mrs) e v ->
  repr (shr_m (shr_1 mrs)) (inexact (shr_1 mrs)) (e + 1) v /\
  shr_m (shr_1 mrs) = shr_m mrs / 2.
Proof.
  destruct mrs as [m r s]. unfold repr, inexact. cbn [shr_m shr_r shr_s].
  intros [Hm Hv].
  assert (Hd : forall k, (dy k (e + 1) == dy (k * 2) e)%Q).
  { intros k. symmetry. apply (dy_shift k e 1). lia. }
  assert (Hin : forall q, 0 <= q -> q * 2 <= m -> m + 1 <= (q + 1) * 2 ->
            (dy m e < v /\ v < dy (m + 1) e)%Q ->
            (dy q (e + 1) < v /\ v < dy (q + 1) (e + 1))%Q).
  { intros q Hq H1 H2 [H3 H4]. rewrite !Hd. split.
    - eapply Qle_lt_trans; [ | exact H3 ]. now apply dy_le.
    - eapply Qlt_le_trans; [ exact H4 | ]. now apply dy_le. }
  assert (Hodd : forall q, 0 <= q -> m = q * 2 + 1 -> (v == dy m e)%Q ->
            (dy q (e + 1) < v /\ v < dy (q + 1) (e + 1))%Q).
  { intros q Hq H1 H2. rewrite !Hd, H2. split; apply dy_lt; lia. }
  assert (Hev : forall q, m = q * 2 -> (v == dy m e)%Q -> (v == dy q (e + 1))%Q).
  { intros q H1 H2. rewrite Hd, H2, H1. reflexivity. }
  destruct m as [ | [p | p | ] | p ]; try lia; cbn [shr_1 shr_m shr_r shr_s].
  - split; [ | reflexivity ]. split; [ lia | ].
    destruct r, s; cbn [orb] in *;
      first [ apply Hin; [ lia | lia | lia | exact Hv ] | now apply Hev ].
  - split; [ | rewrite Pos2Z.inj_xI; apply Z.div_unique with 1; lia ].
    split; [ lia | ].
    destruct r, s; cbn [orb] in *;
      first [ apply Hin; [ lia | lia | lia | exact Hv ] | apply Hodd; [ lia | lia | exact Hv ] ].
  - split; [ | rewrite Pos2Z.inj_xO; apply Z.div_unique with 0; lia ].
    split; [ lia | ].
    destruct r, s; cbn [orb] in *;
      first [ apply Hin; [ lia | lia | lia | exact Hv ] | apply Hev; [ lia | exact Hv ] ].
  - split; [ | reflexivity ].
    split; [ lia | ].
    destruct r, s; cbn [orb] in *;
      first [ apply Hin; [ lia | lia | lia | exact Hv ] | apply Hodd; [ lia | lia | exact Hv ] ].
Qed.

Lemma pow2_xI n : 2 ^ Z.pos n~1 = 2 * 2 ^ Z.pos n * 2 ^ Z.pos n.
Proof.
  replace (Z.pos n~1) with (1 + Z.pos n + Z.pos n) by lia.
  rewrite 2!Z.pow_add_r by lia. reflexivity.
Qed.

Lemma pow2_xO n : 2 ^ Z.pos n~0 = 2 ^ Z.pos n * 2 ^ Z.pos n.
Proof.
  replace (Z.pos n~0) with (Z.pos n + Z.pos n) by lia.
  rewrite Z.pow_add_r by lia. reflexivity.
Qed.

Lemma shr_iter_repr n : forall mrs e v,
  repr (shr_m mrs) (inexact mrs) e v ->
  repr (shr_m (iter_pos shr_1 n mrs)) (inexact (iter_pos shr_1 n mrs))
       (e + Zpos n) v /\
  shr_m (iter_pos shr_1 n mrs) = shr_m mrs / 2 ^ Zpos n.
Proof.
  induction n as [n IH | n IH | ]; intros mrs e v H; cbn [iter_pos].
  - apply shr_1_repr in H. destruct H as [H E1].
    apply IH in H. destruct H as [H E2].
    apply IH in H. destruct H as [H E3].
    assert (0 < 2 ^ Z.pos n) by (apply Z.pow_pos_nonneg; lia).
    split.
    + replace (e + Z.pos n~1) with (e + 1 + Z.pos n + Z.pos n) by lia. exact H.
    + rewrite E3, E2, E1, pow2_xI.
      rewrite !Z.div_div by lia. f_equal. lia.
  - apply IH in H. destruct H as [H E2].
    apply IH in H. destruct H as [H E3].
    assert (0 < 2 ^ Z.pos n) by (apply Z.pow_pos_nonneg; lia).
    split.
    + replace (e + Z.pos n~0) with (e + Z.pos n + Z.pos n) by lia. exact H.
    + rewrite E3, E2, pow2_xO.
      rewrite !Z.div_div by lia. reflexivity.
  - apply shr_1_repr in H. exact H.
Qed.

(** ** Digits *)

Lemma Zdigits2_spec m : 0 < m -> 2 ^ (Zdigits2 m - 1) <= m < 2 ^ Zdigits2 m.
Proof. destruct m as [ | p | p ]; try lia. intros _. apply digits2_pos_spec. Qed.

Lemma Zdigits2_nonneg m : 0 <= Zdigits2 m.
Proof. destruct m; cbn; lia. Qed.

Lemma Zdigits2_pos m : 0 < m -> 0 < Zdigits2 m.
Proof. destruct m; cbn; lia. Qed.

Lemma Zdigits2_le m k : 0 <= m -> 0 <= k -> m < 2 ^ k -> Zdigits2 m <= k.
Proof.
  intros Hm Hk H. destruct (Z.eq_dec m 0) as [-> | Hn]; [ cbn; lia | ].
  destruct (Zdigits2_spec m ltac:(lia)) as [H1 _].
  destruct (Z_le_gt_dec (Zdigits2 m) k) as [ | Hgt ]; [ assumption | ].
  assert (2 ^ k <= 2 ^ (Zdigits2 m - 1)) by (apply Z.pow_le_mono_r; lia). lia.
Qed.

Lemma Zdigits2_ge m k : 0 <= k -> 2 ^ k <= m -> k + 1 <= Zdigits2 m.
Proof.
  intros Hk H. assert (0 < 2 ^ k) by (apply Z.pow_pos_nonneg; lia).
  destruct (Zdigits2_spec m ltac:(lia)) as [_ H2].
  destruct (Z_le_gt_dec (k + 1) (Zdigits2 m)) as [ | Hgt ]; [ assumption | ].
  pose proof (Zdigits2_nonneg m).
  assert (2 ^ Zdigits2 m <= 2 ^ k) by (apply Z.pow_le_mono_r; lia). lia.
Qed.

(** ** The binary64 format *)

Lemma fexp_eq e : fexp prec emax e = Z.max (e - 53) (-1074).
Proof. reflexivity. Qed.

Lemma format_opp u : format u -> format (- u)%Q.
Proof.
  intros (M & E & H1 & H2 & H3). exists (- M), E.
  rewrite dy_opp, H1. split; [ reflexivity | lia ].
Qed.

Lemma format_dy M E : Z.abs M <= 2 ^ 53 -> -1074 <= E -> format (dy M E).
Proof. intros. exists M, E. split; [ reflexivity | split; assumption ]. Qed.

Lemma format_0 : format 0%Q.
Proof. exists 0, 0. rewrite dy_0. split; [ reflexivity | lia ]. Qed.

Lemma format_proper u u' : (u == u')%Q -> format u -> format u'.
Proof. intros E (M & e & H & H'). exists M, e. rewrite <- E. now split. Qed.

(** ** Rounding to nearest stays between representable bounds *)

Lemma shr_record_of_loc_m m l : shr_m (shr_record_of_loc m l) = m.
Proof. destruct l as [ | [ | | ] ]; reflexivity. Qed.

Lemma first_shift mx ex lx v :
  0 <= mx -> ex <= fexp prec emax (Zdigits2 mx + ex) ->
  repr mx (inexact (shr_record_of_loc mx lx)) ex v ->
  forall mrs' e', shr_fexp prec emax mx ex lx = (mrs', e') ->
  repr (shr_m mrs') (inexact mrs') e' v /\
  -1074 <= e' /\ shr_m mrs' < 2 ^ 53 /\ (e' = -1074 \/ 2 ^ 52 <= shr_m mrs').
Proof.
  intros Hm Hpre Hv mrs' e'. unfold shr_fexp, shr. rewrite fexp_eq in *.
  pose proof (Zdigits2_nonneg mx) as Hd.
  assert (Hlt : mx < 2 ^ Zdigits2 mx).
  { destruct (Z.eq_dec mx 0) as [-> | ]; [ cbn; lia | ].
    apply Zdigits2_spec. lia. }
  destruct (Z.max (Zdigits2 mx + ex - 53) (-1074) - ex) as [ | p | p ] eqn:En;
    try lia; intros [= <- <-].
  - rewrite shr_record_of_loc_m. split; [ exact Hv | ].
    split; [ lia | ]. split.
    + assert (2 ^ Zdigits2 mx <= 2 ^ 53) by (apply Z.pow_le_mono_r; lia). lia.
    + destruct (Z.eq_dec ex (-1074)); [ now left | right ].
      assert (Zdigits2 mx = 53) by lia.
      destruct (Z.eq_dec mx 0) as [-> | ]; [ cbn in *; lia | ].
      destruct (Zdigits2_spec mx ltac:(lia)) as [H1 _].
      replace (Zdigits2 mx - 1) with 52 in H1 by lia. exact H1.
  - assert (Hv' : repr (shr_m (shr_record_of_loc mx lx))
                      (inexact (shr_record_of_loc mx lx)) ex v)
      by (rewrite shr_record_of_loc_m; exact Hv).
    destruct (shr_iter_repr p _ _ _ Hv') as [Hr Hq].
    rewrite shr_record_of_loc_m in Hq.
    assert (0 < 2 ^ Z.pos p) by (apply Z.pow_pos_nonneg; lia).
    split; [ exact Hr | ]. split; [ lia | ]. split.
    + rewrite Hq. apply Z.div_lt_upper_bound; [ lia | ].
      rewrite <- Z.pow_add_r by lia.
      assert (2 ^ Zdigits2 mx <= 2 ^ (Z.pos p + 53)) by (apply Z.pow_le_mono_r; lia).
      lia.
    + destruct (Z.eq_dec (ex + Z.pos p) (-1074)); [ now left | right ].
      assert (Ep : Zdigits2 mx = Z.pos p + 53) by lia.
      destruct (Z.eq_dec mx 0) as [-> | ]; [ cbn in *; lia | ].
      destruct (Zdigits2_spec mx ltac:(lia)) as [H1 _].
      rewrite Hq. apply Z.div_le_lower_bound; [ lia | ].
      rewrite <- Z.pow_add_r by lia.
      replace (Z.pos p + 52) with (Zdigits2 mx - 1) by lia. exact H1.
Qed.

Lemma round_nearest_even_spec mrs :
  shr_m mrs <= round_nearest_even (shr_m mrs) (loc_of_shr_record mrs) <= shr_m mrs + 1 /\
  (inexact mrs = false ->
   round_nearest_even (shr_m mrs) (loc_of_shr_record mrs) = shr_m mrs).
Proof.
  destruct mrs as [m [ | ] [ | ]]; unfold inexact; cbn; try destruct (Z.even m);
    split; try lia; try discriminate; reflexivity.
Qed.

Lemma second_shift m2 e' :
  0 <= m2 <= 2 ^ 53 -> -1074 <= e' ->
  forall mrs'' e'', shr_fexp prec emax m2 e' loc_Exact = (mrs'', e'') ->
  (shr_m mrs'' = m2 /\ e'' = e') \/
  (m2 = 2 ^ 53 /\ shr_m mrs'' = 2 ^ 52 /\ e'' = e' + 1).
Proof.
  intros Hm He mrs'' e''. unfold shr_fexp, shr. rewrite fexp_eq.
  destruct (Z.eq_dec m2 (2 ^ 53)) as [-> | Hne].
  - change (Zdigits2 (2 ^ 53)) with 54.
    replace (Z.max (54 + e' - 53) (-1074) - e') with 1 by lia.
    intros [= <- <-]. right. repeat split.
  - assert (Zdigits2 m2 <= 53) by (apply Zdigits2_le; lia).
    destruct (Z.max (Zdigits2 m2 + e' - 53) (-1074) - e') as [ | p | p ] eqn:En;
      try lia; intros [= <- <-]; left; split; reflexivity.
Qed.

Lemma between_formats q e' u :
  0 <= q -> -1074 <= e' -> (e' = -1074 \/ 2 ^ 52 <= q) -> format u ->
  ((dy q e' < u)%Q -> (dy (q + 1) e' <= u)%Q) /\
  ((u < dy (q + 1) e')%Q -> (u <= dy q e')%Q).
Proof.
  intros Hq He Hc (M & E & Hu & HM & HE).
  destruct (Z_le_gt_dec e' E) as [Hle | Hgt].
  - rewrite (dy_rescale M E e' Hle) in Hu. rewrite Hu. split; intros H.
    + apply dy_lt in H. apply dy_le. lia.
    + apply dy_lt in H. apply dy_le. lia.
  - destruct Hc as [-> | Hc]; [ lia | ].
    assert (Hub : (u <= dy q e')%Q).
    { rewrite Hu. apply Qle_trans with (dy (2 ^ 53) E); [ apply dy_le; lia | ].
      change (2 ^ 53) with (2 ^ 52 * 2 ^ 1). rewrite dy_shift by lia.
      apply Qle_trans with (dy (2 ^ 52) e'); [ apply dy_mono_e; lia | ].
      now apply dy_le. }
    split; intros H; [ | exact Hub ].
    exfalso. apply (Qlt_irrefl u). eapply Qle_lt_trans; eassumption.
Qed.

Theorem round_aux_bounds mx ex lx v a b :
  0 <= mx -> ex <= fexp prec emax (Zdigits2 mx + ex) ->
  repr mx (inexact (shr_record_of_loc mx lx)) ex v ->
  format a -> format b -> (a <= v)%Q -> (v <= b)%Q -> (b < dy 1 1024)%Q ->
  SFfinite (binary_round_aux prec emax false mx ex lx) = true /\
  (a <= SF2Q (binary_round_aux prec emax false mx ex lx))%Q /\
  (SF2Q (binary_round_aux prec emax false mx ex lx) <= b)%Q.
Proof.
  intros Hm Hpre Hv Fa Fb Hav Hvb Hb. unfold binary_round_aux.
  destruct (shr_fexp prec emax mx ex lx) as [mrs' e'] eqn:E1.
  destruct (first_shift mx ex lx v Hm Hpre Hv _ _ E1) as (Hr & He' & Hq53 & Hcan).
  destruct (round_nearest_even_spec mrs') as [Hm2 Hex].
  set (m2 := round_nearest_even (shr_m mrs') (loc_of_shr_record mrs')) in *.
  destruct Hr as [Hq0 Hr].
  assert (Hw : (a <= dy m2 e')%Q /\ (dy m2 e' <= b)%Q).
  { destruct (inexact mrs') eqn:Ei.
    - destruct Hr as [Hr1 Hr2].
      destruct (between_formats _ _ a Hq0 He' Hcan Fa) as [_ Ha].
      destruct (between_formats _ _ b Hq0 He' Hcan Fb) as [Hb' _].
      split.
      + apply Qle_trans with (dy (shr_m mrs') e').
        * apply Ha. eapply Qle_lt_trans; eassumption.
        * apply dy_le. lia.
      + apply Qle_trans with (dy (shr_m mrs' + 1) e').
        * apply dy_le. lia.
        * apply Hb'. eapply Qlt_le_trans; eassumption.
    - rewrite (Hex eq_refl), <- Hr. now split. }
  destruct (shr_fexp prec emax m2 e' loc_Exact) as [mrs'' e''] eqn:E2.
  assert (Hfin : dy (shr_m mrs'') e'' == dy m2 e' /\ 0 <= shr_m mrs'' /\
                 (e'' = -1074 \/ 2 ^ 52 <= shr_m mrs'')).
  { destruct (second_shift m2 e' ltac:(lia) He' _ _ E2) as [[-> ->] | (-> & -> & ->)].
    - split; [ reflexivity | ]. split; [ lia | ]. destruct Hcan; [ now left | right; lia ].
    - split; [ | split; [ lia | right; lia ] ].
      change (2 ^ 53) with (2 ^ 52 * 2 ^ 1). rewrite dy_shift by lia. reflexivity. }
  destruct Hfin as (Hval & Hpos & Hcan'').
  destruct (shr_m mrs'') as [ | p | p ] eqn:Em; try lia.
  - cbn [SFfinite SF2Q]. rewrite dy_0 in Hval. rewrite <- Hval in Hw.
    split; [ reflexivity | exact Hw ].
  - destruct (Z.leb_spec e'' (emax - prec)) as [Hle | Hgt].
    + cbn [SFfinite SF2Q cond_Zopp]. rewrite Hval. split; [ reflexivity | exact Hw ].
    + exfalso. change (emax - prec) with 971 in Hgt.
      destruct Hcan'' as [-> | Hc]; [ lia | ].
      apply (Qlt_irrefl b). eapply Qlt_le_trans; [ exact Hb | ].
      apply Qle_trans with (dy m2 e'); [ | apply Hw ].
      rewrite <- Hval.
      apply Qle_trans with (dy (2 ^ 52) 972).
      * rewrite (dy_rescale 1 1024 972) by lia. apply dy_le. reflexivity.
      * apply Qle_trans with (dy (2 ^ 52) e''); [ apply dy_mono_e; lia | ].
        now apply dy_le.
Qed.

(** ** Normalisation of an exact dyadic *)

Lemma Zdigits2_shift m k : 0 < m -> 0 <= k -> Zdigits2 (m * 2 ^ k) = Zdigits2 m + k.
Proof.
  intros Hm Hk. destruct (Zdigits2_spec m Hm) as [H1 H2].
  pose proof (Zdigits2_pos m Hm) as Hd.
  assert (0 < 2 ^ k) by (apply Z.pow_pos_nonneg; lia).
  apply Z.le_antisymm.
  - apply Zdigits2_le; [ nia | lia | ]. rewrite Z.pow_add_r by lia. nia.
  - replace (Zdigits2 m + k) with (Zdigits2 m - 1 + k + 1) by lia.
    apply Zdigits2_ge; [ lia | ]. rewrite Z.pow_add_r by lia. nia.
Qed.

Lemma shl_align_spec mx ex ex' :
  snd (shl_align mx ex ex') = Z.min ex ex' /\
  Zpos (fst (shl_align mx ex ex')) = Zpos mx * 2 ^ (ex - Z.min ex ex').
Proof.
  unfold shl_align. destruct (ex' - ex) as [ | d | d ] eqn:E; cbn [fst snd].
  - replace (Z.min ex ex') with ex by lia. rewrite Z.sub_diag. lia.
  - replace (Z.min ex ex') with ex by lia. rewrite Z.sub_diag. lia.
  - replace (Z.min ex ex') with ex' by lia.
    replace (ex - ex') with (Z.pos d) by lia.
    change (Pos.iter xO mx d) with (shift_pos d mx).
    rewrite shift_pos_correct. change (Z.pow_pos 2 d) with (2 ^ Z.pos d). lia.
Qed.

Lemma SFopp_finite x : SFfinite (SFopp x) = SFfinite x.
Proof. destruct x; reflexivity. Qed.

Lemma SF2Q_opp x : (SF2Q (SFopp x) == - SF2Q x)%Q.
Proof.
  destruct x as [ | | | s m e ]; cbn [SFopp SF2Q]; try reflexivity.
  rewrite <- dy_opp. destruct s; reflexivity.
Qed.

Lemma round_aux_sign s m e l :
  binary_round_aux prec emax s m e l =
  if s then SFopp (binary_round_aux prec emax false m e l)
  else binary_round_aux prec emax false m e l.
Proof.
  destruct s; [ | reflexivity ]. unfold binary_round_aux.
  destruct (shr_fexp prec emax m e l) as [mrs' e'].
  destruct (shr_fexp prec emax _ e' loc_Exact) as [mrs'' e''].
  destruct (shr_m mrs''); try reflexivity.
  destruct (e'' <=? emax - prec); reflexivity.
Qed.

Lemma round_bounds s m e a b :
  format a -> format b -> in_range a b ->
  (a <= dy (cond_Zopp s (Zpos m)) e)%Q -> (dy (cond_Zopp s (Zpos m)) e <= b)%Q ->
  SFfinite (binary_round prec emax s m e) = true /\
  (a <= SF2Q (binary_round prec emax s m e))%Q /\
  (SF2Q (binary_round prec emax s m e) <= b)%Q.
Proof.
  intros Fa Fb [Ra Rb] Ha Hb. unfold binary_round.
  destruct (shl_align_spec m e (fexp prec emax (Z.pos (digits2_pos m) + e))) as [E1 E2].
  destruct (shl_align m e (fexp prec emax (Z.pos (digits2_pos m) + e))) as [mz ez].
  cbn [fst snd] in E1, E2.
  assert (Hval : (dy (Z.pos mz) ez == dy (Z.pos m) e)%Q).
  { rewrite E2, E1. symmetry. apply dy_rescale. lia. }
  assert (Hpre : ez <= fexp prec emax (Zdigits2 (Z.pos mz) + ez)).
  { rewrite E2, Zdigits2_shift by lia. rewrite ?fexp_eq in *.
    change (Zdigits2 (Z.pos m)) with (Z.pos (digits2_pos m)). lia. }
  assert (Hrep : repr (Z.pos mz) (inexact (shr_record_of_loc (Z.pos mz) loc_Exact)) ez
                   (dy (Z.pos m) e)).
  { split; [ lia | ]. cbn. symmetry. exact Hval. }
  rewrite round_aux_sign. destruct s; cbn [cond_Zopp] in Ha, Hb.
  - rewrite dy_opp in Ha, Hb.
    destruct (round_aux_bounds _ _ _ _ (- b)%Q (- a)%Q (Pos2Z.is_nonneg mz) Hpre Hrep)
      as (H1 & H2 & H3);
      try (apply format_opp; assumption); try lra.
    rewrite SFopp_finite, SF2Q_opp. split; [ exact H1 | split; lra ].
  - apply (round_aux_bounds _ _ _ _ a b (Pos2Z.is_nonneg mz) Hpre Hrep); assumption.
Qed.

Lemma normalize_bounds M e sz a b :
  format a -> format b -> in_range a b ->
  (a <= dy M e)%Q -> (dy M e <= b)%Q ->
  SFfinite (binary_normalize prec emax M e sz) = true /\
  (a <= SF2Q (binary_normalize prec emax M e sz))%Q /\
  (SF2Q (binary_normalize prec emax M e sz) <= b)%Q.
Proof.
  intros Fa Fb R Ha Hb. destruct M as [ | p | p ]; cbn [binary_normalize].
  - rewrite dy_0 in Ha, Hb. cbn. now split.
  - now apply round_bounds.
  - now apply round_bounds.
Qed.

(** ** Valid numbers *)

Lemma valid_finite s m e :
  valid_binary (S754_finite s m e) = true ->
  Z.pos m < 2 ^ 53 /\ -1074 <= e <= 971 /\ (e = -1074 \/ 2 ^ 52 <= Z.pos m).
Proof.
  cbn [SpecFloat.valid_binary]. unfold bounded, canonical_mantissa.
  rewrite andb_true_iff, Z.eqb_eq, Z.leb_le, fexp_eq.
  change (emax - prec) with 971. intros [Hc He].
  destruct (digits2_pos_spec m) as [H1 H2].
  assert (Z.pos (digits2_pos m) <= 53) by lia.
  assert (2 ^ Z.pos (digits2_pos m) <= 2 ^ 53) by (apply Z.pow_le_mono_r; lia).
  repeat split; try lia.
  destruct (Z.eq_dec e (-1074)); [ now left | right ].
  replace 52 with (Z.pos (digits2_pos m) - 1) by lia. exact H1.
Qed.

Lemma valid_format x : valid_binary x = true -> format (SF2Q x).
Proof.
  destruct x as [ | | | s m e ]; try (intros _; apply format_0).
  intros H. apply valid_finite in H. apply format_dy; destruct s; cbn; lia.
Qed.

Lemma valid_in_range x :
  valid_binary x = true -> (- dy 1 1024 < SF2Q x)%Q /\ (SF2Q x < dy 1 1024)%Q.
Proof.
  assert (H0 : (0 < dy 1 1024)%Q) by (apply dy_pos; lia).
  destruct x as [ | | | s m e ]; cbn [SF2Q]; try (intros _; split; lra).
  intros H. apply valid_finite in H. destruct H as (Hm & He & _).
  assert (Hlt : (dy (Z.pos m) e < dy 1 1024)%Q).
  { apply Qlt_le_trans with (dy (2 ^ 53) e); [ apply dy_lt; lia | ].
    apply Qle_trans with (dy (2 ^ 53) 971); [ apply dy_mono_e; lia | ].
    rewrite (dy_rescale 1 1024 971) by lia. apply dy_le. reflexivity. }
  assert (Hp : (0 < dy (Z.pos m) e)%Q) by (apply dy_pos; lia).
  destruct s; cbn [cond_Zopp].
  - change (Z.neg m) with (- Z.pos m). rewrite dy_opp. split; lra.
  - split; lra.
Qed.

(** ** Addition, subtraction *)

Lemma shl_align_val s m e ez :
  ez <= e ->
  (dy (cond_Zopp s (Z.pos (fst (shl_align m e ez)))) ez == dy (cond_Zopp s (Z.pos m)) e)%Q.
Proof.
  intros H. destruct (shl_align_spec m e ez) as [_ E]. rewrite E.
  replace (Z.min e ez) with ez by lia.
  rewrite (dy_rescale (cond_Zopp s (Z.pos m)) e ez H).
  apply dy_eq. destruct s; cbn [cond_Zopp]; lia.
Qed.

Theorem SFadd_bounds x y a b :
  SFfinite x = true -> SFfinite y = true ->
  format a -> format b -> in_range a b ->
  (a <= SF2Q x + SF2Q y)%Q -> (SF2Q x + SF2Q y <= b)%Q ->
  SFfinite (SFadd prec emax x y) = true /\
  (a <= SF2Q (SFadd prec emax x y))%Q /\ (SF2Q (SFadd prec emax x y) <= b)%Q.
Proof.
  intros Fx Fy Fa Fb R.
  destruct x as [ sx | | | sx mx ex ]; try discriminate;
    destruct y as [ sy | | | sy my ey ]; try discriminate;
    cbn [SFadd]; intros Ha Hb.
  - destruct sx, sy; cbn [SF2Q SFfinite] in *; (split; [ reflexivity | split; lra ]).
  - cbn [SF2Q SFfinite] in *. split; [ reflexivity | split; lra ].
  - cbn [SF2Q SFfinite] in *. split; [ reflexivity | split; lra ].
  - cbn [SF2Q] in Ha, Hb.
    rewrite <- (shl_align_val sx mx ex (Z.min ex ey)) in Ha, Hb by lia.
    rewrite <- (shl_align_val sy my ey (Z.min ex ey)) in Ha, Hb by lia.
    rewrite <- dy_add in Ha, Hb.
    now apply normalize_bounds.
Qed.

Theorem SFsub_bounds x y a b :
  SFfinite x = true -> SFfinite y = true ->
  format a -> format b -> in_range a b ->
  (a <= SF2Q x - SF2Q y)%Q -> (SF2Q x - SF2Q y <= b)%Q ->
  SFfinite (SFsub prec emax x y) = true /\
  (a <= SF2Q (SFsub prec emax x y))%Q /\ (SF2Q (SFsub prec emax x y) <= b)%Q.
Proof.
  intros Fx Fy Fa Fb R.
  destruct x as [ sx | | | sx mx ex ]; try discriminate;
    destruct y as [ sy | | | sy my ey ]; try discriminate;
    cbn [SFsub]; intros Ha Hb.
  - destruct sx, sy; cbn [SF2Q SFfinite] in *; (split; [ reflexivity | split; lra ]).
  - assert (E : (SF2Q (S754_finite (negb sy) my ey) == - SF2Q (S754_finite sy my ey))%Q)
      by (apply (SF2Q_opp (S754_finite sy my ey))).
    rewrite E. cbn [SF2Q SFfinite] in *. split; [ reflexivity | split; lra ].
  - cbn [SF2Q SFfinite] in *. split; [ reflexivity | split; lra ].
  - cbn [SF2Q] in Ha, Hb.
    rewrite <- (shl_align_val sx mx ex (Z.min ex ey)) in Ha, Hb by lia.
    rewrite <- (shl_align_val sy my ey (Z.min ex ey)) in Ha, Hb by lia.
    unfold Qminus in Ha, Hb. rewrite <- dy_opp, <- dy_add in Ha, Hb.
    now apply normalize_bounds.
Qed.

(** ** Multiplication, halving *)

Lemma dy_mul a b e1 e2 : (dy (a * b) (e1 + e2) == dy a e1 * dy b e2)%Q.
Proof. unfold dy. rewrite pow2_add, inject_Z_mult. ring. Qed.

Lemma dy_half m e : (dy m (e - 1) == dy m e * (1 # 2))%Q.
Proof.
  unfold dy. replace (e - 1) with (e + -1) by lia. rewrite pow2_add.
  change (pow2 (-1)) with (1 # 2)%Q. ring.
Qed.

Lemma round_aux_signed (s : bool) mx ex lx (v a b : Q) :
  0 <= mx -> ex <= fexp prec emax (Zdigits2 mx + ex) ->
  repr mx (inexact (shr_record_of_loc mx lx)) ex v ->
  format a -> format b -> in_range a b ->
  (a <= (if s then - v else v))%Q -> ((if s then - v else v) <= b)%Q ->
  SFfinite (binary_round_aux prec emax s mx ex lx) = true /\
  (a <= SF2Q (binary_round_aux prec emax s mx ex lx))%Q /\
  (SF2Q (binary_round_aux prec emax s mx ex lx) <= b)%Q.
Proof.
  intros Hm Hpre Hrep Fa Fb [Ra Rb] Ha Hb.
  rewrite round_aux_sign. destruct s.
  - destruct (round_aux_bounds _ _ _ _ (- b)%Q (- a)%Q Hm Hpre Hrep) as (H1 & H2 & H3);
      try (apply format_opp; assumption); try lra.
    rewrite SFopp_finite, SF2Q_opp. split; [ exact H1 | split; lra ].
  - apply (round_aux_bounds _ _ _ _ a b Hm Hpre Hrep); assumption.
Qed.

Lemma Qmult_cond_Zopp sx sy mx my ex ey :
  (dy (cond_Zopp sx (Z.pos mx)) ex * dy (cond_Zopp sy (Z.pos my)) ey ==
   if xorb sx sy then - dy (Z.pos (mx * my)) (ex + ey)
   else dy (Z.pos (mx * my)) (ex + ey))%Q.
Proof.
  destruct sx, sy; cbn [cond_Zopp xorb];
    change (Z.neg mx) with (- Z.pos mx); change (Z.neg my) with (- Z.pos my);
    rewrite Pos2Z.inj_mul, dy_mul, ?dy_opp; ring.
Qed.

Theorem SFmul_bounds x y a b :
  valid_binary x = true -> valid_binary y = true ->
  SFfinite x = true -> SFfinite y = true ->
  format a -> format b -> in_range a b ->
  (a <= SF2Q x * SF2Q y)%Q -> (SF2Q x * SF2Q y <= b)%Q ->
  SFfinite (SFmul prec emax x y) = true /\
  (a <= SF2Q (SFmul prec emax x y))%Q /\ (SF2Q (SFmul prec emax x y) <= b)%Q.
Proof.
  intros Vx Vy Fx Fy Fa Fb R.
  destruct x as [ sx | | | sx mx ex ]; try discriminate;
    destruct y as [ sy | | | sy my ey ]; try discriminate;
    cbn [SFmul]; intros Ha Hb;
    try (cbn [SF2Q SFfinite] in *; split; [ reflexivity | split; lra ]).
  cbn [SF2Q] in Ha, Hb. rewrite Qmult_cond_Zopp in Ha, Hb.
  apply valid_finite in Vx, Vy.
  destruct Vx as (Hmx & Hex & Hcx). destruct Vy as (Hmy & Hey & Hcy).
  apply (round_aux_signed _ _ _ _ (dy (Z.pos (mx * my)) (ex + ey))); try assumption.
  - lia.
  - rewrite fexp_eq.
    destruct (Z_le_gt_dec (ex + ey) (-1074)); [ lia | ].
    assert (Hge : 2 ^ 52 <= Z.pos (mx * my)) by (rewrite Pos2Z.inj_mul; nia).
    apply Zdigits2_ge in Hge; lia.
  - split; [ lia | ]. cbn. reflexivity.
Qed.

Lemma new_location_two r :
  inexact (shr_record_of_loc 0 (new_location (2 ^ 52) r)) = negb (r =? 0).
Proof.
  unfold new_location. change (Z.even (2 ^ 52)) with true. cbv iota.
  unfold new_location_even. destruct (r =? 0); [ reflexivity | ].
  destruct (2 * r ?= 2 ^ 52); reflexivity.
Qed.

Lemma inexact_loc m m' l :
  inexact (shr_record_of_loc m l) = inexact (shr_record_of_loc m' l).
Proof. destruct l as [ | [ | | ] ]; reflexivity. Qed.

Theorem SFhalf_bounds x a b :
  valid_binary x = true -> SFfinite x = true ->
  format a -> format b -> in_range a b ->
  (a <= SF2Q x * (1 # 2))%Q -> (SF2Q x * (1 # 2) <= b)%Q ->
  SFfinite (SFdiv prec emax x SFtwo) = true /\
  (a <= SF2Q (SFdiv prec emax x SFtwo))%Q /\ (SF2Q (SFdiv prec emax x SFtwo) <= b)%Q.
Proof.
  intros Vx Fx Fa Fb R.
  destruct x as [ sx | | | sx mx ex ]; try discriminate; unfold SFtwo; cbn [SFdiv];
    intros Ha Hb.
  { cbn [SF2Q SFfinite] in *. split; [ reflexivity | split; lra ]. }
  apply valid_finite in Vx. destruct Vx as (Hmx & Hex & Hcx).
  unfold SFdiv_core_binary.
  change (Zdigits2 (Z.pos 4503599627370496)) with 53. rewrite fexp_eq.
  pose proof (Zdigits2_le (Z.pos mx) 53 ltac:(lia) ltac:(lia) Hmx) as Hd.
  pose proof (Zdigits2_pos (Z.pos mx) ltac:(lia)) as Hd0.
  set (d1 := Zdigits2 (Z.pos mx)) in *.
  replace (ex - -51) with (ex + 51) by lia.
  replace (Z.min (Z.max (d1 + ex - (53 + -51) - 53) (-1074)) (ex + 51))
    with (Z.max (d1 + ex - 55) (-1074)) by lia.
  set (e' := Z.max (d1 + ex - 55) (-1074)).
  destruct (ex + 51 - e') as [ | p | p ] eqn:Es; try lia.
  rewrite Z.shiftl_mul_pow2 by lia.
  pose proof (Z_div_mod (Z.pos mx * 2 ^ Z.pos p) (Z.pos 4503599627370496) eq_refl) as Hdm.
  destruct (Z.div_eucl (Z.pos mx * 2 ^ Z.pos p) (Z.pos 4503599627370496)) as [q r].
  change (Z.pos 4503599627370496) with (2 ^ 52) in *.
  destruct Hdm as [Hdm Hr].
  assert (Hp : 0 < 2 ^ Z.pos p) by (apply Z.pow_pos_nonneg; lia).
  assert (Hq : 0 <= q) by nia.
  assert (Hv : (dy (Z.pos mx) ex * (1 # 2) == dy (2 ^ 52 * q + r) (e' - 52))%Q).
  { rewrite <- dy_half, <- Hdm, dy_shift by lia.
    replace (e' - 52 + Z.pos p) with (ex - 1) by lia. reflexivity. }
  assert (Hq' : forall k, (dy k e' == dy (2 ^ 52 * k) (e' - 52))%Q).
  { intros k. rewrite (dy_rescale k e' (e' - 52)) by lia.
    apply dy_eq. replace (e' - (e' - 52)) with 52 by lia. lia. }
  apply (round_aux_signed _ _ _ _ (dy (Z.pos mx) ex * (1 # 2))); try assumption.
  - rewrite fexp_eq. destruct (Z.eq_dec e' (-1074)); [ lia | ].
    assert (Ep : Z.pos p = 106 - d1) by lia.
    assert (Hge : 2 ^ 53 <= q).
    { destruct (Zdigits2_spec (Z.pos mx) ltac:(lia)) as [H1 _]. fold d1 in H1.
      assert (Hm' : 2 ^ (d1 - 1) * 2 ^ Z.pos p <= Z.pos mx * 2 ^ Z.pos p) by nia.
      rewrite <- Z.pow_add_r in Hm' by lia.
      replace (d1 - 1 + Z.pos p) with (53 + 52) in Hm' by lia.
      rewrite Z.pow_add_r in Hm' by lia. nia. }
    apply Zdigits2_ge in Hge; lia.
  - split; [ exact Hq | ].
    rewrite (inexact_loc q 0), new_location_two.
    destruct (Z.eqb_spec r 0) as [-> | Hr0]; cbn [negb].
    + rewrite Hv, Hq'. apply dy_eq. lia.
    + rewrite Hv, !Hq'. split; apply dy_lt; lia.
  - destruct sx; cbn [xorb cond_Zopp SF2Q] in *.
    + change (Z.neg mx) with (- Z.pos mx) in Ha. rewrite dy_opp in Ha. lra.
    + exact Ha.
  - destruct sx; cbn [xorb cond_Zopp SF2Q] in *.
    + change (Z.neg mx) with (- Z.pos mx) in Hb. rewrite dy_opp in Hb. lra.
    + exact Hb.
Qed.

(** ** Comparison *)

Lemma cmp_rel_opp p q c : cmp_rel p q c -> cmp_rel (- q) (- p) c.
Proof. destruct c; cbn; intros H; lra. Qed.

Lemma cmp_rel_CompOpp p q c : cmp_rel p q c -> cmp_rel q p (CompOpp c).
Proof. destruct c; cbn; intros H; lra. Qed.

Lemma canonical_lt m1 e1 m2 e2 :
  Z.pos m1 < 2 ^ 53 -> (e2 = -1074 \/ 2 ^ 52 <= Z.pos m2) -> -1074 <= e1 -> e1 < e2 ->
  (dy (Z.pos m1) e1 < dy (Z.pos m2) e2)%Q.
Proof.
  intros H1 [-> | H2] He Hlt; [ lia | ].
  apply Qlt_le_trans with (dy (2 ^ 53) e1); [ apply dy_lt; lia | ].
  change (2 ^ 53) with (2 ^ 52 * 2 ^ 1). rewrite dy_shift by lia.
  apply Qle_trans with (dy (2 ^ 52) e2); [ apply dy_mono_e; lia | ].
  now apply dy_le.
Qed.

Lemma compare_pos m1 e1 m2 e2 :
  valid_binary (S754_finite false m1 e1) = true ->
  valid_binary (S754_finite false m2 e2) = true ->
  cmp_rel (dy (Z.pos m1) e1) (dy (Z.pos m2) e2)
          match e1 ?= e2 with
          | Lt => Lt
          | Gt => Gt
          | Eq => Pos.compare_cont Eq m1 m2
          end.
Proof.
  intros V1 V2. apply valid_finite in V1, V2.
  destruct V1 as (Hm1 & He1 & Hc1). destruct V2 as (Hm2 & He2 & Hc2).
  destruct (Z.compare_spec e1 e2) as [-> | Hlt | Hgt].
  - change (Pos.compare_cont Eq m1 m2) with (Z.pos m1 ?= Z.pos m2).
    destruct (Z.compare_spec (Z.pos m1) (Z.pos m2)) as [E | E | E]; cbn.
    + rewrite E. reflexivity.
    + now apply dy_lt.
    + now apply dy_lt.
  - cbn. apply canonical_lt; lia.
  - cbn. apply canonical_lt; lia.
Qed.

Theorem SFcompare_rel x y :
  valid_binary x = true -> valid_binary y = true ->
  SFfinite x = true -> SFfinite y = true ->
  exists c, SFcompare x y = Some c /\ cmp_rel (SF2Q x) (SF2Q y) c.
Proof.
  intros Vx Vy Fx Fy.
  destruct x as [ sx | | | sx mx ex ]; try discriminate;
    destruct y as [ sy | | | sy my ey ]; try discriminate; cbn [SFcompare SF2Q].
  - exists Eq. split; reflexivity.
  - pose proof (dy_pos (Z.pos my) ey ltac:(lia)) as Hp.
    eexists. split; [ reflexivity | ].
    destruct sy; cbn [cond_Zopp cmp_rel]; [ | lra ].
    change (Z.neg my) with (- Z.pos my). rewrite dy_opp. lra.
  - pose proof (dy_pos (Z.pos mx) ex ltac:(lia)) as Hp.
    eexists. split; [ reflexivity | ].
    destruct sx; cbn [cond_Zopp cmp_rel]; [ | lra ].
    change (Z.neg mx) with (- Z.pos mx). rewrite dy_opp. lra.
  - pose proof (dy_pos (Z.pos mx) ex ltac:(lia)) as Hpx.
    pose proof (dy_pos (Z.pos my) ey ltac:(lia)) as Hpy.
    eexists. split; [ reflexivity | ].
    destruct sx, sy; cbn [cond_Zopp];
      change (Z.neg mx) with (- Z.pos mx); change (Z.neg my) with (- Z.pos my);
      rewrite ?dy_opp.
    + pose proof (compare_pos my ey mx ex Vy Vx) as H.
      apply cmp_rel_opp in H.
      rewrite (Z.compare_antisym ey ex), Pos.compare_cont_antisym.
      destruct (ey ?= ex); cbn [CompOpp] in *;
        [ destruct (Pos.compare_cont Eq my mx) | | ];
        cbn [cmp_rel] in *; rewrite !dy_opp; exact H.
    + cbn [cmp_rel]. rewrite dy_opp. lra.
    + cbn [cmp_rel]. rewrite dy_opp. lra.
    + apply (compare_pos mx ex my ey Vx Vy).
Qed.

Theorem SFleb_iff x y :
  valid_binary x = true -> valid_binary y = true ->
  SFfinite x = true -> SFfinite y = true ->
  SFleb x y = true <-> (SF2Q x <= SF2Q y)%Q.
Proof.
  intros Vx Vy Fx Fy.
  destruct (SFcompare_rel x y Vx Vy Fx Fy) as (c & E & H).
  unfold SFleb. rewrite E. destruct c; cbn in H; split; intros G;
    try reflexivity; try discriminate; lra.
Qed.

Theorem SFltb_iff x y :
  valid_binary x = true -> valid_binary y = true ->
  SFfinite x = true -> SFfinite y = true ->
  SFltb x y = true <-> (SF2Q x < SF2Q y)%Q.
Proof.
  intros Vx Vy Fx Fy.
  destruct (SFcompare_rel x y Vx Vy Fx Fy) as (c & E & H).
  unfold SFltb. rewrite E. destruct c; cbn in H; split; intros G;
    try reflexivity; try discriminate; lra.
Qed.

Theorem SFeqb_iff x y :
  valid_binary x = true -> valid_binary y = true ->
  SFfinite x = true -> SFfinite y = true ->
  SFeqb x y = true <-> (SF2Q x == SF2Q y)%Q.
Proof.
  intros Vx Vy Fx Fy.
  destruct (SFcompare_rel x y Vx Vy Fx Fy) as (c & E & H).
  unfold SFeqb. rewrite E. destruct c; cbn in H; split; intros G;
    try reflexivity; try discriminate; lra.
Qed.

(** ** Primitive floats *)

Lemma B2Q_format x : format (B2Q x).
Proof. apply valid_format, Prim2SF_valid. Qed.

Lemma B2Q_in_range x : (- dy 1 1024 < B2Q x)%Q /\ (B2Q x < dy 1 1024)%Q.
Proof. apply valid_in_range, Prim2SF_valid. Qed.

Theorem add_bounds x y a b :
  finite x = true -> finite y = true ->
  format a -> format b -> in_range a b ->
  (a <= B2Q x + B2Q y)%Q -> (B2Q x + B2Q y <= b)%Q ->
  finite (x + y) = true /\ (a <= B2Q (x + y))%Q /\ (B2Q (x + y) <= b)%Q.
Proof. unfold finite, B2Q. rewrite add_spec. apply SFadd_bounds. Qed.

Theorem sub_bounds x y a b :
  finite x = true -> finite y = true ->
  format a -> format b -> in_range a b ->
  (a <= B2Q x - B2Q y)%Q -> (B2Q x - B2Q y <= b)%Q ->
  finite (x - y) = true /\ (a <= B2Q (x - y))%Q /\ (B2Q (x - y) <= b)%Q.
Proof. unfold finite, B2Q. rewrite sub_spec. apply SFsub_bounds. Qed.

Theorem mul_bounds x y a b :
  finite x = true -> finite y = true ->
  format a -> format b -> in_range a b ->
  (a <= B2Q x * B2Q y)%Q -> (B2Q x * B2Q y <= b)%Q ->
  finite (x * y) = true /\ (a <= B2Q (x * y))%Q /\ (B2Q (x * y) <= b)%Q.
Proof.
  unfold finite, B2Q. rewrite mul_spec. apply SFmul_bounds; apply Prim2SF_valid.
Qed.

Theorem half_bounds x a b :
  finite x = true ->
  format a -> format b -> in_range a b ->
  (a <= B2Q x * (1 # 2))%Q -> (B2Q x * (1 # 2) <= b)%Q ->
  finite (x / 2) = true /\ (a <= B2Q (x / 2))%Q /\ (B2Q (x / 2) <= b)%Q.
Proof.
  unfold finite, B2Q. rewrite div_spec. change (Prim2SF 2) with SFtwo.
  apply SFhalf_bounds. apply Prim2SF_valid.
Qed.

Theorem leb_iff x y :
  finite x = true -> finite y = true -> (x <=? y)%float = true <-> (B2Q x <= B2Q y)%Q.
Proof. rewrite FloatAxioms.leb_spec. apply SFleb_iff; apply Prim2SF_valid. Qed.

Theorem ltb_iff x y :
  finite x = true -> finite y = true -> (x <? y)%float = true <-> (B2Q x < B2Q y)%Q.
Proof. rewrite FloatAxioms.ltb_spec. apply SFltb_iff; apply Prim2SF_valid. Qed.

Theorem eqb_iff x y :
  finite x = true -> finite y = true -> (x =? y)%float = true <-> (B2Q x == B2Q y)%Q.
Proof. rewrite FloatAxioms.eqb_spec. apply SFeqb_iff; apply Prim2SF_valid. Qed.

(** A comparison that holds against finite bounds on both sides rules
    out NaN and the infinities. *)
Lemma between_finite lo x hi :
  finite lo = true -> finite hi = true ->
  (lo <=? x)%float = true -> (x <=? hi)%float = true -> finite x = true.
Proof.
  unfold finite. rewrite 2!FloatAxioms.leb_spec. unfold SFleb.
  destruct (Prim2SF x) as [ | [ | ] | | ]; try reflexivity;
    destruct (Prim2SF lo) as [ | | | [ | ] ]; try discriminate;
    destruct (Prim2SF hi) as [ | | | [ | ] ]; try discriminate.
Qed.

(** An exactly representable result is returned exactly. *)
Corollary add_exact x y :
  finite x = true -> finite y = true ->
  format (B2Q x + B2Q y) -> in_range (B2Q x + B2Q y) (B2Q x + B2Q y) ->
  finite (x + y) = true /\ (B2Q (x + y) == B2Q x + B2Q y)%Q.
Proof.
  intros Fx Fy Ff R.
  destruct (add_bounds x y _ _ Fx Fy Ff Ff R (Qle_refl _) (Qle_refl _)) as (H1 & H2 & H3).
  split; [ exact H1 | lra ].
Qed.

Corollary sub_exact x y :
  finite x = true -> finite y = true ->
  format (B2Q x - B2Q y) -> in_range (B2Q x - B2Q y) (B2Q x - B2Q y) ->
  finite (x - y) = true /\ (B2Q (x - y) == B2Q x - B2Q y)%Q.
Proof.
  intros Fx Fy Ff R.
  destruct (sub_bounds x y _ _ Fx Fy Ff Ff R (Qle_refl _) (Qle_refl _)) as (H1 & H2 & H3).
  split; [ exact H1 | lra ].
Qed.

Corollary mul_exact x y :
  finite x = true -> finite y = true ->
  format (B2Q x * B2Q y) -> in_range (B2Q x * B2Q y) (B2Q x * B2Q y) ->
  finite (x * y) = true /\ (B2Q (x * y) == B2Q x * B2Q y)%Q.
Proof.
  intros Fx Fy Ff R.
  destruct (mul_bounds x y _ _ Fx Fy Ff Ff R (Qle_refl _) (Qle_refl _)) as (H1 & H2 & H3).
  split; [ exact H1 | lra ].
Qed.

Corollary half_exact x :
  finite x = true ->
  format (B2Q x * (1 # 2)) -> in_range (B2Q x * (1 # 2)) (B2Q x * (1 # 2)) ->
  finite (x / 2) = true /\ (B2Q (x / 2) == B2Q x * (1 # 2))%Q.
Proof.
  intros Fx Ff R.
  destruct (half_bounds x _ _ Fx Ff Ff R (Qle_refl _) (Qle_refl _)) as (H1 & H2 & H3).
  split; [ exact H1 | lra ].
Qed.

(** ** Rounded results are valid binary64 numbers *)

Lemma round_aux_valid s mx ex lx :
  0 <= mx -> ex <= fexp prec emax (Zdigits2 mx + ex) ->
  valid_binary (binary_round_aux prec emax s mx ex lx) = true.
Proof.
  intros Hm Hpre.
  set (v := if inexact (shr_record_of_loc mx lx)
            then dy (mx * 2 + 1) (ex - 1) else dy mx ex).
  assert (Hrep : repr mx (inexact (shr_record_of_loc mx lx)) ex v).
  { split; [ exact Hm | ]. subst v.
    destruct (inexact (shr_record_of_loc mx lx)); [ | reflexivity ].
    rewrite !(dy_rescale _ ex (ex - 1)) by lia.
    replace (ex - (ex - 1)) with 1 by lia. split; apply dy_lt; lia. }
  unfold binary_round_aux.
  destruct (shr_fexp prec emax mx ex lx) as [mrs' e'] eqn:E1.
  destruct (first_shift mx ex lx v Hm Hpre Hrep _ _ E1) as ([Hq0 _] & He' & Hq53 & Hcan).
  destruct (round_nearest_even_spec mrs') as [Hm2 _].
  set (m2 := round_nearest_even (shr_m mrs') (loc_of_shr_record mrs')) in *.
  destruct (shr_fexp prec emax m2 e' loc_Exact) as [mrs'' e''] eqn:E2.
  assert (Hfin : 0 <= shr_m mrs'' < 2 ^ 53 /\ -1074 <= e'' /\
                 (e'' = -1074 \/ 2 ^ 52 <= shr_m mrs'')).
  { destruct (Z.eq_dec m2 (2 ^ 53)) as [E | Hne].
    - destruct (second_shift m2 e' ltac:(lia) He' _ _ E2) as [[-> ->] | (_ & -> & ->)].
      + rewrite E in E2. unfold shr_fexp, shr in E2. rewrite fexp_eq in E2.
        change (Zdigits2 (2 ^ 53)) with 54 in E2.
        replace (Z.max (54 + e' - 53) (-1074) - e') with 1 in E2 by lia.
        injection E2 as E2 E3. lia.
      + split; [ lia | ]. split; [ lia | right; lia ].
    - destruct (second_shift m2 e' ltac:(lia) He' _ _ E2) as [[-> ->] | (E & _)];
        [ | contradiction ].
      split; [ lia | ]. split; [ lia | ]. destruct Hcan; [ now left | right; lia ]. }
  destruct Hfin as (Hm'' & He'' & Hcan'').
  destruct (shr_m mrs'') as [ | p | p ] eqn:Em; try reflexivity.
  destruct (Z.leb_spec e'' (emax - prec)) as [Hle | Hgt]; [ | reflexivity ].
  cbn [SpecFloat.valid_binary]. unfold bounded, canonical_mantissa.
  apply andb_true_iff. split; [ | now apply Z.leb_le ].
  apply Z.eqb_eq. rewrite fexp_eq.
  pose proof (Zdigits2_le (Z.pos p) 53 ltac:(lia) ltac:(lia) ltac:(lia)) as Hd.
  change (Zdigits2 (Z.pos p)) with (Z.pos (digits2_pos p)) in Hd.
  destruct Hcan'' as [-> | Hc]; [ lia | ].
  pose proof (Zdigits2_ge (Z.pos p) 52 ltac:(lia) Hc) as Hd'.
  change (Zdigits2 (Z.pos p)) with (Z.pos (digits2_pos p)) in Hd'. lia.
Qed.

Lemma round_valid s m e : valid_binary (binary_round prec emax s m e) = true.
Proof.
  unfold binary_round.
  destruct (shl_align_spec m e (fexp prec emax (Z.pos (digits2_pos m) + e))) as [E1 E2].
  destruct (shl_align m e (fexp prec emax (Z.pos (digits2_pos m) + e))) as [mz ez].
  cbn [fst snd] in E1, E2.
  apply round_aux_valid; [ lia | ].
  rewrite E2, Zdigits2_shift by lia. rewrite ?fexp_eq in *.
  change (Zdigits2 (Z.pos m)) with (Z.pos (digits2_pos m)). lia.
Qed.

Lemma normalize_valid M e sz : valid_binary (binary_normalize prec emax M e sz) = true.
Proof. destruct M; cbn [binary_normalize]; [ reflexivity | | ]; apply round_valid. Qed.

(** ** Equal values, equal numbers *)

Lemma SF2Q_inj x y :
  valid_binary x = true -> valid_binary y = true ->
  SFfinite x = true -> SFfinite y = true ->
  (SF2Q x == SF2Q y)%Q -> ~ (SF2Q x == 0)%Q -> x = y.
Proof.
  intros Vx Vy Fx Fy E Hn.
  destruct (SFcompare_rel x y Vx Vy Fx Fy) as (c & Hc & Hr).
  destruct c; cbn [cmp_rel] in Hr; try lra. clear Hr.
  destruct x as [ sx | | | sx mx ex ]; try discriminate;
    destruct y as [ sy | | | sy my ey ]; try discriminate;
    cbn [SF2Q] in *.
  - exfalso. apply Hn. reflexivity.
  - exfalso. apply Hn. reflexivity.
  - exfalso. apply Hn. rewrite E. reflexivity.
  - cbn [SFcompare] in Hc.
    destruct sx, sy; try discriminate; injection Hc as Hc;
      destruct (Z.compare_spec ex ey) as [-> | | ]; try discriminate;
      [ apply (f_equal CompOpp) in Hc; rewrite CompOpp_involutive in Hc; cbn in Hc | ];
      change (Pos.compare_cont Eq mx my) with (mx ?= my)%positive in Hc;
      apply Pos.compare_eq in Hc; subst; reflexivity.
Qed.

Lemma B2Q_inj x y :
  finite x = true -> finite y = true ->
  (B2Q x == B2Q y)%Q -> ~ (B2Q x == 0)%Q -> x = y.
Proof.
  intros Fx Fy E Hn. apply Prim2SF_inj.
  apply SF2Q_inj; try assumption; apply Prim2SF_valid.
Qed.

(** ** The remainder [fmod] *)

Lemma SFfmod_valid x y :
  valid_binary x = true -> valid_binary (PyFloat.SFfmod x y) = true.
Proof.
  intros Vx. destruct x as [ sx | sx | | sx mx ex ];
    destruct y as [ sy | sy | | sy my ey ]; cbn [PyFloat.SFfmod]; try reflexivity;
    try exact Vx.
  apply normalize_valid.
Qed.

Lemma fmod_spec x y :
  Prim2SF (PyFloat.fmod x y) = PyFloat.SFfmod (Prim2SF x) (Prim2SF y).
Proof.
  unfold PyFloat.fmod. apply Prim2SF_SF2Prim, SFfmod_valid, Prim2SF_valid.
Qed.

(** For a finite [x] and a positive finite [y]: the result is finite, is
    [x] minus a whole multiple of [y], lies strictly inside [(-y, y)] on
    the side of [x], and is [x] itself when [|x| < y]. *)
Theorem SFfmod_finite x my ey :
  valid_binary x = true -> valid_binary (S754_finite false my ey) = true ->
  SFfinite x = true ->
  let y := S754_finite false my ey in
  let r := PyFloat.SFfmod x y in
  SFfinite r = true /\
  (exists n : Z, SF2Q r == SF2Q x - inject_Z n * SF2Q y)%Q /\
  (- SF2Q y < SF2Q r)%Q /\ (SF2Q r < SF2Q y)%Q /\
  ((0 <= SF2Q x)%Q -> (0 <= SF2Q r)%Q) /\
  ((SF2Q x <= 0)%Q -> (SF2Q r <= 0)%Q) /\
  ((- SF2Q y < SF2Q x)%Q -> (SF2Q x < SF2Q y)%Q -> (SF2Q r == SF2Q x)%Q).
Proof.
  intros Vx Vy Fx y r.
  pose proof (dy_pos (Z.pos my) ey ltac:(lia)) as Hy.
  destruct x as [ sx | | | sx mx ex ]; try discriminate; subst r y;
    cbn [PyFloat.SFfmod].
  { cbn [SF2Q SFfinite cond_Zopp]. split; [ reflexivity | ].
    split; [ exists 0; ring | ]. repeat split; try lra. }
  pose proof (valid_in_range _ Vy) as [_ Ry]. cbn [SF2Q cond_Zopp] in Ry.
  apply valid_finite in Vx, Vy.
  destruct Vx as (Hmx & Hex & _). destruct Vy as (Hmy & Hey & _).
  destruct (shl_align_spec mx ex (Z.min ex ey)) as [_ EX].
  destruct (shl_align_spec my ey (Z.min ex ey)) as [_ EY].
  replace (Z.min ex (Z.min ex ey)) with (Z.min ex ey) in EX by lia.
  replace (Z.min ey (Z.min ex ey)) with (Z.min ex ey) in EY by lia.
  set (ez := Z.min ex ey) in *.
  set (X := Z.pos (fst (shl_align mx ex ez))) in *.
  set (Y := Z.pos (fst (shl_align my ey ez))) in *.
  assert (HX : 0 < X) by (subst X; lia).
  assert (HY : 0 < Y) by (subst Y; lia).
  pose proof (Z.rem_bound_pos X Y ltac:(lia) HY) as HR.
  pose proof (Z.quot_rem' X Y) as HQ.
  assert (Hq : 0 <= Z.quot X Y) by (apply Z.quot_pos; lia).
  set (R := Z.rem X Y) in *. set (q := Z.quot X Y) in *.
  assert (HvX : (dy X ez == dy (Z.pos mx) ex)%Q).
  { rewrite EX. symmetry. apply dy_rescale. lia. }
  assert (HvY : (dy Y ez == dy (Z.pos my) ey)%Q).
  { rewrite EY. symmetry. apply dy_rescale. lia. }
  assert (HR53 : R <= 2 ^ 53).
  { assert (0 < 2 ^ (ex - ez)) by (apply Z.pow_pos_nonneg; lia).
    assert (0 < 2 ^ (ey - ez)) by (apply Z.pow_pos_nonneg; lia).
    destruct (Z_le_gt_dec ex ey).
    - replace (ex - ez) with 0 in EX by lia. nia.
    - replace (ey - ez) with 0 in EY by lia. nia. }
  assert (Hdec : (dy X ez == inject_Z q * dy Y ez + dy R ez)%Q).
  { rewrite HQ. rewrite dy_add. apply Qplus_inj_r. unfold dy.
    rewrite inject_Z_mult. ring. }
  assert (HRlt : (dy R ez < dy Y ez)%Q) by (apply dy_lt; lia).
  assert (HR0 : (0 <= dy R ez)%Q) by (apply dy_nonneg; lia).
  assert (Hv : (dy (cond_Zopp sx R) ez == if sx then - dy R ez else dy R ez)%Q).
  { destruct sx; cbn [cond_Zopp]; [ apply dy_opp | reflexivity ]. }
  assert (Ff : format (dy (cond_Zopp sx R) ez)).
  { apply format_dy; [ destruct sx; cbn [cond_Zopp]; lia | lia ]. }
  assert (Rg : in_range (dy (cond_Zopp sx R) ez) (dy (cond_Zopp sx R) ez)).
  { split; rewrite Hv; destruct sx; lra. }
  destruct (normalize_bounds (cond_Zopp sx R) ez sx _ _ Ff Ff Rg
              (Qle_refl _) (Qle_refl _)) as (H1 & H2 & H3).
  assert (Er : (SF2Q (binary_normalize prec emax (cond_Zopp sx R) ez sx) ==
                if sx then - dy R ez else dy R ez)%Q) by (rewrite <- Hv; lra).
  cbn [SF2Q]. split; [ exact H1 | ].
  assert (Hx : (dy (cond_Zopp sx (Z.pos mx)) ex ==
                if sx then - dy X ez else dy X ez)%Q).
  { destruct sx; cbn [cond_Zopp]; rewrite HvX; [ | reflexivity ].
    change (Z.neg mx) with (- Z.pos mx). apply dy_opp. }
  pose proof (dy_pos X ez HX) as HXp.
  split.
  { exists (if sx then - q else q).
    destruct sx; rewrite Er, Hx, <- HvY, ?inject_Z_opp, Hdec; ring. }
  assert (Hsmall : (dy X ez < dy Y ez)%Q -> (dy R ez == dy X ez)%Q).
  { intros Hlt. apply dy_lt in Hlt. apply dy_eq.
    subst R. apply Z.rem_small. lia. }
  rewrite <- HvY.
  destruct sx; rewrite Er, Hx; repeat split; lra.
Qed.

(** ** Absolute value, opposite *)

Lemma abs_finite x : finite (abs x) = finite x.
Proof. unfold finite. rewrite abs_spec. destruct (Prim2SF x); reflexivity. Qed.

Lemma abs_B2Q x : (B2Q (abs x) == Qabs (B2Q x))%Q.
Proof.
  unfold B2Q. rewrite abs_spec.
  destruct (Prim2SF x) as [ | | | s m e ]; cbn [SFabs SF2Q cond_Zopp]; try reflexivity.
  pose proof (dy_pos (Z.pos m) e ltac:(lia)) as Hp.
  destruct s; cbn [cond_Zopp].
  - change (Z.neg m) with (- Z.pos m). rewrite dy_opp, Qabs_opp.
    symmetry. apply Qabs_pos. lra.
  - symmetry. apply Qabs_pos. lra.
Qed.

End Rounding.

(** * The base-32 codec *)

Section Codec.
Import sonnet_geo.

Lemma decode_map_alphabet c :
  in_alphabet c = true <-> dict_get BASE32_DECODE_MAP c <> None.
Proof.
  destruct c as [[] [] [] [] [] [] [] []]; vm_compute; split; congruence.
Qed.

Lemma decode_map_none c :
  in_alphabet c = false -> dict_get BASE32_DECODE_MAP c = None.
Proof.
  intros H. destruct (dict_get BASE32_DECODE_MAP c) eqn:E; [ | reflexivity ].
  assert (in_alphabet c = true) by (apply decode_map_alphabet; congruence).
  congruence.
Qed.

(** Five bits pack into the symbol whose value they spell, and the
    symbol unpacks into the same five bits. *)
Lemma pack_five b1 b2 b3 b4 b5 :
  bit b1 -> bit b2 -> bit b3 -> bit b4 -> bit b5 ->
  exists c v,
    in_alphabet c = true /\
    dict_get BASE32_DECODE_MAP c = Some v /\
    char_bits v = [b1; b2; b3; b4; b5] /\
    forall chars rest,
      fold_left pack_bit (b1 :: b2 :: b3 :: b4 :: b5 :: rest) (Ok (mkPack chars 0 0)) =
      fold_left pack_bit rest (Ok (mkPack (chars ++ [c]) 0 0)).
Proof.
  intros [-> | ->] [-> | ->] [-> | ->] [-> | ->] [-> | ->];
    eexists; eexists; (split; [ | split; [ | split ] ]);
    try (intros chars rest; cbn; reflexivity); reflexivity.
Qed.

Lemma unpack_symbol c :
  in_alphabet c = true ->
  exists v b1 b2 b3 b4 b5,
    dict_get BASE32_DECODE_MAP c = Some v /\
    char_bits v = [b1; b2; b3; b4; b5] /\
    bit b1 /\ bit b2 /\ bit b3 /\ bit b4 /\ bit b5 /\
    forall chars rest,
      fold_left pack_bit (b1 :: b2 :: b3 :: b4 :: b5 :: rest) (Ok (mkPack chars 0 0)) =
      fold_left pack_bit rest (Ok (mkPack (chars ++ [c]) 0 0)).
Proof.
  intros H. apply decode_map_alphabet in H.
  destruct (dict_get BASE32_DECODE_MAP c) as [v | ] eqn:E; [ clear H | congruence ].
  destruct c as [[] [] [] [] [] [] [] []]; vm_compute in E; try discriminate;
    injection E as <-;
    do 6 eexists; (split; [ reflexivity | ]); (split; [ reflexivity | ]);
    unfold bit; repeat (split; [ (left; reflexivity) || (right; reflexivity) | ]);
    intros chars rest; reflexivity.
Qed.

Lemma five_bits (n : nat) (bits : list Z) :
  List.length bits = (5 * S n)%nat ->
  exists b1 b2 b3 b4 b5 rest,
    bits = b1 :: b2 :: b3 :: b4 :: b5 :: rest /\ List.length rest = (5 * n)%nat.
Proof.
  intros H.
  destruct bits as [ | b1 [ | b2 [ | b3 [ | b4 [ | b5 rest ] ] ] ] ]; cbn in H; try lia.
  exists b1, b2, b3, b4, b5, rest. split; [ reflexivity | lia ].
Qed.

Lemma pack_bits n : forall bits chars,
  Forall bit bits -> List.length bits = (5 * n)%nat ->
  exists cs,
    fold_left pack_bit bits (Ok (mkPack chars 0 0)) = Ok (mkPack (chars ++ cs) 0 0) /\
    List.length cs = n /\
    forallb in_alphabet cs = true /\
    forall acc, _geohash_to_bits_from acc cs = Ok (acc ++ bits).
Proof.
  induction n as [ | n IH ]; intros bits chars Hb Hl.
  - destruct bits; [ | discriminate ]. exists []. cbn.
    rewrite app_nil_r. repeat split. intros acc. now rewrite app_nil_r.
  - destruct (five_bits n bits Hl) as (b1 & b2 & b3 & b4 & b5 & rest & -> & Hr).
    inversion Hb as [ | ? ? H1 Hb1 ]; subst. inversion Hb1 as [ | ? ? H2 Hb2 ]; subst.
    inversion Hb2 as [ | ? ? H3 Hb3 ]; subst. inversion Hb3 as [ | ? ? H4 Hb4 ]; subst.
    inversion Hb4 as [ | ? ? H5 Hb5 ]; subst.
    destruct (pack_five b1 b2 b3 b4 b5 H1 H2 H3 H4 H5) as (c & v & Hc & Hv & Hcb & Hf).
    destruct (IH rest (chars ++ [c]) Hb5 Hr) as (cs & E & Hlen & Hal & Hun).
    exists (c :: cs). rewrite Hf, E, <- app_assoc. cbn [app List.length forallb].
    rewrite Hc, Hal. repeat split; [ lia | ].
    intros acc. cbn [_geohash_to_bits_from]. rewrite Hv, Hun, Hcb, <- app_assoc.
    reflexivity.
Qed.

Lemma unpack_symbols cs :
  forallb in_alphabet cs = true ->
  exists bits,
    (forall acc, _geohash_to_bits_from acc cs = Ok (acc ++ bits)) /\
    Forall bit bits /\
    List.length bits = (5 * List.length cs)%nat /\
    forall chars,
      fold_left pack_bit bits (Ok (mkPack chars 0 0)) = Ok (mkPack (chars ++ cs) 0 0).
Proof.
  induction cs as [ | c cs IH ]; cbn [forallb]; intros H.
  - exists []. split; [ | split; [ | split ] ].
    + intros acc. cbn. now rewrite app_nil_r.
    + constructor.
    + reflexivity.
    + intros chars. cbn. now rewrite app_nil_r.
  - apply andb_true_iff in H. destruct H as [Hc Hcs].
    destruct (IH Hcs) as (bits & Hun & Hb & Hl & Hp).
    destruct (unpack_symbol c Hc)
      as (v & b1 & b2 & b3 & b4 & b5 & Hv & Hcb & H1 & H2 & H3 & H4 & H5 & Hf).
    exists (b1 :: b2 :: b3 :: b4 :: b5 :: bits). split; [ | split; [ | split ] ].
    + intros acc. cbn [_geohash_to_bits_from]. rewrite Hv, Hun, Hcb, <- app_assoc.
      reflexivity.
    + repeat (apply Forall_cons; [ assumption | ]). exact Hb.
    + cbn [List.length]. lia.
    + intros chars. rewrite Hf, Hp, <- app_assoc. reflexivity.
Qed.

Lemma string_length_of_list cs :
  String.length (string_of_list_ascii cs) = List.length cs.
Proof. induction cs as [ | c cs IH ]; cbn; [ reflexivity | now rewrite IH ]. Qed.

Lemma list_length_of_string s :
  List.length (list_ascii_of_string s) = String.length s.
Proof. induction s as [ | c s IH ]; cbn; [ reflexivity | now rewrite IH ]. Qed.

Lemma multiple_of_five (n : nat) :
  negb (Z.of_nat (5 * n) mod BITS_PER_CHAR =? 0) = false.
Proof.
  unfold BITS_PER_CHAR. rewrite Nat2Z.inj_mul, Z.mul_comm, Z_mod_mult. reflexivity.
Qed.

(** [_bits_to_geohash] succeeds on whole groups of five bits, gives one
    symbol per group, and [_geohash_to_bits] undoes it. *)
Lemma bits_to_geohash_ok bits n :
  Forall bit bits -> List.length bits = (5 * n)%nat ->
  exists s,
    _bits_to_geohash bits = Ok s /\ String.length s = n /\
    valid_geohash s = true /\ _geohash_to_bits s = Ok bits.
Proof.
  intros Hb Hl. destruct (pack_bits n bits [] Hb Hl) as (cs & E & Hlen & Hal & Hun).
  exists (string_of_list_ascii cs). unfold _bits_to_geohash, _geohash_to_bits, valid_geohash.
  rewrite Hl, multiple_of_five, E. cbn [bind geohash_chars app].
  rewrite string_length_of_list, list_ascii_of_string_of_list_ascii, Hun.
  repeat split; assumption.
Qed.

(** [_geohash_to_bits] succeeds on a geohash, gives five bits per symbol,
    and [_bits_to_geohash] undoes it. *)
Lemma geohash_to_bits_ok h :
  valid_geohash h = true ->
  exists bits,
    _geohash_to_bits h = Ok bits /\ Forall bit bits /\
    List.length bits = (5 * String.length h)%nat /\
    _bits_to_geohash bits = Ok h.
Proof.
  unfold valid_geohash. intros H.
  destruct (unpack_symbols _ H) as (bits & Hun & Hb & Hl & Hp).
  exists bits. unfold _geohash_to_bits, _bits_to_geohash.
  rewrite Hun, Hl, multiple_of_five, Hp. cbn [bind geohash_chars app].
  rewrite string_of_list_ascii_of_string, list_length_of_string in *.
  repeat split; assumption.
Qed.

(** The first character outside the alphabet stops [_geohash_to_bits]
    with an error that quotes it. *)
Lemma geohash_to_bits_invalid pre c post : forall acc,
  forallb in_alphabet pre = true -> in_alphabet c = false ->
  _geohash_to_bits_from acc (pre ++ c :: post) =
  Raise (InvalidGeohashError (invalid_character_message c)).
Proof.
  induction pre as [ | p pre IH ]; intros acc Hpre Hc.
  - cbn [app _geohash_to_bits_from]. now rewrite (decode_map_none c Hc).
  - cbn [forallb] in Hpre. apply andb_true_iff in Hpre. destruct Hpre as [Hp Hpre].
    cbn [app _geohash_to_bits_from].
    destruct (unpack_symbol p Hp) as (v & ? & ? & ? & ? & ? & Hv & _).
    rewrite Hv. now apply IH.
Qed.

End Codec.

(** * Bisection in binary64 *)

Section Bisection.
Import Bin64 Rounding sonnet_geo.

Lemma far_below_overflow : (1000000 < dy 1 1024)%Q.
Proof. vm_compute. reflexivity. Qed.

Lemma in_range_small a b :
  (-1000000 <= a)%Q -> (b <= 1000000)%Q -> in_range a b.
Proof. pose proof far_below_overflow. intros Ha Hb. split; lra. Qed.

Lemma format_Z z : Z.abs z <= 2 ^ 53 -> format (inject_Z z).
Proof.
  intros H. exists z, 0. split; [ | lia ]. unfold dy.
  change (pow2 0) with 1%Q. ring.
Qed.

Lemma format_double u : format u -> format (2 * u)%Q.
Proof.
  intros (M & E & H1 & H2 & H3). exists M, (E + 1). split; [ | lia ].
  rewrite H1, (dy_rescale M (E + 1) E) by lia.
  replace (E + 1 - E) with 1 by lia. unfold dy. rewrite inject_Z_mult.
  change (inject_Z (2 ^ 1)) with 2%Q. ring.
Qed.

Lemma B2Q_180 : (B2Q 180 == 180)%Q.
Proof. vm_compute. reflexivity. Qed.

Lemma B2Q_m180 : (B2Q (-180) == -180)%Q.
Proof. vm_compute. reflexivity. Qed.

Lemma B2Q_90 : (B2Q 90 == 90)%Q.
Proof. vm_compute. reflexivity. Qed.

Lemma B2Q_m90 : (B2Q (-90) == -90)%Q.
Proof. vm_compute. reflexivity. Qed.

Lemma B2Q_360 : (B2Q 360 == 360)%Q.
Proof. vm_compute. reflexivity. Qed.

(** The midpoint of an interval is computed inside the interval. *)
Lemma mid_bounds lo hi :
  bounded_interval (lo, hi) ->
  finite ((lo + hi) / 2) = true /\
  (B2Q lo <= B2Q ((lo + hi) / 2))%Q /\ (B2Q ((lo + hi) / 2) <= B2Q hi)%Q.
Proof.
  intros (Fl & Fh & H1 & H2 & H3). cbn [fst snd] in *.
  destruct (add_bounds lo hi (2 * B2Q lo) (2 * B2Q hi) Fl Fh) as (Fs & Hs1 & Hs2);
    try lra.
  - apply format_double, B2Q_format.
  - apply format_double, B2Q_format.
  - apply in_range_small; lra.
  - apply (half_bounds (lo + hi) (B2Q lo) (B2Q hi) Fs); try lra;
      try apply B2Q_format.
    apply in_range_small; lra.
Qed.

Lemma refine_bit_nested itv b :
  bounded_interval itv -> nested (refine_bit itv b) itv.
Proof.
  destruct itv as [lo hi]. intros Hb.
  destruct (mid_bounds lo hi Hb) as (Fm & Hm1 & Hm2).
  destruct Hb as (Fl & Fh & H1 & H2 & H3). cbn [fst snd] in *.
  unfold refine_bit, nested. destruct (negb (b =? 0)); cbn [fst snd];
    repeat split; try assumption; lra.
Qed.

Lemma nested_bounded inner outer :
  nested inner outer -> bounded_interval outer -> bounded_interval inner.
Proof.
  intros (F1 & F2 & H1 & H2 & H3) (_ & _ & G1 & G2 & G3).
  repeat split; try assumption; lra.
Qed.

Lemma nested_refl itv : bounded_interval itv -> nested itv itv.
Proof. intros (F1 & F2 & G1 & G2 & G3). repeat split; try assumption; lra. Qed.

Lemma nested_trans a b c : nested a b -> nested b c -> nested a c.
Proof.
  intros (F1 & F2 & H1 & H2 & H3) (_ & _ & G1 & G2 & G3).
  repeat split; try assumption; lra.
Qed.

(** Every interval [_refine_interval] reaches lies inside the one it
    started from, whatever the bits and however many. *)
Lemma refine_nested bits : forall itv,
  bounded_interval itv -> nested (_refine_interval bits itv) itv.
Proof.
  unfold _refine_interval.
  induction bits as [ | b bits IH ]; intros itv Hb; cbn [fold_left].
  - now apply nested_refl.
  - pose proof (refine_bit_nested itv b Hb) as Hn.
    eapply nested_trans; [ | exact Hn ].
    apply IH. eapply nested_bounded; eassumption.
Qed.

Lemma lon_range_bounded : bounded_interval LON_RANGE.
Proof.
  unfold bounded_interval, LON_RANGE. cbn [fst snd].
  rewrite B2Q_180, B2Q_m180. repeat split; try reflexivity; lra.
Qed.

Lemma lat_range_bounded : bounded_interval LAT_RANGE.
Proof.
  unfold bounded_interval, LAT_RANGE. cbn [fst snd].
  rewrite B2Q_90, B2Q_m90. repeat split; try reflexivity; lra.
Qed.

(** ** Exact bisection down to depth 47 *)

Lemma dy_double m e : (dy (m * 2) (e - 1) == dy m e)%Q.
Proof.
  rewrite (dy_rescale m e (e - 1)) by lia. replace (e - (e - 1)) with 1 by lia.
  reflexivity.
Qed.

Lemma dy_45_bounds c a k :
  1 <= c <= 2 -> 0 <= k -> - 2 ^ k <= a <= 2 ^ k ->
  (-180 <= dy (45 * a) (c - k))%Q /\ (dy (45 * a) (c - k) <= 180)%Q.
Proof.
  intros Hc Hk Ha.
  assert (E : forall m, (dy (m * 2 ^ k) (c - k) == dy m c)%Q).
  { intros m. rewrite dy_shift by lia. replace (c - k + k) with c by lia. reflexivity. }
  assert (H45 : (dy 45 c <= 180)%Q).
  { apply Qle_trans with (dy 45 2); [ apply dy_mono_e; lia | ].
    vm_compute. discriminate. }
  split.
  - apply Qle_trans with (dy (-45 * 2 ^ k) (c - k)); [ | apply dy_le; lia ].
    rewrite E. rewrite (dy_opp 45 c : (dy (-45) c == - dy 45 c)%Q). lra.
  - apply Qle_trans with (dy (45 * 2 ^ k) (c - k)); [ apply dy_le; lia | ].
    rewrite E. exact H45.
Qed.

Lemma grid_bounds c k itv :
  1 <= c <= 2 -> 0 <= k -> grid c k itv ->
  (-180 <= B2Q (fst itv))%Q /\ (B2Q (fst itv) < B2Q (snd itv))%Q /\
  (B2Q (snd itv) <= 180)%Q.
Proof.
  intros Hc Hk (_ & _ & a & Ha1 & Ha2 & E1 & E2). rewrite E1, E2.
  assert (0 < 2 ^ k) by (apply Z.pow_pos_nonneg; lia).
  destruct (dy_45_bounds c a k Hc Hk ltac:(lia)) as [H1 _].
  destruct (dy_45_bounds c (a + 2) k Hc Hk ltac:(lia)) as [_ H2].
  repeat split; try assumption. apply dy_lt. lia.
Qed.

Lemma grid_bounded c k itv :
  1 <= c <= 2 -> 0 <= k -> grid c k itv -> bounded_interval itv.
Proof.
  intros Hc Hk G. destruct (grid_bounds c k itv Hc Hk G) as (H1 & H2 & H3).
  destruct G as (F1 & F2 & _). repeat split; try assumption; lra.
Qed.

Lemma pow2_le_47 k : 0 <= k <= 47 -> 45 * 2 ^ k <= 2 ^ 53.
Proof.
  intros H. assert (2 ^ k <= 2 ^ 47) by (apply Z.pow_le_mono_r; lia).
  change (2 ^ 53) with (64 * 2 ^ 47). lia.
Qed.

Lemma grid_mid c k lo hi a :
  1 <= c <= 2 -> 0 <= k <= 47 ->
  finite lo = true -> finite hi = true ->
  - 2 ^ k <= a -> a + 2 <= 2 ^ k ->
  (B2Q lo == dy (45 * a) (c - k))%Q -> (B2Q hi == dy (45 * (a + 2)) (c - k))%Q ->
  finite ((lo + hi) / 2) = true /\
  (B2Q ((lo + hi) / 2) == dy (45 * (a + 1)) (c - k))%Q.
Proof.
  intros Hc Hk Fl Fh Ha1 Ha2 E1 E2.
  pose proof (pow2_le_47 k Hk) as H47.
  destruct (dy_45_bounds c a k Hc ltac:(lia) ltac:(lia)) as [B1 B2].
  destruct (dy_45_bounds c (a + 2) k Hc ltac:(lia) ltac:(lia)) as [B3 B4].
  assert (Es : (B2Q lo + B2Q hi == dy (45 * (a + 1)) (c - k + 1))%Q).
  { rewrite E1, E2, <- dy_add, <- (dy_double (45 * (a + 1)) (c - k + 1)).
    replace (c - k + 1 - 1) with (c - k) by lia. apply dy_eq. lia. }
  destruct (add_exact lo hi Fl Fh) as [Fs Hs].
  - eapply format_proper; [ symmetry; exact Es | ]. apply format_dy; lia.
  - apply in_range_small; lra.
  - assert (Eh : (B2Q (lo + hi) * (1 # 2) == dy (45 * (a + 1)) (c - k))%Q).
    { rewrite Hs, Es, <- dy_half. replace (c - k + 1 - 1) with (c - k) by lia.
      reflexivity. }
    destruct (half_exact (lo + hi) Fs) as [Fm Hm].
    + eapply format_proper; [ symmetry; exact Eh | ]. apply format_dy; lia.
    + apply in_range_small; lra.
    + split; [ exact Fm | ]. rewrite Hm. exact Eh.
Qed.

Lemma grid_step c k itv b :
  1 <= c <= 2 -> 0 <= k <= 47 -> grid c k itv -> grid c (k + 1) (refine_bit itv b).
Proof.
  intros Hc Hk (Fl & Fh & a & Ha1 & Ha2 & E1 & E2). destruct itv as [lo hi].
  cbn [fst snd] in *.
  destruct (grid_mid c k lo hi a Hc Hk Fl Fh Ha1 Ha2 E1 E2) as [Fm Em].
  assert (Hp : 2 ^ (k + 1) = 2 * 2 ^ k) by (rewrite Z.pow_add_r by lia; lia).
  assert (R : forall m, (dy (45 * m) (c - k) == dy (45 * (m * 2)) (c - (k + 1)))%Q).
  { intros m. rewrite <- (dy_double (45 * m) (c - k)).
    replace (c - k - 1) with (c - (k + 1)) by lia. apply dy_eq. lia. }
  unfold refine_bit, grid. destruct (negb (b =? 0)); cbn [fst snd].
  - split; [ exact Fm | ]. split; [ exact Fh | ]. exists (a * 2 + 2).
    split; [ lia | ]. split; [ lia | ]. split.
    + rewrite Em, R. apply dy_eq. lia.
    + rewrite E2, R. apply dy_eq. lia.
  - split; [ exact Fl | ]. split; [ exact Fm | ]. exists (a * 2).
    split; [ lia | ]. split; [ lia | ]. split.
    + rewrite E1, R. reflexivity.
    + rewrite Em, R. apply dy_eq. lia.
Qed.

Lemma grid_refine c bits : forall k itv,
  1 <= c <= 2 -> 0 <= k -> k + Z.of_nat (List.length bits) <= 48 ->
  grid c k itv ->
  grid c (k + Z.of_nat (List.length bits)) (_refine_interval bits itv).
Proof.
  unfold _refine_interval.
  induction bits as [ | b bits IH ]; intros k itv Hc Hk Hl G; cbn [fold_left List.length].
  - now rewrite Z.add_0_r.
  - cbn [List.length] in Hl. rewrite Nat2Z.inj_succ in *.
    replace (k + Z.succ (Z.of_nat (List.length bits)))
      with (k + 1 + Z.of_nat (List.length bits)) by lia.
    apply IH; [ assumption | lia | lia | ].
    apply grid_step; [ assumption | lia | assumption ].
Qed.

Lemma lon_range_grid : grid 2 0 LON_RANGE.
Proof.
  unfold grid, LON_RANGE. cbn [fst snd]. repeat split. exists (-1).
  repeat split; try lia; vm_compute; reflexivity.
Qed.

Lemma lat_range_grid : grid 1 0 LAT_RANGE.
Proof.
  unfold grid, LAT_RANGE. cbn [fst snd]. repeat split. exists (-1).
  repeat split; try lia; vm_compute; reflexivity.
Qed.

(** On a grid cell the centre, the half-width and the corners of the
    bounding box are computed without rounding. *)
Lemma grid_cell c k lo hi :
  1 <= c <= 2 -> 0 <= k <= 47 -> grid c k (lo, hi) ->
  let centre := ((lo + hi) / 2)%float in
  let err := ((hi - lo) / 2)%float in
  finite centre = true /\ finite err = true /\
  (B2Q centre == (B2Q lo + B2Q hi) * (1 # 2))%Q /\
  (B2Q err == (B2Q hi - B2Q lo) * (1 # 2))%Q /\
  (0 < B2Q err)%Q /\
  finite (centre - err) = true /\ finite (centre + err) = true /\
  (B2Q (centre - err) == B2Q lo)%Q /\ (B2Q (centre + err) == B2Q hi)%Q.
Proof.
  intros Hc Hk G centre err.
  destruct (grid_bounds c k (lo, hi) Hc ltac:(lia) G) as (B1 & B2 & B3).
  destruct G as (Fl & Fh & a & Ha1 & Ha2 & E1 & E2). cbn [fst snd] in *.
  destruct (grid_mid c k lo hi a Hc Hk Fl Fh Ha1 Ha2 E1 E2) as [Fm Em].
  fold centre in Fm, Em.
  assert (Ec : (B2Q centre == (B2Q lo + B2Q hi) * (1 # 2))%Q).
  { rewrite Em, E1, E2, <- dy_add, <- dy_half, <- (dy_double (45 * (a + 1)) (c - k)).
    apply dy_eq. lia. }
  assert (Ed : (B2Q hi - B2Q lo == dy 90 (c - k))%Q).
  { rewrite E1, E2. unfold Qminus. rewrite <- dy_opp, <- dy_add. apply dy_eq. lia. }
  destruct (sub_exact hi lo Fh Fl) as [Fd Hd].
  { eapply format_proper; [ symmetry; exact Ed | ]. apply format_dy; lia. }
  { apply in_range_small; lra. }
  assert (Eh : (B2Q (hi - lo) * (1 # 2) == dy 90 (c - k - 1))%Q).
  { rewrite Hd, Ed, <- dy_half. reflexivity. }
  destruct (half_exact (hi - lo) Fd) as [Fe He].
  { eapply format_proper; [ symmetry; exact Eh | ]. apply format_dy; lia. }
  { apply in_range_small; lra. }
  fold err in Fe, He.
  assert (Ee : (B2Q err == (B2Q hi - B2Q lo) * (1 # 2))%Q) by (rewrite He, Hd; reflexivity).
  destruct (sub_exact centre err Fm Fe) as [Fw Hw].
  { apply (format_proper (B2Q lo)); [ lra | apply B2Q_format ]. }
  { apply in_range_small; lra. }
  destruct (add_exact centre err Fm Fe) as [Fea Hea].
  { apply (format_proper (B2Q hi)); [ lra | apply B2Q_format ]. }
  { apply in_range_small; lra. }
  repeat split; try assumption; lra.
Qed.

(** ** The loop of [encode] *)

Lemma evens_odds_length {A} (l : list A) :
  (List.length (evens l) + List.length (odds l) = List.length l /\
   List.length (odds l) <= List.length (evens l) <= List.length (odds l) + 1)%nat.
Proof.
  induction l as [ | a l IH ]; cbn [evens odds List.length]; lia.
Qed.

Lemma encode_step_spec lon lat st :
  exists b,
    bit b /\
    encode_step lon lat st =
    mkEnc (if use_lon st then refine_bit (lon_interval st) b else lon_interval st)
          (if use_lon st then lat_interval st else refine_bit (lat_interval st) b)
          (bits st ++ [b]) (negb (use_lon st)) /\
    let interval := if use_lon st then lon_interval st else lat_interval st in
    let value := if use_lon st then lon else lat in
    (((fst interval + snd interval) / 2 <=? value)%float = true -> b = 1) /\
    (((fst interval + snd interval) / 2 <=? value)%float = false -> b = 0).
Proof.
  unfold encode_step, refine_bit.
  destruct (use_lon st); [ destruct (lon_interval st) as [lo hi]
                         | destruct (lat_interval st) as [lo hi] ];
    cbn [fst snd];
    destruct ((lo + hi) / 2 <=? _)%float;
    [ exists 1 | exists 0 | exists 1 | exists 0 ];
    (split; [ unfold bit; lia | ]); (split; [ reflexivity | ]);
    split; intros; congruence.
Qed.

(** The bits [encode] appends alternate between the two axes, and each
    axis' interval is the one [_refine_interval] computes from its bits. *)
Lemma encode_loop_spec lon lat n : forall st,
  exists new,
    bits (encode_loop n lon lat st) = bits st ++ new /\
    List.length new = n /\ Forall bit new /\
    lon_interval (encode_loop n lon lat st) =
      _refine_interval (if use_lon st then evens new else odds new) (lon_interval st) /\
    lat_interval (encode_loop n lon lat st) =
      _refine_interval (if use_lon st then odds new else evens new) (lat_interval st).
Proof.
  induction n as [ | n IH ]; intros st; cbn [encode_loop].
  - exists []. rewrite app_nil_r. destruct (use_lon st); repeat split; constructor.
  - destruct (encode_step_spec lon lat st) as (b & Hb & E & _).
    destruct (IH (encode_step lon lat st)) as (new & H1 & H2 & H3 & H4 & H5).
    exists (b :: new). rewrite H1, H4, H5, E. cbn [bits lon_interval lat_interval use_lon].
    rewrite <- app_assoc. cbn [app List.length].
    split; [ reflexivity | ]. split; [ now rewrite H2 | ].
    split; [ now constructor | ].
    destruct (use_lon st); cbn [negb evens odds]; split; reflexivity.
Qed.

(** The coordinate stays inside the interval of its axis. *)
Lemma encode_step_contains lon lat st :
  finite lon = true -> finite lat = true ->
  bounded_interval (lon_interval st) -> bounded_interval (lat_interval st) ->
  contains (lon_interval st) lon -> contains (lat_interval st) lat ->
  let st' := encode_step lon lat st in
  bounded_interval (lon_interval st') /\ bounded_interval (lat_interval st') /\
  contains (lon_interval st') lon /\ contains (lat_interval st') lat.
Proof.
  intros Fn Ft Bn Bt Cn Ct. unfold encode_step.
  destruct (use_lon st).
  - destruct (lon_interval st) as [lo hi]. cbn [fst snd].
    destruct (mid_bounds lo hi Bn) as (Fm & M1 & M2).
    pose proof (leb_iff ((lo + hi) / 2) lon Fm Fn) as Hle.
    destruct Bn as (Fl & Fh & B1 & B2 & B3). destruct Cn as [C1 C2].
    cbn [fst snd] in *.
    destruct ((lo + hi) / 2 <=? lon)%float; cbn [lon_interval lat_interval].
    + assert (B2Q ((lo + hi) / 2) <= B2Q lon)%Q by now apply Hle.
      unfold bounded_interval, contains. cbn [fst snd].
      repeat split; try assumption; try apply Bt; try apply Ct; lra.
    + assert (~ (B2Q ((lo + hi) / 2) <= B2Q lon)%Q) by (intros H; apply Hle in H; discriminate).
      unfold bounded_interval, contains. cbn [fst snd].
      repeat split; try assumption; try apply Bt; try apply Ct; lra.
  - destruct (lat_interval st) as [lo hi]. cbn [fst snd].
    destruct (mid_bounds lo hi Bt) as (Fm & M1 & M2).
    pose proof (leb_iff ((lo + hi) / 2) lat Fm Ft) as Hle.
    destruct Bt as (Fl & Fh & B1 & B2 & B3). destruct Ct as [C1 C2].
    cbn [fst snd] in *.
    destruct ((lo + hi) / 2 <=? lat)%float; cbn [lon_interval lat_interval].
    + assert (B2Q ((lo + hi) / 2) <= B2Q lat)%Q by now apply Hle.
      unfold bounded_interval, contains. cbn [fst snd].
      repeat split; try assumption; try apply Bn; try apply Cn; lra.
    + assert (~ (B2Q ((lo + hi) / 2) <= B2Q lat)%Q) by (intros H; apply Hle in H; discriminate).
      unfold bounded_interval, contains. cbn [fst snd].
      repeat split; try assumption; try apply Bn; try apply Cn; lra.
Qed.

Lemma encode_loop_contains lon lat n : forall st,
  finite lon = true -> finite lat = true ->
  bounded_interval (lon_interval st) -> bounded_interval (lat_interval st) ->
  contains (lon_interval st) lon -> contains (lat_interval st) lat ->
  contains (lon_interval (encode_loop n lon lat st)) lon /\
  contains (lat_interval (encode_loop n lon lat st)) lat.
Proof.
  induction n as [ | n IH ]; intros st Fn Ft Bn Bt Cn Ct; cbn [encode_loop].
  - now split.
  - destruct (encode_step_contains lon lat st Fn Ft Bn Bt Cn Ct) as (B1 & B2 & C1 & C2).
    now apply IH.
Qed.

(** ** [encode] on valid input, and what [decode] reads back *)

Lemma from_geohash_eq h bs :
  _geohash_to_bits h = Ok bs ->
  let I := _refine_interval (evens bs) LON_RANGE in
  let J := _refine_interval (odds bs) LAT_RANGE in
  from_geohash h =
  Ok (mkCell ((fst I + snd I) / 2) ((fst J + snd J) / 2)
             ((snd I - fst I) / 2) ((snd J - fst J) / 2) h).
Proof.
  intros E I J. unfold from_geohash. rewrite E. cbn [bind]. fold I J.
  destruct I as [i1 i2], J as [j1 j2]. reflexivity.
Qed.

Lemma lon_in_range_finite lon :
  (fst LON_RANGE <=? lon)%float && (lon <=? snd LON_RANGE)%float = true ->
  finite lon = true /\ contains LON_RANGE lon.
Proof.
  intros H. apply andb_true_iff in H. destruct H as [H1 H2].
  assert (F : finite lon = true) by (eapply between_finite; [ | | exact H1 | exact H2 ]; reflexivity).
  split; [ exact F | ]. split; apply leb_iff; try assumption; reflexivity.
Qed.

Lemma lat_in_range_finite lat :
  (fst LAT_RANGE <=? lat)%float && (lat <=? snd LAT_RANGE)%float = true ->
  finite lat = true /\ contains LAT_RANGE lat.
Proof.
  intros H. apply andb_true_iff in H. destruct H as [H1 H2].
  assert (F : finite lat = true) by (eapply between_finite; [ | | exact H1 | exact H2 ]; reflexivity).
  split; [ exact F | ]. split; apply leb_iff; try assumption; reflexivity.
Qed.

(** For coordinates in range and a positive precision, [encode] returns
    a geohash of [precision] symbols; its bits, split by axis, bisect
    down to intervals that contain the coordinates. *)
Lemma encode_ok lon lat p :
  (fst LAT_RANGE <=? lat)%float && (lat <=? snd LAT_RANGE)%float = true ->
  (fst LON_RANGE <=? lon)%float && (lon <=? snd LON_RANGE)%float = true ->
  0 < p ->
  exists h bs,
    encode lon lat p = Ok h /\
    String.length h = Z.to_nat p /\ valid_geohash h = true /\
    _geohash_to_bits h = Ok bs /\
    List.length bs = (5 * Z.to_nat p)%nat /\
    contains (_refine_interval (evens bs) LON_RANGE) lon /\
    contains (_refine_interval (odds bs) LAT_RANGE) lat.
Proof.
  intros Hlat Hlon Hp. unfold encode. rewrite Hlat, Hlon. cbn [negb].
  unfold _total_bits. destruct (Z.leb_spec p 0) as [ | _ ]; [ lia | ]. cbn [bind].
  set (st0 := mkEnc LON_RANGE LAT_RANGE [] true).
  destruct (encode_loop_spec lon lat (Z.to_nat (p * BITS_PER_CHAR)) st0)
    as (new & H1 & H2 & H3 & H4 & H5).
  cbn [bits app lon_interval lat_interval use_lon st0] in H1, H4, H5.
  destruct (lon_in_range_finite lon Hlon) as [Fn Cn].
  destruct (lat_in_range_finite lat Hlat) as [Ft Ct].
  destruct (encode_loop_contains lon lat (Z.to_nat (p * BITS_PER_CHAR)) st0 Fn Ft
              lon_range_bounded lat_range_bounded Cn Ct) as [C1 C2].
  rewrite H4 in C1. rewrite H5 in C2. rewrite H1.
  assert (Hl : List.length new = (5 * Z.to_nat p)%nat) by (unfold BITS_PER_CHAR in H2; lia).
  destruct (bits_to_geohash_ok new (Z.to_nat p) H3 Hl) as (h & E1 & E2 & E3 & E4).
  exists h, new. do 6 (split; [ assumption | ]). assumption.
Qed.

End Bisection.

(** * Round trips of [sonnet_geo] *)

Section RoundTrip.
Import Bin64 Rounding sonnet_geo.

(** A geohash of at most 18 symbols decodes exactly: both intervals are
    grid cells of depth at most 45, so the centre and the half-widths
    are the rationals the bisection means. *)
Lemma decode_exact h bs :
  _geohash_to_bits h = Ok bs ->
  (List.length bs <= 90)%nat ->
  let I := _refine_interval (evens bs) LON_RANGE in
  let J := _refine_interval (odds bs) LAT_RANGE in
  exists cell,
    decode h = Ok cell /\ geohash cell = h /\
    lon cell = ((fst I + snd I) / 2)%float /\
    lat cell = ((fst J + snd J) / 2)%float /\
    lon_err cell = ((snd I - fst I) / 2)%float /\
    lat_err cell = ((snd J - fst J) / 2)%float /\
    grid 2 (Z.of_nat (List.length (evens bs))) I /\
    grid 1 (Z.of_nat (List.length (odds bs))) J /\
    Z.of_nat (List.length (evens bs)) <= 45 /\
    Z.of_nat (List.length (odds bs)) <= 45.
Proof.
  intros E Hl I J. eexists. unfold decode. rewrite (from_geohash_eq h bs E).
  fold I J. split; [ reflexivity | ]. cbn [geohash lon lat lon_err lat_err].
  do 5 (split; [ reflexivity | ]).
  pose proof (evens_odds_length bs) as [L1 L2].
  split; [ | split; [ | lia ] ].
  - apply (grid_refine 2 (evens bs) 0 LON_RANGE); try lia. exact lon_range_grid.
  - apply (grid_refine 1 (odds bs) 0 LAT_RANGE); try lia. exact lat_range_grid.
Qed.

Lemma depth_ok n : Z.of_nat n <= 45 -> 0 <= Z.of_nat n <= 47.
Proof. lia. Qed.

Lemma within_error lo hi v c e :
  (B2Q lo <= B2Q v)%Q -> (B2Q v <= B2Q hi)%Q ->
  finite c = true -> finite e = true -> finite v = true ->
  (B2Q c == (B2Q lo + B2Q hi) * (1 # 2))%Q ->
  (B2Q e == (B2Q hi - B2Q lo) * (1 # 2))%Q ->
  (Qabs (B2Q c - B2Q v) <= B2Q e)%Q /\ (abs (c - v) <=? e)%float = true.
Proof.
  intros H1 H2 Fc Fe Fv Ec Ee.
  assert (Ha : (Qabs (B2Q c - B2Q v) <= B2Q e)%Q) by (apply Qabs_Qle_condition; lra).
  split; [ exact Ha | ].
  apply Qabs_Qle_condition in Ha.
  pose proof (B2Q_in_range e) as [R1 R2].
  destruct (sub_bounds c v (- B2Q e) (B2Q e) Fc Fv) as (Fd & D1 & D2); try lra.
  - apply format_opp, B2Q_format.
  - apply B2Q_format.
  - split; lra.
  - apply leb_iff; [ now rewrite abs_finite | exact Fe | ].
    rewrite abs_B2Q. apply Qabs_Qle_condition. lra.
Qed.

End RoundTrip.

(** C1, as the code has it: for coordinates in range and a precision
    from 1 to 18, [decode (encode lon lat precision)] is a cell whose
    centre is within the cell's own error bounds of the input, both as
    rationals and as the comparison Python evaluates.  (At 18 symbols
    every midpoint is still exact in binary64; at 19 the centre is
    rounded.) *)
Theorem encode_decode_within_error (lon lat : float) (precision : Z) :
  (-180 <=? lon)%float = true -> (lon <=? 180)%float = true ->
  (-90 <=? lat)%float = true -> (lat <=? 90)%float = true ->
  0 < precision <= 18 ->
  exists h cell,
    sonnet_geo.encode lon lat precision = Ok h /\
    sonnet_geo.decode h = Ok cell /\
    (Qabs (Bin64.B2Q (sonnet_geo.lon cell) - Bin64.B2Q lon)
       <= Bin64.B2Q (sonnet_geo.lon_err cell))%Q /\
    (Qabs (Bin64.B2Q (sonnet_geo.lat cell) - Bin64.B2Q lat)
       <= Bin64.B2Q (sonnet_geo.lat_err cell))%Q /\
    (abs (sonnet_geo.lon cell - lon) <=? sonnet_geo.lon_err cell)%float = true /\
    (abs (sonnet_geo.lat cell - lat) <=? sonnet_geo.lat_err cell)%float = true.
Proof.
  intros Hn1 Hn2 Ht1 Ht2 Hp.
  assert (Hlon : ((fst sonnet_geo.LON_RANGE <=? lon)%float &&
                  (lon <=? snd sonnet_geo.LON_RANGE)%float = true))
    by (cbn [fst snd sonnet_geo.LON_RANGE]; now rewrite Hn1, Hn2).
  assert (Hlat : ((fst sonnet_geo.LAT_RANGE <=? lat)%float &&
                  (lat <=? snd sonnet_geo.LAT_RANGE)%float = true))
    by (cbn [fst snd sonnet_geo.LAT_RANGE]; now rewrite Ht1, Ht2).
  destruct (encode_ok lon lat precision Hlat Hlon ltac:(lia))
    as (h & bs & E & _ & _ & Eb & Hl & [C1 C2] & [C3 C4]).
  destruct (decode_exact h bs Eb ltac:(lia))
    as (cell & Ed & _ & L1 & L2 & L3 & L4 & G1 & G2 & K1 & K2).
  destruct (lon_in_range_finite lon Hlon) as [Fn _].
  destruct (lat_in_range_finite lat Hlat) as [Ft _].
  destruct (sonnet_geo._refine_interval (evens bs) sonnet_geo.LON_RANGE) as [i1 i2].
  destruct (sonnet_geo._refine_interval (odds bs) sonnet_geo.LAT_RANGE) as [j1 j2].
  cbn [fst snd] in *.
  destruct (grid_cell 2 _ i1 i2 ltac:(lia) (depth_ok _ K1) G1)
    as (Fc1 & Fe1 & Ec1 & Ee1 & _).
  destruct (grid_cell 1 _ j1 j2 ltac:(lia) (depth_ok _ K2) G2)
    as (Fc2 & Fe2 & Ec2 & Ee2 & _).
  destruct (within_error i1 i2 lon _ _ C1 C2 Fc1 Fe1 Fn Ec1 Ee1) as [A1 A2].
  destruct (within_error j1 j2 lat _ _ C3 C4 Fc2 Fe2 Ft Ec2 Ee2) as [A3 A4].
  exists h, cell. rewrite L1, L2, L3, L4. repeat split; assumption.
Qed.

Lemma encode_decode_within_error_witness :
  exists h cell,
    sonnet_geo.encode (-122.5)%float 37.75%float 7 = Ok h /\
    sonnet_geo.decode h = Ok cell /\
    (Qabs (Bin64.B2Q (sonnet_geo.lon cell) - Bin64.B2Q (-122.5)%float)
       <= Bin64.B2Q (sonnet_geo.lon_err cell))%Q /\
    (Qabs (Bin64.B2Q (sonnet_geo.lat cell) - Bin64.B2Q 37.75%float)
       <= Bin64.B2Q (sonnet_geo.lat_err cell))%Q /\
    (abs (sonnet_geo.lon cell - (-122.5)) <=? sonnet_geo.lon_err cell)%float = true /\
    (abs (sonnet_geo.lat cell - 37.75) <=? sonnet_geo.lat_err cell)%float = true.
Proof.
  apply (encode_decode_within_error (-122.5)%float 37.75%float 7);
    [ reflexivity | reflexivity | reflexivity | reflexivity | lia ].
Defined.

(** C1 as stated fails at precision 19: the decoded centre of
    [encode(135.00000000000128, 0.0, 19)] is [23 * 2^-45] away from the
    longitude, and the half-width is [22.5 * 2^-45]. *)
Lemma round_trip_exceeds_error_at_19 :
  (-180 <=? lon_19)%float = true /\ (lon_19 <=? 180)%float = true /\
  exists cell,
    sonnet_geo.encode lon_19 0 19 = Ok "x000000000000000001"%string /\
    sonnet_geo.decode "x000000000000000001" = Ok cell /\
    ~ (Qabs (Bin64.B2Q (sonnet_geo.lon cell) - Bin64.B2Q lon_19)
         <= Bin64.B2Q (sonnet_geo.lon_err cell))%Q /\
    (abs (sonnet_geo.lon cell - lon_19) <=? sonnet_geo.lon_err cell)%float = false.
Proof.
  split; [ reflexivity | ]. split; [ reflexivity | ].
  eexists. split; [ vm_compute; reflexivity | ].
  split; [ vm_compute; reflexivity | ].
  split; [ | vm_compute; reflexivity ].
  intros H. vm_compute in H. apply H. reflexivity.
Qed.

(** * Wrapping and clamping *)

Section Wrapping.
Import Bin64 Rounding.

Lemma B2Q_of_int d :
  In d [1; 0; -1] ->
  finite (PyFloat.of_int d) = true /\ (B2Q (PyFloat.of_int d) == inject_Z d)%Q.
Proof.
  intros [ <- | [ <- | [ <- | [] ] ] ]; split; reflexivity.
Qed.

Lemma SF_360 : Prim2SF 360 = S754_finite false 6333186975989760 (-44).
Proof. reflexivity. Qed.

(** [v % 360.0] lies in [[0, 360]]: the remainder of [fmod] is moved up
    by 360 when it is negative, and that sum can round to 360 itself. *)
Lemma mod_360 v :
  finite v = true ->
  exists m, PyFloat.mod_ v 360 = Ok m /\ finite m = true /\
    (0 <= B2Q m)%Q /\ (B2Q m <= 360)%Q /\
    ((0 <= B2Q v)%Q -> (B2Q v < 360)%Q -> (B2Q m == B2Q v)%Q).
Proof.
  intros Fv. unfold PyFloat.mod_.
  change (360 =? 0)%float with false. change (360 <? 0)%float with false.
  cbn match. cbn [xorb].
  set (r := PyFloat.fmod v 360).
  assert (Hv : valid_binary (S754_finite false 6333186975989760 (-44)) = true) by reflexivity.
  pose proof (SFfmod_finite (Prim2SF v) _ _ (Prim2SF_valid v) Hv Fv) as H.
  cbv zeta in H. rewrite <- SF_360, <- fmod_spec in H. fold r in H.
  change (SF2Q (Prim2SF r)) with (B2Q r) in H.
  change (SFfinite (Prim2SF r)) with (finite r) in H.
  change (SF2Q (Prim2SF v)) with (B2Q v) in H.
  change (SF2Q (Prim2SF 360)) with (B2Q 360) in H.
  rewrite B2Q_360 in H.
  destruct H as (Fr & _ & R1 & R2 & R3 & R4 & R5).
  assert (F0 : finite 0 = true) by reflexivity.
  assert (V0 : (B2Q 0 == 0)%Q) by reflexivity.
  pose proof (eqb_iff r 0 Fr F0) as He. pose proof (ltb_iff r 0 Fr F0) as Hl.
  rewrite V0 in He, Hl.
  destruct (r =? 0)%float; cbn [negb].
  - exists 0%float. split; [ reflexivity | ]. split; [ reflexivity | ].
    rewrite V0. assert (B2Q r == 0)%Q by now apply He.
    split; [ lra | ]. split; [ lra | ]. intros P1 P2. rewrite <- (R5 ltac:(lra) P2). lra.
  - destruct (r <? 0)%float.
    + assert (B2Q r < 0)%Q by now apply Hl.
      eexists. split; [ reflexivity | ].
      destruct (add_bounds r 360 0 360 Fr eq_refl) as (Fs & S1 & S2).
      * apply format_0.
      * apply (format_proper (B2Q 360)); [ apply B2Q_360 | apply B2Q_format ].
      * apply in_range_small; lra.
      * rewrite B2Q_360. lra.
      * rewrite B2Q_360. lra.
      * split; [ exact Fs | ]. split; [ exact S1 | ]. split; [ exact S2 | ].
        intros P1 P2. specialize (R3 P1). lra.
    + assert (~ (B2Q r < 0)%Q) by (intros K; apply Hl in K; discriminate).
      exists r. split; [ reflexivity | ]. split; [ exact Fr | ].
      split; [ lra | ]. split; [ lra | ]. intros P1 P2. apply R5; lra.
Qed.

Lemma format_180 : format 180%Q.
Proof. apply (format_proper (B2Q 180)); [ apply B2Q_180 | apply B2Q_format ]. Qed.

Lemma format_m180 : format (-180)%Q.
Proof. apply (format_proper (B2Q (-180))); [ apply B2Q_m180 | apply B2Q_format ]. Qed.

(** The last step of both [_wrap_longitude]: a value of 180 becomes -180. *)
Lemma wrap_special w :
  finite w = true -> (-180 <= B2Q w)%Q -> (B2Q w <= 180)%Q ->
  let r := if (w =? 180)%float then (-180)%float else w in
  finite r = true /\ (-180 <= B2Q r)%Q /\ (B2Q r < 180)%Q /\
  ((B2Q w < 180)%Q -> r = w).
Proof.
  intros Fw W1 W2. pose proof (eqb_iff w 180 Fw eq_refl) as He.
  rewrite B2Q_180 in He. cbv zeta.
  destruct (w =? 180)%float.
  - assert (B2Q w == 180)%Q by now apply He.
    split; [ reflexivity | ]. rewrite B2Q_m180. repeat split; lra.
  - assert (~ (B2Q w == 180)%Q) by (intros K; apply He in K; discriminate).
    repeat split; try assumption; lra.
Qed.

Lemma sonnet_wrap_range lon :
  finite lon = true -> (-1000 <= B2Q lon)%Q -> (B2Q lon <= 1000)%Q ->
  exists r, sonnet_geo._wrap_longitude lon = Ok r /\ finite r = true /\
    (-180 <= B2Q r)%Q /\ (B2Q r < 180)%Q /\
    ((-180 <= B2Q lon)%Q -> (B2Q lon < 180)%Q -> format (B2Q lon + 180) ->
     (B2Q r == B2Q lon)%Q).
Proof.
  intros Fl L1 L2. unfold sonnet_geo._wrap_longitude.
  unfold sonnet_geo.LON_RANGE, sonnet_geo.LON_SPAN. cbn [fst snd].
  destruct (sub_bounds lon (-180) (-820) 1180 Fl eq_refl) as (Ft & T1 & T2);
    try (rewrite B2Q_m180; lra).
  { apply (format_Z (-820)). lia. }
  { apply (format_Z 1180). lia. }
  { apply in_range_small; lra. }
  destruct (mod_360 _ Ft) as (m & Em & Fm & M1 & M2 & M3).
  rewrite Em. cbn [bind].
  destruct (add_bounds m (-180) (-180) 180 Fm eq_refl format_m180 format_180) as (Fw & W1 & W2);
    try (rewrite B2Q_m180; lra).
  { apply in_range_small; lra. }
  destruct (wrap_special _ Fw W1 W2) as (Fr & R1 & R2 & R3).
  eexists. split; [ reflexivity | ]. do 3 (split; [ assumption | ]).
  intros P1 P2 P3.
  destruct (sub_exact lon (-180) Fl eq_refl) as (_ & Et).
  { apply (format_proper (B2Q lon + 180)); [ rewrite B2Q_m180; lra | exact P3 ]. }
  { apply in_range_small; rewrite B2Q_m180; lra. }
  rewrite B2Q_m180 in Et.
  assert (Emt : (B2Q m == B2Q lon + 180)%Q) by (rewrite M3; lra).
  destruct (add_exact m (-180) Fm eq_refl) as (_ & Ew).
  { apply (format_proper (B2Q lon)); [ rewrite B2Q_m180; lra | apply B2Q_format ]. }
  { apply in_range_small; rewrite B2Q_m180; lra. }
  rewrite B2Q_m180 in Ew. rewrite R3; lra.
Qed.

Lemma codex_wrap_range lon :
  finite lon = true -> (-1000 <= B2Q lon)%Q -> (B2Q lon <= 1000)%Q ->
  exists r, codex_geo._wrap_longitude lon = Ok r /\ finite r = true /\
    (-180 <= B2Q r)%Q /\ (B2Q r < 180)%Q.
Proof.
  intros Fl L1 L2. unfold codex_geo._wrap_longitude.
  destruct (add_bounds lon 180 (-820) 1180 Fl eq_refl) as (Ft & T1 & T2);
    try (rewrite B2Q_180; lra).
  { apply (format_Z (-820)). lia. }
  { apply (format_Z 1180). lia. }
  { apply in_range_small; lra. }
  destruct (mod_360 _ Ft) as (m & Em & Fm & M1 & M2 & M3).
  rewrite Em. cbn [bind].
  destruct (sub_bounds m 180 (-180) 180 Fm eq_refl format_m180 format_180) as (Fw & W1 & W2);
    try (rewrite B2Q_180; lra).
  { apply in_range_small; lra. }
  destruct (wrap_special _ Fw W1 W2) as (Fr & R1 & R2 & R3).
  eexists. split; [ reflexivity | ]. do 2 (split; [ assumption | ]). assumption.
Qed.

(** [max(-90.0, min(lat, 90.0))] *)
Lemma sonnet_clamp_range lat :
  finite lat = true ->
  let c := sonnet_geo._clamp_latitude lat in
  finite c = true /\ (-90 <= B2Q c)%Q /\ (B2Q c <= 90)%Q /\
  ((-90 <= B2Q lat)%Q -> (B2Q lat <= 90)%Q -> (B2Q c == B2Q lat)%Q) /\
  ((90 <= B2Q lat)%Q -> (B2Q c == 90)%Q) /\
  ((B2Q lat <= -90)%Q -> (B2Q c == -90)%Q).
Proof.
  intros Fl. unfold sonnet_geo._clamp_latitude, PyFloat.max, PyFloat.min.
  unfold sonnet_geo.LAT_RANGE. cbn [fst snd].
  pose proof (ltb_iff 90 lat eq_refl Fl) as H1. rewrite B2Q_90 in H1.
  destruct (90 <? lat)%float.
  - assert (90 < B2Q lat)%Q by now apply H1.
    change (-90 <? 90)%float with true. cbv iota zeta. rewrite B2Q_90.
    split; [ reflexivity | ]. repeat split; intros; lra.
  - assert (~ (90 < B2Q lat)%Q) by (intros K; apply H1 in K; discriminate).
    pose proof (ltb_iff (-90) lat eq_refl Fl) as H2. rewrite B2Q_m90 in H2.
    destruct (-90 <? lat)%float; cbv zeta.
    + assert (-90 < B2Q lat)%Q by now apply H2.
      split; [ exact Fl | ]. repeat split; intros; lra.
    + assert (~ (-90 < B2Q lat)%Q) by (intros K; apply H2 in K; discriminate).
      rewrite B2Q_m90. split; [ reflexivity | ]. repeat split; intros; lra.
Qed.

(** [max(min(lat, 90.0), -90.0)] *)
Lemma codex_clamp_range lat :
  finite lat = true ->
  let c := PyFloat.max (PyFloat.min lat 90) (-90) in
  finite c = true /\ (-90 <= B2Q c)%Q /\ (B2Q c <= 90)%Q /\
  ((-90 <= B2Q lat)%Q -> (B2Q lat <= 90)%Q -> (B2Q c == B2Q lat)%Q) /\
  ((90 <= B2Q lat)%Q -> (B2Q c == 90)%Q) /\
  ((B2Q lat <= -90)%Q -> (B2Q c == -90)%Q).
Proof.
  intros Fl. unfold PyFloat.max, PyFloat.min.
  pose proof (ltb_iff 90 lat eq_refl Fl) as H1. rewrite B2Q_90 in H1.
  destruct (90 <? lat)%float.
  - assert (90 < B2Q lat)%Q by now apply H1.
    change (90 <? -90)%float with false. cbv iota zeta. rewrite B2Q_90.
    split; [ reflexivity | ]. repeat split; intros; lra.
  - assert (~ (90 < B2Q lat)%Q) by (intros K; apply H1 in K; discriminate).
    pose proof (ltb_iff lat (-90) Fl eq_refl) as H2. rewrite B2Q_m90 in H2.
    destruct (lat <? -90)%float; cbv zeta.
    + assert (B2Q lat < -90)%Q by now apply H2.
      rewrite B2Q_m90. split; [ reflexivity | ]. repeat split; intros; lra.
    + assert (~ (B2Q lat < -90)%Q) by (intros K; apply H2 in K; discriminate).
      split; [ exact Fl | ]. repeat split; intros; lra.
Qed.

End Wrapping.

(** * [codex_geo] computes what [sonnet_geo] computes *)

Section Variants.
Import Bin64 Rounding.

Lemma codex_refine_bit_eq itv b :
  codex_geo.refine_bit itv b = sonnet_geo.refine_bit itv b.
Proof. destruct itv. reflexivity. Qed.

Lemma codex_refine_eq bits : forall itv,
  codex_geo._refine_interval bits itv = sonnet_geo._refine_interval bits itv.
Proof.
  unfold codex_geo._refine_interval, sonnet_geo._refine_interval.
  induction bits as [ | b bits IH ]; intros itv; cbn [fold_left].
  - reflexivity.
  - rewrite codex_refine_bit_eq. apply IH.
Qed.

Lemma codex_geohash_to_bits_from_eq l : forall acc,
  forallb in_alphabet l = true ->
  codex_geo._geohash_to_bits_from acc l = sonnet_geo._geohash_to_bits_from acc l.
Proof.
  induction l as [ | c l IH ]; intros acc H.
  - reflexivity.
  - cbn [forallb] in H. apply andb_true_iff in H. destruct H as [Hc Hl].
    cbn [codex_geo._geohash_to_bits_from sonnet_geo._geohash_to_bits_from].
    change codex_geo.BASE32_DECODE_MAP with sonnet_geo.BASE32_DECODE_MAP.
    apply decode_map_alphabet in Hc.
    destruct (dict_get sonnet_geo.BASE32_DECODE_MAP c) as [ v | ]; [ | congruence ].
    apply IH, Hl.
Qed.

Lemma codex_geohash_to_bits_eq h :
  valid_geohash h = true ->
  codex_geo._geohash_to_bits h = sonnet_geo._geohash_to_bits h.
Proof. intros H. apply codex_geohash_to_bits_from_eq, H. Qed.

Lemma pack_bit_sim st b :
  result_map pack_sim (codex_geo.pack_bit st b)
  = sonnet_geo.pack_bit (result_map pack_sim st) b.
Proof.
  destruct st as [ [cs a n] | e ]; [ | reflexivity ].
  unfold codex_geo.pack_bit, sonnet_geo.pack_bit, pack_sim.
  cbn [bind result_map codex_geo.geohash_chars codex_geo.accumulator codex_geo.count
       sonnet_geo.geohash_chars sonnet_geo.accumulator sonnet_geo.count].
  change codex_geo.BITS_PER_CHAR with sonnet_geo.BITS_PER_CHAR.
  change codex_geo.BASE32_ALPHABET with sonnet_geo.BASE32_ALPHABET.
  destruct (n + 1 =? sonnet_geo.BITS_PER_CHAR); [ | reflexivity ].
  destruct (py_index _ _); reflexivity.
Qed.

Lemma pack_fold_sim bits : forall st,
  result_map pack_sim (fold_left codex_geo.pack_bit bits st)
  = fold_left sonnet_geo.pack_bit bits (result_map pack_sim st).
Proof.
  induction bits as [ | b bits IH ]; intros st; cbn [fold_left].
  - reflexivity.
  - rewrite IH, pack_bit_sim. reflexivity.
Qed.

Lemma codex_bits_to_geohash_eq bits :
  codex_geo._bits_to_geohash bits = sonnet_geo._bits_to_geohash bits.
Proof.
  unfold codex_geo._bits_to_geohash, sonnet_geo._bits_to_geohash.
  change codex_geo.BITS_PER_CHAR with sonnet_geo.BITS_PER_CHAR.
  destruct (negb _); [ reflexivity | ].
  pose proof (pack_fold_sim bits (Ok (codex_geo.mkPack [] 0 0))) as H.
  cbn [result_map] in H. change (pack_sim (codex_geo.mkPack [] 0 0))
    with (sonnet_geo.mkPack [] 0 0) in H.
  rewrite <- H.
  destruct (fold_left codex_geo.pack_bit bits _) as [ [cs a n] | e ]; reflexivity.
Qed.

Lemma encode_step_sim lon lat st :
  enc_sim (codex_geo.encode_step lon lat st)
  = sonnet_geo.encode_step lon lat (enc_sim st).
Proof.
  destruct st as [I J bs u].
  unfold codex_geo.encode_step, sonnet_geo.encode_step, enc_sim.
  cbn [codex_geo.lon_interval codex_geo.lat_interval codex_geo.bits codex_geo.use_lon
       sonnet_geo.lon_interval sonnet_geo.lat_interval sonnet_geo.bits sonnet_geo.use_lon].
  destruct u; destruct (_ <=? _)%float; reflexivity.
Qed.

Lemma encode_loop_sim lon lat n : forall st,
  enc_sim (codex_geo.encode_loop n lon lat st)
  = sonnet_geo.encode_loop n lon lat (enc_sim st).
Proof.
  induction n as [ | n IH ]; intros st; cbn [codex_geo.encode_loop sonnet_geo.encode_loop].
  - reflexivity.
  - rewrite IH, encode_step_sim. reflexivity.
Qed.

(** Past its validation, [encode] packs the bits its loop collects. *)
Lemma codex_encode_unfold lon lat p :
  0 < p ->
  codex_geo.encode lon lat p
  = sonnet_geo._bits_to_geohash
      (sonnet_geo.bits (sonnet_geo.encode_loop (Z.to_nat (p * 5)) lon lat encode_start)).
Proof.
  intros Hp. unfold codex_geo.encode, codex_geo._total_bits.
  destruct (Z.leb_spec p 0) as [ | _ ]; [ lia | ]. cbn [bind].
  rewrite codex_bits_to_geohash_eq. f_equal.
  change (codex_geo.bits ?s) with (sonnet_geo.bits (enc_sim s)).
  rewrite encode_loop_sim. reflexivity.
Qed.

Lemma sonnet_encode_unfold lon lat p :
  (-90 <=? lat)%float = true -> (lat <=? 90)%float = true ->
  (-180 <=? lon)%float = true -> (lon <=? 180)%float = true ->
  0 < p ->
  sonnet_geo.encode lon lat p
  = sonnet_geo._bits_to_geohash
      (sonnet_geo.bits (sonnet_geo.encode_loop (Z.to_nat (p * 5)) lon lat encode_start)).
Proof.
  intros H1 H2 H3 H4 Hp. unfold sonnet_geo.encode, sonnet_geo._total_bits.
  unfold sonnet_geo.LAT_RANGE, sonnet_geo.LON_RANGE. cbn [fst snd].
  rewrite H1, H2, H3, H4. cbn [andb negb].
  destruct (Z.leb_spec p 0) as [ | _ ]; [ lia | ]. reflexivity.
Qed.

(** The loop of [encode] always yields [5 * precision] bits, which pack
    into [precision] symbols: no coordinate makes it fail. *)
Lemma encode_loop_packs lon lat p :
  0 < p ->
  exists h,
    sonnet_geo._bits_to_geohash
      (sonnet_geo.bits (sonnet_geo.encode_loop (Z.to_nat (p * 5)) lon lat encode_start))
    = Ok h /\
    String.length h = Z.to_nat p /\ valid_geohash h = true.
Proof.
  intros Hp.
  destruct (encode_loop_spec lon lat (Z.to_nat (p * 5)) encode_start)
    as (new & H1 & H2 & H3 & _).
  cbn [sonnet_geo.bits encode_start app] in H1. rewrite H1.
  assert (Hl : List.length new = (5 * Z.to_nat p)%nat) by lia.
  destruct (bits_to_geohash_ok new (Z.to_nat p) H3 Hl) as (h & E1 & E2 & E3 & _).
  exists h. auto.
Qed.

End Variants.

(** * The candidates of [neighbors] *)

Section Candidates.
Import Bin64 Rounding.

Lemma B2Q_2 : (B2Q 2 == 2)%Q.
Proof. reflexivity. Qed.

Lemma half_width lo hi :
  bounded_interval (lo, hi) -> (-180 <= B2Q lo)%Q -> (B2Q hi <= 180)%Q ->
  finite ((hi - lo) / 2) = true /\
  (0 <= B2Q ((hi - lo) / 2))%Q /\ (B2Q ((hi - lo) / 2) <= 180)%Q.
Proof.
  intros (Fl & Fh & B1 & B2 & B3) L H. cbn [fst snd] in *.
  destruct (sub_bounds hi lo 0 360 Fh Fl format_0) as (Fd & D1 & D2); try lra.
  { apply (format_Z 360). lia. }
  { apply in_range_small; lra. }
  apply half_bounds; try assumption; try lra.
  - apply format_0.
  - apply format_180.
  - apply in_range_small; lra.
Qed.

(** [c + d * (e * 2)] for a centre [c], a half-width [e] and a step
    [d] of -1, 0 or 1. *)
Lemma candidate_bounds c e d :
  finite c = true -> (-180 <= B2Q c)%Q -> (B2Q c <= 180)%Q ->
  finite e = true -> (0 <= B2Q e)%Q -> (B2Q e <= 180)%Q ->
  In d [1; 0; -1] ->
  let x := (c + PyFloat.of_int d * (e * 2))%float in
  finite x = true /\ (-1000 <= B2Q x)%Q /\ (B2Q x <= 1000)%Q /\
  (d = 0 -> (B2Q x == B2Q c)%Q).
Proof.
  intros Fc C1 C2 Fe E1 E2 Hd.
  assert (F360 : format 360%Q) by (apply (format_Z 360); lia).
  assert (Fm360 : format (-360)%Q) by (apply (format_Z (-360)); lia).
  destruct (mul_bounds e 2 0 360 Fe eq_refl format_0 F360) as (Fs & S1 & S2);
    try (rewrite B2Q_2; lra).
  { apply in_range_small; lra. }
  set (s := (e * 2)%float) in *.
  destruct Hd as [ <- | [ <- | [ <- | [] ] ] ]; cbv zeta.
  - assert (V : (B2Q (PyFloat.of_int 1) == 1)%Q) by reflexivity.
    destruct (mul_bounds (PyFloat.of_int 1) s 0 360 eq_refl Fs format_0 F360)
      as (Fp & P1 & P2); try (rewrite V; lra).
    { apply in_range_small; lra. }
    destruct (add_bounds c (PyFloat.of_int 1 * s) (-540) 540 Fc Fp) as (Fx & X1 & X2);
      try lra.
    { apply (format_Z (-540)). lia. }
    { apply (format_Z 540). lia. }
    { apply in_range_small; lra. }
    repeat split; try assumption; try lra. intros K; discriminate K.
  - assert (V : (B2Q (PyFloat.of_int 0) == 0)%Q) by reflexivity.
    destruct (mul_bounds (PyFloat.of_int 0) s 0 0 eq_refl Fs format_0 format_0)
      as (Fp & P1 & P2); try (rewrite V; lra).
    { apply in_range_small; lra. }
    destruct (add_bounds c (PyFloat.of_int 0 * s) (B2Q c) (B2Q c) Fc Fp) as (Fx & X1 & X2);
      try lra; try apply B2Q_format.
    { split; apply B2Q_in_range. }
    repeat split; try assumption; try lra.
  - assert (V : (B2Q (PyFloat.of_int (-1)) == -1)%Q) by reflexivity.
    destruct (mul_bounds (PyFloat.of_int (-1)) s (-360) 0 eq_refl Fs Fm360 format_0)
      as (Fp & P1 & P2); try (rewrite V; lra).
    { apply in_range_small; lra. }
    destruct (add_bounds c (PyFloat.of_int (-1) * s) (-540) 540 Fc Fp) as (Fx & X1 & X2);
      try lra.
    { apply (format_Z (-540)). lia. }
    { apply (format_Z 540). lia. }
    { apply in_range_small; lra. }
    repeat split; try assumption; try lra. intros K; discriminate K.
Qed.

Lemma axis_centred bits itv (r : Q) :
  bounded_interval itv ->
  (B2Q (fst itv) == - r)%Q -> (B2Q (snd itv) == r)%Q -> (r <= 180)%Q ->
  let I := sonnet_geo._refine_interval bits itv in
  centred ((fst I + snd I) / 2) ((snd I - fst I) / 2) r.
Proof.
  intros Hb E1 E2 Hr I.
  pose proof (refine_nested bits itv Hb) as Hn. fold I in Hn.
  pose proof (nested_bounded _ _ Hn Hb) as HI.
  destruct I as [lo hi]. cbn [fst snd] in *.
  destruct Hn as (Fl & Fh & N1 & N2 & N3). cbn [fst snd] in *.
  destruct (mid_bounds lo hi HI) as (Fm & M1 & M2).
  destruct (half_width lo hi HI) as (Fe & W1 & W2); try lra.
  unfold centred. repeat split; try assumption; lra.
Qed.

Lemma sonnet_decode_centred h :
  valid_geohash h = true ->
  exists cell,
    sonnet_geo.decode h = Ok cell /\
    centred (sonnet_geo.lon cell) (sonnet_geo.lon_err cell) 180 /\
    centred (sonnet_geo.lat cell) (sonnet_geo.lat_err cell) 90.
Proof.
  intros Hv. destruct (geohash_to_bits_ok h Hv) as (bs & E & _).
  eexists. unfold sonnet_geo.decode. rewrite (from_geohash_eq h bs E).
  split; [ reflexivity | ].
  cbn [sonnet_geo.lon sonnet_geo.lat sonnet_geo.lon_err sonnet_geo.lat_err]. split.
  - apply axis_centred; [ apply lon_range_bounded | apply B2Q_m180 | apply B2Q_180 | lra ].
  - apply axis_centred; [ apply lat_range_bounded | apply B2Q_m90 | apply B2Q_90 | lra ].
Qed.

(** [sum(interval)] starts from the integer 0; adding it changes nothing
    but the sign of a zero. *)
Lemma zero_plus x :
  finite x = true -> (-1000 <= B2Q x)%Q -> (B2Q x <= 1000)%Q ->
  finite (0 + x) = true /\ (B2Q (0 + x) == B2Q x)%Q.
Proof.
  intros Fx X1 X2.
  assert (V0 : (B2Q 0 == 0)%Q) by reflexivity.
  destruct (add_exact 0 x eq_refl Fx) as [F1 F2].
  - apply (format_proper (B2Q x)); [ rewrite V0; lra | apply B2Q_format ].
  - apply in_range_small; rewrite V0; lra.
  - split; [ exact F1 | rewrite F2, V0; lra ].
Qed.

Lemma axis_centred_sum bits itv (r : Q) :
  bounded_interval itv ->
  (B2Q (fst itv) == - r)%Q -> (B2Q (snd itv) == r)%Q -> (r <= 180)%Q ->
  let I := sonnet_geo._refine_interval bits itv in
  centred (PyFloat.sum2 (fst I) (snd I) / 2) ((snd I - fst I) / 2) r.
Proof.
  intros Hb E1 E2 Hr I.
  pose proof (refine_nested bits itv Hb) as Hn. fold I in Hn.
  pose proof (nested_bounded _ _ Hn Hb) as HI.
  destruct I as [lo hi]. cbn [fst snd] in *.
  destruct Hn as (Fl & Fh & N1 & N2 & N3). cbn [fst snd] in *.
  destruct (half_width lo hi HI) as (Fe & W1 & W2); try lra.
  destruct HI as (_ & _ & B1 & B2 & B3). cbn [fst snd] in *.
  destruct (zero_plus lo Fl B1 ltac:(lra)) as [Fz Ez].
  destruct (mid_bounds (0 + lo) hi) as (Fm & M1 & M2).
  { unfold bounded_interval; cbn [fst snd]. repeat split; try assumption; lra. }
  unfold centred, PyFloat.sum2. repeat split; try assumption; lra.
Qed.

Lemma codex_decode_centred h :
  valid_geohash h = true ->
  exists cell,
    codex_geo.decode_cell h = Ok cell /\
    centred (codex_geo.lon cell) (codex_geo.lon_err cell) 180 /\
    centred (codex_geo.lat cell) (codex_geo.lat_err cell) 90.
Proof.
  intros Hv. destruct (geohash_to_bits_ok h Hv) as (bs & E & _).
  unfold codex_geo.decode_cell. rewrite (codex_geohash_to_bits_eq h Hv), E.
  cbn [bind]. rewrite !codex_refine_eq. eexists. split; [ reflexivity | ].
  cbn [codex_geo.lon codex_geo.lat codex_geo.lon_err codex_geo.lat_err].
  change (-180, 180)%float with sonnet_geo.LON_RANGE.
  change (-90, 90)%float with sonnet_geo.LAT_RANGE. split.
  - apply axis_centred_sum; [ apply lon_range_bounded | apply B2Q_m180 | apply B2Q_180 | lra ].
  - apply axis_centred_sum; [ apply lat_range_bounded | apply B2Q_m90 | apply B2Q_90 | lra ].
Qed.

(** A float with a value in [[lo, hi]] passes the chained comparison
    [lo <= x <= hi] of [encode]. *)
Lemma in_range_test x :
  finite x = true ->
  ((-180 <= B2Q x)%Q -> (B2Q x <= 180)%Q ->
   (-180 <=? x)%float = true /\ (x <=? 180)%float = true) /\
  ((-90 <= B2Q x)%Q -> (B2Q x <= 90)%Q ->
   (-90 <=? x)%float = true /\ (x <=? 90)%float = true).
Proof.
  intros Fx. split; intros H1 H2; split; apply leb_iff; try assumption; try reflexivity.
  - now rewrite B2Q_m180.
  - now rewrite B2Q_180.
  - now rewrite B2Q_m90.
  - now rewrite B2Q_90.
Qed.

(** Each of the nine candidates of [sonnet_geo.neighbors] is in range,
    so that [encode] accepts it. *)
Lemma sonnet_neighbor_ok cell p dx dy :
  centred (sonnet_geo.lon cell) (sonnet_geo.lon_err cell) 180 ->
  centred (sonnet_geo.lat cell) (sonnet_geo.lat_err cell) 90 ->
  0 < p -> In dx [1; 0; -1] -> In dy [1; 0; -1] ->
  exists lon' s,
    sonnet_geo._wrap_longitude
      (sonnet_geo.lon cell + PyFloat.of_int dx * (sonnet_geo.lon_err cell * 2)) = Ok lon' /\
    (-180 <=? lon')%float = true /\ (lon' <? 180)%float = true /\
    let lat' := sonnet_geo._clamp_latitude
                  (sonnet_geo.lat cell + PyFloat.of_int dy * (sonnet_geo.lat_err cell * 2)) in
    (-90 <=? lat')%float = true /\ (lat' <=? 90)%float = true /\
    sonnet_neighbor cell p dx dy = Ok s /\
    sonnet_geo.encode lon' lat' p = Ok s /\
    String.length s = Z.to_nat p /\ valid_geohash s = true.
Proof.
  intros (Fc & Fe & C1 & C2 & E1 & E2) (Fc' & Fe' & C1' & C2' & E1' & E2') Hp Hx Hy.
  destruct (candidate_bounds _ _ dx Fc ltac:(lra) ltac:(lra) Fe E1 E2 Hx) as (Fx & X1 & X2 & _).
  destruct (candidate_bounds _ _ dy Fc' ltac:(lra) ltac:(lra) Fe' E1' E2' Hy) as (Fy & _).
  destruct (sonnet_wrap_range _ Fx X1 X2) as (lon' & Ew & Fl & L1 & L2 & _).
  destruct (sonnet_clamp_range _ Fy) as (Ft & T1 & T2 & _).
  set (lat' := sonnet_geo._clamp_latitude _) in *.
  destruct (in_range_test lon' Fl) as [[R1 R2] _]; [ lra | lra | ].
  destruct (in_range_test lat' Ft) as [_ [R3 R4]]; [ lra | lra | ].
  assert (R5 : (lon' <? 180)%float = true).
  { apply ltb_iff; [ assumption | reflexivity | now rewrite B2Q_180 ]. }
  destruct (encode_loop_packs lon' lat' p Hp) as (s & Es & Ls & Vs).
  rewrite <- (sonnet_encode_unfold lon' lat' p R3 R4 R1 R2 Hp) in Es.
  exists lon', s. split; [ exact Ew | ]. split; [ exact R1 | ]. split; [ exact R5 | ].
  cbv zeta. fold lat'. split; [ exact R3 | ]. split; [ exact R4 | ].
  split; [ | auto ].
  unfold sonnet_neighbor. rewrite Ew. cbn [bind]. fold lat'. exact Es.
Qed.

Lemma codex_neighbor_ok cell p dx dy :
  centred (codex_geo.lon cell) (codex_geo.lon_err cell) 180 ->
  centred (codex_geo.lat cell) (codex_geo.lat_err cell) 90 ->
  0 < p -> In dx [1; 0; -1] -> In dy [1; 0; -1] ->
  exists lon' s,
    codex_geo._wrap_longitude
      (codex_geo.lon cell + PyFloat.of_int dx * (codex_geo.lon_err cell * 2)) = Ok lon' /\
    (-180 <=? lon')%float = true /\ (lon' <? 180)%float = true /\
    let lat' := PyFloat.max
                  (PyFloat.min
                     (codex_geo.lat cell + PyFloat.of_int dy * (codex_geo.lat_err cell * 2))
                     90)
                  (-90) in
    (-90 <=? lat')%float = true /\ (lat' <=? 90)%float = true /\
    codex_neighbor cell p dx dy = Ok s /\
    codex_geo.encode lon' lat' p = Ok s /\
    String.length s = Z.to_nat p /\ valid_geohash s = true.
Proof.
  intros (Fc & Fe & C1 & C2 & E1 & E2) (Fc' & Fe' & C1' & C2' & E1' & E2') Hp Hx Hy.
  destruct (candidate_bounds _ _ dx Fc ltac:(lra) ltac:(lra) Fe E1 E2 Hx) as (Fx & X1 & X2 & _).
  destruct (candidate_bounds _ _ dy Fc' ltac:(lra) ltac:(lra) Fe' E1' E2' Hy) as (Fy & _).
  destruct (codex_wrap_range _ Fx X1 X2) as (lon' & Ew & Fl & L1 & L2).
  destruct (codex_clamp_range _ Fy) as (Ft & T1 & T2 & _).
  set (lat' := PyFloat.max _ _) in *.
  destruct (in_range_test lon' Fl) as [[R1 R2] _]; [ lra | lra | ].
  destruct (in_range_test lat' Ft) as [_ [R3 R4]]; [ lra | lra | ].
  assert (R5 : (lon' <? 180)%float = true).
  { apply ltb_iff; [ assumption | reflexivity | now rewrite B2Q_180 ]. }
  destruct (encode_loop_packs lon' lat' p Hp) as (s & Es & Ls & Vs).
  rewrite <- (codex_encode_unfold lon' lat' p Hp) in Es.
  exists lon', s. split; [ exact Ew | ]. split; [ exact R1 | ]. split; [ exact R5 | ].
  cbv zeta. fold lat'. split; [ exact R3 | ]. split; [ exact R4 | ].
  split; [ | auto ].
  unfold codex_neighbor. rewrite Ew. cbn [bind]. fold lat'. exact Es.
Qed.

End Candidates.

(** * [neighbors] *)

Section Neighbours.
Import Bin64 Rounding.

Lemma sonnet_neighbors_unfold h :
  sonnet_geo.neighbors h =
  (cell <- sonnet_geo.decode h ;;
   rows <- mapM (fun dy =>
             mapM (fun dx => sonnet_neighbor cell (Z.of_nat (String.length h)) dx dy)
                  [-1; 0; 1])
           [1; 0; -1] ;;
   Ok (List.concat rows)).
Proof. reflexivity. Qed.

Lemma nonempty_length (h : string) : h <> ""%string -> 0 < Z.of_nat (String.length h).
Proof. destruct h; [ congruence | cbn [String.length]; lia ]. Qed.

Lemma sonnet_neighbors_rows h :
  valid_geohash h = true -> h <> ""%string ->
  exists cell nw n ne w c e sw s se,
    sonnet_geo.decode h = Ok cell /\
    sonnet_geo.neighbors h = Ok [nw; n; ne; w; c; e; sw; s; se] /\
    sonnet_neighbor cell (Z.of_nat (String.length h)) (-1) 1 = Ok nw /\
    sonnet_neighbor cell (Z.of_nat (String.length h)) 0 1 = Ok n /\
    sonnet_neighbor cell (Z.of_nat (String.length h)) 1 1 = Ok ne /\
    sonnet_neighbor cell (Z.of_nat (String.length h)) (-1) 0 = Ok w /\
    sonnet_neighbor cell (Z.of_nat (String.length h)) 0 0 = Ok c /\
    sonnet_neighbor cell (Z.of_nat (String.length h)) 1 0 = Ok e /\
    sonnet_neighbor cell (Z.of_nat (String.length h)) (-1) (-1) = Ok sw /\
    sonnet_neighbor cell (Z.of_nat (String.length h)) 0 (-1) = Ok s /\
    sonnet_neighbor cell (Z.of_nat (String.length h)) 1 (-1) = Ok se /\
    Forall (fun g => String.length g = String.length h /\ valid_geohash g = true)
           [nw; n; ne; w; c; e; sw; s; se].
Proof.
  intros Hv Hne. apply nonempty_length in Hne.
  destruct (sonnet_decode_centred h Hv) as (cell & Ed & Cn & Ct).
  set (p := Z.of_nat (String.length h)) in *.
  assert (N : forall dx dy, In dx [1; 0; -1] -> In dy [1; 0; -1] ->
            exists s, sonnet_neighbor cell p dx dy = Ok s /\
                      String.length s = String.length h /\ valid_geohash s = true).
  { intros dx dy Hx Hy.
    destruct (sonnet_neighbor_ok cell p dx dy Cn Ct Hne Hx Hy)
      as (lon' & s & _ & _ & _ & _ & _ & E & _ & L & V).
    exists s. unfold p in L. rewrite Nat2Z.id in L. auto. }
  destruct (N (-1) 1) as (nw & E1 & L1); [ cbn; tauto | cbn; tauto | ].
  destruct (N 0 1) as (n & E2 & L2); [ cbn; tauto | cbn; tauto | ].
  destruct (N 1 1) as (ne & E3 & L3); [ cbn; tauto | cbn; tauto | ].
  destruct (N (-1) 0) as (w & E4 & L4); [ cbn; tauto | cbn; tauto | ].
  destruct (N 0 0) as (c & E5 & L5); [ cbn; tauto | cbn; tauto | ].
  destruct (N 1 0) as (e & E6 & L6); [ cbn; tauto | cbn; tauto | ].
  destruct (N (-1) (-1)) as (sw & E7 & L7); [ cbn; tauto | cbn; tauto | ].
  destruct (N 0 (-1)) as (s & E8 & L8); [ cbn; tauto | cbn; tauto | ].
  destruct (N 1 (-1)) as (se & E9 & L9); [ cbn; tauto | cbn; tauto | ].
  exists cell, nw, n, ne, w, c, e, sw, s, se.
  split; [ exact Ed | ]. split.
  - rewrite sonnet_neighbors_unfold, Ed. fold p. cbn [bind mapM].
    rewrite E1, E2, E3, E4, E5, E6, E7, E8, E9. reflexivity.
  - do 9 (split; [ assumption | ]). repeat (apply Forall_cons; [ assumption | ]). apply Forall_nil.
Qed.

Lemma codex_decode_pointerr h cell :
  codex_geo.decode_cell h = Ok cell ->
  codex_geo.decode h "pointerr" = Ok (codex_geo.PointErr (codex_geo.to_pointerr cell)).
Proof. intros E. unfold codex_geo.decode. rewrite E. reflexivity. Qed.

Lemma codex_neighbors_columns h :
  valid_geohash h = true -> h <> ""%string ->
  exists cell nw n ne w c e sw s se,
    codex_geo.decode_cell h = Ok cell /\
    codex_geo.neighbors h = Ok [nw; w; sw; n; c; s; ne; e; se] /\
    codex_neighbor cell (Z.of_nat (String.length h)) (-1) 1 = Ok nw /\
    codex_neighbor cell (Z.of_nat (String.length h)) 0 1 = Ok n /\
    codex_neighbor cell (Z.of_nat (String.length h)) 1 1 = Ok ne /\
    codex_neighbor cell (Z.of_nat (String.length h)) (-1) 0 = Ok w /\
    codex_neighbor cell (Z.of_nat (String.length h)) 0 0 = Ok c /\
    codex_neighbor cell (Z.of_nat (String.length h)) 1 0 = Ok e /\
    codex_neighbor cell (Z.of_nat (String.length h)) (-1) (-1) = Ok sw /\
    codex_neighbor cell (Z.of_nat (String.length h)) 0 (-1) = Ok s /\
    codex_neighbor cell (Z.of_nat (String.length h)) 1 (-1) = Ok se /\
    Forall (fun g => String.length g = String.length h /\ valid_geohash g = true)
           [nw; w; sw; n; c; s; ne; e; se].
Proof.
  intros Hv Hne. apply nonempty_length in Hne.
  destruct (codex_decode_centred h Hv) as (cell & Ed & Cn & Ct).
  set (p := Z.of_nat (String.length h)) in *.
  assert (N : forall dx, In dx [1; 0; -1] ->
            exists lon',
              codex_geo._wrap_longitude
                (codex_geo.lon cell + PyFloat.of_int dx * (codex_geo.lon_err cell * 2))
              = Ok lon' /\
              forall dy, In dy [1; 0; -1] ->
              exists s,
                codex_geo.encode lon'
                  (PyFloat.max
                     (PyFloat.min
                        (codex_geo.lat cell
                         + PyFloat.of_int dy * (codex_geo.lat_err cell * 2)) 90) (-90)) p
                = Ok s /\
                codex_neighbor cell p dx dy = Ok s /\
                String.length s = String.length h /\ valid_geohash s = true).
  { intros dx Hx.
    destruct (codex_neighbor_ok cell p dx 0 Cn Ct Hne Hx ltac:(cbn; tauto))
      as (lon' & _ & Ew & _).
    exists lon'. split; [ exact Ew | ]. intros dy Hy.
    destruct (codex_neighbor_ok cell p dx dy Cn Ct Hne Hx Hy)
      as (lon'' & s & Ew' & _ & _ & _ & _ & E & E' & L & V).
    rewrite Ew in Ew'. injection Ew' as <-.
    exists s. unfold p in L. rewrite Nat2Z.id in L. auto. }
  destruct (N (-1)) as (a & Wa & Na); [ cbn; tauto | ].
  destruct (N 0) as (b & Wb & Nb); [ cbn; tauto | ].
  destruct (N 1) as (d & Wd & Nd); [ cbn; tauto | ].
  destruct (Na 1) as (nw & E1 & K1 & L1); [ cbn; tauto | ].
  destruct (Na 0) as (w & E2 & K2 & L2); [ cbn; tauto | ].
  destruct (Na (-1)) as (sw & E3 & K3 & L3); [ cbn; tauto | ].
  destruct (Nb 1) as (n & E4 & K4 & L4); [ cbn; tauto | ].
  destruct (Nb 0) as (c & E5 & K5 & L5); [ cbn; tauto | ].
  destruct (Nb (-1)) as (s & E6 & K6 & L6); [ cbn; tauto | ].
  destruct (Nd 1) as (ne & E7 & K7 & L7); [ cbn; tauto | ].
  destruct (Nd 0) as (e & E8 & K8 & L8); [ cbn; tauto | ].
  destruct (Nd (-1)) as (se & E9 & K9 & L9); [ cbn; tauto | ].
  exists cell, nw, n, ne, w, c, e, sw, s, se.
  split; [ exact Ed | ]. split.
  - unfold codex_geo.neighbors. rewrite (codex_decode_pointerr h cell Ed).
    cbn [bind codex_geo.to_pointerr]. fold p. cbn [mapM].
    rewrite Wa, Wb, Wd. cbn [bind].
    rewrite E1, E2, E3, E4, E5, E6, E7, E8, E9. reflexivity.
  - do 9 (split; [ assumption | ]). repeat (apply Forall_cons; [ assumption | ]). apply Forall_nil.
Qed.

End Neighbours.

(** * [geohash.py]: strings of bits *)

Section Legacy.
Import geohash.

Lemma is_bit_cases c : is_bit c = true -> c = "0"%char \/ c = "1"%char.
Proof.
  destruct c as [[] [] [] [] [] [] [] []]; cbn; intros H; try discriminate H; auto.
Qed.

Lemma forallb_skipn {A} (f : A -> bool) n : forall l,
  forallb f l = true -> forallb f (skipn n l) = true.
Proof.
  induction n as [ | n IH ]; intros [ | a l ] H; cbn [skipn]; try assumption.
  cbn [forallb] in H. apply andb_true_iff in H. apply IH, H.
Qed.

Lemma forallb_firstn {A} (f : A -> bool) n : forall l,
  forallb f l = true -> forallb f (firstn n l) = true.
Proof.
  induction n as [ | n IH ]; intros [ | a l ] H; cbn [firstn forallb]; try reflexivity.
  cbn [forallb] in H. apply andb_true_iff in H. destruct H as [H1 H2].
  rewrite H1. apply IH, H2.
Qed.

Lemma py_index_ok {A} (l : list A) i :
  0 <= i < Z.of_nat (List.length l) -> exists a, py_index l i = Ok a.
Proof.
  intros H. unfold py_index.
  destruct (Z.ltb_spec i 0) as [ | _ ]; [ lia | ].
  destruct (Z.leb_spec 0 i) as [ _ | ]; [ | lia ].
  destruct (Z.ltb_spec i (Z.of_nat (List.length l))) as [ _ | ]; [ | lia ].
  cbn [andb]. destruct (nth_error l (Z.to_nat i)) as [ a | ] eqn:E.
  - now exists a.
  - apply nth_error_None in E. lia.
Qed.

(** [int(s, 2)] of five binary digits is a position of [base32]. *)
Lemma int2_five l :
  List.length l = 5%nat -> forallb is_bit l = true ->
  exists v, int2 l = Ok v /\ 0 <= v < 32.
Proof.
  destruct l as [ | a [ | b [ | c [ | d [ | e [ | ] ] ] ] ] ]; try discriminate.
  intros _ H. cbn [forallb] in H.
  apply andb_true_iff in H. destruct H as [Ha H].
  apply andb_true_iff in H. destruct H as [Hb H].
  apply andb_true_iff in H. destruct H as [Hc H].
  apply andb_true_iff in H. destruct H as [Hd H].
  apply andb_true_iff in H. destruct H as [He _].
  destruct (is_bit_cases a Ha), (is_bit_cases b Hb), (is_bit_cases c Hc),
    (is_bit_cases d Hd), (is_bit_cases e He); subst;
    (eexists; split; [ vm_compute; reflexivity | lia ]).
Qed.

Lemma pack_loop_ok n : forall i geobits acc,
  forallb is_bit geobits = true ->
  ((i + n) * 5 <= List.length geobits)%nat ->
  exists cs, pack_loop i n geobits acc = Ok (acc ++ cs) /\ List.length cs = n.
Proof.
  induction n as [ | n IH ]; intros i geobits acc Hb Hl; cbn [pack_loop].
  - exists []. now rewrite app_nil_r.
  - destruct (int2_five (slice geobits (i * 5) (i * 5 + 5))) as (v & Ev & Hv).
    + unfold slice. rewrite length_firstn, length_skipn. lia.
    + unfold slice. apply forallb_firstn, forallb_skipn, Hb.
    + rewrite Ev. cbn [bind].
      destruct (py_index_ok base32 v) as (c & Ec); [ cbn; lia | ].
      rewrite Ec. cbn [bind].
      destruct (IH (S i) geobits (acc ++ [c]) Hb) as (cs & E & L); [ lia | ].
      exists (c :: cs). rewrite E, <- app_assoc. cbn [app List.length]. auto.
Qed.

Lemma zip_join_bits a : forall b,
  forallb is_bit a = true -> forallb is_bit b = true ->
  forallb is_bit (zip_join a b) = true /\
  List.length (zip_join a b) = (List.length a + List.length b)%nat.
Proof.
  induction a as [ | x a IH ]; intros [ | y b ] Ha Hb; cbn [zip_join].
  - auto.
  - auto.
  - split; [ exact Ha | cbn [List.length]; lia ].
  - cbn [forallb] in Ha, Hb. apply andb_true_iff in Ha, Hb.
    destruct Ha as [Hx Ha], Hb as [Hy Hb].
    destruct (IH b Ha Hb) as [H1 H2]. cbn [forallb List.length].
    rewrite Hx, Hy, H1, H2. split; [ reflexivity | lia ].
Qed.

Lemma forallb_app_bit l c :
  forallb is_bit l = true -> is_bit c = true -> forallb is_bit (l ++ [c]) = true.
Proof. intros H1 H2. rewrite forallb_app, H1. cbn [forallb]. now rewrite H2. Qed.

Lemma get_bits_loop_bits n : forall degrees result tup_range,
  forallb is_bit result = true ->
  forallb is_bit (get_bits_loop n degrees result tup_range) = true /\
  List.length (get_bits_loop n degrees result tup_range) = (List.length result + n)%nat.
Proof.
  induction n as [ | n IH ]; intros degrees result tup_range H; cbn [get_bits_loop].
  - split; [ exact H | lia ].
  - destruct (_ <? degrees)%float.
    + destruct (IH degrees (result ++ ["1"%char]) (PyFloat.sum2 (fst tup_range) (snd tup_range) / 2, snd tup_range)%float) as [H1 H2].
      { now apply forallb_app_bit. }
      rewrite H1, H2, length_app. cbn [List.length]. split; [ reflexivity | lia ].
    + destruct (IH degrees (result ++ ["0"%char]) (fst tup_range, PyFloat.sum2 (fst tup_range) (snd tup_range) / 2)%float) as [H1 H2].
      { now apply forallb_app_bit. }
      rewrite H1, H2, length_app. cbn [List.length]. split; [ reflexivity | lia ].
Qed.

(** [geohash.encode] validates nothing and never fails. *)
Lemma legacy_encode_total lon lat p :
  exists h, geohash.encode lon lat p = Ok h /\ String.length h = Z.to_nat p.
Proof.
  unfold geohash.encode, get_bits. cbv beta zeta. cbn [Z.opp].
  set (n := Z.to_nat (p * 5 / 2 + (p * 5) mod 2)).
  destruct (get_bits_loop_bits n lon [] (PyFloat.of_int (- 180), PyFloat.of_int 180) eq_refl)
    as [A1 A2].
  destruct (get_bits_loop_bits n lat [] (PyFloat.of_int (- 90), PyFloat.of_int 90) eq_refl)
    as [B1 B2].
  destruct (zip_join_bits _ _ A1 B1) as [C1 C2].
  destruct (pack_loop_ok (Z.to_nat p) 0 _ [] C1) as (cs & E & L).
  { rewrite C2, A2, B2. cbn [List.length]. unfold n.
    pose proof (Z.div_mod (p * 5) 2 ltac:(lia)).
    pose proof (Z.mod_pos_bound (p * 5) 2 ltac:(lia)). lia. }
  rewrite E. cbn [bind app]. exists (string_of_list_ascii cs).
  split; [ reflexivity | ]. now rewrite string_length_of_list.
Qed.

(** ** The bits [neighbors] rebuilds *)

Lemma symbol_bits c :
  in_alphabet c = true ->
  exists v, dict_get dict32 c = Some v /\
            forallb is_bit (zfill (skipn 2 (bin v)) 5) = true /\
            List.length (zfill (skipn 2 (bin v)) 5) = 5%nat.
Proof.
  destruct c as [[] [] [] [] [] [] [] []]; intros H; vm_compute in H;
    try discriminate H; eexists; (split; [ reflexivity | ]); split; reflexivity.
Qed.

Lemma get_geobits_from_valid l : forall acc,
  forallb in_alphabet l = true -> forallb is_bit acc = true ->
  forallb is_bit (get_geobits_from acc l) = true /\
  List.length (get_geobits_from acc l) = (List.length acc + 5 * List.length l)%nat.
Proof.
  induction l as [ | c l IH ]; intros acc Hv Ha; cbn [get_geobits_from].
  - split; [ exact Ha | cbn [List.length]; lia ].
  - cbn [forallb] in Hv. apply andb_true_iff in Hv. destruct Hv as [Hc Hl].
    destruct (symbol_bits c Hc) as (v & E & B & L). rewrite E.
    destruct (IH (acc ++ zfill (skipn 2 (bin v)) 5) Hl) as [H1 H2].
    { now rewrite forallb_app, Ha, B. }
    split; [ exact H1 | ]. rewrite H2, length_app, L. cbn [List.length]. lia.
Qed.

Lemma get_geobits_valid h :
  valid_geohash h = true ->
  forallb is_bit (get_geobits h) = true /\
  List.length (get_geobits h) = (5 * String.length h)%nat.
Proof.
  intros Hv. destruct (get_geobits_from_valid (list_ascii_of_string h) [] Hv eq_refl)
    as [H1 H2].
  split; [ exact H1 | ]. unfold get_geobits. rewrite H2. cbn [List.length].
  now rewrite list_length_of_string.
Qed.

Lemma evens_odds_forallb {A} (f : A -> bool) (l : list A) :
  forallb f l = true -> forallb f (evens l) = true /\ forallb f (odds l) = true.
Proof.
  induction l as [ | a l IH ]; intros H.
  - auto.
  - cbn [forallb] in H. apply andb_true_iff in H. destruct H as [Ha Hl].
    destruct (IH Hl) as [H1 H2]. cbn [evens odds forallb]. rewrite Ha, H2. auto.
Qed.

(** [int(s, 2)] reads a non-empty string of binary digits as it is. *)
Lemma int2_bits l :
  l <> [] -> forallb is_bit l = true -> int2 l = Ok (bits_value l).
Proof.
  intros Hn Hb. unfold int2.
  assert (E : match l with
              | c0 :: c1 :: s' =>
                  if Ascii.eqb c0 "0" && (Ascii.eqb c1 "b" || Ascii.eqb c1 "B")
                  then s' else l
              | _ => l
              end = l).
  { destruct l as [ | c0 [ | c1 s' ] ]; try reflexivity.
    cbn [forallb] in Hb. apply andb_true_iff in Hb. destruct Hb as [_ Hb].
    apply andb_true_iff in Hb. destruct Hb as [H1 _].
    destruct (is_bit_cases c1 H1); subst; cbn; now rewrite andb_false_r. }
  rewrite E. destruct l; [ congruence | ]. now rewrite Hb.
Qed.

Lemma pos_digits_bits p : forall acc,
  forallb is_bit acc = true ->
  forallb is_bit (pos_digits p acc) = true /\
  List.length (pos_digits p acc) = (Pos.size_nat p + List.length acc)%nat.
Proof.
  induction p as [ p IH | p IH | ]; intros acc Ha; cbn [pos_digits Pos.size_nat].
  - destruct (IH ("1"%char :: acc)) as [H1 H2]; [ cbn [forallb]; now rewrite Ha | ].
    rewrite H1, H2. cbn [List.length]. split; [ reflexivity | lia ].
  - destruct (IH ("0"%char :: acc)) as [H1 H2]; [ cbn [forallb]; now rewrite Ha | ].
    rewrite H1, H2. cbn [List.length]. split; [ reflexivity | lia ].
  - cbn [forallb List.length]. rewrite Ha. split; [ reflexivity | lia ].
Qed.

Lemma size_nat_le p : forall w : nat, Z.pos p < 2 ^ Z.of_nat w -> (Pos.size_nat p <= w)%nat.
Proof.
  induction p as [ p IH | p IH | ]; intros w H; cbn [Pos.size_nat].
  - destruct w as [ | w ]; [ cbn in H; lia | ].
    rewrite Nat2Z.inj_succ, Z.pow_succ_r in H by lia.
    specialize (IH w ltac:(lia)). lia.
  - destruct w as [ | w ]; [ cbn in H; lia | ].
    rewrite Nat2Z.inj_succ, Z.pow_succ_r in H by lia.
    specialize (IH w ltac:(lia)). lia.
  - destruct w as [ | w ]; [ cbn in H; lia | lia ].
Qed.

Lemma zfill_bits s w :
  s <> [] -> forallb is_bit s = true -> (List.length s <= w)%nat ->
  forallb is_bit (zfill s w) = true /\ List.length (zfill s w) = w.
Proof.
  intros Hn Hb Hl. unfold zfill. destruct s as [ | c s ]; [ congruence | ].
  assert (Hc : is_bit c = true).
  { cbn [forallb] in Hb. apply andb_true_iff in Hb. apply Hb. }
  assert (E : Ascii.eqb c "+" || Ascii.eqb c "-" = false)
    by (destruct (is_bit_cases c Hc); subst; reflexivity).
  rewrite E. rewrite forallb_app, Hb, length_app, repeat_length. split; [ | lia ].
  rewrite andb_true_r. apply forallb_forall. intros x Hx.
  apply repeat_spec in Hx. now subst.
Qed.

(** [bin(i)[2:].zfill(w)] for [0 <= i < 2^w]: [w] binary digits. *)
Lemma bin_zfill_bits i (w : nat) :
  0 <= i < 2 ^ Z.of_nat w -> (1 <= w)%nat ->
  forallb is_bit (zfill (skipn 2 (bin i)) w) = true /\
  List.length (zfill (skipn 2 (bin i)) w) = w.
Proof.
  intros Hi Hw. destruct i as [ | p | p ]; [ | | lia ].
  - apply zfill_bits; cbn; [ congruence | reflexivity | lia ].
  - cbn [bin list_ascii_of_string app skipn].
    destruct (pos_digits_bits p [] eq_refl) as [H1 H2]. cbn [List.length] in H2.
    apply zfill_bits; [ | exact H1 | ].
    + intros E. rewrite E in H2. cbn in H2. destruct p; cbn in H2; lia.
    + rewrite H2, Nat.add_0_r. apply size_nat_le. lia.
Qed.

Lemma legacy_neighbor_ok (a b n : nat) i j :
  (a + b = 5 * n)%nat -> (1 <= a)%nat -> (1 <= b)%nat ->
  0 <= i < 2 ^ Z.of_nat a -> 0 <= j < 2 ^ Z.of_nat b ->
  exists s, legacy_neighbor a b n i j = Ok s /\ String.length s = n.
Proof.
  intros Hab Ha Hb Hi Hj. unfold legacy_neighbor. cbv zeta.
  destruct (bin_zfill_bits i a Hi Ha) as [A1 A2].
  destruct (bin_zfill_bits j b Hj Hb) as [B1 B2].
  destruct (zip_join_bits _ _ A1 B1) as [C1 C2].
  destruct (pack_loop_ok n 0 _ [] C1) as (cs & E & L); [ rewrite C2, A2, B2; lia | ].
  rewrite E. cbn [bind app]. exists (string_of_list_ascii cs).
  split; [ reflexivity | ]. now rewrite string_length_of_list.
Qed.

Lemma legacy_neighbors_unfold h :
  geohash.neighbors h =
  (let lon_bits := evens (get_geobits h) in
   let lat_bits := odds (get_geobits h) in
   lon_int <- int2 lon_bits ;;
   lat_int <- int2 lat_bits ;;
   cols <- mapM (fun i =>
             mapM (fun j =>
                     legacy_neighbor (List.length lon_bits) (List.length lat_bits)
                                     (String.length h) i j)
                  [lat_int + 1; lat_int; lat_int - 1])
           [lon_int - 1; lon_int; lon_int + 1] ;;
   Ok (List.concat cols)).
Proof. reflexivity. Qed.

(** Away from the edges of the map, [geohash.neighbors] returns nine
    geohashes, column by column. *)
Lemma legacy_neighbors_columns h x y :
  valid_geohash h = true -> h <> ""%string ->
  let lon_bits := evens (get_geobits h) in
  let lat_bits := odds (get_geobits h) in
  int2 lon_bits = Ok x -> int2 lat_bits = Ok y ->
  0 < x -> x + 1 < 2 ^ Z.of_nat (List.length lon_bits) ->
  0 < y -> y + 1 < 2 ^ Z.of_nat (List.length lat_bits) ->
  let cell := legacy_neighbor (List.length lon_bits) (List.length lat_bits)
                              (String.length h) in
  exists nw n ne w c e sw s se,
    geohash.neighbors h = Ok [nw; w; sw; n; c; s; ne; e; se] /\
    cell (x - 1) (y + 1) = Ok nw /\ cell x (y + 1) = Ok n /\
    cell (x + 1) (y + 1) = Ok ne /\
    cell (x - 1) y = Ok w /\ cell x y = Ok c /\ cell (x + 1) y = Ok e /\
    cell (x - 1) (y - 1) = Ok sw /\ cell x (y - 1) = Ok s /\
    cell (x + 1) (y - 1) = Ok se /\
    Forall (fun g => String.length g = String.length h)
           [nw; w; sw; n; c; s; ne; e; se].
Proof.
  intros Hv Hne lon_bits lat_bits Ex Ey X1 X2 Y1 Y2 cell.
  destruct (get_geobits_valid h Hv) as [G1 G2].
  pose proof (evens_odds_length (get_geobits h)) as [L1 L2].
  fold lon_bits lat_bits in L1, L2.
  assert (Hn : (1 <= String.length h)%nat) by (destruct h; [ congruence | cbn; lia ]).
  assert (N : forall i j, 0 <= i < 2 ^ Z.of_nat (List.length lon_bits) ->
                          0 <= j < 2 ^ Z.of_nat (List.length lat_bits) ->
                          exists s, cell i j = Ok s /\ String.length s = String.length h).
  { intros i j Hi Hj. apply legacy_neighbor_ok; try assumption; lia. }
  destruct (N (x - 1) (y + 1)) as (nw & E1 & K1); [ lia | lia | ].
  destruct (N (x - 1) y) as (w & E2 & K2); [ lia | lia | ].
  destruct (N (x - 1) (y - 1)) as (sw & E3 & K3); [ lia | lia | ].
  destruct (N x (y + 1)) as (n & E4 & K4); [ lia | lia | ].
  destruct (N x y) as (c & E5 & K5); [ lia | lia | ].
  destruct (N x (y - 1)) as (s & E6 & K6); [ lia | lia | ].
  destruct (N (x + 1) (y + 1)) as (ne & E7 & K7); [ lia | lia | ].
  destruct (N (x + 1) y) as (e & E8 & K8); [ lia | lia | ].
  destruct (N (x + 1) (y - 1)) as (se & E9 & K9); [ lia | lia | ].
  exists nw, n, ne, w, c, e, sw, s, se. split.
  - rewrite legacy_neighbors_unfold. cbv zeta. fold lon_bits lat_bits.
    rewrite Ex, Ey. cbn [bind mapM]. fold cell.
    rewrite E1, E2, E3, E4, E5, E6, E7, E8, E9. reflexivity.
  - do 9 (split; [ assumption | ]).
    repeat (apply Forall_cons; [ assumption | ]). apply Forall_nil.
Qed.

End Legacy.

(** * Re-encoding a decoded centre *)

Section Reencode.
Import Bin64 Rounding sonnet_geo.

Lemma refine_cons b bits itv :
  _refine_interval (b :: bits) itv = _refine_interval bits (refine_bit itv b).
Proof. reflexivity. Qed.

Lemma refine_bit_bounded itv b :
  bounded_interval itv -> bounded_interval (refine_bit itv b).
Proof.
  intros H. eapply nested_bounded; [ apply refine_bit_nested, H | exact H ].
Qed.

(** A coordinate inside the half-open interval that a list of bits
    bisects down to makes [encode] emit those bits. *)
Lemma encode_loop_reproduce lon lat : forall new st,
  Forall bit new -> finite lon = true -> finite lat = true ->
  bounded_interval (lon_interval st) -> bounded_interval (lat_interval st) ->
  let I := _refine_interval (if use_lon st then evens new else odds new)
                            (lon_interval st) in
  let J := _refine_interval (if use_lon st then odds new else evens new)
                            (lat_interval st) in
  (B2Q (fst I) <= B2Q lon)%Q -> (B2Q lon < B2Q (snd I))%Q ->
  (B2Q (fst J) <= B2Q lat)%Q -> (B2Q lat < B2Q (snd J))%Q ->
  bits (encode_loop (List.length new) lon lat st) = bits st ++ new.
Proof.
  induction new as [ | b new IH ]; intros st Hb Fn Ft Bn Bt I J I1 I2 J1 J2.
  - cbn [List.length encode_loop]. now rewrite app_nil_r.
  - cbn [List.length encode_loop].
    inversion Hb as [ | ? ? Hb1 Hb2 ]; subst.
    destruct (encode_step_spec lon lat st) as (b' & _ & E & T1 & T0).
    assert (Eb : b' = b).
    { destruct (use_lon st) eqn:U; cbn [evens odds] in I, J; cbv zeta in T1, T0.
      - subst I. rewrite refine_cons in I1, I2.
        pose proof (refine_nested (odds new) _ (refine_bit_bounded _ b Bn))
          as (_ & _ & N1 & _ & N3).
        destruct (lon_interval st) as [lo hi]. cbn [fst snd] in *.
        destruct (mid_bounds lo hi Bn) as (Fm & _).
        pose proof (leb_iff ((lo + hi) / 2) lon Fm Fn) as Hle.
        destruct Hb1 as [ -> | -> ];
          [ change (refine_bit (lo, hi) 0) with (lo, ((lo + hi) / 2)%float) in *
          | change (refine_bit (lo, hi) 1) with (((lo + hi) / 2)%float, hi) in * ];
          cbn [fst snd] in N1, N3.
        + apply T0. destruct ((lo + hi) / 2 <=? lon)%float; [ | reflexivity ].
          assert (B2Q ((lo + hi) / 2) <= B2Q lon)%Q by now apply Hle. lra.
        + apply T1. apply Hle. lra.
      - subst J. rewrite refine_cons in J1, J2.
        pose proof (refine_nested (odds new) _ (refine_bit_bounded _ b Bt))
          as (_ & _ & N1 & _ & N3).
        destruct (lat_interval st) as [lo hi]. cbn [fst snd] in *.
        destruct (mid_bounds lo hi Bt) as (Fm & _).
        pose proof (leb_iff ((lo + hi) / 2) lat Fm Ft) as Hle.
        destruct Hb1 as [ -> | -> ];
          [ change (refine_bit (lo, hi) 0) with (lo, ((lo + hi) / 2)%float) in *
          | change (refine_bit (lo, hi) 1) with (((lo + hi) / 2)%float, hi) in * ];
          cbn [fst snd] in N1, N3.
        + apply T0. destruct ((lo + hi) / 2 <=? lat)%float; [ | reflexivity ].
          assert (B2Q ((lo + hi) / 2) <= B2Q lat)%Q by now apply Hle. lra.
        + apply T1. apply Hle. lra. }
    subst b'. rewrite IH; try assumption.
    + rewrite E. cbn [bits]. now rewrite <- app_assoc.
    + rewrite E. cbn [lon_interval]. destruct (use_lon st); [ | exact Bn ].
      apply refine_bit_bounded, Bn.
    + rewrite E. cbn [lat_interval]. destruct (use_lon st); [ exact Bt | ].
      apply refine_bit_bounded, Bt.
    + rewrite E. cbn [lon_interval use_lon]. subst I.
      destruct (use_lon st); cbn [negb evens odds] in *; exact I1.
    + rewrite E. cbn [lon_interval use_lon]. subst I.
      destruct (use_lon st); cbn [negb evens odds] in *; exact I2.
    + rewrite E. cbn [lat_interval use_lon]. subst J.
      destruct (use_lon st); cbn [negb evens odds] in *; exact J1.
    + rewrite E. cbn [lat_interval use_lon]. subst J.
      destruct (use_lon st); cbn [negb evens odds] in *; exact J2.
Qed.

Lemma encode_reproduces h bs lon lat :
  _geohash_to_bits h = Ok bs -> valid_geohash h = true -> h <> ""%string ->
  finite lon = true -> finite lat = true ->
  let I := _refine_interval (evens bs) LON_RANGE in
  let J := _refine_interval (odds bs) LAT_RANGE in
  (B2Q (fst I) <= B2Q lon)%Q -> (B2Q lon < B2Q (snd I))%Q ->
  (B2Q (fst J) <= B2Q lat)%Q -> (B2Q lat < B2Q (snd J))%Q ->
  encode lon lat (Z.of_nat (String.length h)) = Ok h.
Proof.
  intros Eb Hv Hne Fn Ft I J I1 I2 J1 J2.
  destruct (geohash_to_bits_ok h Hv) as (bs' & Eb' & Hb & Hl & Ep).
  rewrite Eb in Eb'. injection Eb' as <-.
  pose proof (refine_nested (evens bs) _ lon_range_bounded) as (_ & _ & N1 & _ & N3).
  pose proof (refine_nested (odds bs) _ lat_range_bounded) as (_ & _ & M1 & _ & M3).
  fold I in N1, N3. fold J in M1, M3.
  unfold LON_RANGE in N1, N3. unfold LAT_RANGE in M1, M3. cbn [fst snd] in N1, N3, M1, M3.
  rewrite B2Q_m180 in N1. rewrite B2Q_180 in N3.
  rewrite B2Q_m90 in M1. rewrite B2Q_90 in M3.
  destruct (in_range_test lon Fn) as [[R1 R2] _]; [ lra | lra | ].
  destruct (in_range_test lat Ft) as [_ [R3 R4]]; [ lra | lra | ].
  rewrite (sonnet_encode_unfold lon lat _ R3 R4 R1 R2 (nonempty_length h Hne)).
  replace (Z.to_nat (Z.of_nat (String.length h) * 5)) with (List.length bs) by lia.
  rewrite (encode_loop_reproduce lon lat bs encode_start Hb Fn Ft
             lon_range_bounded lat_range_bounded I1 I2 J1 J2).
  exact Ep.
Qed.

Lemma grid_centre_shift k lo hi :
  0 <= k <= 46 -> grid 2 k (lo, hi) -> format (B2Q ((lo + hi) / 2) + 180).
Proof.
  intros Hk (Fl & Fh & a & Ha1 & Ha2 & E1 & E2). cbn [fst snd] in *.
  destruct (grid_mid 2 k lo hi a ltac:(lia) ltac:(lia) Fl Fh Ha1 Ha2 E1 E2) as [_ Em].
  assert (E180 : (180 == dy (45 * 2 ^ k) (2 - k))%Q).
  { rewrite dy_shift by lia. replace (2 - k + k) with 2 by lia. reflexivity. }
  apply (format_proper (dy (45 * (a + 1) + 45 * 2 ^ k) (2 - k))).
  - rewrite dy_add, Em, <- E180. reflexivity.
  - assert (0 < 2 ^ k) by (apply Z.pow_pos_nonneg; lia).
    pose proof (pow2_le_47 (k + 1) ltac:(lia)) as H47.
    rewrite Z.pow_add_r in H47 by lia. apply format_dy; lia.
Qed.

End Reencode.

(** * A cell and its parent *)

Section Parent.
Import Bin64 Rounding sonnet_geo.

Lemma evens_odds_app {A} (l1 l2 : list A) :
  exists e1 e2,
    evens (l1 ++ l2) = evens l1 ++ e1 /\ odds (l1 ++ l2) = odds l1 ++ e2.
Proof.
  induction l1 as [ | a l1 (e1 & e2 & H1 & H2) ].
  - exists (evens l2), (odds l2). auto.
  - exists e2, e1. cbn [app evens odds]. rewrite H1, H2. auto.
Qed.

Lemma refine_app b1 b2 itv :
  _refine_interval (b1 ++ b2) itv = _refine_interval b2 (_refine_interval b1 itv).
Proof. unfold _refine_interval. apply fold_left_app. Qed.

Lemma refine_app_nested b1 b2 itv :
  bounded_interval itv ->
  nested (_refine_interval (b1 ++ b2) itv) (_refine_interval b1 itv).
Proof.
  intros H. rewrite refine_app. apply refine_nested.
  eapply nested_bounded; [ apply refine_nested, H | exact H ].
Qed.

(** With at most 90 bits the corners of [bbox] are the ends of the two
    bisected intervals. *)
Lemma bbox_exact h bs :
  _geohash_to_bits h = Ok bs -> (List.length bs <= 90)%nat ->
  let I := _refine_interval (evens bs) LON_RANGE in
  let J := _refine_interval (odds bs) LAT_RANGE in
  exists w s e n,
    bbox h = Ok (w, s, e, n) /\
    finite w = true /\ finite s = true /\ finite e = true /\ finite n = true /\
    (B2Q w == B2Q (fst I))%Q /\ (B2Q s == B2Q (fst J))%Q /\
    (B2Q e == B2Q (snd I))%Q /\ (B2Q n == B2Q (snd J))%Q.
Proof.
  intros Eb Hl I J.
  destruct (decode_exact h bs Eb Hl)
    as (cell & Ed & _ & L1 & L2 & L3 & L4 & G1 & G2 & K1 & K2).
  fold I J in L1, L2, L3, L4, G1, G2.
  destruct I as [i1 i2], J as [j1 j2]. cbn [fst snd] in *.
  destruct (grid_cell 2 _ i1 i2 ltac:(lia) (depth_ok _ K1) G1)
    as (_ & _ & _ & _ & _ & F1 & F2 & V1 & V2).
  destruct (grid_cell 1 _ j1 j2 ltac:(lia) (depth_ok _ K2) G2)
    as (_ & _ & _ & _ & _ & F3 & F4 & V3 & V4).
  unfold bbox. rewrite Ed. cbn [bind]. unfold to_bbox. rewrite L1, L2, L3, L4.
  do 4 eexists. split; [ reflexivity | ]. repeat split; assumption.
Qed.

Lemma geohash_to_bits_app l1 : forall l2 acc b1,
  _geohash_to_bits_from acc l1 = Ok b1 ->
  _geohash_to_bits_from acc (l1 ++ l2) = _geohash_to_bits_from b1 l2.
Proof.
  induction l1 as [ | c l1 IH ]; intros l2 acc b1 H.
  - cbn in H. injection H as <-. reflexivity.
  - cbn [app _geohash_to_bits_from] in *.
    destruct (dict_get BASE32_DECODE_MAP c); [ | discriminate H ].
    now apply IH.
Qed.

Lemma bbox_nested pre c :
  forallb in_alphabet (pre ++ [c]) = true -> (List.length pre + 1 <= 18)%nat ->
  exists W S E N w s e n,
    bbox (string_of_list_ascii pre) = Ok (W, S, E, N) /\
    bbox (string_of_list_ascii (pre ++ [c])) = Ok (w, s, e, n) /\
    (W <=? w)%float = true /\ (S <=? s)%float = true /\
    (e <=? E)%float = true /\ (n <=? N)%float = true.
Proof.
  intros Hv Hl.
  rewrite forallb_app in Hv. apply andb_true_iff in Hv. destruct Hv as [Hpre Hc].
  destruct (unpack_symbols pre Hpre) as (bp & Up & _ & Lp & _).
  destruct (unpack_symbols [c] Hc) as (ext & Ue & _ & Le & _).
  assert (Bp : _geohash_to_bits (string_of_list_ascii pre) = Ok bp).
  { unfold _geohash_to_bits. rewrite list_ascii_of_string_of_list_ascii. apply Up. }
  assert (Bh : _geohash_to_bits (string_of_list_ascii (pre ++ [c])) = Ok (bp ++ ext)).
  { unfold _geohash_to_bits. rewrite list_ascii_of_string_of_list_ascii.
    rewrite (geohash_to_bits_app pre [c] [] bp (Up [])). apply Ue. }
  cbn [List.length] in Le.
  destruct (bbox_exact _ bp Bp ltac:(lia))
    as (W & S & E & N & E1 & FW & FS & FE & FN & VW & VS & VE & VN).
  destruct (bbox_exact _ (bp ++ ext) Bh ltac:(rewrite length_app; lia))
    as (w & s & e & n & E2 & Fw & Fs & Fe & Fn & Vw & Vs & Ve & Vn).
  destruct (evens_odds_app bp ext) as (e1 & e2 & A1 & A2).
  rewrite A1 in Vw, Ve. rewrite A2 in Vs, Vn.
  pose proof (refine_app_nested (evens bp) e1 LON_RANGE lon_range_bounded)
    as (_ & _ & N1 & _ & N2).
  pose proof (refine_app_nested (odds bp) e2 LAT_RANGE lat_range_bounded)
    as (_ & _ & N3 & _ & N4).
  exists W, S, E, N, w, s, e, n.
  split; [ exact E1 | ]. split; [ exact E2 | ].
  repeat split; apply leb_iff; try assumption; lra.
Qed.

(** C8, as the code has it: for a geohash of 2 to 18 symbols the
    bounding box of the parent contains the bounding box of the cell, in
    the comparisons Python evaluates.  (Up to 18 symbols the corners are
    computed without rounding; with 19 a rounded corner can leave the
    parent.) *)
Theorem parent_bbox_contains (h : string) :
  valid_geohash h = true -> (2 <= String.length h <= 18)%nat ->
  exists W S E N w s e n,
    bbox (parent h) = Ok (W, S, E, N) /\
    bbox h = Ok (w, s, e, n) /\
    (W <=? w)%float = true /\ (S <=? s)%float = true /\
    (e <=? E)%float = true /\ (n <=? N)%float = true.
Proof.
  intros Hv Hl.
  assert (Ep : parent h = string_of_list_ascii (removelast (list_ascii_of_string h))).
  { unfold parent. destruct (Z.ltb_spec 1 (Z.of_nat (String.length h))); [ reflexivity | lia ]. }
  unfold valid_geohash in Hv. rewrite <- list_length_of_string in Hl.
  remember (list_ascii_of_string h) as cs eqn:Ecs.
  assert (Eh : h = string_of_list_ascii cs)
    by (rewrite Ecs; symmetry; apply string_of_list_ascii_of_string).
  assert (Hcs : cs <> []) by (intros K; rewrite K in Hl; cbn in Hl; lia).
  pose proof (app_removelast_last "0"%char Hcs) as Ea.
  assert (Hlen : List.length cs = (List.length (removelast cs) + 1)%nat)
    by (rewrite Ea at 1; rewrite length_app; reflexivity).
  pose proof (bbox_nested (removelast cs) (last cs "0"%char)) as G.
  rewrite <- Ea in G. rewrite Ep, Eh. apply G; [ exact Hv | lia ].
Qed.

Lemma parent_bbox_contains_witness :
  exists W S E N w s e n,
    bbox (parent "9q8yyk8") = Ok (W, S, E, N) /\
    bbox "9q8yyk8" = Ok (w, s, e, n) /\
    (W <=? w)%float = true /\ (S <=? s)%float = true /\
    (e <=? E)%float = true /\ (n <=? N)%float = true.
Proof.
  apply (parent_bbox_contains "9q8yyk8"); [ reflexivity | cbn; lia ].
Defined.

End Parent.

(** * Rounding within one unit *)

Section Coarse.
Import Bin64 Rounding.

Lemma pow2_inv E : (pow2 (- E) * pow2 E == 1)%Q.
Proof. rewrite <- pow2_add. replace (- E + E) with 0 by lia. reflexivity. Qed.

Lemma dy_scale n E : (dy n E * pow2 (- E) == inject_Z n)%Q.
Proof. unfold dy. rewrite <- Qmult_assoc, (Qmult_comm (pow2 E)), pow2_inv. ring. Qed.

(** Any real of magnitude at most [2^(E+53)] lies between two
    representable multiples of [2^E] that are at most [2^E] apart. *)
Lemma coarse_bounds (v : Q) (E : Z) :
  -1074 <= E <= 900 ->
  (- dy 1 (E + 53) <= v)%Q -> (v <= dy 1 (E + 53))%Q ->
  exists a b,
    format a /\ format b /\
    (- dy 1 (E + 53) <= a)%Q /\ (b <= dy 1 (E + 53))%Q /\
    (a <= v)%Q /\ (v <= b)%Q /\ (b - a <= dy 1 E)%Q.
Proof.
  intros HE V1 V2.
  pose proof (pow2_pos E) as PE. pose proof (pow2_pos (- E)) as PE'.
  set (x := (v * pow2 (- E))%Q).
  assert (Ev : (v == x * pow2 E)%Q).
  { unfold x. rewrite <- Qmult_assoc, pow2_inv. ring. }
  assert (E53 : (dy 1 (E + 53) == dy (2 ^ 53) E)%Q).
  { rewrite (dy_rescale 1 (E + 53) E) by lia. replace (E + 53 - E) with 53 by lia.
    apply dy_eq. lia. }
  assert (X1 : (inject_Z (- 2 ^ 53) <= x)%Q).
  { unfold x. rewrite <- (dy_scale (- 2 ^ 53) E).
    apply Qmult_le_compat_r; [ | lra ]. rewrite dy_opp, <- E53. exact V1. }
  assert (X2 : (x <= inject_Z (2 ^ 53))%Q).
  { unfold x. rewrite <- (dy_scale (2 ^ 53) E).
    apply Qmult_le_compat_r; [ | lra ]. rewrite <- E53. exact V2. }
  pose proof (Qfloor_le x) as F1. pose proof (Qlt_floor x) as F2.
  pose proof (Qle_ceiling x) as C1. pose proof (Qceiling_lt x) as C2.
  pose proof (Qfloor_resp_le _ _ X1) as F3. rewrite Qfloor_Z in F3.
  pose proof (Qfloor_resp_le _ _ X2) as F4. rewrite Qfloor_Z in F4.
  pose proof (Qceiling_resp_le _ _ X1) as C3. rewrite Qceiling_Z in C3.
  pose proof (Qceiling_resp_le _ _ X2) as C4. rewrite Qceiling_Z in C4.
  assert (D : Qceiling x <= Qfloor x + 1).
  { assert (inject_Z (Qceiling x - 1) < inject_Z (Qfloor x + 1))%Q by lra.
    rewrite <- Zlt_Qlt in H. lia. }
  exists (dy (Qfloor x) E), (dy (Qceiling x) E).
  assert (A1 : (dy (- 2 ^ 53) E <= dy (Qfloor x) E)%Q) by (apply dy_le; lia).
  assert (A2 : (dy (Qceiling x) E <= dy (2 ^ 53) E)%Q) by (apply dy_le; lia).
  split; [ apply format_dy; lia | ]. split; [ apply format_dy; lia | ].
  split; [ rewrite dy_opp in A1; rewrite <- E53 in A1; exact A1 | ].
  split; [ rewrite <- E53 in A2; exact A2 | ].
  split; [ rewrite Ev; unfold dy; apply Qmult_le_compat_r; lra | ].
  split; [ rewrite Ev; unfold dy; apply Qmult_le_compat_r; lra | ].
  unfold Qminus. rewrite <- dy_opp, <- dy_add. apply dy_le. lia.
Qed.

(** The computed midpoint is within [2^E] of the real one. *)
Lemma mid_coarse lo hi E :
  finite lo = true -> finite hi = true -> -1074 <= E <= 900 ->
  (dy 1 (E + 53) <= 1000)%Q ->
  let v := ((B2Q lo + B2Q hi) * (1 # 2))%Q in
  (- dy 1 (E + 53) <= v)%Q -> (v <= dy 1 (E + 53))%Q ->
  finite ((lo + hi) / 2) = true /\
  (v - dy 1 E <= B2Q ((lo + hi) / 2))%Q /\ (B2Q ((lo + hi) / 2) <= v + dy 1 E)%Q.
Proof.
  intros Fl Fh HE Hs v V1 V2.
  destruct (coarse_bounds v E HE V1 V2) as (a & b & Fa & Fb & A1 & B1 & A2 & B2 & D).
  destruct (add_bounds lo hi (2 * a) (2 * b) Fl Fh) as (Fs & S1 & S2);
    try (unfold v in *; lra).
  - now apply format_double.
  - now apply format_double.
  - apply in_range_small; lra.
  - destruct (half_bounds (lo + hi) a b Fs Fa Fb) as (Fm & M1 & M2); try lra.
    + apply in_range_small; lra.
    + split; [ exact Fm | ]. split; lra.
Qed.

Lemma add_coarse x y E :
  finite x = true -> finite y = true -> -1074 <= E <= 900 ->
  (dy 1 (E + 53) <= 1000)%Q ->
  let v := (B2Q x + B2Q y)%Q in
  (- dy 1 (E + 53) <= v)%Q -> (v <= dy 1 (E + 53))%Q ->
  finite (x + y) = true /\
  (v - dy 1 E <= B2Q (x + y))%Q /\ (B2Q (x + y) <= v + dy 1 E)%Q.
Proof.
  intros Fx Fy HE Hs v V1 V2.
  destruct (coarse_bounds v E HE V1 V2) as (a & b & Fa & Fb & A1 & B1 & A2 & B2 & D).
  destruct (add_bounds x y a b Fx Fy Fa Fb) as (Fs & S1 & S2);
    try (unfold v in *; lra).
  - apply in_range_small; lra.
  - split; [ exact Fs | ]. split; lra.
Qed.

Lemma sub_coarse x y E :
  finite x = true -> finite y = true -> -1074 <= E <= 900 ->
  (dy 1 (E + 53) <= 1000)%Q ->
  let v := (B2Q x - B2Q y)%Q in
  (- dy 1 (E + 53) <= v)%Q -> (v <= dy 1 (E + 53))%Q ->
  finite (x - y) = true /\
  (v - dy 1 E <= B2Q (x - y))%Q /\ (B2Q (x - y) <= v + dy 1 E)%Q.
Proof.
  intros Fx Fy HE Hs v V1 V2.
  destruct (coarse_bounds v E HE V1 V2) as (a & b & Fa & Fb & A1 & B1 & A2 & B2 & D).
  destruct (sub_bounds x y a b Fx Fy Fa Fb) as (Fs & S1 & S2);
    try (unfold v in *; lra).
  - apply in_range_small; lra.
  - split; [ exact Fs | ]. split; lra.
Qed.

(** ** Bisection past depth 48 *)

Lemma dy_45_tight c a k :
  0 <= k -> - 2 ^ k <= a <= 2 ^ k ->
  (- dy 45 c <= dy (45 * a) (c - k))%Q /\ (dy (45 * a) (c - k) <= dy 45 c)%Q.
Proof.
  intros Hk Ha.
  assert (E : forall m, (dy (m * 2 ^ k) (c - k) == dy m c)%Q).
  { intros m. rewrite dy_shift by lia. replace (c - k + k) with c by lia. reflexivity. }
  split.
  - rewrite <- dy_opp, <- (E (-45)). apply dy_le. lia.
  - rewrite <- (E 45). apply dy_le. lia.
Qed.

(** The scale of an axis in units of [u = 2^(c-50)]. *)
Lemma axis_units c :
  1 <= c <= 2 ->
  let u := dy 1 (c - 50) in
  (0 < u)%Q /\ (dy 1 (c - 47) == 8 * u)%Q /\
  (dy 45 c == 50665495807918080 * u)%Q /\
  (dy 1 (c + 6) == 72057594037927936 * u)%Q /\
  (dy 1 (c + 6) <= 256)%Q /\ (dy 45 c <= 180)%Q.
Proof.
  intros Hc u.
  assert (S : forall m e, c - 50 <= e -> 0 <= e - (c - 50) ->
                          (dy m e == inject_Z (m * 2 ^ (e - (c - 50))) * u)%Q).
  { intros m e H1 H2. rewrite (dy_rescale m e (c - 50)) by lia. unfold u, dy. ring. }
  split; [ apply dy_pos; lia | ].
  split; [ rewrite (S 1 (c - 47)) by lia; replace (c - 47 - (c - 50)) with 3 by lia;
           reflexivity | ].
  split; [ rewrite (S 45 c) by lia; replace (c - (c - 50)) with 50 by lia;
           change (inject_Z (45 * 2 ^ 50)) with 50665495807918080%Q; reflexivity | ].
  split; [ rewrite (S 1 (c + 6)) by lia; replace (c + 6 - (c - 50)) with 56 by lia;
           change (inject_Z (1 * 2 ^ 56)) with 72057594037927936%Q; reflexivity | ].
  split.
  - apply Qle_trans with (dy 1 8); [ apply dy_mono_e; lia | ]. vm_compute. discriminate.
  - apply Qle_trans with (dy 45 2); [ apply dy_mono_e; lia | ]. vm_compute. discriminate.
Qed.

Lemma grid_near c k itv : grid c k itv -> near c k 0 0 itv.
Proof.
  intros (Fl & Fh & a & A1 & A2 & E1 & E2).
  split; [ exact Fl | ]. split; [ exact Fh | ]. exists a.
  split; [ exact A1 | ]. split; [ exact A2 | ]. rewrite E1, E2. repeat split; lra.
Qed.

Lemma near_step c k el eh itv b :
  1 <= c <= 2 -> 0 <= k -> (0 <= el)%Q -> (0 <= eh)%Q -> (el + eh <= 20)%Q ->
  near c k el eh itv ->
  near c (k + 1)
       (if negb (b =? 0) then (el + eh) * (1 # 2) + 8 else el)
       (if negb (b =? 0) then eh else (el + eh) * (1 # 2) + 8)
       (sonnet_geo.refine_bit itv b).
Proof.
  intros Hc Hk Hel Heh Hs (Fl & Fh & a & A1 & A2 & L1 & L2 & H1 & H2).
  destruct itv as [lo hi]. cbn [fst snd] in *.
  destruct (axis_units c Hc) as (Pu & EU & E45 & E64 & B256 & B180).
  set (u := dy 1 (c - 50)) in *.
  assert (0 < 2 ^ k) by (apply Z.pow_pos_nonneg; lia).
  destruct (dy_45_tight c a k Hk ltac:(lia)) as [G1 G2].
  destruct (dy_45_tight c (a + 2) k Hk ltac:(lia)) as [G3 G4].
  assert (Em : (dy (45 * (a + 1)) (c - k)
                == (dy (45 * a) (c - k) + dy (45 * (a + 2)) (c - k)) * (1 # 2))%Q).
  { rewrite <- dy_add, <- dy_half, <- (dy_double (45 * (a + 1)) (c - k)).
    apply dy_eq. lia. }
  assert (Hp : 2 ^ (k + 1) = 2 * 2 ^ k) by (rewrite Z.pow_add_r by lia; lia).
  assert (R : forall m, (dy (45 * m) (c - k) == dy (45 * (m * 2)) (c - (k + 1)))%Q).
  { intros m. rewrite <- (dy_double (45 * m) (c - k)).
    replace (c - k - 1) with (c - (k + 1)) by lia. apply dy_eq. lia. }
  set (glo := dy (45 * a) (c - k)) in *. set (ghi := dy (45 * (a + 2)) (c - k)) in *.
  destruct (mid_coarse lo hi (c - 47) Fl Fh ltac:(lia)) as (Fm & M1 & M2).
  { replace (c - 47 + 53) with (c + 6) by lia. lra. }
  { replace (c - 47 + 53) with (c + 6) by lia. cbv zeta. nra. }
  { replace (c - 47 + 53) with (c + 6) by lia. cbv zeta. nra. }
  cbv zeta in M1, M2. rewrite EU in M1, M2.
  unfold sonnet_geo.refine_bit, near. destruct (negb (b =? 0)); cbn [fst snd].
  - split; [ exact Fm | ]. split; [ exact Fh | ]. exists (a * 2 + 2).
    split; [ lia | ]. split; [ lia | ].
    replace (a * 2 + 2) with ((a + 1) * 2) by lia. rewrite <- R.
    replace ((a + 1) * 2 + 2) with ((a + 2) * 2) by lia. rewrite <- R.
    fold ghi. fold u. rewrite Em. repeat split; nra.
  - split; [ exact Fl | ]. split; [ exact Fm | ]. exists (a * 2).
    split; [ lia | ]. split; [ lia | ]. rewrite <- R.
    replace (a * 2 + 2) with ((a + 1) * 2) by lia. rewrite <- R.
    fold glo. fold u. rewrite Em. repeat split; nra.
Qed.

(** Up to 50 bits per axis the rounding of the last two midpoints
    moves the ends of the interval by 20 units at most, together. *)
Lemma refine_near c bits itv :
  1 <= c <= 2 -> grid c 0 itv -> (List.length bits <= 50)%nat ->
  exists el eh,
    (0 <= el)%Q /\ (0 <= eh)%Q /\ (el + eh <= 20)%Q /\
    near c (Z.of_nat (List.length bits)) el eh (sonnet_geo._refine_interval bits itv).
Proof.
  intros Hc G Hl.
  assert (Er : sonnet_geo._refine_interval bits itv
               = sonnet_geo._refine_interval (skipn 48 bits)
                   (sonnet_geo._refine_interval (firstn 48 bits) itv))
    by (rewrite <- refine_app, firstn_skipn; reflexivity).
  rewrite Er. clear Er.
  pose proof (firstn_skipn 48 bits) as Es.
  assert (L : List.length bits
              = (List.length (firstn 48 bits) + List.length (skipn 48 bits))%nat)
    by (rewrite <- Es at 1; apply length_app).
  pose proof (firstn_le_length 48 bits) as L1.
  assert (L2 : (List.length (firstn 48 bits) <= 48)%nat) by (rewrite length_firstn; lia).
  assert (L3 : skipn 48 bits <> [] -> List.length (firstn 48 bits) = 48%nat).
  { intros K. rewrite length_firstn. destruct (Nat.le_gt_cases 48 (List.length bits)).
    - lia.
    - exfalso. apply K. apply skipn_all2. lia. }
  pose proof (grid_refine c (firstn 48 bits) 0 itv Hc ltac:(lia) ltac:(lia) G) as G1.
  cbn [Z.add] in G1. apply grid_near in G1.
  set (b1 := firstn 48 bits) in *. set (I1 := sonnet_geo._refine_interval b1 itv) in *.
  rewrite L. destruct (skipn 48 bits) as [ | x [ | y [ | z rest ] ] ].
  - exists 0%Q, 0%Q. cbn [List.length sonnet_geo._refine_interval fold_left].
    rewrite Nat.add_0_r. split; [ lra | ]. split; [ lra | ]. split; [ lra | ]. exact G1.
  - specialize (L3 ltac:(discriminate)). rewrite L3 in *.
    pose proof (near_step c 48 0 0 I1 x Hc ltac:(lia) ltac:(lra) ltac:(lra) ltac:(lra) G1)
      as N1.
    cbn [List.length sonnet_geo._refine_interval fold_left].
    change (Z.of_nat (48 + 1)) with (48 + 1).
    destruct (negb (x =? 0)); do 2 eexists; (split; [ | split; [ | split; [ | exact N1 ] ] ]);
      lra.
  - specialize (L3 ltac:(discriminate)). rewrite L3 in *.
    pose proof (near_step c 48 0 0 I1 x Hc ltac:(lia) ltac:(lra) ltac:(lra) ltac:(lra) G1)
      as N1.
    cbn [List.length sonnet_geo._refine_interval fold_left].
    change (Z.of_nat (48 + 2)) with (48 + 1 + 1).
    destruct (negb (x =? 0)).
    + pose proof (near_step c (48 + 1) ((0 + 0) * (1 # 2) + 8) 0 _ y Hc ltac:(lia)
                    ltac:(lra) ltac:(lra) ltac:(lra) N1) as N2.
      destruct (negb (y =? 0)); do 2 eexists;
        (split; [ | split; [ | split; [ | exact N2 ] ] ]); lra.
    + pose proof (near_step c (48 + 1) 0 ((0 + 0) * (1 # 2) + 8) _ y Hc ltac:(lia)
                    ltac:(lra) ltac:(lra) ltac:(lra) N1) as N2.
      destruct (negb (y =? 0)); do 2 eexists;
        (split; [ | split; [ | split; [ | exact N2 ] ] ]); lra.
  - specialize (L3 ltac:(discriminate)). cbn [List.length] in L. lia.
Qed.

(** The centre of such an interval is at least 27 units inside it. *)
Lemma near_centre c k el eh lo hi :
  1 <= c <= 2 -> 0 <= k <= 50 ->
  (0 <= el)%Q -> (0 <= eh)%Q -> (el + eh <= 20)%Q ->
  near c k el eh (lo, hi) ->
  let u := dy 1 (c - 50) in
  finite ((lo + hi) / 2) = true /\
  (B2Q lo + 27 * u <= B2Q ((lo + hi) / 2))%Q /\
  (B2Q ((lo + hi) / 2) <= B2Q hi - 27 * u)%Q.
Proof.
  intros Hc Hk Hel Heh Hs (Fl & Fh & a & A1 & A2 & L1 & L2 & H1 & H2) u.
  cbn [fst snd] in *.
  destruct (axis_units c Hc) as (Pu & EU & E45 & E64 & B256 & B180).
  fold u in Pu, EU, E45, E64, L1, L2, H1, H2.
  assert (0 < 2 ^ k) by (apply Z.pow_pos_nonneg; lia).
  destruct (dy_45_tight c a k ltac:(lia) ltac:(lia)) as [G1 G2].
  destruct (dy_45_tight c (a + 2) k ltac:(lia) ltac:(lia)) as [G3 G4].
  assert (W : (90 * u <= dy (45 * (a + 2)) (c - k) - dy (45 * a) (c - k))%Q).
  { unfold Qminus. rewrite <- dy_opp, <- dy_add.
    replace (45 * (a + 2) + - (45 * a)) with 90 by lia.
    apply Qle_trans with (dy 90 (c - 50)); [ | apply dy_mono_e; lia ].
    unfold u, dy. apply Qle_lteq. right. ring. }
  set (glo := dy (45 * a) (c - k)) in *. set (ghi := dy (45 * (a + 2)) (c - k)) in *.
  destruct (mid_coarse lo hi (c - 47) Fl Fh ltac:(lia)) as (Fm & M1 & M2).
  { replace (c - 47 + 53) with (c + 6) by lia. lra. }
  { replace (c - 47 + 53) with (c + 6) by lia. cbv zeta. nra. }
  { replace (c - 47 + 53) with (c + 6) by lia. cbv zeta. nra. }
  cbv zeta in M1, M2. rewrite EU in M1, M2.
  split; [ exact Fm | ]. split; nra.
Qed.

(** ** Wrapping a longitude that is not on the grid *)

Lemma unit_45 :
  (0 < dy 1 (-45))%Q /\ (dy 1 (-45) <= 1)%Q /\ (dy 1 (-44) == 2 * dy 1 (-45))%Q /\
  (dy 1 (-45) == 8 * dy 1 (-48))%Q /\
  (dy 1 9 == 512)%Q /\ (dy 1 8 == 256)%Q /\
  (dy 6333186975989759 (-44) == 360 - 2 * dy 1 (-45))%Q /\
  (dy 6333186975989759 (-45) == 180 - dy 1 (-45))%Q.
Proof.
  split; [ apply dy_pos; lia | ].
  split; [ vm_compute; discriminate | ].
  repeat split; vm_compute; reflexivity.
Qed.

(** [_wrap_longitude] moves a longitude of [[-180, 180)] that is not
    next to 180 by three units of [2^-45] at most. *)
Lemma sonnet_wrap_coarse x :
  finite x = true -> (-180 <= B2Q x)%Q -> (B2Q x <= 180 - 3 * dy 1 (-45))%Q ->
  exists r,
    sonnet_geo._wrap_longitude x = Ok r /\ finite r = true /\
    (B2Q x - 3 * dy 1 (-45) <= B2Q r)%Q /\ (B2Q r <= B2Q x + 3 * dy 1 (-45))%Q.
Proof.
  intros Fx X1 X2.
  destruct unit_45 as (U0 & U1 & U2 & _ & E512 & E256 & E360 & E180).
  set (U := dy 1 (-45)) in *.
  unfold sonnet_geo._wrap_longitude.
  unfold sonnet_geo.LON_RANGE, sonnet_geo.LON_SPAN. cbn [fst snd].
  destruct (sub_coarse x (-180) (-44) Fx eq_refl ltac:(lia)) as (Ft & T1 & T2).
  { change (-44 + 53) with 9. lra. }
  { change (-44 + 53) with 9. cbv zeta. rewrite B2Q_m180. lra. }
  { change (-44 + 53) with 9. cbv zeta. rewrite B2Q_m180. lra. }
  cbv zeta in T1, T2. rewrite B2Q_m180, U2 in T1, T2.
  destruct (sub_bounds x (-180) 0 (dy 6333186975989759 (-44)) Fx eq_refl format_0)
    as (_ & T3 & T4); try (rewrite B2Q_m180; lra).
  { apply format_dy; lia. }
  { apply in_range_small; lra. }
  rewrite E360 in T4.
  destruct (mod_360 _ Ft) as (m & Em & Fm & M1 & M2 & M3).
  specialize (M3 T3 ltac:(lra)).
  rewrite Em. cbn [bind].
  destruct (add_coarse m (-180) (-45) Fm eq_refl ltac:(lia)) as (Fw & W1 & W2).
  { change (-45 + 53) with 8. lra. }
  { change (-45 + 53) with 8. cbv zeta. rewrite B2Q_m180. lra. }
  { change (-45 + 53) with 8. cbv zeta. rewrite B2Q_m180. lra. }
  cbv zeta in W1, W2. rewrite B2Q_m180 in W1, W2. fold U in W1, W2.
  destruct (add_bounds m (-180) (-180) (dy 6333186975989759 (-45)) Fm eq_refl format_m180)
    as (_ & W3 & W4); try (rewrite B2Q_m180; lra).
  { apply format_dy; lia. }
  { apply in_range_small; lra. }
  rewrite E180 in W4.
  destruct (wrap_special _ Fw W3 ltac:(lra)) as (Fr & _ & _ & R).
  rewrite (R ltac:(lra)). eexists. split; [ reflexivity | ].
  split; [ exact Fw | ]. split; lra.
Qed.

(** X27: for a geohash of 1 to 20 symbols, encoding the decoded centre
    at the same precision gives the geohash back, and the fifth entry
    of [neighbors] is the geohash itself.  (Up to 20 symbols, 50 bits
    per axis, the rounded centre stays well inside its cell; at 21 it
    need not.) *)
Theorem reencode_centre (h : string) :
  valid_geohash h = true -> (1 <= String.length h <= 20)%nat ->
  exists cell l,
    sonnet_geo.decode h = Ok cell /\
    sonnet_geo.encode (sonnet_geo.lon cell) (sonnet_geo.lat cell)
                      (Z.of_nat (String.length h)) = Ok h /\
    sonnet_geo.neighbors h = Ok l /\ nth_error l 4 = Some h.
Proof.
  intros Hv Hl.
  assert (Hne : h <> ""%string) by (intros ->; cbn in Hl; lia).
  destruct (geohash_to_bits_ok h Hv) as (bs & Eb & Hb & Hlen & Ep).
  pose proof (evens_odds_length bs) as [Le1 Le2].
  destruct (refine_near 2 (evens bs) _ ltac:(lia) lon_range_grid ltac:(lia))
    as (el & eh & P1 & P2 & P3 & N1).
  destruct (refine_near 1 (odds bs) _ ltac:(lia) lat_range_grid ltac:(lia))
    as (el' & eh' & P1' & P2' & P3' & N1').
  pose proof (refine_nested (evens bs) _ lon_range_bounded) as NI.
  pose proof (refine_nested (odds bs) _ lat_range_bounded) as NJ.
  destruct (sonnet_neighbors_rows h Hv Hne)
    as (cell & nw & n & ne & w & c & e & sw & s & se & Ed & En & _ & _ & _ & _ & Ec & _).
  destruct (sonnet_decode_centred h Hv) as (cell' & Ed' & Cn & Ct).
  rewrite Ed in Ed'. injection Ed' as <-.
  pose proof Ed as Ef. unfold sonnet_geo.decode in Ef.
  rewrite (from_geohash_eq h bs Eb) in Ef. injection Ef as Ef.
  remember (sonnet_geo._refine_interval (evens bs) sonnet_geo.LON_RANGE) as I eqn:EI.
  remember (sonnet_geo._refine_interval (odds bs) sonnet_geo.LAT_RANGE) as J eqn:EJ.
  destruct I as [i1 i2], J as [j1 j2]. cbn [fst snd] in *.
  assert (L1 : sonnet_geo.lon cell = ((i1 + i2) / 2)%float) by (rewrite <- Ef; reflexivity).
  assert (L2 : sonnet_geo.lat cell = ((j1 + j2) / 2)%float) by (rewrite <- Ef; reflexivity).
  destruct NI as (_ & _ & I1 & _ & I2). destruct NJ as (_ & _ & J1 & _ & J2).
  unfold sonnet_geo.LON_RANGE in I1, I2. unfold sonnet_geo.LAT_RANGE in J1, J2.
  cbn [fst snd] in I1, I2, J1, J2.
  rewrite B2Q_m180 in I1. rewrite B2Q_180 in I2.
  rewrite B2Q_m90 in J1. rewrite B2Q_90 in J2.
  assert (K1 : 0 <= Z.of_nat (List.length (evens bs)) <= 50) by lia.
  assert (K2 : 0 <= Z.of_nat (List.length (odds bs)) <= 50) by lia.
  destruct (near_centre 2 _ el eh i1 i2 ltac:(lia) K1 P1 P2 P3 N1)
    as (Fc1 & C1 & C2).
  destruct (near_centre 1 _ el' eh' j1 j2 ltac:(lia) K2 P1' P2' P3' N1')
    as (Fc2 & C3 & C4).
  cbv zeta in C1, C2, C3, C4. change (2 - 50) with (-48) in C1, C2.
  change (1 - 50) with (-49) in C3, C4.
  rewrite <- L1 in Fc1, C1, C2. rewrite <- L2 in Fc2, C3, C4.
  destruct unit_45 as (U0 & U1 & U2 & U8 & _).
  assert (V0 : (0 < dy 1 (-49))%Q) by (apply dy_pos; lia).
  assert (R : forall lon' lat', finite lon' = true -> finite lat' = true ->
               (B2Q i1 <= B2Q lon')%Q -> (B2Q lon' < B2Q i2)%Q ->
               (B2Q lat' == B2Q (sonnet_geo.lat cell))%Q ->
               sonnet_geo.encode lon' lat' (Z.of_nat (String.length h)) = Ok h).
  { intros lon' lat' F1 F2 V1 V2 V3.
    apply (encode_reproduces h bs lon' lat' Eb Hv Hne F1 F2);
      rewrite <- ?EI, <- ?EJ; cbn [fst snd]; lra. }
  exists cell, [nw; n; ne; w; c; e; sw; s; se].
  split; [ exact Ed | ]. split; [ apply R; try assumption; try lra; reflexivity | ].
  split; [ exact En | ]. cbn [nth_error]. f_equal.
  unfold sonnet_neighbor in Ec.
  destruct Cn as (_ & Fe1 & _ & _ & E1 & E2). destruct Ct as (_ & Fe2 & _ & _ & E3 & E4).
  destruct (candidate_bounds (sonnet_geo.lon cell) (sonnet_geo.lon_err cell) 0 Fc1
              ltac:(lra) ltac:(lra) Fe1 E1 E2 ltac:(cbn; tauto))
    as (Fx & X1 & X2 & X3).
  destruct (candidate_bounds (sonnet_geo.lat cell) (sonnet_geo.lat_err cell) 0 Fc2
              ltac:(lra) ltac:(lra) Fe2 E3 E4 ltac:(cbn; tauto))
    as (Fy & Y1 & Y2 & Y3).
  specialize (X3 eq_refl). specialize (Y3 eq_refl). cbv zeta in *.
  destruct (sonnet_wrap_coarse _ Fx ltac:(lra) ltac:(lra)) as (lon' & Ew & Fl' & W1 & W2).
  destruct (sonnet_clamp_range _ Fy) as (Ft' & _ & _ & T & _).
  rewrite Ew in Ec. cbn [bind] in Ec.
  rewrite R in Ec; [ congruence | exact Fl' | exact Ft' | lra | lra | ].
  cbv zeta in T. rewrite T; [ exact Y3 | lra | lra ].
Qed.

Lemma reencode_centre_witness :
  exists cell l,
    sonnet_geo.decode "9q8yyk8" = Ok cell /\
    sonnet_geo.encode (sonnet_geo.lon cell) (sonnet_geo.lat cell) 7 = Ok "9q8yyk8"%string /\
    sonnet_geo.neighbors "9q8yyk8" = Ok l /\ nth_error l 4 = Some "9q8yyk8"%string.
Proof.
  apply (reencode_centre "9q8yyk8"); [ reflexivity | cbn; lia ].
Defined.

End Coarse.

(** * Ties, validation and the shape of the results *)

Section Ties.

Lemma SFcompare_eq_sym x y :
  SFcompare x y = Some Eq -> SFcompare y x = Some Eq.
Proof.
  destruct x as [ sx | sx | | sx mx ex ], y as [ sy | sy | | sy my ey ];
    cbn [SFcompare]; try discriminate; try reflexivity;
    try (destruct sx; discriminate); try (destruct sy; discriminate).
  - destruct sx, sy; try discriminate; reflexivity.
  - intros H.
    assert (E : ex = ey /\ mx = my).
    { destruct sx, sy; try discriminate;
        destruct (Z.compare_spec ex ey) as [ -> | | ]; try discriminate;
        (split; [ reflexivity | ]); apply Pos.compare_eq;
        destruct (Pos.compare_cont Eq mx my) eqn:K; try discriminate;
        unfold Pos.compare; exact K. }
    destruct E as [-> ->]. rewrite Z.compare_refl.
    change (Pos.compare_cont Eq my my) with (Pos.compare my my).
    rewrite Pos.compare_refl. destruct sx, sy; try discriminate; reflexivity.
Qed.

(** [v == mid] makes [v >= mid] true and [v > mid] false. *)
Lemma eqb_leb v mid : (v =? mid)%float = true -> (mid <=? v)%float = true.
Proof.
  rewrite FloatAxioms.eqb_spec, FloatAxioms.leb_spec. unfold SFeqb, SFleb.
  destruct (SFcompare (Prim2SF v) (Prim2SF mid)) as [ [ | | ] | ] eqn:E;
    try discriminate.
  intros _. now rewrite (SFcompare_eq_sym _ _ E).
Qed.

Lemma eqb_ltb v mid : (v =? mid)%float = true -> (mid <? v)%float = false.
Proof.
  rewrite FloatAxioms.eqb_spec, FloatAxioms.ltb_spec. unfold SFeqb, SFltb.
  destruct (SFcompare (Prim2SF v) (Prim2SF mid)) as [ [ | | ] | ] eqn:E;
    try discriminate.
  intros _. now rewrite (SFcompare_eq_sym _ _ E).
Qed.

(** C2, as the code has it: on a tie [sonnet_geo.encode] and
    [codex_geo.encode] emit the bit 1 and keep the upper half
    [[mid, high]]; [geohash.get_bits] compares with [>], so on a tie it
    emits ['0'] and keeps the lower half [[low, mid]]. *)
Theorem tie_break :
  (forall lon lat st,
     let interval := if sonnet_geo.use_lon st then sonnet_geo.lon_interval st
                     else sonnet_geo.lat_interval st in
     let value := if sonnet_geo.use_lon st then lon else lat in
     let mid := ((fst interval + snd interval) / 2)%float in
     (value =? mid)%float = true ->
     sonnet_geo.encode_step lon lat st =
     sonnet_geo.mkEnc
       (if sonnet_geo.use_lon st then (mid, snd interval) else sonnet_geo.lon_interval st)
       (if sonnet_geo.use_lon st then sonnet_geo.lat_interval st else (mid, snd interval))
       (sonnet_geo.bits st ++ [1]) (negb (sonnet_geo.use_lon st))) /\
  (forall lon lat st,
     let interval := if codex_geo.use_lon st then codex_geo.lon_interval st
                     else codex_geo.lat_interval st in
     let value := if codex_geo.use_lon st then lon else lat in
     let mid := ((fst interval + snd interval) / 2)%float in
     (value =? mid)%float = true ->
     codex_geo.encode_step lon lat st =
     codex_geo.mkEnc
       (if codex_geo.use_lon st then (mid, snd interval) else codex_geo.lon_interval st)
       (if codex_geo.use_lon st then codex_geo.lat_interval st else (mid, snd interval))
       (codex_geo.bits st ++ [1]) (negb (codex_geo.use_lon st))) /\
  (forall n degrees result tup_range,
     let mid := (PyFloat.sum2 (fst tup_range) (snd tup_range) / 2)%float in
     (degrees =? mid)%float = true ->
     geohash.get_bits_loop (S n) degrees result tup_range =
     geohash.get_bits_loop n degrees (result ++ ["0"%char]) (fst tup_range, mid)).
Proof.
  split; [ | split ].
  - intros lon lat st interval value mid H. apply eqb_leb in H.
    unfold sonnet_geo.encode_step. fold interval value mid. now rewrite H.
  - intros lon lat st interval value mid H. apply eqb_leb in H.
    unfold codex_geo.encode_step. fold interval value mid. now rewrite H.
  - intros n degrees result tup_range mid H. apply eqb_ltb in H.
    cbn [geohash.get_bits_loop]. fold mid. now rewrite H.
Qed.

(** At longitude 0 the first midpoint is 0: the first bit of
    [sonnet_geo] and [codex_geo] is 1, that of [geohash.get_bits] is 0. *)
Lemma tie_break_witness :
  sonnet_geo.encode_step 0 0 encode_start
  = sonnet_geo.mkEnc (0%float, 180%float) sonnet_geo.LAT_RANGE [1] false /\
  geohash.get_bits_loop 1 0 [] ((-180)%float, 180%float) = ["0"%char].
Proof.
  destruct tie_break as (Hs & _ & Hl). split.
  - apply (Hs 0%float 0%float encode_start). reflexivity.
  - apply (Hl 0%nat 0%float [] ((-180)%float, 180%float)). reflexivity.
Defined.

(** C2 as stated fails for [geohash.get_bits]: longitude 0 ties with
    the first midpoint and the bit is ['0'], so that [geohash.encode]
    gives ['7'] where [sonnet_geo.encode] gives ['s']. *)
Lemma legacy_tie_emits_zero :
  (0 =? PyFloat.sum2 (PyFloat.of_int (-180)) (PyFloat.of_int 180) / 2)%float = true /\
  geohash.get_bits 0 1 180 = list_ascii_of_string "011" /\
  geohash.encode 0 0 1 = Ok "7"%string /\
  sonnet_geo.encode 0 0 1 = Ok "s"%string.
Proof. repeat split; vm_compute; reflexivity. Qed.

End Ties.

(** * Validation *)

Section Validation.
Import Bin64 Rounding.

(** C3, as the code has it: [sonnet_geo.encode] rejects a latitude out
    of range, then a longitude out of range, then a precision that is
    not positive, and otherwise returns [precision] symbols;
    [codex_geo.encode] checks the precision only, with a [ValueError],
    and [geohash.encode] checks nothing: both return a geohash for any
    coordinates. *)
Theorem encode_validation (lon lat : float) (precision : Z) :
  let lat_ok := ((-90 <=? lat)%float && (lat <=? 90)%float)%bool in
  let lon_ok := ((-180 <=? lon)%float && (lon <=? 180)%float)%bool in
  ((lat_ok = false ->
    sonnet_geo.encode lon lat precision = Raise (InvalidCoordinateError "Latitude" lat)) /\
   (lat_ok = true -> lon_ok = false ->
    sonnet_geo.encode lon lat precision = Raise (InvalidCoordinateError "Longitude" lon)) /\
   (lat_ok = true -> lon_ok = true -> precision <= 0 ->
    sonnet_geo.encode lon lat precision = Raise (InvalidPrecisionError precision)) /\
   (lat_ok = true -> lon_ok = true -> 0 < precision ->
    exists h, sonnet_geo.encode lon lat precision = Ok h /\
              String.length h = Z.to_nat precision /\ valid_geohash h = true)) /\
  ((precision <= 0 ->
    codex_geo.encode lon lat precision
    = Raise (ValueError "Precision must be a positive integer")) /\
   (0 < precision ->
    exists h, codex_geo.encode lon lat precision = Ok h /\
              String.length h = Z.to_nat precision /\ valid_geohash h = true)) /\
  (exists h, geohash.encode lon lat precision = Ok h /\
             String.length h = Z.to_nat precision).
Proof.
  intros lat_ok lon_ok. split; [ | split ].
  - unfold sonnet_geo.encode, sonnet_geo.LAT_RANGE, sonnet_geo.LON_RANGE.
    cbn [fst snd]. fold lat_ok lon_ok. repeat split.
    + intros ->. reflexivity.
    + intros -> ->. reflexivity.
    + intros -> -> Hp. cbn [negb]. unfold sonnet_geo._total_bits.
      destruct (Z.leb_spec precision 0); [ reflexivity | lia ].
    + intros H1 H2 Hp.
      destruct (encode_ok lon lat precision H1 H2 Hp) as (h & _ & E & L & V & _).
      exists h. unfold sonnet_geo.encode, sonnet_geo.LAT_RANGE, sonnet_geo.LON_RANGE in E.
      cbn [fst snd] in E. fold lat_ok lon_ok in E. auto.
  - split.
    + intros Hp. unfold codex_geo.encode, codex_geo._total_bits.
      destruct (Z.leb_spec precision 0); [ reflexivity | lia ].
    + intros Hp. rewrite (codex_encode_unfold lon lat precision Hp).
      apply encode_loop_packs, Hp.
  - apply legacy_encode_total.
Qed.

Lemma encode_validation_witness :
  sonnet_geo.encode 200 37.75 7 = Raise (InvalidCoordinateError "Longitude" 200) /\
  (exists h, sonnet_geo.encode (-122.5) 37.75 7 = Ok h /\ String.length h = 7%nat) /\
  (exists h, codex_geo.encode 200 37.75 7 = Ok h /\ String.length h = 7%nat).
Proof.
  split; [ | split ].
  - destruct (encode_validation 200 37.75 7) as ((_ & H & _) & _).
    apply H; reflexivity.
  - destruct (encode_validation (-122.5) 37.75 7) as ((_ & _ & _ & H) & _).
    destruct (H eq_refl eq_refl ltac:(lia)) as (h & E & L & _).
    exists h. split; [ exact E | exact L ].
  - destruct (encode_validation 200 37.75 7) as (_ & (_ & H) & _).
    destruct (H ltac:(lia)) as (h & E & L & _).
    exists h. split; [ exact E | exact L ].
Defined.

(** C3 as stated fails for [codex_geo.encode] and [geohash.encode]:
    the longitude 200 is encoded, not rejected. *)
Lemma encode_out_of_range_accepted :
  (200 <=? 180)%float = false /\
  codex_geo.encode 200 37.75 1 = Ok "x"%string /\
  geohash.encode 200 37.75 1 = Ok "x"%string /\
  sonnet_geo.encode 200 37.75 1 = Raise (InvalidCoordinateError "Longitude" 200).
Proof. repeat split; vm_compute; reflexivity. Qed.

(** ** Characters outside the alphabet *)

(** [sonnet_geo.decode] stops at the first character outside the
    alphabet with an [InvalidGeohashError] that quotes it. *)
Lemma sonnet_decode_invalid pre c post :
  forallb in_alphabet pre = true -> in_alphabet c = false ->
  sonnet_geo.decode (string_of_list_ascii (pre ++ c :: post))
  = Raise (InvalidGeohashError (sonnet_geo.invalid_character_message c)).
Proof.
  intros Hpre Hc. unfold sonnet_geo.decode, sonnet_geo.from_geohash, sonnet_geo._geohash_to_bits.
  rewrite list_ascii_of_string_of_list_ascii.
  now rewrite (geohash_to_bits_invalid pre c post [] Hpre Hc).
Qed.

(** C4 fails for [geohash.get_geobits]: on ['a'], which is not in the
    alphabet, it returns its message instead of raising, and [decode]
    reads the 58 characters of the message as bits and returns the
    point (179.99725308269262, 89.999999832361937). *)
Theorem legacy_decode_invalid_returns_point :
  in_alphabet "a" = false /\
  geohash.get_geobits "a" = geohash.invalid_message /\
  geohash.decode "a" "point"
  = geohash.Point (0x1.67fe97f4cp+7%float, 0x1.67fffff4cp+6%float) /\
  sonnet_geo.decode "a"
  = Raise (InvalidGeohashError
             "Invalid geohash character 'a'. Valid characters: 0123456789bcdefghjkmnpqrstuvwxyz").
Proof. repeat split; vm_compute; reflexivity. Qed.

(** ** The order of [neighbors] *)

(** C5, as the code has it: for a non-empty geohash,
    [sonnet_geo.neighbors] returns nine geohashes of the same length row
    by row, [NW, N, NE, W, Center, E, SW, S, SE]; [codex_geo.neighbors]
    returns them column by column, [NW, W, SW, N, Center, S, NE, E, SE];
    so does [geohash.neighbors] for a cell that is not on the edge of
    the map ([x] and [y] are the column and the row of the cell). *)
Theorem neighbors_order (h : string) :
  valid_geohash h = true -> h <> ""%string ->
  let p := Z.of_nat (String.length h) in
  (exists cell nw n ne w c e sw s se,
     sonnet_geo.decode h = Ok cell /\
     sonnet_geo.neighbors h = Ok [nw; n; ne; w; c; e; sw; s; se] /\
     sonnet_neighbor cell p (-1) 1 = Ok nw /\
     sonnet_neighbor cell p 0 1 = Ok n /\
     sonnet_neighbor cell p 1 1 = Ok ne /\
     sonnet_neighbor cell p (-1) 0 = Ok w /\
     sonnet_neighbor cell p 0 0 = Ok c /\
     sonnet_neighbor cell p 1 0 = Ok e /\
     sonnet_neighbor cell p (-1) (-1) = Ok sw /\
     sonnet_neighbor cell p 0 (-1) = Ok s /\
     sonnet_neighbor cell p 1 (-1) = Ok se /\
     Forall (fun g => String.length g = String.length h /\ valid_geohash g = true)
            [nw; n; ne; w; c; e; sw; s; se]) /\
  (exists cell nw n ne w c e sw s se,
     codex_geo.decode_cell h = Ok cell /\
     codex_geo.neighbors h = Ok [nw; w; sw; n; c; s; ne; e; se] /\
     codex_neighbor cell p (-1) 1 = Ok nw /\
     codex_neighbor cell p 0 1 = Ok n /\
     codex_neighbor cell p 1 1 = Ok ne /\
     codex_neighbor cell p (-1) 0 = Ok w /\
     codex_neighbor cell p 0 0 = Ok c /\
     codex_neighbor cell p 1 0 = Ok e /\
     codex_neighbor cell p (-1) (-1) = Ok sw /\
     codex_neighbor cell p 0 (-1) = Ok s /\
     codex_neighbor cell p 1 (-1) = Ok se /\
     Forall (fun g => String.length g = String.length h /\ valid_geohash g = true)
            [nw; w; sw; n; c; s; ne; e; se]) /\
  (forall x y,
     let lon_bits := evens (geohash.get_geobits h) in
     let lat_bits := odds (geohash.get_geobits h) in
     geohash.int2 lon_bits = Ok x -> geohash.int2 lat_bits = Ok y ->
     0 < x -> x + 1 < 2 ^ Z.of_nat (List.length lon_bits) ->
     0 < y -> y + 1 < 2 ^ Z.of_nat (List.length lat_bits) ->
     let cell := legacy_neighbor (List.length lon_bits) (List.length lat_bits)
                                 (String.length h) in
     exists nw n ne w c e sw s se,
       geohash.neighbors h = Ok [nw; w; sw; n; c; s; ne; e; se] /\
       cell (x - 1) (y + 1) = Ok nw /\ cell x (y + 1) = Ok n /\
       cell (x + 1) (y + 1) = Ok ne /\
       cell (x - 1) y = Ok w /\ cell x y = Ok c /\ cell (x + 1) y = Ok e /\
       cell (x - 1) (y - 1) = Ok sw /\ cell x (y - 1) = Ok s /\
       cell (x + 1) (y - 1) = Ok se /\
       Forall (fun g => String.length g = String.length h)
              [nw; w; sw; n; c; s; ne; e; se]).
Proof.
  intros Hv Hne p. split; [ | split ].
  - apply sonnet_neighbors_rows; assumption.
  - apply codex_neighbors_columns; assumption.
  - intros x y. apply legacy_neighbors_columns; assumption.
Qed.

Lemma neighbors_order_witness :
  exists l1 l2 l3,
    sonnet_geo.neighbors "9q8yyk8" = Ok l1 /\ List.length l1 = 9%nat /\
    codex_geo.neighbors "9q8yyk8" = Ok l2 /\ List.length l2 = 9%nat /\
    geohash.neighbors "9q8yyk8" = Ok l3 /\ List.length l3 = 9%nat.
Proof.
  destruct (neighbors_order "9q8yyk8" eq_refl ltac:(discriminate))
    as ((? & nw & n & ne & w & c & e & sw & s & se & _ & E1 & _) &
        (? & nw' & n' & ne' & w' & c' & e' & sw' & s' & se' & _ & E2 & _) & L).
  destruct (L 41928 93042 eq_refl eq_refl ltac:(lia) ltac:(vm_compute; reflexivity)
              ltac:(lia) ltac:(vm_compute; reflexivity))
    as (a1 & a2 & a3 & a4 & a5 & a6 & a7 & a8 & a9 & E3 & _).
  exists [nw; n; ne; w; c; e; sw; s; se], [nw'; w'; sw'; n'; c'; s'; ne'; e'; se'],
         [a1; a4; a7; a2; a5; a8; a3; a6; a9].
  repeat split; assumption.
Defined.

(** C5 as stated fails for [codex_geo.neighbors] and
    [geohash.neighbors]: the second entry is the western neighbour (the
    latitude of the cell, a smaller longitude), where the row-major order
    has the northern one; and [sonnet_geo.neighbors] rejects the empty
    geohash, which [decode] accepts. *)
Lemma neighbors_column_major :
  codex_geo.neighbors "9q8yyk8"
  = Ok ["9q8yyhz"; "9q8yyhx"; "9q8yyhr"; "9q8yykb"; "9q8yyk8"; "9q8yyk2";
        "9q8yykc"; "9q8yyk9"; "9q8yyk3"]%string /\
  geohash.neighbors "9q8yyk8"
  = Ok ["9q8yyhz"; "9q8yyhx"; "9q8yyhr"; "9q8yykb"; "9q8yyk8"; "9q8yyk2";
        "9q8yykc"; "9q8yyk9"; "9q8yyk3"]%string /\
  sonnet_geo.neighbors "9q8yyk8"
  = Ok ["9q8yyhz"; "9q8yykb"; "9q8yykc"; "9q8yyhx"; "9q8yyk8"; "9q8yyk9";
        "9q8yyhr"; "9q8yyk2"; "9q8yyk3"]%string /\
  (exists a b,
     sonnet_geo.decode "9q8yyhx" = Ok a /\ sonnet_geo.decode "9q8yyk8" = Ok b /\
     sonnet_geo.lat a = sonnet_geo.lat b /\
     (sonnet_geo.lon a <? sonnet_geo.lon b)%float = true) /\
  sonnet_geo.neighbors "" = Raise (InvalidPrecisionError 0).
Proof.
  split; [ vm_compute; reflexivity | ]. split; [ vm_compute; reflexivity | ].
  split; [ vm_compute; reflexivity | ]. split; [ | vm_compute; reflexivity ].
  do 2 eexists. split; [ vm_compute; reflexivity | ].
  split; [ vm_compute; reflexivity | ]. split; vm_compute; reflexivity.
Qed.

End Validation.

(** * Polygons and the empty geohash *)

Section Shapes.
Import Bin64 Rounding.

(** C7, as the code has it: [sonnet_geo]'s [to_polygon] lists the
    corners SW, SE, NE, NW and repeats SW when [closed]; for a geohash
    of at most 18 symbols west is below east and south below north.
    [codex_geo]'s [to_polygon] and [geohash.decode] list SW, SE, NW, NE,
    have no [closed] flag and never repeat SW. *)
Theorem polygon_corners :
  (forall cell closed,
     let west := (sonnet_geo.lon cell - sonnet_geo.lon_err cell)%float in
     let east := (sonnet_geo.lon cell + sonnet_geo.lon_err cell)%float in
     let south := (sonnet_geo.lat cell - sonnet_geo.lat_err cell)%float in
     let north := (sonnet_geo.lat cell + sonnet_geo.lat_err cell)%float in
     sonnet_geo.to_polygon cell closed
     = [(west, south); (east, south); (east, north); (west, north)]
       ++ (if closed then [(west, south)] else [])) /\
  (forall h, valid_geohash h = true -> (String.length h <= 18)%nat ->
     exists cell west south east north,
       sonnet_geo.decode h = Ok cell /\
       sonnet_geo.to_polygon cell true
       = [(west, south); (east, south); (east, north); (west, north); (west, south)] /\
       (west <? east)%float = true /\ (south <? north)%float = true) /\
  (forall cell,
     let west := (codex_geo.lon cell - codex_geo.lon_err cell)%float in
     let east := (codex_geo.lon cell + codex_geo.lon_err cell)%float in
     let south := (codex_geo.lat cell - codex_geo.lat_err cell)%float in
     let north := (codex_geo.lat cell + codex_geo.lat_err cell)%float in
     codex_geo.to_polygon cell
     = [(west, south); (east, south); (west, north); (east, north)]) /\
  (forall h cell,
     codex_geo.decode_cell h = Ok cell ->
     codex_geo.decode h "polygon" = Ok (codex_geo.Polygon (codex_geo.to_polygon cell))) /\
  (forall h,
     let lon := fst (geohash.get_degrees (evens (geohash.get_geobits h)) 180) in
     let lon_err := snd (geohash.get_degrees (evens (geohash.get_geobits h)) 180) in
     let lat := fst (geohash.get_degrees (odds (geohash.get_geobits h)) 90) in
     let lat_err := snd (geohash.get_degrees (odds (geohash.get_geobits h)) 90) in
     geohash.decode h "polygon"
     = geohash.Polygon
         [((lon - lon_err)%float, (lat - lat_err)%float);
          ((lon + lon_err)%float, (lat - lat_err)%float);
          ((lon - lon_err)%float, (lat + lat_err)%float);
          ((lon + lon_err)%float, (lat + lat_err)%float)]).
Proof.
  split; [ | split; [ | split; [ | split ] ] ].
  - intros cell [ | ]; reflexivity.
  - intros h Hv Hl.
    destruct (geohash_to_bits_ok h Hv) as (bs & Eb & _ & Hlen & _).
    destruct (decode_exact h bs Eb ltac:(lia))
      as (cell & Ed & _ & L1 & L2 & L3 & L4 & G1 & G2 & K1 & K2).
    pose proof (grid_bounds 2 _ _ ltac:(lia) (Nat2Z.is_nonneg _) G1) as (_ & B1 & _).
    pose proof (grid_bounds 1 _ _ ltac:(lia) (Nat2Z.is_nonneg _) G2) as (_ & B2 & _).
    destruct (sonnet_geo._refine_interval (evens bs) sonnet_geo.LON_RANGE) as [i1 i2].
    destruct (sonnet_geo._refine_interval (odds bs) sonnet_geo.LAT_RANGE) as [j1 j2].
    cbn [fst snd] in *.
    destruct (grid_cell 2 _ i1 i2 ltac:(lia) (depth_ok _ K1) G1)
      as (_ & _ & _ & _ & _ & F1 & F2 & V1 & V2).
    destruct (grid_cell 1 _ j1 j2 ltac:(lia) (depth_ok _ K2) G2)
      as (_ & _ & _ & _ & _ & F3 & F4 & V3 & V4).
    rewrite <- L1, <- L3 in F1, F2, V1, V2. rewrite <- L2, <- L4 in F3, F4, V3, V4.
    exists cell. do 4 eexists. split; [ exact Ed | ]. split; [ reflexivity | ].
    split; apply ltb_iff; try assumption; lra.
  - intros cell. reflexivity.
  - intros h cell E. unfold codex_geo.decode. rewrite E. reflexivity.
  - intros h. unfold geohash.decode.
    destruct (geohash.get_degrees (evens (geohash.get_geobits h)) 180).
    destruct (geohash.get_degrees (odds (geohash.get_geobits h)) 90).
    reflexivity.
Qed.

Lemma polygon_corners_witness :
  exists cell west south east north,
    sonnet_geo.decode "9q8yyk8" = Ok cell /\
    sonnet_geo.to_polygon cell true
    = [(west, south); (east, south); (east, north); (west, north); (west, south)] /\
    (west <? east)%float = true /\ (south <? north)%float = true.
Proof.
  destruct polygon_corners as (_ & H & _).
  apply (H "9q8yyk8"%string); [ reflexivity | cbn; lia ].
Defined.

(** C7 as stated fails for [codex_geo] and [geohash]: the third corner
    of the polygon of ['9q8yyk8'] is the north-west one, the fourth the
    north-east one, and there is no fifth. *)
Lemma polygon_not_counter_clockwise :
  exists west south east north,
    (west <? east)%float = true /\ (south <? north)%float = true /\
    codex_geo.decode "9q8yyk8" "polygon"
    = Ok (codex_geo.Polygon
            [(west, south); (east, south); (west, north); (east, north)]) /\
    geohash.decode "9q8yyk8" "polygon"
    = geohash.Polygon [(west, south); (east, south); (west, north); (east, north)].
Proof.
  exists (-122.420654296875)%float, 37.77374267578125%float,
         (-0x1.e9ad58p+6)%float, 37.775115966796875%float.
  repeat split; vm_compute; reflexivity.
Qed.

(** C10: every [decode] accepts the empty geohash and returns the whole
    map: centre (0.0, 0.0), half-widths 180.0 and 90.0.  The list that
    [geohash.decode] returns for ['pointerr'] is
    [[lat, lon, lat_err, lon_err]]. *)
Theorem decode_empty :
  sonnet_geo.decode "" = Ok (sonnet_geo.mkCell 0 0 180 90 "") /\
  codex_geo.decode "" "pointerr" = Ok (codex_geo.PointErr (0, 0, 180, 90)%float) /\
  codex_geo.decode "" "point" = Ok (codex_geo.Point (0, 0)%float) /\
  geohash.decode "" "pointerr" = geohash.PointErr [0; 0; 90; 180]%float /\
  geohash.decode "" "point" = geohash.Point (0, 0)%float.
Proof. repeat split. Qed.

(** C8 as stated fails at 19 symbols: the cell ['wb5008nb00j8n012j80']
    starts at the west side of its parent, [128 - 2^-41]; its centre is
    rounded down to [128 + 6 * 2^-45], and the centre minus the
    half-width, just below 128, is representable: the west side of the
    cell comes out [2^-46] west of its parent's. *)
Lemma child_bbox_exceeds_parent_at_19 :
  valid_geohash "wb5008nb00j8n012j80" = true /\
  String.length "wb5008nb00j8n012j80" = 19%nat /\
  sonnet_geo.parent "wb5008nb00j8n012j80" = "wb5008nb00j8n012j8"%string /\
  exists W S E N w s e n,
    sonnet_geo.bbox "wb5008nb00j8n012j8" = Ok (W, S, E, N) /\
    sonnet_geo.bbox "wb5008nb00j8n012j80" = Ok (w, s, e, n) /\
    (W <=? w)%float = false /\ (w <? W)%float = true.
Proof.
  split; [ reflexivity | ]. split; [ reflexivity | ]. split; [ reflexivity | ].
  do 8 eexists. split; [ vm_compute; reflexivity | ].
  split; [ vm_compute; reflexivity | ]. split; vm_compute; reflexivity.
Qed.

(** C9: at 21 symbols [sonnet_geo.neighbors] breaks its own docstring
    ("The result includes the input geohash at the center position").
    The centre of ['x00000000000000000020'] is rounded and encodes, at
    the same precision, to the next cell ['x00000000000000000021'];
    [neighbors] has that cell in its fifth place, and the input is not
    among the nine it returns. *)
Theorem neighbors_omits_input_at_21 :
  let h := "x00000000000000000020"%string in
  valid_geohash h = true /\ String.length h = 21%nat /\
  exists cell l,
    sonnet_geo.decode h = Ok cell /\
    sonnet_geo.encode (sonnet_geo.lon cell) (sonnet_geo.lat cell)
      (Z.of_nat (String.length h))
    = Ok "x00000000000000000021"%string /\
    sonnet_geo.neighbors h = Ok l /\
    l = [ "x00000000000000000023"; "x00000000000000000023"; "x00000000000000000023";
          "x00000000000000000021"; "x00000000000000000021"; "x00000000000000000021";
          "rpbpbpbpbpbpbpbpbpbrc"; "rpbpbpbpbpbpbpbpbpbrc"; "rpbpbpbpbpbpbpbpbpbrc"
        ]%string /\
    nth_error l 4 <> Some h /\ ~ In h l.
Proof.
  cbv zeta. split; [ reflexivity | ]. split; [ reflexivity | ].
  do 2 eexists. split; [ vm_compute; reflexivity | ].
  split; [ vm_compute; reflexivity | ].
  split; [ vm_compute; reflexivity | ].
  split; [ reflexivity | ]. split.
  - cbn [nth_error]. intros K. discriminate K.
  - cbn [In]. intros K.
    repeat (destruct K as [ K | K ]; [ discriminate K | ]). exact K.
Qed.

End Shapes.

(** * The codec and the hierarchy functions *)

Section Hierarchy.
Import Bin64 Rounding sonnet_geo.

(** ** Symbols and bits *)

(** X1: the symbols of a geohash unpack into five bits each, and
    packing those bits gives the geohash back; [codex_geo] has the same
    two functions. *)
Theorem geohash_bits_round_trip (h : string) :
  valid_geohash h = true ->
  exists bits,
    _geohash_to_bits h = Ok bits /\
    codex_geo._geohash_to_bits h = Ok bits /\
    Forall bit bits /\ List.length bits = (5 * String.length h)%nat /\
    _bits_to_geohash bits = Ok h /\
    codex_geo._bits_to_geohash bits = Ok h.
Proof.
  intros Hv. destruct (geohash_to_bits_ok h Hv) as (bits & E & Hb & Hl & Ep).
  exists bits. rewrite codex_geohash_to_bits_eq, codex_bits_to_geohash_eq by exact Hv.
  repeat split; assumption.
Qed.

Lemma geohash_bits_round_trip_witness :
  exists bits,
    _geohash_to_bits "9q8" = Ok bits /\
    codex_geo._geohash_to_bits "9q8" = Ok bits /\
    Forall bit bits /\ List.length bits = (5 * String.length "9q8")%nat /\
    _bits_to_geohash bits = Ok "9q8"%string /\
    codex_geo._bits_to_geohash bits = Ok "9q8"%string.
Proof.
  apply (geohash_bits_round_trip "9q8"%string). reflexivity.
Defined.

(** X2: whole groups of five bits pack into one symbol of the alphabet
    per group, and unpacking the symbols gives the bits back. *)
Theorem bits_geohash_round_trip (bits : list Z) (n : nat) :
  Forall bit bits -> List.length bits = (5 * n)%nat ->
  exists s,
    _bits_to_geohash bits = Ok s /\
    codex_geo._bits_to_geohash bits = Ok s /\
    String.length s = n /\ valid_geohash s = true /\
    _geohash_to_bits s = Ok bits /\
    codex_geo._geohash_to_bits s = Ok bits.
Proof.
  intros Hb Hl. destruct (bits_to_geohash_ok bits n Hb Hl) as (s & E & Hn & Hv & Eu).
  exists s. rewrite codex_bits_to_geohash_eq, codex_geohash_to_bits_eq by exact Hv.
  repeat split; assumption.
Qed.

Lemma bits_geohash_round_trip_witness :
  exists s,
    _bits_to_geohash [0; 1; 0; 0; 1] = Ok s /\
    codex_geo._bits_to_geohash [0; 1; 0; 0; 1] = Ok s /\
    String.length s = 1%nat /\ valid_geohash s = true /\
    _geohash_to_bits s = Ok [0; 1; 0; 0; 1] /\
    codex_geo._geohash_to_bits s = Ok [0; 1; 0; 0; 1].
Proof.
  apply (bits_geohash_round_trip [0; 1; 0; 0; 1] 1).
  - unfold bit. repeat (apply Forall_cons; [ lia | ]). apply Forall_nil.
  - reflexivity.
Defined.

(** Packing [b1 ++ b2] continues the packing of [b1]. *)
Lemma bits_to_geohash_app b1 b2 n m :
  Forall bit b1 -> Forall bit b2 ->
  List.length b1 = (5 * n)%nat -> List.length b2 = (5 * m)%nat ->
  exists c1 c2,
    _bits_to_geohash b1 = Ok (string_of_list_ascii c1) /\
    _bits_to_geohash (b1 ++ b2) = Ok (string_of_list_ascii (c1 ++ c2)) /\
    List.length c1 = n /\ List.length c2 = m /\
    forallb in_alphabet c1 = true /\ forallb in_alphabet c2 = true.
Proof.
  intros H1 H2 L1 L2.
  destruct (pack_bits n b1 [] H1 L1) as (c1 & E1 & N1 & A1 & _).
  destruct (pack_bits m b2 c1 H2 L2) as (c2 & E2 & N2 & A2 & _).
  cbn [app] in E1. exists c1, c2. unfold _bits_to_geohash.
  assert (L12 : List.length (b1 ++ b2) = (5 * (n + m))%nat)
    by (rewrite length_app; lia).
  rewrite L1, L12, !multiple_of_five, fold_left_app, E1, E2. cbn [bind geohash_chars].
  repeat split; assumption.
Qed.

(** ** [common_prefix] *)

Lemma common_prefix_loop_lcp l1 : forall l2 prefix,
  common_prefix_loop l1 l2 prefix = prefix ++ lcp l1 l2.
Proof.
  induction l1 as [ | c1 r1 IH ]; intros [ | c2 r2 ] prefix;
    cbn [common_prefix_loop lcp]; try (now rewrite app_nil_r).
  destruct (Ascii.eqb c1 c2).
  - rewrite IH, <- app_assoc. reflexivity.
  - now rewrite app_nil_r.
Qed.

Lemma common_prefix_lcp h1 h2 :
  common_prefix h1 h2 =
  string_of_list_ascii (lcp (list_ascii_of_string h1) (list_ascii_of_string h2)).
Proof. unfold common_prefix. now rewrite common_prefix_loop_lcp. Qed.

Lemma lcp_comm l1 : forall l2, lcp l1 l2 = lcp l2 l1.
Proof.
  induction l1 as [ | c1 r1 IH ]; intros [ | c2 r2 ]; cbn [lcp]; try reflexivity.
  rewrite (Ascii.eqb_sym c2 c1). destruct (Ascii.eqb_spec c1 c2) as [ -> | ];
    [ now rewrite IH | reflexivity ].
Qed.

Lemma lcp_idem l : lcp l l = l.
Proof.
  induction l as [ | c r IH ]; cbn [lcp]; [ reflexivity | ].
  now rewrite Ascii.eqb_refl, IH.
Qed.

Lemma lcp_assoc l1 : forall l2 l3, lcp (lcp l1 l2) l3 = lcp l1 (lcp l2 l3).
Proof.
  induction l1 as [ | c1 r1 IH ]; intros [ | c2 r2 ] [ | c3 r3 ]; cbn [lcp];
    try reflexivity.
  - destruct (Ascii.eqb c1 c2); reflexivity.
  - destruct (Ascii.eqb_spec c1 c2) as [ -> | N12 ]; cbn [lcp].
    + destruct (Ascii.eqb_spec c2 c3) as [ -> | N23 ]; cbn [lcp].
      * now rewrite Ascii.eqb_refl, IH.
      * reflexivity.
    + destruct (Ascii.eqb_spec c2 c3) as [ -> | N23 ]; cbn [lcp].
      * destruct (Ascii.eqb_spec c1 c3); [ contradiction | reflexivity ].
      * reflexivity.
Qed.

Lemma lcp_app l : forall r1 r2, lcp (l ++ r1) (l ++ r2) = l ++ lcp r1 r2.
Proof.
  induction l as [ | c l IH ]; intros r1 r2; cbn [app lcp]; [ reflexivity | ].
  now rewrite Ascii.eqb_refl, IH.
Qed.

Lemma lcp_nil_r l : lcp l [] = [].
Proof. destruct l; reflexivity. Qed.

Lemma lcp_spec l1 : forall l2,
  exists r1 r2,
    l1 = lcp l1 l2 ++ r1 /\ l2 = lcp l1 l2 ++ r2 /\
    (r1 = [] \/ r2 = [] \/ hd_error r1 <> hd_error r2).
Proof.
  induction l1 as [ | c1 t1 IH ]; intros [ | c2 t2 ]; cbn [lcp].
  - exists [], []. auto.
  - exists [], (c2 :: t2). auto.
  - exists (c1 :: t1), []. auto.
  - destruct (Ascii.eqb_spec c1 c2) as [ -> | N ].
    + destruct (IH t2) as (r1 & r2 & E1 & E2 & D). exists r1, r2.
      cbn [app]. rewrite <- E1, <- E2. auto.
    + exists (c1 :: t1), (c2 :: t2). repeat split. right. right.
      cbn [hd_error]. congruence.
Qed.

Lemma string_of_list_app l1 l2 :
  string_of_list_ascii (l1 ++ l2) =
  (string_of_list_ascii l1 ++ string_of_list_ascii l2)%string.
Proof. induction l1 as [ | c l1 IH ]; cbn; [ reflexivity | now rewrite IH ]. Qed.

Lemma list_of_string_app s1 s2 :
  list_ascii_of_string (s1 ++ s2) = list_ascii_of_string s1 ++ list_ascii_of_string s2.
Proof. induction s1 as [ | c s1 IH ]; cbn; [ reflexivity | now rewrite IH ]. Qed.

(** X3: on two ASCII strings (so on any two geohashes)
    [common_prefix] returns the longest common prefix: both arguments
    start with it, and what is left of them is empty on one side or
    starts with two different characters. *)
Theorem common_prefix_longest (hash1 hash2 : string) :
  ascii_string hash1 = true -> ascii_string hash2 = true ->
  exists rest1 rest2 : string,
    hash1 = (common_prefix hash1 hash2 ++ rest1)%string /\
    hash2 = (common_prefix hash1 hash2 ++ rest2)%string /\
    (rest1 = ""%string \/ rest2 = ""%string \/
     String.get 0 rest1 <> String.get 0 rest2).
Proof.
  intros _ _. rewrite common_prefix_lcp.
  destruct (lcp_spec (list_ascii_of_string hash1) (list_ascii_of_string hash2))
    as (r1 & r2 & E1 & E2 & D).
  exists (string_of_list_ascii r1), (string_of_list_ascii r2).
  rewrite <- !string_of_list_app, <- E1, <- E2, !string_of_list_ascii_of_string.
  split; [ reflexivity | ]. split; [ reflexivity | ].
  destruct D as [ -> | [ -> | D ] ]; [ now left | now right; left | ].
  right. right. destruct r1 as [ | a r1 ], r2 as [ | b r2 ]; cbn in *; congruence.
Qed.

Lemma common_prefix_longest_witness :
  exists rest1 rest2 : string,
    "9q8yyk8"%string = (common_prefix "9q8yyk8" "9q8zn" ++ rest1)%string /\
    "9q8zn"%string = (common_prefix "9q8yyk8" "9q8zn" ++ rest2)%string /\
    (rest1 = ""%string \/ rest2 = ""%string \/
     String.get 0 rest1 <> String.get 0 rest2).
Proof.
  apply (common_prefix_longest "9q8yyk8" "9q8zn"); reflexivity.
Defined.

(** X4: [common_prefix] is idempotent, commutative and associative. *)
Theorem common_prefix_semilattice (a b c : string) :
  common_prefix a a = a /\
  common_prefix a b = common_prefix b a /\
  common_prefix (common_prefix a b) c = common_prefix a (common_prefix b c).
Proof.
  rewrite !common_prefix_lcp, !list_ascii_of_string_of_list_ascii.
  rewrite lcp_idem, string_of_list_ascii_of_string, lcp_assoc.
  rewrite (lcp_comm (list_ascii_of_string a) (list_ascii_of_string b)).
  repeat split.
Qed.

(** ** [parent] and [children] *)

Lemma NoDup_map_inj {A B} (f : A -> B) (l : list A) :
  (forall x y, f x = f y -> x = y) -> NoDup l -> NoDup (map f l).
Proof.
  intros Hf H. induction H as [ | a l Ha Hl IH ]; cbn [map]; constructor.
  - intros K. apply in_map_iff in K. destruct K as (y & E & Hy).
    apply Hf in E. now subst y.
  - exact IH.
Qed.

Lemma removelast_snoc {A} (l : list A) (a : A) : removelast (l ++ [a]) = l.
Proof. rewrite removelast_app by discriminate. cbn. apply app_nil_r. Qed.

Lemma parent_snoc cs c :
  cs <> [] -> parent (string_of_list_ascii (cs ++ [c])) = string_of_list_ascii cs.
Proof.
  intros Hne. unfold parent.
  rewrite string_length_of_list, length_app, list_ascii_of_string_of_list_ascii.
  cbn [List.length]. destruct cs as [ | a cs ]; [ congruence | ].
  destruct (Z.ltb_spec 1 (Z.of_nat (List.length (a :: cs) + 1))) as [ _ | H ];
    [ | cbn [List.length] in H; lia ].
  now rewrite removelast_snoc.
Qed.

Lemma children_eq h :
  children h =
  map (fun c => string_of_list_ascii (list_ascii_of_string h ++ [c]))
      (list_ascii_of_string BASE32_ALPHABET).
Proof.
  unfold children. apply map_ext. intros c.
  rewrite string_of_list_app, string_of_list_ascii_of_string. reflexivity.
Qed.

Lemma nonempty_list h : h <> ""%string -> list_ascii_of_string h <> [].
Proof. destruct h; [ congruence | discriminate ]. Qed.

(** X5: a non-empty geohash has 32 children, all different, each one
    symbol longer, and [parent] of each child is the geohash; the
    children of a valid geohash are valid. *)
Theorem parent_of_children (h : string) :
  h <> ""%string ->
  List.length (children h) = 32%nat /\ NoDup (children h) /\
  Forall (fun g => parent g = h /\ String.length g = S (String.length h) /\
                   valid_geohash g = valid_geohash h)
         (children h).
Proof.
  intros Hne. split; [ reflexivity | ]. split.
  - rewrite children_eq. apply NoDup_map_inj.
    + intros x y E.
      apply (f_equal list_ascii_of_string) in E.
      rewrite !list_ascii_of_string_of_list_ascii in E.
      apply app_inv_head in E. congruence.
    + vm_compute. repeat (apply NoDup_cons; [ cbn; intuition discriminate | ]).
      apply NoDup_nil.
  - rewrite children_eq. apply Forall_map, Forall_forall. intros c Hc.
    split; [ | split ].
    + rewrite parent_snoc by now apply nonempty_list.
      apply string_of_list_ascii_of_string.
    + rewrite string_length_of_list, length_app, list_length_of_string.
      cbn [List.length]. lia.
    + unfold valid_geohash. rewrite list_ascii_of_string_of_list_ascii, forallb_app.
      cbn [forallb]. assert (A : in_alphabet c = true).
      { unfold in_alphabet. apply existsb_exists. exists c. split; [ exact Hc | ].
        apply Ascii.eqb_refl. }
      rewrite A. now rewrite !andb_true_r.
Qed.

Lemma parent_of_children_witness :
  List.length (children "9q") = 32%nat /\ NoDup (children "9q") /\
  Forall (fun g => parent g = "9q"%string /\
                   String.length g = S (String.length "9q") /\
                   valid_geohash g = valid_geohash "9q")
         (children "9q").
Proof.
  apply (parent_of_children "9q"%string). discriminate.
Defined.

(** X6: a valid geohash of two or more symbols is one of the children
    of its parent, and the common prefix of the two is the parent. *)
Theorem child_of_parent (g : string) :
  valid_geohash g = true -> (2 <= String.length g)%nat ->
  In g (children (parent g)) /\ common_prefix g (parent g) = parent g.
Proof.
  intros Hv Hl. unfold valid_geohash in Hv. rewrite <- list_length_of_string in Hl.
  remember (list_ascii_of_string g) as cs eqn:Ecs.
  assert (Eg : g = string_of_list_ascii cs)
    by (rewrite Ecs; symmetry; apply string_of_list_ascii_of_string).
  assert (Hcs : cs <> []) by (intros K; rewrite K in Hl; cbn in Hl; lia).
  pose proof (app_removelast_last "0"%char Hcs) as Ea.
  set (r := removelast cs) in *. set (l := last cs "0"%char) in *.
  assert (Hr : r <> []).
  { intros K. rewrite K in Ea. rewrite Ea in Hl. cbn in Hl. lia. }
  assert (Ep : parent g = string_of_list_ascii r).
  { rewrite Eg, Ea. now apply parent_snoc. }
  rewrite Ep. split.
  - rewrite children_eq, list_ascii_of_string_of_list_ascii.
    apply in_map_iff. exists l. split; [ now rewrite <- Ea | ].
    rewrite Ea, forallb_app in Hv. apply andb_true_iff in Hv. destruct Hv as [_ Hv].
    cbn [forallb] in Hv. rewrite andb_true_r in Hv.
    unfold in_alphabet in Hv. apply existsb_exists in Hv.
    destruct Hv as (x & Hx & E). apply Ascii.eqb_eq in E. now subst x.
  - rewrite common_prefix_lcp, <- Ecs, list_ascii_of_string_of_list_ascii.
    rewrite Ea at 1. rewrite <- (app_nil_r r) at 2.
    now rewrite lcp_app, lcp_nil_r, app_nil_r.
Qed.

Lemma child_of_parent_witness :
  In "9q8yyk8"%string (children (parent "9q8yyk8")) /\
  common_prefix "9q8yyk8" (parent "9q8yyk8") = parent "9q8yyk8".
Proof.
  apply (child_of_parent "9q8yyk8"%string); [ reflexivity | cbn; lia ].
Defined.

End Hierarchy.

(** * Encoding: the cell of a point *)

Section Encoding.
Import Bin64 Rounding sonnet_geo.

Lemma in_range_and lo hi x :
  (lo <=? x)%float = true -> (x <=? hi)%float = true ->
  (fst (lo, hi) <=? x)%float && (x <=? snd (lo, hi))%float = true.
Proof. intros H1 H2. cbn [fst snd]. now rewrite H1, H2. Qed.

(** X7: for coordinates in range and any positive precision [encode]
    returns a geohash of that many symbols of the alphabet, and the
    intervals its bits bisect down to (the ones [decode] takes the
    centre of) contain the coordinates. *)
Theorem encode_cell_contains_point (lon lat : float) (precision : Z) :
  (-90 <=? lat)%float = true -> (lat <=? 90)%float = true ->
  (-180 <=? lon)%float = true -> (lon <=? 180)%float = true ->
  0 < precision ->
  exists h bs,
    encode lon lat precision = Ok h /\
    String.length h = Z.to_nat precision /\ valid_geohash h = true /\
    _geohash_to_bits h = Ok bs /\
    contains (_refine_interval (evens bs) LON_RANGE) lon /\
    contains (_refine_interval (odds bs) LAT_RANGE) lat.
Proof.
  intros H1 H2 H3 H4 Hp.
  destruct (encode_ok lon lat precision (in_range_and _ _ _ H1 H2)
              (in_range_and _ _ _ H3 H4) Hp)
    as (h & bs & E & Hl & Hv & Eb & _ & C1 & C2).
  exists h, bs. do 4 (split; [ assumption | ]). split; assumption.
Qed.

Lemma encode_cell_contains_point_witness :
  exists h bs,
    encode (-122.5)%float 37.75%float 30 = Ok h /\
    String.length h = Z.to_nat 30 /\ valid_geohash h = true /\
    _geohash_to_bits h = Ok bs /\
    contains (_refine_interval (evens bs) LON_RANGE) (-122.5)%float /\
    contains (_refine_interval (odds bs) LAT_RANGE) 37.75%float.
Proof.
  apply (encode_cell_contains_point (-122.5)%float 37.75%float 30);
    [ reflexivity | reflexivity | reflexivity | reflexivity | lia ].
Defined.

(** X8: up to precision 18 the bounding box of the geohash [encode]
    returns contains the encoded point, in the comparisons Python
    evaluates. *)
Theorem encode_bbox_contains_point (lon lat : float) (precision : Z) :
  (-90 <=? lat)%float = true -> (lat <=? 90)%float = true ->
  (-180 <=? lon)%float = true -> (lon <=? 180)%float = true ->
  0 < precision <= 18 ->
  exists h w s e n,
    encode lon lat precision = Ok h /\ bbox h = Ok (w, s, e, n) /\
    (w <=? lon)%float = true /\ (lon <=? e)%float = true /\
    (s <=? lat)%float = true /\ (lat <=? n)%float = true.
Proof.
  intros H1 H2 H3 H4 Hp.
  destruct (encode_ok lon lat precision (in_range_and _ _ _ H1 H2)
              (in_range_and _ _ _ H3 H4) ltac:(lia))
    as (h & bs & E & Hl & Hv & Eb & Hlb & [C1 C2] & [C3 C4]).
  destruct (lon_in_range_finite lon (in_range_and _ _ _ H3 H4)) as [Fn _].
  destruct (lat_in_range_finite lat (in_range_and _ _ _ H1 H2)) as [Ft _].
  destruct (bbox_exact h bs Eb ltac:(lia))
    as (w & s & e & n & Ebb & Fw & Fs & Fe & Fnn & V1 & V2 & V3 & V4).
  exists h, w, s, e, n. split; [ exact E | ]. split; [ exact Ebb | ].
  repeat split; apply leb_iff; try assumption; lra.
Qed.

Lemma encode_bbox_contains_point_witness :
  exists h w s e n,
    encode (-122.5)%float 37.75%float 18 = Ok h /\ bbox h = Ok (w, s, e, n) /\
    (w <=? -122.5)%float = true /\ (-122.5 <=? e)%float = true /\
    (s <=? 37.75)%float = true /\ (37.75 <=? n)%float = true.
Proof.
  apply (encode_bbox_contains_point (-122.5)%float 37.75%float 18);
    [ reflexivity | reflexivity | reflexivity | reflexivity | lia ].
Defined.

(** X9: every point of the half-open bounding box of a geohash of 1 to
    18 symbols (west and south edges included, east and north edges
    excluded) encodes, at the length of the geohash, to that geohash. *)
Theorem bbox_points_encode (h : string) :
  valid_geohash h = true -> (1 <= String.length h <= 18)%nat ->
  exists w s e n,
    bbox h = Ok (w, s, e, n) /\
    forall lon lat,
      (w <=? lon)%float = true -> (lon <? e)%float = true ->
      (s <=? lat)%float = true -> (lat <? n)%float = true ->
      encode lon lat (Z.of_nat (String.length h)) = Ok h.
Proof.
  intros Hv Hl. destruct (geohash_to_bits_ok h Hv) as (bs & Eb & Hb & Hlb & _).
  destruct (bbox_exact h bs Eb ltac:(lia))
    as (w & s & e & n & Ebb & Fw & Fs & Fe & Fnn & V1 & V2 & V3 & V4).
  exists w, s, e, n. split; [ exact Ebb | ].
  intros lon lat L1 L2 L3 L4.
  assert (Fn : finite lon = true).
  { apply (between_finite w lon e Fw Fe L1).
    rewrite FloatAxioms.leb_spec. rewrite FloatAxioms.ltb_spec in L2.
    unfold SFleb. unfold SFltb in L2. destruct (SFcompare _ _) as [ [ | | ] | ];
      congruence. }
  assert (Ft : finite lat = true).
  { apply (between_finite s lat n Fs Fnn L3).
    rewrite FloatAxioms.leb_spec. rewrite FloatAxioms.ltb_spec in L4.
    unfold SFleb. unfold SFltb in L4. destruct (SFcompare _ _) as [ [ | | ] | ];
      congruence. }
  apply (leb_iff _ _ Fw Fn) in L1. apply (ltb_iff _ _ Fn Fe) in L2.
  apply (leb_iff _ _ Fs Ft) in L3. apply (ltb_iff _ _ Ft Fnn) in L4.
  apply (encode_reproduces h bs lon lat Eb Hv); try assumption; try lra.
  destruct h; [ cbn in Hl; lia | discriminate ].
Qed.

Lemma bbox_points_encode_witness :
  exists w s e n,
    bbox "9q8yyk8" = Ok (w, s, e, n) /\
    forall lon lat,
      (w <=? lon)%float = true -> (lon <? e)%float = true ->
      (s <=? lat)%float = true -> (lat <? n)%float = true ->
      encode lon lat (Z.of_nat (String.length "9q8yyk8")) = Ok "9q8yyk8"%string.
Proof.
  apply (bbox_points_encode "9q8yyk8"%string); [ reflexivity | cbn; lia ].
Defined.

(** ** Prefixes *)

Lemma encode_loop_add n : forall m lon lat st,
  encode_loop (n + m) lon lat st = encode_loop m lon lat (encode_loop n lon lat st).
Proof.
  induction n as [ | n IH ]; intros m lon lat st; cbn [Nat.add encode_loop].
  - reflexivity.
  - apply IH.
Qed.

Lemma encode_prefix lon lat p q :
  (-90 <=? lat)%float = true -> (lat <=? 90)%float = true ->
  (-180 <=? lon)%float = true -> (lon <=? 180)%float = true ->
  0 < q <= p ->
  exists cq cr,
    encode lon lat q = Ok (string_of_list_ascii cq) /\
    encode lon lat p = Ok (string_of_list_ascii (cq ++ cr)) /\
    List.length cq = Z.to_nat q /\ List.length cr = Z.to_nat (p - q).
Proof.
  intros H1 H2 H3 H4 Hq.
  rewrite (sonnet_encode_unfold lon lat q H1 H2 H3 H4) by lia.
  rewrite (sonnet_encode_unfold lon lat p H1 H2 H3 H4) by lia.
  replace (Z.to_nat (p * 5)) with (Z.to_nat (q * 5) + Z.to_nat ((p - q) * 5))%nat by lia.
  rewrite encode_loop_add.
  destruct (encode_loop_spec lon lat (Z.to_nat (q * 5)) encode_start)
    as (n1 & B1 & L1 & F1 & _).
  set (st := encode_loop (Z.to_nat (q * 5)) lon lat encode_start) in *.
  destruct (encode_loop_spec lon lat (Z.to_nat ((p - q) * 5)) st)
    as (n2 & B2 & L2 & F2 & _).
  rewrite B2, B1. change (bits encode_start) with (@nil Z). cbn [app].
  destruct (bits_to_geohash_app n1 n2 (Z.to_nat q) (Z.to_nat (p - q)) F1 F2
              ltac:(lia) ltac:(lia))
    as (c1 & c2 & E1 & E2 & N1 & N2 & _).
  exists c1, c2. repeat split; assumption.
Qed.

(** X10: the geohash of a point at a lower precision is a prefix of its
    geohash at a higher one: it is their common prefix, and one
    precision lower it is the parent. *)
Theorem encode_prefix_of_finer (lon lat : float) (p q : Z) :
  (-90 <=? lat)%float = true -> (lat <=? 90)%float = true ->
  (-180 <=? lon)%float = true -> (lon <=? 180)%float = true ->
  0 < q <= p ->
  exists hp hq rest,
    encode lon lat p = Ok hp /\ encode lon lat q = Ok hq /\
    hp = (hq ++ rest)%string /\
    common_prefix hp hq = hq /\
    (p = q + 1 -> parent hp = hq).
Proof.
  intros H1 H2 H3 H4 Hq.
  destruct (encode_prefix lon lat p q H1 H2 H3 H4 Hq) as (cq & cr & Eq & Ep & Lq & Lr).
  exists (string_of_list_ascii (cq ++ cr)), (string_of_list_ascii cq),
    (string_of_list_ascii cr).
  split; [ exact Ep | ]. split; [ exact Eq | ]. split; [ apply string_of_list_app | ].
  split.
  - rewrite common_prefix_lcp, !list_ascii_of_string_of_list_ascii.
    rewrite <- (app_nil_r cq) at 2. now rewrite lcp_app, lcp_nil_r, app_nil_r.
  - intros ->. replace (q + 1 - q) with 1 in Lr by lia.
    destruct cr as [ | c [ | ] ]; try discriminate Lr.
    apply parent_snoc. intros ->. cbn in Lq. lia.
Qed.

Lemma encode_prefix_of_finer_witness :
  exists hp hq rest,
    encode (-122.5)%float 37.75%float 8 = Ok hp /\
    encode (-122.5)%float 37.75%float 7 = Ok hq /\
    hp = (hq ++ rest)%string /\
    common_prefix hp hq = hq /\
    (8 = 7 + 1 -> parent hp = hq).
Proof.
  apply (encode_prefix_of_finer (-122.5)%float 37.75%float 8 7);
    [ reflexivity | reflexivity | reflexivity | reflexivity | lia ].
Defined.

(** X11: for coordinates in range and a positive precision
    [codex_geo.encode] returns what [sonnet_geo.encode] returns. *)
Theorem codex_encode_agrees (lon lat : float) (precision : Z) :
  (-90 <=? lat)%float = true -> (lat <=? 90)%float = true ->
  (-180 <=? lon)%float = true -> (lon <=? 180)%float = true ->
  0 < precision ->
  codex_geo.encode lon lat precision = encode lon lat precision /\
  exists h, encode lon lat precision = Ok h.
Proof.
  intros H1 H2 H3 H4 Hp.
  rewrite (codex_encode_unfold lon lat precision Hp).
  rewrite (sonnet_encode_unfold lon lat precision H1 H2 H3 H4 Hp).
  split; [ reflexivity | ].
  destruct (encode_loop_packs lon lat precision Hp) as (h & E & _). now exists h.
Qed.

Lemma codex_encode_agrees_witness :
  codex_geo.encode (-122.5)%float 37.75%float 7 = encode (-122.5)%float 37.75%float 7 /\
  exists h, encode (-122.5)%float 37.75%float 7 = Ok h.
Proof.
  apply (codex_encode_agrees (-122.5)%float 37.75%float 7);
    [ reflexivity | reflexivity | reflexivity | reflexivity | lia ].
Defined.

End Encoding.

(** * Decoding: what a cell holds *)

Section Decoding.
Import Bin64 Rounding sonnet_geo.

(** X12: [decode] of a valid geohash of any length returns a cell whose
    centre is a pair of coordinates [encode] accepts and whose
    half-widths are not negative. *)
Theorem decode_in_range (h : string) :
  valid_geohash h = true ->
  exists cell,
    decode h = Ok cell /\ geohash cell = h /\
    (-180 <=? lon cell)%float = true /\ (lon cell <=? 180)%float = true /\
    (-90 <=? lat cell)%float = true /\ (lat cell <=? 90)%float = true /\
    (0 <=? lon_err cell)%float = true /\ (0 <=? lat_err cell)%float = true.
Proof.
  intros Hv. destruct (geohash_to_bits_ok h Hv) as (bs & E & _).
  eexists. unfold decode. rewrite (from_geohash_eq h bs E).
  split; [ reflexivity | ]. cbn [geohash lon lat lon_err lat_err].
  split; [ reflexivity | ].
  pose proof (axis_centred (evens bs) LON_RANGE 180 lon_range_bounded B2Q_m180 B2Q_180
                ltac:(lra)) as (F1 & F2 & A1 & A2 & A3 & _).
  pose proof (axis_centred (odds bs) LAT_RANGE 90 lat_range_bounded B2Q_m90 B2Q_90
                ltac:(lra)) as (F3 & F4 & A4 & A5 & A6 & _).
  destruct (in_range_test _ F1) as [[R1 R2] _]; [ lra | lra | ].
  destruct (in_range_test _ F3) as [_ [R3 R4]]; [ lra | lra | ].
  do 4 (split; [ assumption | ]).
  split; apply leb_iff; try assumption; try reflexivity.
Qed.

Lemma decode_in_range_witness :
  exists cell,
    decode "9q8yyk8" = Ok cell /\ geohash cell = "9q8yyk8"%string /\
    (-180 <=? lon cell)%float = true /\ (lon cell <=? 180)%float = true /\
    (-90 <=? lat cell)%float = true /\ (lat cell <=? 90)%float = true /\
    (0 <=? lon_err cell)%float = true /\ (0 <=? lat_err cell)%float = true.
Proof.
  apply (decode_in_range "9q8yyk8"%string). reflexivity.
Defined.

(** ** The size of a cell *)

Lemma dy_90_45 e : (dy 90 e == 2 * dy 45 e)%Q.
Proof. unfold dy. change (inject_Z 90) with (2 * inject_Z 45)%Q. ring. Qed.

Lemma axis_width c k lo hi :
  1 <= c <= 2 -> 0 <= k <= 47 -> grid c k (lo, hi) ->
  let w := ((hi - lo) / 2 * 2)%float in
  finite w = true /\ (B2Q w == dy 90 (c - k))%Q /\
  (B2Q w * inject_Z (2 ^ k) == dy 90 c)%Q /\
  (0 <= B2Q w)%Q /\ (B2Q w <= 360)%Q.
Proof.
  intros Hc Hk G w.
  destruct (grid_cell c k lo hi Hc Hk G) as (_ & Fe & _ & Ee & _).
  destruct G as (Fl & Fh & a & Ha1 & Ha2 & E1 & E2). cbn [fst snd] in *.
  assert (Hd : (B2Q hi - B2Q lo == dy 90 (c - k))%Q).
  { rewrite E1, E2. replace (45 * (a + 2)) with (45 * a + 90) by lia.
    rewrite dy_add. ring. }
  assert (B0 : (0 <= dy 90 (c - k))%Q) by (apply dy_nonneg; lia).
  assert (B1 : (dy 90 (c - k) <= 360)%Q).
  { apply (Qle_trans _ (dy 90 2)); [ apply dy_mono_e; lia | ].
    vm_compute. discriminate. }
  assert (Ep : (B2Q ((hi - lo) / 2) * B2Q 2 == dy 90 (c - k))%Q).
  { rewrite Ee, Hd, B2Q_2. ring. }
  destruct (mul_exact ((hi - lo) / 2) 2 Fe eq_refl) as [Fw Ew].
  - apply (format_proper (dy 90 (c - k))); [ now rewrite Ep | ].
    apply format_dy; lia.
  - apply in_range_small; rewrite Ep; lra.
  - fold w in Fw, Ew. rewrite Ep in Ew.
    split; [ exact Fw | ]. split; [ exact Ew | ].
    split; [ | rewrite Ew; split; assumption ].
    assert (Hs : (dy (90 * 2 ^ k) (c - k) == dy 90 (c - k) * inject_Z (2 ^ k))%Q).
    { unfold dy. rewrite inject_Z_mult. ring. }
    rewrite Ew, <- Hs, (dy_shift 90 (c - k) k) by lia.
    replace (c - k + k) with c by lia. reflexivity.
Qed.

Lemma far_below_overflow_meters : (40000000 < dy 1 1024)%Q.
Proof. vm_compute. reflexivity. Qed.

(** X13: for a valid geohash of [n <= 18] symbols the cell is
    [360 / 2^ceil(5n/2)] degrees wide and [180 / 2^floor(5n/2)] degrees
    high, exactly, and its height in metres is 110540 times its height
    in degrees. *)
Theorem cell_dimensions (h : string) :
  valid_geohash h = true -> (String.length h <= 18)%nat ->
  exists cell,
    decode h = Ok cell /\
    (B2Q (width_degrees cell) *
       inject_Z (2 ^ ((5 * Z.of_nat (String.length h) + 1) / 2)) == 360)%Q /\
    (B2Q (height_degrees cell) *
       inject_Z (2 ^ (5 * Z.of_nat (String.length h) / 2)) == 180)%Q /\
    finite (height_meters cell) = true /\
    (B2Q (height_meters cell) == 110540 * B2Q (height_degrees cell))%Q.
Proof.
  intros Hv Hl. destruct (geohash_to_bits_ok h Hv) as (bs & Eb & _ & Hlb & _).
  destruct (decode_exact h bs Eb ltac:(lia))
    as (cell & Ed & _ & _ & _ & L3 & L4 & G1 & G2 & K1 & K2).
  pose proof (evens_odds_length bs) as [S1 S2].
  assert (Ke : Z.of_nat (List.length (evens bs))
               = (5 * Z.of_nat (String.length h) + 1) / 2)
    by (zify; Z.div_mod_to_equations; lia).
  assert (Ko : Z.of_nat (List.length (odds bs))
               = 5 * Z.of_nat (String.length h) / 2)
    by (zify; Z.div_mod_to_equations; lia).
  assert (Re : 0 <= (5 * Z.of_nat (String.length h) + 1) / 2 <= 47) by lia.
  assert (Ro : 0 <= 5 * Z.of_nat (String.length h) / 2 <= 47) by lia.
  rewrite Ke in G1. rewrite Ko in G2.
  destruct (_refine_interval (evens bs) LON_RANGE) as [i1 i2].
  destruct (_refine_interval (odds bs) LAT_RANGE) as [j1 j2].
  cbn [fst snd] in *.
  destruct (axis_width 2 _ i1 i2 ltac:(lia) Re G1) as (_ & _ & W & _).
  destruct (axis_width 1 _ j1 j2 ltac:(lia) Ro G2) as (Fh & _ & H & H0 & H1).
  exists cell. split; [ exact Ed | ].
  unfold width_degrees, height_degrees, height_meters. rewrite L3, L4.
  split; [ apply (Qeq_trans _ _ _ W); reflexivity | ].
  split; [ apply (Qeq_trans _ _ _ H); reflexivity | ].
  assert (Em : (B2Q (PyFloat.of_int METERS_PER_DEGREE_LAT) == 110540)%Q) by reflexivity.
  destruct (axis_width 1 _ j1 j2 ltac:(lia) Ro G2) as (_ & Eh & _).
  destruct (mul_exact ((j2 - j1) / 2 * 2) (PyFloat.of_int METERS_PER_DEGREE_LAT)
              Fh eq_refl) as [Fm Vm].
  - apply (format_proper (dy (90 * 110540) (1 - 5 * Z.of_nat (String.length h) / 2))).
    + rewrite Eh, Em. unfold dy. rewrite inject_Z_mult.
      change (inject_Z 110540) with 110540%Q. ring.
    + apply format_dy; lia.
  - pose proof far_below_overflow_meters. split; rewrite Em; nra.
  - split; [ exact Fm | ]. rewrite Vm, Em. ring.
Qed.

Lemma cell_dimensions_witness :
  exists cell,
    decode "9q8yyk8" = Ok cell /\
    (B2Q (width_degrees cell) *
       inject_Z (2 ^ ((5 * Z.of_nat (String.length "9q8yyk8") + 1) / 2)) == 360)%Q /\
    (B2Q (height_degrees cell) *
       inject_Z (2 ^ (5 * Z.of_nat (String.length "9q8yyk8") / 2)) == 180)%Q /\
    finite (height_meters cell) = true /\
    (B2Q (height_meters cell) == 110540 * B2Q (height_degrees cell))%Q.
Proof.
  apply (cell_dimensions "9q8yyk8"%string); [ reflexivity | cbn; lia ].
Defined.

(** ** Characters outside the alphabet *)

(** X14: on a geohash whose first character outside the alphabet is
    the ASCII character [c], [decode], [bbox] and [neighbors] of
    [sonnet_geo] raise [InvalidGeohashError] with the message that
    quotes [c]. *)
Theorem sonnet_invalid_character (pre : list ascii) (c : ascii) (post : list ascii) :
  forallb in_alphabet pre = true -> in_alphabet c = false -> one_byte c = true ->
  let h := string_of_list_ascii (pre ++ c :: post) in
  let e := InvalidGeohashError (invalid_character_message c) in
  decode h = Raise e /\ bbox h = Raise e /\ neighbors h = Raise e.
Proof.
  intros Hpre Hc _ h e.
  pose proof (sonnet_decode_invalid pre c post Hpre Hc) as E. fold h e in E.
  unfold bbox, neighbors. rewrite E. repeat split.
Qed.

Lemma sonnet_invalid_character_witness :
  let h := string_of_list_ascii (["9"; "q"] ++ "a" :: ["i"])%char in
  let e := InvalidGeohashError (invalid_character_message "a") in
  decode h = Raise e /\ bbox h = Raise e /\ neighbors h = Raise e.
Proof.
  apply (sonnet_invalid_character ["9"; "q"]%char "a"%char ["i"]%char); reflexivity.
Defined.

Lemma codex_geohash_to_bits_invalid pre c post : forall acc,
  forallb in_alphabet pre = true -> in_alphabet c = false ->
  codex_geo._geohash_to_bits_from acc (pre ++ c :: post) =
  Raise (ValueError "Invalid geohash character. Use 0-9 and b-h, j, k, m, n, p-z.").
Proof.
  induction pre as [ | p pre IH ]; intros acc Hpre Hc.
  - cbn [app codex_geo._geohash_to_bits_from].
    change codex_geo.BASE32_DECODE_MAP with BASE32_DECODE_MAP.
    now rewrite (decode_map_none c Hc).
  - cbn [forallb] in Hpre. apply andb_true_iff in Hpre. destruct Hpre as [Hp Hpre].
    cbn [app codex_geo._geohash_to_bits_from].
    change codex_geo.BASE32_DECODE_MAP with BASE32_DECODE_MAP.
    destruct (unpack_symbol p Hp) as (v & ? & ? & ? & ? & ? & Hv & _).
    rewrite Hv. now apply IH.
Qed.

(** X15: [codex_geo.decode] and [codex_geo.neighbors] raise the same
    [ValueError] on every geohash with a character outside the
    alphabet, whatever the [geotype]; on a valid geohash [decode]
    raises only for a [geotype] other than the three it knows. *)
Theorem codex_decode_errors (pre : list ascii) (c : ascii) (post : list ascii)
  (h geotype : string) :
  forallb in_alphabet pre = true -> in_alphabet c = false ->
  valid_geohash h = true ->
  let bad := string_of_list_ascii (pre ++ c :: post) in
  let e := ValueError "Invalid geohash character. Use 0-9 and b-h, j, k, m, n, p-z." in
  codex_geo.decode bad geotype = Raise e /\
  codex_geo.neighbors bad = Raise e /\
  (geotype <> "point"%string -> geotype <> "pointerr"%string ->
   geotype <> "polygon"%string ->
   codex_geo.decode h geotype =
   Raise (ValueError "geotype must be 'point', 'pointerr', or 'polygon'")) /\
  exists cell,
    codex_geo.decode h "point" = Ok (codex_geo.Point (codex_geo.to_point cell)) /\
    codex_geo.decode h "pointerr" = Ok (codex_geo.PointErr (codex_geo.to_pointerr cell)) /\
    codex_geo.decode h "polygon" = Ok (codex_geo.Polygon (codex_geo.to_polygon cell)).
Proof.
  intros Hpre Hc Hv bad e.
  assert (E : codex_geo.decode_cell bad = Raise e).
  { unfold codex_geo.decode_cell, codex_geo._geohash_to_bits, bad.
    rewrite list_ascii_of_string_of_list_ascii.
    now rewrite (codex_geohash_to_bits_invalid pre c post [] Hpre Hc). }
  destruct (codex_decode_centred h Hv) as (cell & Ed & _).
  split; [ unfold codex_geo.decode; now rewrite E | ].
  split; [ unfold codex_geo.neighbors, codex_geo.decode; now rewrite E | ].
  split.
  - intros N1 N2 N3. unfold codex_geo.decode. rewrite Ed. cbn [bind].
    apply String.eqb_neq in N1, N2, N3. now rewrite N1, N2, N3.
  - exists cell. unfold codex_geo.decode. rewrite Ed. repeat split.
Qed.

Lemma codex_decode_errors_witness :
  let bad := string_of_list_ascii (["9"; "q"] ++ "a" :: ["i"])%char in
  let e := ValueError "Invalid geohash character. Use 0-9 and b-h, j, k, m, n, p-z." in
  codex_geo.decode bad "bbox" = Raise e /\
  codex_geo.neighbors bad = Raise e /\
  ("bbox"%string <> "point"%string -> "bbox"%string <> "pointerr"%string ->
   "bbox"%string <> "polygon"%string ->
   codex_geo.decode "9q8" "bbox" =
   Raise (ValueError "geotype must be 'point', 'pointerr', or 'polygon'")) /\
  exists cell,
    codex_geo.decode "9q8" "point" = Ok (codex_geo.Point (codex_geo.to_point cell)) /\
    codex_geo.decode "9q8" "pointerr"
      = Ok (codex_geo.PointErr (codex_geo.to_pointerr cell)) /\
    codex_geo.decode "9q8" "polygon" = Ok (codex_geo.Polygon (codex_geo.to_polygon cell)).
Proof.
  apply (codex_decode_errors ["9"; "q"]%char "a"%char ["i"]%char "9q8"%string "bbox"%string);
    reflexivity.
Defined.

End Decoding.

(** * The two implementations side by side *)

Section Agreement.
Import Bin64 Rounding.

(** ** Wrapping *)

Lemma SFsub_opp x s m e :
  SFsub prec emax x (S754_finite s m e) = SFadd prec emax x (S754_finite (negb s) m e).
Proof.
  destruct x as [ sx | sx | | sx mx ex ]; try reflexivity.
  unfold SFsub, SFadd. cbv zeta. f_equal. destruct s; cbn [negb cond_Zopp]; lia.
Qed.

(** Subtracting [-180.0] is adding [180.0], for every float. *)
Lemma sub_m180 x : (x - (-180))%float = (x + 180)%float.
Proof.
  apply Prim2SF_inj. rewrite sub_spec, add_spec.
  change (Prim2SF (-180)) with (S754_finite true 6333186975989760 (-45)).
  rewrite SFsub_opp. reflexivity.
Qed.

Lemma add_m180 x : (x + (-180))%float = (x - 180)%float.
Proof.
  apply Prim2SF_inj. rewrite sub_spec, add_spec.
  change (Prim2SF 180) with (S754_finite false 6333186975989760 (-45)).
  rewrite SFsub_opp. reflexivity.
Qed.

Lemma wrap_agree lon : sonnet_geo._wrap_longitude lon = codex_geo._wrap_longitude lon.
Proof.
  unfold sonnet_geo._wrap_longitude, codex_geo._wrap_longitude.
  unfold sonnet_geo.LON_RANGE, sonnet_geo.LON_SPAN. cbn [fst snd].
  rewrite sub_m180. destruct (PyFloat.mod_ (lon + 180) 360) as [ m | e ]; [ | reflexivity ].
  cbn [bind]. now rewrite add_m180.
Qed.

(** X16: the two [_wrap_longitude] return the same float on every
    input, the infinities and NaN included, and never raise. *)
Theorem wrap_longitude_agree (lon : float) :
  exists r,
    sonnet_geo._wrap_longitude lon = Ok r /\ codex_geo._wrap_longitude lon = Ok r.
Proof.
  rewrite wrap_agree. unfold codex_geo._wrap_longitude, PyFloat.mod_.
  change (360 =? 0)%float with false. cbv iota.
  destruct (negb _); [ destruct (xorb _ _) | ]; cbn [bind]; eexists; split; reflexivity.
Qed.

(** X17: for a longitude between -1000 and 1000 both [_wrap_longitude]
    return a value [r] with [-180 <= r < 180]. *)
Theorem wrap_longitude_range (lon : float) :
  (-1000 <=? lon)%float = true -> (lon <=? 1000)%float = true ->
  exists r,
    sonnet_geo._wrap_longitude lon = Ok r /\ codex_geo._wrap_longitude lon = Ok r /\
    (-180 <=? r)%float = true /\ (r <? 180)%float = true.
Proof.
  intros H1 H2.
  assert (Fl : finite lon = true)
    by (eapply between_finite; [ | | exact H1 | exact H2 ]; reflexivity).
  assert (V1 : (B2Q (-1000) == -1000)%Q) by reflexivity.
  assert (V2 : (B2Q 1000 == 1000)%Q) by reflexivity.
  apply (leb_iff (-1000) lon eq_refl Fl) in H1. apply (leb_iff lon 1000 Fl eq_refl) in H2.
  rewrite V1 in H1. rewrite V2 in H2.
  destruct (sonnet_wrap_range lon Fl H1 H2) as (r & E & Fr & R1 & R2 & _).
  exists r. rewrite <- wrap_agree. split; [ exact E | ]. split; [ exact E | ].
  split.
  - apply leb_iff; [ reflexivity | exact Fr | now rewrite B2Q_m180 ].
  - apply ltb_iff; [ exact Fr | reflexivity | now rewrite B2Q_180 ].
Qed.

Lemma wrap_longitude_range_witness :
  exists r,
    sonnet_geo._wrap_longitude 190 = Ok r /\ codex_geo._wrap_longitude 190 = Ok r /\
    (-180 <=? r)%float = true /\ (r <? 180)%float = true.
Proof.
  apply (wrap_longitude_range 190%float); reflexivity.
Defined.

(** ** Clamping *)

Lemma clamp_finite lat :
  (90 <? lat)%float = false -> (-90 <? lat)%float = true -> finite lat = true.
Proof.
  rewrite !FloatAxioms.ltb_spec. unfold finite.
  destruct (Prim2SF lat) as [ s | [ | ] | | s m e ]; intros H1 H2;
    try reflexivity; vm_compute in H1, H2; discriminate.
Qed.

Lemma clamp_identity lat :
  (-90 <=? lat)%float = true -> (lat <=? 90)%float = true ->
  sonnet_geo._clamp_latitude lat = lat.
Proof.
  intros H1 H2.
  assert (Fl : finite lat = true)
    by (eapply between_finite; [ | | exact H1 | exact H2 ]; reflexivity).
  apply (leb_iff (-90) lat eq_refl Fl) in H1. apply (leb_iff lat 90 Fl eq_refl) in H2.
  rewrite B2Q_m90 in H1. rewrite B2Q_90 in H2.
  unfold sonnet_geo._clamp_latitude, PyFloat.max, PyFloat.min.
  unfold sonnet_geo.LAT_RANGE. cbn [fst snd].
  pose proof (ltb_iff 90 lat eq_refl Fl) as L1. rewrite B2Q_90 in L1.
  destruct (90 <? lat)%float; [ assert (90 < B2Q lat)%Q by (now apply L1); lra | ].
  pose proof (ltb_iff (-90) lat eq_refl Fl) as L2. rewrite B2Q_m90 in L2.
  destruct (-90 <? lat)%float; [ reflexivity | ].
  assert (N : ~ (-90 < B2Q lat)%Q) by (intros K; apply L2 in K; discriminate).
  symmetry. apply B2Q_inj; [ exact Fl | reflexivity | rewrite B2Q_m90; lra | lra ].
Qed.

Lemma clamp_in_range lat :
  (-90 <=? sonnet_geo._clamp_latitude lat)%float = true /\
  (sonnet_geo._clamp_latitude lat <=? 90)%float = true.
Proof.
  unfold sonnet_geo._clamp_latitude, PyFloat.max, PyFloat.min.
  unfold sonnet_geo.LAT_RANGE. cbn [fst snd].
  destruct (90 <? lat)%float eqn:L1.
  - split; reflexivity.
  - destruct (-90 <? lat)%float eqn:L2; [ | split; reflexivity ].
    pose proof (clamp_finite lat L1 L2) as Fl.
    apply (ltb_iff (-90) lat eq_refl Fl) in L2. rewrite B2Q_m90 in L2.
    pose proof (ltb_iff 90 lat eq_refl Fl) as K. rewrite B2Q_90, L1 in K.
    assert (N : ~ (90 < B2Q lat)%Q) by (intros J; apply K in J; discriminate).
    split; apply leb_iff; try assumption; try reflexivity.
    + rewrite B2Q_m90. lra.
    + rewrite B2Q_90. lra.
Qed.

(** X18: [_clamp_latitude] returns a latitude between -90 and 90 for
    every float, the infinities and NaN included; a latitude already in
    that range is returned as it is, so clamping twice is clamping
    once. *)
Theorem clamp_latitude_total (lat : float) :
  let r := sonnet_geo._clamp_latitude lat in
  (-90 <=? r)%float = true /\ (r <=? 90)%float = true /\
  sonnet_geo._clamp_latitude r = r /\
  ((-90 <=? lat)%float && (lat <=? 90)%float = true -> r = lat).
Proof.
  intros r. destruct (clamp_in_range lat) as [H1 H2]. fold r in H1, H2.
  split; [ exact H1 | ]. split; [ exact H2 | ].
  split; [ now apply clamp_identity | ].
  intros H. apply andb_true_iff in H. destruct H. now apply clamp_identity.
Qed.

(** ** Values that differ in the sign of zero only *)

Lemma finite_zero x :
  finite x = true -> (B2Q x == 0)%Q -> exists s, Prim2SF x = S754_zero s.
Proof.
  unfold finite, B2Q. destruct (Prim2SF x) as [ s | s | | s m e ]; try discriminate.
  - intros _ _. now exists s.
  - intros _ H. exfalso. cbn [SF2Q] in H.
    pose proof (dy_pos (Z.pos m) e ltac:(lia)) as Hp.
    destruct s; cbn [cond_Zopp] in H.
    + change (- Z.pos m) with (- (Z.pos m)) in H. rewrite dy_opp in H. lra.
    + lra.
Qed.

Lemma same_cases x y :
  finite x = true -> finite y = true -> (B2Q x == B2Q y)%Q ->
  x = y \/ exists s s', Prim2SF x = S754_zero s /\ Prim2SF y = S754_zero s'.
Proof.
  intros Fx Fy E. destruct (Qeq_dec (B2Q x) 0) as [ Z | N ].
  - right. destruct (finite_zero x Fx Z) as (s & Hs).
    destruct (finite_zero y Fy ltac:(lra)) as (s' & Hs'). now exists s, s'.
  - left. now apply B2Q_inj.
Qed.

Lemma zero_value x s : Prim2SF x = S754_zero s -> finite x = true /\ (B2Q x == 0)%Q.
Proof. unfold finite, B2Q. intros ->. split; reflexivity. Qed.

(** Adding a zero of either sign returns the other operand's value. *)
Lemma zero_add x s y :
  Prim2SF x = S754_zero s -> finite y = true ->
  finite (x + y) = true /\ (B2Q (x + y) == B2Q y)%Q.
Proof.
  intros Hx Fy. destruct (zero_value x s Hx) as [Fx Vx].
  pose proof (B2Q_in_range y) as [R1 R2].
  destruct (add_exact x y Fx Fy) as [F E].
  - apply (format_proper (B2Q y)); [ rewrite Vx; ring | apply B2Q_format ].
  - split; rewrite Vx; lra.
  - split; [ exact F | rewrite E, Vx; ring ].
Qed.

Lemma add_same x x' y :
  finite x = true -> finite x' = true -> (B2Q x == B2Q x')%Q -> finite y = true ->
  finite (x + y) = true -> 
  finite (x' + y) = true /\ (B2Q (x' + y) == B2Q (x + y))%Q.
Proof.
  intros Fx Fx' E Fy Fs.
  destruct (same_cases x x' Fx Fx' E) as [ <- | (s & s' & Hs & Hs') ].
  - split; [ exact Fs | reflexivity ].
  - destruct (zero_add x s y Hs Fy) as [_ V].
    destruct (zero_add x' s' y Hs' Fy) as [F' V']. split; [ exact F' | lra ].
Qed.

Lemma half_same x x' :
  finite x = true -> finite x' = true -> (B2Q x == B2Q x')%Q ->
  finite (x / 2) = true ->
  finite (x' / 2) = true /\ (B2Q (x' / 2) == B2Q (x / 2))%Q.
Proof.
  intros Fx Fx' E Fh.
  destruct (same_cases x x' Fx Fx' E) as [ <- | (s & s' & Hs & Hs') ].
  - split; [ exact Fh | reflexivity ].
  - destruct (zero_value x s Hs) as [_ V]. destruct (zero_value x' s' Hs') as [_ V'].
    assert (I0 : in_range 0 0) by (apply in_range_small; lra).
    destruct (half_exact x Fx) as [_ H].
    { apply (format_proper 0%Q); [ rewrite V; ring | apply format_0 ]. }
    { split; rewrite V; destruct I0; lra. }
    destruct (half_exact x' Fx') as [F' H'].
    { apply (format_proper 0%Q); [ rewrite V'; ring | apply format_0 ]. }
    { split; rewrite V'; destruct I0; lra. }
    split; [ exact F' | rewrite H, H', V, V'; ring ].
Qed.

Lemma add_finite_r a b : finite (a + b) = true -> finite b = true.
Proof.
  unfold finite. rewrite add_spec.
  destruct (Prim2SF b) as [ | sb | | ]; try reflexivity;
    destruct (Prim2SF a) as [ | [ | ] | | ]; try destruct sb; cbn; congruence.
Qed.

Lemma add_finite_l a b : finite (a + b) = true -> finite a = true.
Proof.
  unfold finite. rewrite add_spec.
  destruct (Prim2SF a) as [ | sa | | ]; try reflexivity;
    destruct (Prim2SF b) as [ | [ | ] | | ]; try destruct sa; cbn; congruence.
Qed.

(** The centre [sum((lo, hi)) / 2] of [codex_geo] against [(lo + hi) / 2]. *)
Lemma centre_same lo hi :
  finite lo = true -> (-1000 <= B2Q lo)%Q -> (B2Q lo <= 1000)%Q ->
  finite ((lo + hi) / 2) = true -> finite (lo + hi) = true ->
  finite (PyFloat.sum2 lo hi / 2) = true /\
  (B2Q (PyFloat.sum2 lo hi / 2) == B2Q ((lo + hi) / 2))%Q.
Proof.
  intros Fl L1 L2 Fm Fs. unfold PyFloat.sum2.
  destruct (zero_plus lo Fl L1 L2) as [Fz Ez].
  pose proof (add_finite_r _ _ Fs) as Fh.
  destruct (add_same lo (0 + lo) hi Fl Fz ltac:(lra) Fh Fs) as [Fs' Es'].
  apply half_same; try assumption. lra.
Qed.

Lemma half_finite x : finite (x / 2) = true -> finite x = true.
Proof.
  unfold finite. rewrite div_spec. change (Prim2SF 2) with SFtwo.
  destruct (Prim2SF x) as [ | [ | ] | | ]; try reflexivity; cbn; congruence.
Qed.

Lemma decode_cells_same h :
  valid_geohash h = true ->
  exists cell cell',
    sonnet_geo.decode h = Ok cell /\ codex_geo.decode_cell h = Ok cell' /\
    centred (sonnet_geo.lon cell) (sonnet_geo.lon_err cell) 180 /\
    centred (sonnet_geo.lat cell) (sonnet_geo.lat_err cell) 90 /\
    centred (codex_geo.lon cell') (codex_geo.lon_err cell') 180 /\
    centred (codex_geo.lat cell') (codex_geo.lat_err cell') 90 /\
    (B2Q (codex_geo.lon cell') == B2Q (sonnet_geo.lon cell))%Q /\
    (B2Q (codex_geo.lat cell') == B2Q (sonnet_geo.lat cell))%Q /\
    codex_geo.lon_err cell' = sonnet_geo.lon_err cell /\
    codex_geo.lat_err cell' = sonnet_geo.lat_err cell.
Proof.
  intros Hv.
  destruct (sonnet_decode_centred h Hv) as (cell & Ed & Cn & Ct).
  destruct (codex_decode_centred h Hv) as (cell' & Ed' & Cn' & Ct').
  exists cell, cell'. do 6 (split; [ assumption | ]).
  destruct (geohash_to_bits_ok h Hv) as (bs & E & _).
  unfold sonnet_geo.decode in Ed. rewrite (from_geohash_eq h bs E) in Ed.
  injection Ed as <-.
  unfold codex_geo.decode_cell in Ed'.
  rewrite (codex_geohash_to_bits_eq h Hv), E in Ed'. cbn [bind] in Ed'.
  rewrite !codex_refine_eq in Ed'. injection Ed' as <-.
  change (-180, 180)%float with sonnet_geo.LON_RANGE.
  change (-90, 90)%float with sonnet_geo.LAT_RANGE.
  cbn [codex_geo.lon codex_geo.lat codex_geo.lon_err codex_geo.lat_err
       sonnet_geo.lon sonnet_geo.lat sonnet_geo.lon_err sonnet_geo.lat_err] in *.
  pose proof (refine_nested (evens bs) _ lon_range_bounded) as N1.
  pose proof (refine_nested (odds bs) _ lat_range_bounded) as N2.
  pose proof (nested_bounded _ _ N1 lon_range_bounded) as (Fi & _ & I1 & I2 & I3).
  pose proof (nested_bounded _ _ N2 lat_range_bounded) as (Fj & _ & J1 & J2 & J3).
  destruct Cn as (Fc & _). destruct Ct as (Fd & _).
  destruct (sonnet_geo._refine_interval (evens bs) sonnet_geo.LON_RANGE) as [i1 i2].
  destruct (sonnet_geo._refine_interval (odds bs) sonnet_geo.LAT_RANGE) as [j1 j2].
  cbn [fst snd] in *.
  destruct (centre_same i1 i2 Fi I1 ltac:(lra) Fc (half_finite _ Fc)) as [Fx Ex].
  destruct (centre_same j1 j2 Fj J1 ltac:(lra) Fd (half_finite _ Fd)) as [Fy Ey].
  split; [ exact Ex | ]. split; [ exact Ey | ]. split; reflexivity.
Qed.

(** X19: on a valid geohash of any length [codex_geo.decode] returns
    the centre and the half-widths [sonnet_geo.decode] returns: equal
    in Python's [==], and the half-widths the same floats. *)
Theorem codex_decode_agrees (h : string) :
  valid_geohash h = true ->
  exists cell x y ex ey,
    sonnet_geo.decode h = Ok cell /\
    codex_geo.decode h "pointerr" = Ok (codex_geo.PointErr (x, y, ex, ey)) /\
    codex_geo.decode h "point" = Ok (codex_geo.Point (x, y)) /\
    (x =? sonnet_geo.lon cell)%float = true /\
    (y =? sonnet_geo.lat cell)%float = true /\
    ex = sonnet_geo.lon_err cell /\ ey = sonnet_geo.lat_err cell.
Proof.
  intros Hv.
  destruct (decode_cells_same h Hv)
    as (cell & cell' & Ed & Ed' & Cn & Ct & Cn' & Ct' & Ex & Ey & Ee & Ef).
  exists cell, (codex_geo.lon cell'), (codex_geo.lat cell'),
    (codex_geo.lon_err cell'), (codex_geo.lat_err cell').
  split; [ exact Ed | ]. unfold codex_geo.decode. rewrite Ed'.
  split; [ reflexivity | ]. split; [ reflexivity | ].
  destruct Cn as (F1 & _), Ct as (F2 & _), Cn' as (F3 & _), Ct' as (F4 & _).
  split; [ apply eqb_iff; assumption | ]. split; [ apply eqb_iff; assumption | ].
  split; assumption.
Qed.

Lemma codex_decode_agrees_witness :
  exists cell x y ex ey,
    sonnet_geo.decode "9q8yyk8" = Ok cell /\
    codex_geo.decode "9q8yyk8" "pointerr" = Ok (codex_geo.PointErr (x, y, ex, ey)) /\
    codex_geo.decode "9q8yyk8" "point" = Ok (codex_geo.Point (x, y)) /\
    (x =? sonnet_geo.lon cell)%float = true /\
    (y =? sonnet_geo.lat cell)%float = true /\
    ex = sonnet_geo.lon_err cell /\ ey = sonnet_geo.lat_err cell.
Proof.
  apply (codex_decode_agrees "9q8yyk8"%string). reflexivity.
Defined.

(** ** Neighbours *)

Lemma zero_plus_180 x s : Prim2SF x = S754_zero s -> (x + 180)%float = 180%float.
Proof. intros H. apply Prim2SF_inj. rewrite add_spec, H. reflexivity. Qed.

Lemma codex_wrap_same x x' :
  finite x = true -> finite x' = true -> (B2Q x' == B2Q x)%Q ->
  codex_geo._wrap_longitude x' = codex_geo._wrap_longitude x.
Proof.
  intros Fx Fx' E.
  destruct (same_cases x x' Fx Fx' ltac:(lra)) as [ <- | (s & s' & Hs & Hs') ].
  - reflexivity.
  - unfold codex_geo._wrap_longitude.
    now rewrite (zero_plus_180 x s Hs), (zero_plus_180 x' s' Hs').
Qed.

(** Comparisons do not see the sign of a zero. *)
Lemma leb_same c c' :
  finite c = true -> finite c' = true -> (B2Q c' == B2Q c)%Q ->
  forall m, (m <=? c')%float = (m <=? c)%float /\ (c' <=? m)%float = (c <=? m)%float.
Proof.
  intros Fc Fc' E m.
  destruct (same_cases c c' Fc Fc' ltac:(lra)) as [ <- | (s & s' & Hs & Hs') ].
  - split; reflexivity.
  - rewrite !FloatAxioms.leb_spec, Hs, Hs'. unfold SFleb.
    destruct (Prim2SF m) as [ | [ | ] | | [ | ] ? ? ]; split; reflexivity.
Qed.

Lemma encode_step_same lon c c' st :
  (forall m, (m <=? c')%float = (m <=? c)%float) ->
  sonnet_geo.encode_step lon c' st = sonnet_geo.encode_step lon c st.
Proof.
  intros H. unfold sonnet_geo.encode_step. destruct (sonnet_geo.use_lon st).
  - reflexivity.
  - now rewrite H.
Qed.

Lemma encode_loop_same lon c c' n : forall st,
  (forall m, (m <=? c')%float = (m <=? c)%float) ->
  sonnet_geo.encode_loop n lon c' st = sonnet_geo.encode_loop n lon c st.
Proof.
  induction n as [ | n IH ]; intros st H; cbn [sonnet_geo.encode_loop].
  - reflexivity.
  - rewrite (encode_step_same lon c c' st H). now apply IH.
Qed.

Lemma clamp_same y y' :
  finite y = true -> finite y' = true -> (B2Q y' == B2Q y)%Q ->
  let c := sonnet_geo._clamp_latitude y in
  let c' := PyFloat.max (PyFloat.min y' 90) (-90) in
  finite c = true /\ finite c' = true /\ (B2Q c' == B2Q c)%Q /\
  (-90 <= B2Q c)%Q /\ (B2Q c <= 90)%Q.
Proof.
  intros Fy Fy' E.
  destruct (sonnet_clamp_range y Fy) as (Fc & C1 & C2 & C3 & C4 & C5).
  destruct (codex_clamp_range y' Fy') as (Fc' & D1 & D2 & D3 & D4 & D5).
  cbv zeta. split; [ exact Fc | ]. split; [ exact Fc' | ].
  split; [ | split; assumption ].
  destruct (Qlt_le_dec (B2Q y) (-90)) as [ L | L ].
  - rewrite C5, D5; lra.
  - destruct (Qlt_le_dec 90 (B2Q y)) as [ U | U ].
    + rewrite C4, D4; lra.
    + rewrite C3, D3; lra.
Qed.

(** A candidate of [codex_geo.neighbors] encodes to the geohash the
    same candidate of [sonnet_geo.neighbors] encodes to. *)
Lemma neighbor_same cell cell' p dx dy :
  centred (sonnet_geo.lon cell) (sonnet_geo.lon_err cell) 180 ->
  centred (sonnet_geo.lat cell) (sonnet_geo.lat_err cell) 90 ->
  centred (codex_geo.lon cell') (codex_geo.lon_err cell') 180 ->
  centred (codex_geo.lat cell') (codex_geo.lat_err cell') 90 ->
  (B2Q (codex_geo.lon cell') == B2Q (sonnet_geo.lon cell))%Q ->
  (B2Q (codex_geo.lat cell') == B2Q (sonnet_geo.lat cell))%Q ->
  codex_geo.lon_err cell' = sonnet_geo.lon_err cell ->
  codex_geo.lat_err cell' = sonnet_geo.lat_err cell ->
  0 < p -> In dx [1; 0; -1] -> In dy [1; 0; -1] ->
  codex_neighbor cell' p dx dy = sonnet_neighbor cell p dx dy.
Proof.
  intros Cn Ct Cn' Ct' Ex Ey Ee Ef Hp Hx Hy.
  destruct (sonnet_neighbor_ok cell p dx dy Cn Ct Hp Hx Hy)
    as (lonc & s & Ew & R1 & R2 & R3 & R4 & En & Es & _).
  destruct (codex_neighbor_ok cell' p dx dy Cn' Ct' Hp Hx Hy)
    as (lonc' & s' & Ew' & R1' & R2' & R3' & R4' & En' & Es' & _).
  rewrite En, En'. rewrite <- Es, <- Es'. clear En En' Es Es' s s'.
  destruct Cn as (Fc & Fe & C1 & C2 & E1 & E2).
  destruct Ct as (Fd & Ff & D1 & D2 & F1 & F2).
  destruct Cn' as (Fc' & _). destruct Ct' as (Fd' & _).
  rewrite Ee in Ew'. rewrite Ef in R3', R4' |- *.
  destruct (candidate_bounds _ _ dx Fc ltac:(lra) ltac:(lra) Fe E1 E2 Hx) as (Fx & _).
  destruct (candidate_bounds _ _ dy Fd ltac:(lra) ltac:(lra) Ff F1 F2 Hy) as (Fy & _).
  destruct (add_same _ (codex_geo.lon cell') _ Fc Fc' ltac:(lra) (add_finite_r _ _ Fx) Fx)
    as [Fx' Vx].
  destruct (add_same _ (codex_geo.lat cell') _ Fd Fd' ltac:(lra) (add_finite_r _ _ Fy) Fy)
    as [Fy' Vy].
  rewrite (codex_wrap_same _ _ Fx Fx' Vx), <- wrap_agree, Ew in Ew'.
  injection Ew' as <-.
  destruct (clamp_same _ _ Fy Fy' Vy) as (Gc & Gc' & Vc & _).
  cbv zeta in R3, R4, R3', R4'.
  set (c := sonnet_geo._clamp_latitude _) in *.
  set (c' := PyFloat.max _ _) in *.
  assert (Q1 : (-180 <=? lonc)%float = true) by exact R1.
  assert (Q2 : (lonc <=? 180)%float = true).
  { rewrite FloatAxioms.leb_spec. rewrite FloatAxioms.ltb_spec in R2.
    unfold SFleb. unfold SFltb in R2.
    destruct (SFcompare _ _) as [ [ | | ] | ]; congruence. }
  rewrite (codex_encode_unfold lonc c' p Hp).
  rewrite (sonnet_encode_unfold lonc c p R3 R4 Q1 Q2 Hp).
  f_equal. f_equal. apply encode_loop_same.
  intros m. apply (leb_same c c' Gc Gc' Vc).
Qed.

(** X20: on every valid non-empty geohash [codex_geo.neighbors] returns
    the nine geohashes [sonnet_geo.neighbors] returns, read column by
    column (west to east, each from north to south) instead of row by
    row. *)
Theorem codex_neighbors_transposed (h : string) :
  valid_geohash h = true -> h <> ""%string ->
  exists nw n ne w c e sw s se,
    sonnet_geo.neighbors h = Ok [nw; n; ne; w; c; e; sw; s; se] /\
    codex_geo.neighbors h = Ok [nw; w; sw; n; c; s; ne; e; se].
Proof.
  intros Hv Hne.
  destruct (decode_cells_same h Hv)
    as (cell & cell' & Ed & Ed' & Cn & Ct & Cn' & Ct' & Ex & Ey & Ee & Ef).
  destruct (sonnet_neighbors_rows h Hv Hne)
    as (cell0 & nw & n & ne & w & c & e & sw & s & se & Ed0 & En
        & A1 & A2 & A3 & A4 & A5 & A6 & A7 & A8 & A9 & _).
  destruct (codex_neighbors_columns h Hv Hne)
    as (cell1 & nw' & n' & ne' & w' & c' & e' & sw' & s' & se' & Ed1 & En'
        & B1 & B2 & B3 & B4 & B5 & B6 & B7 & B8 & B9 & _).
  rewrite Ed in Ed0. injection Ed0 as <-. rewrite Ed' in Ed1. injection Ed1 as <-.
  pose proof (nonempty_length h Hne) as Hp.
  assert (S : forall dx dy, In dx [1; 0; -1] -> In dy [1; 0; -1] ->
            codex_neighbor cell' (Z.of_nat (String.length h)) dx dy
            = sonnet_neighbor cell (Z.of_nat (String.length h)) dx dy).
  { intros dx dy Hx Hy. now apply neighbor_same. }
  rewrite S in B1, B2, B3, B4, B5, B6, B7, B8, B9 by (cbn; tauto).
  exists nw, n, ne, w, c, e, sw, s, se. split; [ exact En | ].
  rewrite En'. congruence.
Qed.

Lemma codex_neighbors_transposed_witness :
  exists nw n ne w c e sw s se,
    sonnet_geo.neighbors "9q8yyk8" = Ok [nw; n; ne; w; c; e; sw; s; se] /\
    codex_geo.neighbors "9q8yyk8" = Ok [nw; w; sw; n; c; s; ne; e; se].
Proof.
  apply (codex_neighbors_transposed "9q8yyk8"%string); [ reflexivity | discriminate ].
Defined.

End Agreement.

(** * [geohash.py] against [sonnet_geo.py]: decoding *)

Section LegacyDecode.
Import Bin64 Rounding.

(** The five characters [get_geobits] writes for a symbol are the five
    bits [_geohash_to_bits] appends for it. *)
Lemma symbol_bits_same c :
  in_alphabet c = true ->
  exists v,
    dict_get geohash.dict32 c = Some v /\
    dict_get sonnet_geo.BASE32_DECODE_MAP c = Some v /\
    geohash.zfill (skipn 2 (geohash.bin v)) 5 = map bit_char (sonnet_geo.char_bits v).
Proof.
  destruct c as [[] [] [] [] [] [] [] []]; intros H; vm_compute in H;
    try discriminate H; eexists; (split; [ reflexivity | ]); split; reflexivity.
Qed.

Lemma get_geobits_from_same l : forall acc,
  forallb in_alphabet l = true ->
  exists bits,
    sonnet_geo._geohash_to_bits_from acc l = Ok bits /\
    geohash.get_geobits_from (map bit_char acc) l = map bit_char bits.
Proof.
  induction l as [ | c l IH ]; intros acc H.
  - exists acc. split; reflexivity.
  - cbn [forallb] in H. apply andb_true_iff in H. destruct H as [Hc Hl].
    destruct (symbol_bits_same c Hc) as (v & E1 & E2 & E3).
    cbn [sonnet_geo._geohash_to_bits_from geohash.get_geobits_from].
    rewrite E1, E2, E3, <- map_app. apply IH, Hl.
Qed.

Lemma get_geobits_same h bs :
  valid_geohash h = true -> sonnet_geo._geohash_to_bits h = Ok bs ->
  geohash.get_geobits h = map bit_char bs.
Proof.
  intros Hv E. destruct (get_geobits_from_same (list_ascii_of_string h) [] Hv)
    as (bits & E1 & E2).
  unfold sonnet_geo._geohash_to_bits in E. rewrite E in E1. injection E1 as <-.
  exact E2.
Qed.

Lemma evens_odds_map {A B} (f : A -> B) (l : list A) :
  evens (map f l) = map f (evens l) /\ odds (map f l) = map f (odds l).
Proof.
  induction l as [ | a l [IH1 IH2] ]; cbn [map evens odds].
  - split; reflexivity.
  - rewrite IH1, IH2. split; reflexivity.
Qed.

Lemma evens_odds_bits (l : list Z) :
  Forall bit l -> Forall bit (evens l) /\ Forall bit (odds l).
Proof.
  induction l as [ | a l IH ]; intros H; cbn [evens odds].
  - split; constructor.
  - inversion H as [ | ? ? Ha Hl ]; subst. destruct (IH Hl) as [H1 H2].
    split; [ constructor; assumption | assumption ].
Qed.

(** ** Sums of numbers that differ in the sign of a zero *)

Lemma add_zero_r x y s :
  Prim2SF y = S754_zero s -> finite x = true ->
  finite (x + y) = true /\ (B2Q (x + y) == B2Q x)%Q.
Proof.
  intros Hy Fx. destruct (zero_value y s Hy) as [Fy Vy].
  pose proof (B2Q_in_range x) as [R1 R2].
  destruct (add_exact x y Fx Fy) as [F E].
  - apply (format_proper (B2Q x)); [ rewrite Vy; ring | apply B2Q_format ].
  - split; rewrite Vy; lra.
  - split; [ exact F | rewrite E, Vy; ring ].
Qed.

Lemma add_same_r x y y' :
  finite x = true -> finite y = true -> finite y' = true -> (B2Q y == B2Q y')%Q ->
  finite (x + y) = true ->
  finite (x + y') = true /\ (B2Q (x + y') == B2Q (x + y))%Q.
Proof.
  intros Fx Fy Fy' E Fs.
  destruct (same_cases y y' Fy Fy' E) as [ <- | (s & s' & Hs & Hs') ].
  - split; [ exact Fs | reflexivity ].
  - destruct (add_zero_r x y s Hs Fx) as [_ V].
    destruct (add_zero_r x y' s' Hs' Fx) as [F' V']. split; [ exact F' | lra ].
Qed.

(** The midpoint [sum(tup_range) / 2] of [geohash.py] on an interval,
    against [(low + high) / 2] on an interval with the same bounds. *)
Lemma legacy_mid_same lo hi lo' hi' :
  bounded_interval (lo, hi) -> same_interval (lo', hi') (lo, hi) ->
  finite (PyFloat.sum2 lo' hi' / 2) = true /\
  (B2Q (PyFloat.sum2 lo' hi' / 2) == B2Q ((lo + hi) / 2))%Q.
Proof.
  intros Hb (Fl' & Fh' & El & Eh). cbn [fst snd] in *.
  destruct (mid_bounds lo hi Hb) as (Fm & _).
  destruct Hb as (Fl & Fh & B1 & B2 & B3). cbn [fst snd] in *.
  pose proof (half_finite _ Fm) as Fs.
  destruct (add_same_r lo hi hi' Fl Fh Fh' ltac:(lra) Fs) as [Fs1 Es1].
  destruct (add_same lo lo' hi' Fl Fl' ltac:(lra) Fh' Fs1) as [Fs2 Es2].
  destruct (centre_same lo' hi' Fl' ltac:(lra) ltac:(lra)) as [Fc Ec].
  - apply (half_same (lo + hi) (lo' + hi') Fs Fs2 ltac:(lra) Fm).
  - exact Fs2.
  - split; [ exact Fc | ].
    destruct (half_same (lo + hi) (lo' + hi') Fs Fs2 ltac:(lra) Fm) as [_ Eh2].
    lra.
Qed.

(** The loop of [get_degrees] on the characters of a list of bits
    bisects as [_refine_interval] does on the bits. *)
Lemma legacy_fold_same bs : forall itv itv',
  Forall bit bs -> bounded_interval itv -> same_interval itv' itv ->
  same_interval
    (fold_left
       (fun tup_range i =>
          let mid := (PyFloat.sum2 (fst tup_range) (snd tup_range) / 2)%float in
          if Ascii.eqb i "0" then (fst tup_range, mid) else (mid, snd tup_range))
       (map bit_char bs) itv')
    (sonnet_geo._refine_interval bs itv).
Proof.
  induction bs as [ | b bs IH ]; intros [lo hi] [lo' hi'] Hb Hi Hs.
  - exact Hs.
  - inversion Hb as [ | ? ? Hb1 Hb2 ]; subst.
    cbn [map fold_left]. rewrite refine_cons.
    destruct (legacy_mid_same lo hi lo' hi' Hi Hs) as [Fm Em].
    pose proof (refine_bit_bounded (lo, hi) b Hi) as Hi'.
    destruct Hs as (Fl' & Fh' & El & Eh). cbn [fst snd] in *.
    apply IH; [ exact Hb2 | exact Hi' | ].
    destruct Hb1 as [ -> | -> ]; cbn; repeat split; assumption.
Qed.

Lemma legacy_degrees_same bs (r : Z) itv :
  Forall bit bs ->
  itv = (PyFloat.of_int (- r), PyFloat.of_int r) -> bounded_interval itv ->
  let I := sonnet_geo._refine_interval bs itv in
  let d := geohash.get_degrees (map bit_char bs) r in
  finite (fst d) = true /\ (B2Q (fst d) == B2Q ((fst I + snd I) / 2))%Q /\
  forall c k, 1 <= c <= 2 -> 0 <= k <= 47 -> grid c k I ->
    finite (snd d) = true /\ (B2Q (snd d) == B2Q ((snd I - fst I) / 2))%Q.
Proof.
  intros Hb -> Hi I d.
  pose proof (legacy_fold_same bs _ _ Hb Hi
                (conj (proj1 Hi) (conj (proj1 (proj2 Hi))
                   (conj (Qeq_refl _) (Qeq_refl _))))) as Hs.
  pose proof (refine_nested bs _ Hi) as Hn. fold I in Hs, Hn.
  pose proof (nested_bounded _ _ Hn Hi) as HI.
  unfold d, geohash.get_degrees. cbv zeta.
  set (J := fold_left _ (map bit_char bs) _) in *.
  destruct I as [lo hi], J as [lo' hi']. cbn [fst snd] in *.
  destruct (legacy_mid_same lo hi lo' hi' HI Hs) as [Fm Em].
  split; [ exact Fm | ]. split; [ exact Em | ].
  intros c k Hc Hk G.
  destruct (grid_cell c k lo hi Hc Hk G) as (_ & Fe & Ec & Ee & Pe & _).
  destruct Hs as (Fl' & Fh' & El & Eh). cbn [fst snd] in *.
  assert (V : (B2Q (PyFloat.sum2 lo' hi' / 2) - B2Q lo' == B2Q ((hi - lo) / 2))%Q).
  { rewrite Em, Ec, Ee, El. ring. }
  destruct (sub_exact (PyFloat.sum2 lo' hi' / 2) lo' Fm Fl') as [Fd Ed].
  - apply (format_proper (B2Q ((hi - lo) / 2))); [ now rewrite V | apply B2Q_format ].
  - pose proof (B2Q_in_range ((hi - lo) / 2)) as [R1 R2]. split; rewrite V; lra.
  - rewrite abs_finite. split; [ exact Fd | ].
    rewrite abs_B2Q, Ed, V. apply Qabs_pos. lra.
Qed.

Lemma of_int_lon : (PyFloat.of_int (- 180), PyFloat.of_int 180) = sonnet_geo.LON_RANGE.
Proof. reflexivity. Qed.

Lemma of_int_lat : (PyFloat.of_int (- 90), PyFloat.of_int 90) = sonnet_geo.LAT_RANGE.
Proof. reflexivity. Qed.

(** X21: on a valid geohash of any length [geohash.decode] returns the
    centre [sonnet_geo.decode] returns, equal in Python's [==]; its
    ['pointerr'] list is latitude first, and up to 18 symbols the two
    errors in it equal the half-widths of [sonnet_geo.decode]. *)
Theorem legacy_decode_agrees (h : string) :
  valid_geohash h = true ->
  exists cell x y ex ey,
    sonnet_geo.decode h = Ok cell /\
    geohash.decode h "point" = geohash.Point (x, y) /\
    geohash.decode h "pointerr" = geohash.PointErr [y; x; ey; ex] /\
    (x =? sonnet_geo.lon cell)%float = true /\
    (y =? sonnet_geo.lat cell)%float = true /\
    ((String.length h <= 18)%nat ->
     (ex =? sonnet_geo.lon_err cell)%float = true /\
     (ey =? sonnet_geo.lat_err cell)%float = true).
Proof.
  intros Hv. destruct (geohash_to_bits_ok h Hv) as (bs & E & Hb & Hlb & _).
  destruct (sonnet_decode_centred h Hv) as (cell & Ed & Cn & Ct).
  pose proof Ed as Ed0.
  unfold sonnet_geo.decode in Ed. rewrite (from_geohash_eq h bs E) in Ed.
  injection Ed as <-.
  cbn [sonnet_geo.lon sonnet_geo.lat sonnet_geo.lon_err sonnet_geo.lat_err] in *.
  destruct (evens_odds_bits bs Hb) as [Be Bo].
  destruct (legacy_degrees_same (evens bs) 180 _ Be (eq_sym of_int_lon) lon_range_bounded)
    as (Fx & Ex & Gx).
  destruct (legacy_degrees_same (odds bs) 90 _ Bo (eq_sym of_int_lat) lat_range_bounded)
    as (Fy & Ey & Gy).
  unfold geohash.decode. rewrite (get_geobits_same h bs Hv E).
  destruct (evens_odds_map bit_char bs) as [-> ->].
  destruct (geohash.get_degrees (map bit_char (evens bs)) 180) as [x ex].
  destruct (geohash.get_degrees (map bit_char (odds bs)) 90) as [y ey].
  cbn [fst snd] in *.
  eexists. exists x, y, ex, ey. split; [ exact Ed0 | ].
  split; [ reflexivity | ]. split; [ reflexivity | ].
  destruct Cn as (Fc & Fe & _). destruct Ct as (Fd & Ff & _).
  cbn [sonnet_geo.lon sonnet_geo.lat sonnet_geo.lon_err sonnet_geo.lat_err] in *.
  split; [ apply eqb_iff; assumption | ]. split; [ apply eqb_iff; assumption | ].
  intros Hl.
  destruct (decode_exact h bs E ltac:(lia)) as (_ & _ & _ & _ & _ & _ & _ & G1 & G2 & K1 & K2).
  destruct (Gx 2 _ ltac:(lia) (depth_ok _ K1) G1) as [Fex Eex].
  destruct (Gy 1 _ ltac:(lia) (depth_ok _ K2) G2) as [Fey Eey].
  split; apply eqb_iff; assumption.
Qed.

Lemma legacy_decode_agrees_witness :
  exists cell x y ex ey,
    sonnet_geo.decode "9q8yyk8" = Ok cell /\
    geohash.decode "9q8yyk8" "point" = geohash.Point (x, y) /\
    geohash.decode "9q8yyk8" "pointerr" = geohash.PointErr [y; x; ey; ex] /\
    (x =? sonnet_geo.lon cell)%float = true /\
    (y =? sonnet_geo.lat cell)%float = true /\
    ((String.length "9q8yyk8" <= 18)%nat ->
     (ex =? sonnet_geo.lon_err cell)%float = true /\
     (ey =? sonnet_geo.lat_err cell)%float = true).
Proof.
  apply (legacy_decode_agrees "9q8yyk8"%string). reflexivity.
Defined.

End LegacyDecode.

(** * [geohash.neighbors]: columns and rows *)

Section LegacyNeighbours.
Import geohash.

(** ** Packing a string of bits *)

Lemma legacy_pack_five b1 b2 b3 b4 b5 :
  bit b1 -> bit b2 -> bit b3 -> bit b4 -> bit b5 ->
  exists v c,
    int2 (map bit_char [b1; b2; b3; b4; b5]) = Ok v /\
    py_index base32 v = Ok c /\
    forall chars rest,
      fold_left sonnet_geo.pack_bit (b1 :: b2 :: b3 :: b4 :: b5 :: rest)
        (Ok (sonnet_geo.mkPack chars 0 0)) =
      fold_left sonnet_geo.pack_bit rest (Ok (sonnet_geo.mkPack (chars ++ [c]) 0 0)).
Proof.
  intros [-> | ->] [-> | ->] [-> | ->] [-> | ->] [-> | ->];
    do 2 eexists; (split; [ vm_compute; reflexivity | ]);
    (split; [ vm_compute; reflexivity | ]); intros chars rest; reflexivity.
Qed.

Lemma skipn_app_exact {A} (l1 l2 : list A) n :
  List.length l1 = n -> skipn n (l1 ++ l2) = l2.
Proof.
  intros <-. rewrite skipn_app, skipn_all, Nat.sub_diag. reflexivity.
Qed.

(** [geohash.py] packs a string of bits into the characters
    [_bits_to_geohash] packs the bits into. *)
Lemma legacy_pack_same n : forall pre rest tail i acc chars,
  Forall bit rest -> List.length rest = (5 * n)%nat -> List.length pre = (i * 5)%nat ->
  exists cs,
    pack_loop i n (map bit_char (pre ++ rest ++ tail)) acc = Ok (acc ++ cs) /\
    fold_left sonnet_geo.pack_bit rest (Ok (sonnet_geo.mkPack chars 0 0))
      = Ok (sonnet_geo.mkPack (chars ++ cs) 0 0) /\
    List.length cs = n.
Proof.
  induction n as [ | n IH ]; intros pre rest tail i acc chars Hb Hl Hp.
  - destruct rest; [ | discriminate ]. exists []. cbn [pack_loop fold_left].
    rewrite !app_nil_r. auto.
  - destruct (five_bits n rest Hl) as (b1 & b2 & b3 & b4 & b5 & rest' & -> & Hr).
    inversion Hb as [ | ? ? H1 Hb1 ]; subst. inversion Hb1 as [ | ? ? H2 Hb2 ]; subst.
    inversion Hb2 as [ | ? ? H3 Hb3 ]; subst. inversion Hb3 as [ | ? ? H4 Hb4 ]; subst.
    inversion Hb4 as [ | ? ? H5 Hb5 ]; subst.
    destruct (legacy_pack_five b1 b2 b3 b4 b5 H1 H2 H3 H4 H5) as (v & c & Ev & Ec & Ef).
    destruct (IH (pre ++ [b1; b2; b3; b4; b5]) rest' tail (S i) (acc ++ [c]) (chars ++ [c])
                Hb5 Hr) as (cs & E1 & E2 & E3).
    { rewrite length_app, Hp. cbn [List.length]. lia. }
    exists (c :: cs). cbn [pack_loop].
    assert (Es : slice (map bit_char
                          (pre ++ (b1 :: b2 :: b3 :: b4 :: b5 :: rest') ++ tail))
                   (i * 5) (i * 5 + 5) = map bit_char [b1; b2; b3; b4; b5]).
    { unfold slice. replace (i * 5 + 5 - i * 5)%nat with 5%nat by lia.
      rewrite map_app, skipn_app_exact by (rewrite length_map; exact Hp).
      reflexivity. }
    rewrite Es, Ev. cbn [bind]. rewrite Ec. cbn [bind].
    replace (pre ++ (b1 :: b2 :: b3 :: b4 :: b5 :: rest') ++ tail)
      with ((pre ++ [b1; b2; b3; b4; b5]) ++ rest' ++ tail)
      by (now rewrite <- app_assoc).
    rewrite E1, Ef, E2, <- !app_assoc. cbn [app List.length]. auto.
Qed.

(** The first [n] groups of five bits of a longer string pack into the
    geohash of those [5 * n] bits. *)
Lemma legacy_pack_prefix bs tail n :
  Forall bit bs -> List.length bs = (5 * n)%nat ->
  exists s,
    pack_loop 0 n (map bit_char (bs ++ tail)) [] = Ok (list_ascii_of_string s) /\
    String.length s = n /\ valid_geohash s = true /\
    sonnet_geo._geohash_to_bits s = Ok bs /\ get_geobits s = map bit_char bs.
Proof.
  intros Hbs Hl.
  destruct (legacy_pack_same n [] bs tail 0%nat [] [] Hbs Hl eq_refl) as (cs & E1 & E2 & E3).
  cbn [app] in E1, E2.
  destruct (bits_to_geohash_ok bs n Hbs Hl) as (s & Es & Ls & Vs & Us).
  assert (s = string_of_list_ascii cs) as ->.
  { unfold sonnet_geo._bits_to_geohash in Es.
    rewrite Hl, multiple_of_five, E2 in Es. cbn [bind sonnet_geo.geohash_chars] in Es.
    now injection Es. }
  exists (string_of_list_ascii cs). rewrite list_ascii_of_string_of_list_ascii.
  split; [ exact E1 | ]. split; [ exact Ls | ]. split; [ exact Vs | ].
  split; [ exact Us | ]. now apply get_geobits_same.
Qed.

Lemma bits_of_chars g :
  forallb is_bit g = true -> exists bs, Forall bit bs /\ g = map bit_char bs.
Proof.
  induction g as [ | c g IH ]; intros H.
  - exists []. split; [ constructor | reflexivity ].
  - cbn [forallb] in H. apply andb_true_iff in H. destruct H as [Hc Hg].
    destruct (IH Hg) as (bs & Hb & ->).
    destruct (is_bit_cases c Hc) as [ -> | -> ].
    + exists (0 :: bs). split; [ constructor; [ now left | exact Hb ] | reflexivity ].
    + exists (1 :: bs). split; [ constructor; [ now right | exact Hb ] | reflexivity ].
Qed.

(** A string of [5 * n] bits packs into a valid geohash of [n] symbols
    whose bits [get_geobits] gives back. *)
Lemma legacy_pack_round_trip g n :
  forallb is_bit g = true -> List.length g = (5 * n)%nat ->
  exists s,
    pack_loop 0 n g [] = Ok (list_ascii_of_string s) /\
    String.length s = n /\ valid_geohash s = true /\ get_geobits s = g.
Proof.
  intros Hb Hl. destruct (bits_of_chars g Hb) as (bs & Hbs & ->).
  rewrite length_map in Hl.
  destruct (legacy_pack_prefix bs [] n Hbs Hl) as (s & E & Ls & Vs & _ & Gs).
  rewrite app_nil_r in E. exists s. auto.
Qed.

(** ** Interleaving *)

Lemma zip_evens_odds (g : list ascii) :
  zip_join (evens g) (odds g) = g /\
  forall a, zip_join (evens (a :: g)) (odds (a :: g)) = a :: g.
Proof.
  induction g as [ | x g [IH1 IH2] ].
  - split; [ reflexivity | intros a; reflexivity ].
  - split; [ apply IH2 | ].
    intros a. cbn [evens odds zip_join]. now rewrite IH1.
Qed.

Lemma evens_odds_zip a : forall b,
  (List.length b <= List.length a <= List.length b + 1)%nat ->
  evens (zip_join a b) = a /\ odds (zip_join a b) = b.
Proof.
  induction a as [ | x a IH ]; intros [ | y b ] H; cbn [List.length] in H;
    cbn [zip_join evens odds].
  - auto.
  - lia.
  - destruct a; [ auto | cbn [List.length] in H; lia ].
  - destruct (IH b ltac:(lia)) as [H1 H2]. now rewrite H1, H2.
Qed.

(** ** Binary numerals *)

Lemma bits_value_acc l : forall acc,
  fold_left (fun n c => 2 * n + (if Ascii.eqb c "1" then 1 else 0)) l acc =
  acc * 2 ^ Z.of_nat (List.length l) +
  fold_left (fun n c => 2 * n + (if Ascii.eqb c "1" then 1 else 0)) l 0.
Proof.
  induction l as [ | c l IH ]; intros acc; cbn [fold_left List.length].
  - cbn. lia.
  - rewrite IH, (IH (2 * 0 + _)), Nat2Z.inj_succ, Z.pow_succ_r by lia. ring.
Qed.

Lemma bits_value_cons c l :
  bits_value (c :: l) =
  (if Ascii.eqb c "1" then 1 else 0) * 2 ^ Z.of_nat (List.length l) + bits_value l.
Proof.
  unfold bits_value. cbn [fold_left]. rewrite bits_value_acc. f_equal.
Qed.

Lemma bits_value_range l : 0 <= bits_value l < 2 ^ Z.of_nat (List.length l).
Proof.
  induction l as [ | c l IH ].
  - cbn. lia.
  - rewrite bits_value_cons. cbn [List.length].
    rewrite Nat2Z.inj_succ, Z.pow_succ_r by lia.
    destruct (Ascii.eqb c "1"); lia.
Qed.

Lemma bits_value_inj l1 : forall l2,
  forallb is_bit l1 = true -> forallb is_bit l2 = true ->
  List.length l1 = List.length l2 -> bits_value l1 = bits_value l2 -> l1 = l2.
Proof.
  induction l1 as [ | c1 l1 IH ]; intros [ | c2 l2 ] H1 H2 Hl Hv;
    try discriminate Hl; [ reflexivity | ].
  cbn [forallb] in H1, H2. apply andb_true_iff in H1, H2.
  destruct H1 as [B1 H1], H2 as [B2 H2]. cbn [List.length] in Hl.
  injection Hl as Hl. rewrite !bits_value_cons, Hl in Hv.
  pose proof (bits_value_range l1) as R1. pose proof (bits_value_range l2) as R2.
  rewrite Hl in R1.
  destruct (is_bit_cases c1 B1) as [ -> | -> ], (is_bit_cases c2 B2) as [ -> | -> ];
    change (Ascii.eqb "0" "1") with false in Hv;
    change (Ascii.eqb "1" "1") with true in Hv; cbv iota in Hv;
    first [ exfalso; lia | f_equal; apply IH; try assumption; lia ].
Qed.

Lemma bits_value_pos_digits p : forall acc,
  fold_left (fun n c => 2 * n + (if Ascii.eqb c "1" then 1 else 0)) (pos_digits p acc) 0 =
  fold_left (fun n c => 2 * n + (if Ascii.eqb c "1" then 1 else 0)) acc (Z.pos p).
Proof.
  induction p as [ p IH | p IH | ]; intros acc; cbn [pos_digits].
  - rewrite IH. reflexivity.
  - rewrite IH. reflexivity.
  - reflexivity.
Qed.

Lemma bits_value_zeros k l : bits_value (repeat "0"%char k ++ l) = bits_value l.
Proof.
  induction k as [ | k IH ]; cbn [repeat app]; [ reflexivity | ].
  rewrite bits_value_cons. cbn. exact IH.
Qed.

Lemma zfill_bits_eq s w :
  s <> [] -> forallb is_bit s = true ->
  zfill s w = repeat "0"%char (w - List.length s) ++ s.
Proof.
  intros Hn Hb. unfold zfill. destruct s as [ | c s ]; [ congruence | ].
  cbn [forallb] in Hb. apply andb_true_iff in Hb. destruct Hb as [Hc _].
  destruct (is_bit_cases c Hc); subst; reflexivity.
Qed.

(** [int(bin(i)[2:].zfill(w), 2) == i] for [0 <= i < 2^w]. *)
Lemma int2_bin i (w : nat) :
  0 <= i < 2 ^ Z.of_nat w -> (1 <= w)%nat ->
  int2 (zfill (skipn 2 (bin i)) w) = Ok i.
Proof.
  intros Hi Hw. destruct (bin_zfill_bits i w Hi Hw) as [B L].
  rewrite int2_bits; [ | intros E; rewrite E in L; cbn in L; lia | exact B ].
  f_equal. destruct i as [ | p | p ]; [ | | lia ].
  - cbn [bin list_ascii_of_string skipn].
    rewrite zfill_bits_eq by (cbn; congruence). now rewrite bits_value_zeros.
  - cbn [bin list_ascii_of_string app skipn].
    destruct (pos_digits_bits p [] eq_refl) as [H1 H2].
    rewrite zfill_bits_eq; [ | intros E; rewrite E in H2; cbn in H2;
                                destruct p; cbn in H2; lia | exact H1 ].
    rewrite bits_value_zeros. unfold bits_value. now rewrite bits_value_pos_digits.
Qed.

(** ** The geohash of a column and a row *)

Lemma legacy_neighbor_cell (a b n : nat) i j :
  (a + b = 5 * n)%nat -> (1 <= b)%nat -> (b <= a <= b + 1)%nat ->
  0 <= i < 2 ^ Z.of_nat a -> 0 <= j < 2 ^ Z.of_nat b ->
  exists s,
    legacy_neighbor a b n i j = Ok s /\ String.length s = n /\
    valid_geohash s = true /\ legacy_column s = Ok i /\ legacy_row s = Ok j.
Proof.
  intros Hab Hb Hle Hi Hj. unfold legacy_neighbor. cbv zeta.
  destruct (bin_zfill_bits i a Hi ltac:(lia)) as [A1 A2].
  destruct (bin_zfill_bits j b Hj Hb) as [B1 B2].
  destruct (zip_join_bits _ _ A1 B1) as [C1 C2].
  destruct (legacy_pack_round_trip _ n C1 ltac:(rewrite C2, A2, B2; lia))
    as (s & E & Ls & Vs & Gs).
  rewrite E. cbn [bind]. rewrite string_of_list_ascii_of_string.
  exists s. split; [ reflexivity | ]. split; [ exact Ls | ]. split; [ exact Vs | ].
  unfold legacy_column, legacy_row. rewrite Gs.
  destruct (evens_odds_zip (zfill (skipn 2 (bin i)) a) (zfill (skipn 2 (bin j)) b))
    as [-> ->]; [ rewrite A2, B2; lia | ].
  split; apply int2_bin; assumption || lia.
Qed.

Lemma bit_char_inj l1 : forall l2,
  Forall bit l1 -> Forall bit l2 -> map bit_char l1 = map bit_char l2 -> l1 = l2.
Proof.
  induction l1 as [ | a l1 IH ]; intros [ | b l2 ] H1 H2 E; try discriminate E;
    [ reflexivity | ].
  inversion H1 as [ | ? ? Ha H1' ]; subst. inversion H2 as [ | ? ? Hb H2' ]; subst.
  cbn [map] in E. injection E as E0 E. f_equal; [ | now apply IH ].
  destruct Ha as [ -> | -> ], Hb as [ -> | -> ]; cbn in E0; congruence.
Qed.

(** Two valid geohashes with the same bits are the same geohash. *)
Lemma get_geobits_inj g h :
  valid_geohash g = true -> valid_geohash h = true ->
  get_geobits g = get_geobits h -> g = h.
Proof.
  intros Vg Vh E.
  destruct (geohash_to_bits_ok g Vg) as (bg & Eg & Bg & _ & Pg).
  destruct (geohash_to_bits_ok h Vh) as (bh & Eh & Bh & _ & Ph).
  rewrite (get_geobits_same g bg Vg Eg), (get_geobits_same h bh Vh Eh) in E.
  apply bit_char_inj in E; try assumption. subst bh. congruence.
Qed.

Lemma legacy_cell_inj g h x y :
  valid_geohash g = true -> valid_geohash h = true ->
  String.length g = String.length h ->
  legacy_column g = Ok x -> legacy_row g = Ok y ->
  legacy_column h = Ok x -> legacy_row h = Ok y -> g = h.
Proof.
  intros Vg Vh Hl Cg Rg Ch Rh. apply get_geobits_inj; try assumption.
  destruct (get_geobits_valid g Vg) as [Bg Lg].
  destruct (get_geobits_valid h Vh) as [Bh Lh].
  destruct (evens_odds_forallb is_bit _ Bg) as [Beg Bog].
  destruct (evens_odds_forallb is_bit _ Bh) as [Beh Boh].
  pose proof (evens_odds_length (get_geobits g)) as [S1 S2].
  pose proof (evens_odds_length (get_geobits h)) as [T1 T2].
  unfold legacy_column, legacy_row in *.
  assert (Ne : forall l, int2 l = Ok x \/ int2 l = Ok y -> l <> []).
  { intros l [ K | K ] ->; discriminate K. }
  rewrite int2_bits in Cg, Rg, Ch, Rh by (auto using Ne).
  injection Cg as Cg. injection Rg as Rg. injection Ch as Ch. injection Rh as Rh.
  rewrite <- (proj1 (zip_evens_odds (get_geobits g))).
  rewrite <- (proj1 (zip_evens_odds (get_geobits h))).
  f_equal; apply bits_value_inj; try assumption; lia.
Qed.

(** X22: for a valid geohash [h] in column [x] and row [y], away from
    the first and last column and row, [geohash.neighbors] returns nine
    valid geohashes of the length of [h], column by column: those of
    columns [x - 1], [x], [x + 1], each with rows [y + 1], [y], [y - 1];
    the fifth is [h] itself. *)
Theorem legacy_neighbors_grid (h : string) (x y : Z) :
  valid_geohash h = true -> h <> ""%string ->
  legacy_column h = Ok x -> legacy_row h = Ok y ->
  0 < x -> x + 1 < 2 ^ Z.of_nat (List.length (evens (get_geobits h))) ->
  0 < y -> y + 1 < 2 ^ Z.of_nat (List.length (odds (get_geobits h))) ->
  exists nw n ne w e sw s se,
    neighbors h = Ok [nw; w; sw; n; h; s; ne; e; se] /\
    Forall2 (fun g xy =>
               valid_geohash g = true /\ String.length g = String.length h /\
               legacy_column g = Ok (fst xy) /\ legacy_row g = Ok (snd xy))
            [nw; w; sw; n; h; s; ne; e; se]
            [(x - 1, y + 1); (x - 1, y); (x - 1, y - 1);
             (x, y + 1); (x, y); (x, y - 1);
             (x + 1, y + 1); (x + 1, y); (x + 1, y - 1)].
Proof.
  intros Hv Hne Cx Cy X1 X2 Y1 Y2.
  destruct (get_geobits_valid h Hv) as [G1 G2].
  pose proof (evens_odds_length (get_geobits h)) as [L1 L2].
  set (a := List.length (evens (get_geobits h))) in *.
  set (b := List.length (odds (get_geobits h))) in *.
  assert (Hn : (1 <= String.length h)%nat) by (destruct h; [ congruence | cbn; lia ]).
  assert (N : forall i j, 0 <= i < 2 ^ Z.of_nat a -> 0 <= j < 2 ^ Z.of_nat b ->
            exists s, legacy_neighbor a b (String.length h) i j = Ok s /\
                      String.length s = String.length h /\ valid_geohash s = true /\
                      legacy_column s = Ok i /\ legacy_row s = Ok j).
  { intros i j Hi Hj. apply legacy_neighbor_cell; try assumption; lia. }
  destruct (N (x - 1) (y + 1)) as (nw & E1 & K1); [ lia | lia | ].
  destruct (N (x - 1) y) as (w & E2 & K2); [ lia | lia | ].
  destruct (N (x - 1) (y - 1)) as (sw & E3 & K3); [ lia | lia | ].
  destruct (N x (y + 1)) as (n & E4 & K4); [ lia | lia | ].
  destruct (N x y) as (c & E5 & K5); [ lia | lia | ].
  destruct (N x (y - 1)) as (s & E6 & K6); [ lia | lia | ].
  destruct (N (x + 1) (y + 1)) as (ne & E7 & K7); [ lia | lia | ].
  destruct (N (x + 1) y) as (e & E8 & K8); [ lia | lia | ].
  destruct (N (x + 1) (y - 1)) as (se & E9 & K9); [ lia | lia | ].
  assert (c = h) as ->.
  { destruct K5 as (Lc & Vc & Cc & Rc). now apply (legacy_cell_inj c h x y). }
  exists nw, n, ne, w, e, sw, s, se. split.
  - rewrite legacy_neighbors_unfold. cbv zeta. fold a b.
    unfold legacy_column in Cx. unfold legacy_row in Cy. rewrite Cx, Cy.
    cbn [bind mapM]. rewrite E1, E2, E3, E4, E5, E6, E7, E8, E9. reflexivity.
  - repeat (apply Forall2_cons; [ cbn [fst snd]; tauto | ]). apply Forall2_nil.
Qed.

Lemma legacy_neighbors_grid_witness :
  exists nw n ne w e sw s se,
    neighbors "9q" = Ok [nw; w; sw; n; "9q"%string; s; ne; e; se] /\
    Forall2 (fun g xy =>
               valid_geohash g = true /\ String.length g = String.length "9q" /\
               legacy_column g = Ok (fst xy) /\ legacy_row g = Ok (snd xy))
            [nw; w; sw; n; "9q"%string; s; ne; e; se]
            [(5 - 1, 22 + 1); (5 - 1, 22); (5 - 1, 22 - 1);
             (5, 22 + 1); (5, 22); (5, 22 - 1);
             (5 + 1, 22 + 1); (5 + 1, 22); (5 + 1, 22 - 1)].
Proof.
  apply (legacy_neighbors_grid "9q"%string 5 22);
    [ reflexivity | discriminate | reflexivity | reflexivity
    | lia | vm_compute; reflexivity | lia | vm_compute; reflexivity ].
Defined.

End LegacyNeighbours.

(** * [geohash.py]: encoding, then decoding *)

Section LegacyRoundTrip.
Import Bin64 Rounding.

(** The loop of [get_bits] writes the bits of an interval that contains
    the coordinate: the interval [_refine_interval] reaches on them. *)
Lemma get_bits_loop_spec n : forall degrees result itv' itv,
  bounded_interval itv -> same_interval itv' itv ->
  finite degrees = true -> contains itv degrees ->
  exists bs,
    Forall bit bs /\ List.length bs = n /\
    geohash.get_bits_loop n degrees result itv' = result ++ map bit_char bs /\
    contains (sonnet_geo._refine_interval bs itv) degrees.
Proof.
  induction n as [ | n IH ]; intros v result [lo' hi'] [lo hi] Hb Hs Fv Hc.
  - exists []. cbn [geohash.get_bits_loop map]. rewrite app_nil_r.
    repeat split; try constructor; apply Hc.
  - cbn [geohash.get_bits_loop fst snd].
    destruct (legacy_mid_same lo hi lo' hi' Hb Hs) as [Fm Em].
    destruct (mid_bounds lo hi Hb) as (Fm0 & M1 & M2).
    pose proof (ltb_iff _ _ Fm Fv) as L. rewrite Em in L.
    destruct Hs as (Fl' & Fh' & El & Eh). destruct Hc as [C1 C2]. cbn [fst snd] in *.
    destruct (_ <? v)%float.
    + assert (B2Q ((lo + hi) / 2) < B2Q v)%Q by now apply L.
      destruct (IH v (result ++ ["1"%char]) (PyFloat.sum2 lo' hi' / 2, hi')%float
                  (sonnet_geo.refine_bit (lo, hi) 1)) as (bs & B1 & B2 & B3 & B4).
      * now apply refine_bit_bounded.
      * cbn. repeat split; assumption.
      * exact Fv.
      * cbn. split; cbn [fst snd]; lra.
      * exists (1 :: bs). split; [ constructor; [ now right | exact B1 ] | ].
        split; [ cbn [List.length]; lia | ]. split; [ | exact B4 ].
        rewrite B3, <- app_assoc. reflexivity.
    + assert (~ (B2Q ((lo + hi) / 2) < B2Q v)%Q) by (intros K; apply L in K; discriminate).
      destruct (IH v (result ++ ["0"%char]) (lo', PyFloat.sum2 lo' hi' / 2)%float
                  (sonnet_geo.refine_bit (lo, hi) 0)) as (bs & B1 & B2 & B3 & B4).
      * now apply refine_bit_bounded.
      * cbn. repeat split; assumption.
      * exact Fv.
      * cbn. split; cbn [fst snd]; lra.
      * exists (0 :: bs). split; [ constructor; [ now left | exact B1 ] | ].
        split; [ cbn [List.length]; lia | ]. split; [ | exact B4 ].
        rewrite B3, <- app_assoc. reflexivity.
Qed.

Lemma nested_contains inner outer v :
  nested inner outer -> contains inner v -> contains outer v.
Proof. intros (_ & _ & N1 & N2 & N3) [C1 C2]. split; lra. Qed.

Lemma Forall_bit_firstn k : forall l : list Z, Forall bit l -> Forall bit (firstn k l).
Proof.
  induction k as [ | k IH ]; intros [ | a l ] H; cbn [firstn]; try constructor.
  - now inversion H.
  - apply IH. now inversion H.
Qed.

(** The geohash [geohash.encode] packs: its longitude bits are all the
    bits [get_bits] wrote for the longitude, its latitude bits the first
    of those written for the latitude. *)
Lemma legacy_encode_bits lon lat p bl bt :
  0 < p -> Forall bit bl -> Forall bit bt ->
  List.length bl = Z.to_nat (p * 5 / 2 + (p * 5) mod 2) ->
  List.length bt = Z.to_nat (p * 5 / 2 + (p * 5) mod 2) ->
  geohash.get_bits lon p 180 = map bit_char bl ->
  geohash.get_bits lat p 90 = map bit_char bt ->
  exists h bs rest,
    geohash.encode lon lat p = Ok h /\ String.length h = Z.to_nat p /\
    valid_geohash h = true /\ sonnet_geo._geohash_to_bits h = Ok bs /\
    List.length bs = (5 * Z.to_nat p)%nat /\
    evens bs = bl /\ bt = odds bs ++ rest.
Proof.
  intros Hp Bl Bt Ll Lt El Et. unfold geohash.encode. cbv zeta. rewrite El, Et.
  set (n := Z.to_nat (p * 5 / 2 + (p * 5) mod 2)) in *.
  assert (Hn : (2 * n = 5 * Z.to_nat p \/ 2 * n = 5 * Z.to_nat p + 1)%nat)
    by (unfold n; zify; Z.div_mod_to_equations; lia).
  assert (Al : forallb geohash.is_bit (map bit_char bl) = true).
  { rewrite <- El. unfold geohash.get_bits.
    apply (get_bits_loop_bits _ lon []). reflexivity. }
  assert (At : forallb geohash.is_bit (map bit_char bt) = true).
  { rewrite <- Et. unfold geohash.get_bits.
    apply (get_bits_loop_bits _ lat []). reflexivity. }
  destruct (zip_join_bits _ _ Al At) as [C1 C2]. rewrite !length_map, Ll, Lt in C2.
  destruct (bits_of_chars _ C1) as (ball & Ball & Eall). rewrite Eall in C2 |- *.
  rewrite length_map in C2.
  rewrite <- (firstn_skipn (5 * Z.to_nat p) ball).
  set (bs := firstn (5 * Z.to_nat p) ball). set (tl := skipn (5 * Z.to_nat p) ball).
  assert (Hbs : Forall bit bs) by (apply Forall_bit_firstn, Ball).
  assert (Lbs : List.length bs = (5 * Z.to_nat p)%nat)
    by (unfold bs; rewrite length_firstn; lia).
  destruct (legacy_pack_prefix bs tl (Z.to_nat p) Hbs Lbs) as (h & E & Lh & Vh & Uh & _).
  rewrite E. cbn [bind]. rewrite string_of_list_ascii_of_string.
  destruct (evens_odds_app bs tl) as (e1 & e2 & X1 & X2).
  unfold bs, tl in X1, X2. rewrite firstn_skipn in X1, X2. fold bs in X1, X2.
  destruct (evens_odds_zip (map bit_char bl) (map bit_char bt)) as [Z1 Z2];
    [ rewrite !length_map; lia | ].
  rewrite Eall in Z1, Z2. destruct (evens_odds_map bit_char ball) as [M1 M2].
  rewrite M1 in Z1. rewrite M2 in Z2.
  destruct (evens_odds_bits ball Ball) as [Be Bo].
  apply bit_char_inj in Z1; try assumption. apply bit_char_inj in Z2; try assumption.
  pose proof (evens_odds_length bs) as [S1 S2].
  assert (e1 = []).
  { apply length_zero_iff_nil. apply (f_equal (@List.length Z)) in X1.
    rewrite length_app, Z1, Ll in X1. lia. }
  subst e1. rewrite app_nil_r in X1.
  exists h, bs, e2. split; [ reflexivity | ]. do 4 (split; [ assumption | ]).
  split; congruence.
Qed.

(** X23: for coordinates in range and a precision of 1 to 18
    [geohash.encode] returns a valid geohash of that length, and
    [geohash.decode] of it returns a centre within the errors it
    reports: [abs(lon_c - lon) <= lon_err] and
    [abs(lat_c - lat) <= lat_err] in Python's comparisons. *)
Theorem legacy_encode_decode_within_error (lon lat : float) (p : Z) :
  (-90 <=? lat)%float = true -> (lat <=? 90)%float = true ->
  (-180 <=? lon)%float = true -> (lon <=? 180)%float = true ->
  0 < p <= 18 ->
  exists h lat_c lon_c lat_err lon_err,
    geohash.encode lon lat p = Ok h /\
    String.length h = Z.to_nat p /\ valid_geohash h = true /\
    geohash.decode h "pointerr" = geohash.PointErr [lat_c; lon_c; lat_err; lon_err] /\
    (abs (lon_c - lon) <=? lon_err)%float = true /\
    (abs (lat_c - lat) <=? lat_err)%float = true.
Proof.
  intros H1 H2 H3 H4 Hp.
  destruct (lon_in_range_finite lon (in_range_and _ _ _ H3 H4)) as [Fn Cn].
  destruct (lat_in_range_finite lat (in_range_and _ _ _ H1 H2)) as [Ft Ct].
  set (n := Z.to_nat (p * 5 / 2 + (p * 5) mod 2)).
  destruct (get_bits_loop_spec n lon [] sonnet_geo.LON_RANGE sonnet_geo.LON_RANGE
              lon_range_bounded
              (conj eq_refl (conj eq_refl (conj (Qeq_refl _) (Qeq_refl _)))) Fn Cn)
    as (bl & Bl & Ll & El & Kl).
  destruct (get_bits_loop_spec n lat [] sonnet_geo.LAT_RANGE sonnet_geo.LAT_RANGE
              lat_range_bounded
              (conj eq_refl (conj eq_refl (conj (Qeq_refl _) (Qeq_refl _)))) Ft Ct)
    as (bt & Bt & Lt & Et & Kt).
  cbn [app] in El, Et.
  destruct (legacy_encode_bits lon lat p bl bt ltac:(lia) Bl Bt Ll Lt El Et)
    as (h & bs & rest & E & Lh & Vh & Uh & Lbs & Xe & Xo).
  subst bl. rewrite Xo in Kt.
  apply (nested_contains _ _ _ (refine_app_nested (odds bs) rest _ lat_range_bounded))
    in Kt.
  destruct (geohash_to_bits_ok h Vh) as (bs' & Uh' & Hb & _).
  rewrite Uh in Uh'. injection Uh' as <-.
  destruct (evens_odds_bits bs Hb) as [Be Bo].
  destruct (decode_exact h bs Uh ltac:(lia))
    as (_ & _ & _ & _ & _ & _ & _ & G1 & G2 & K1 & K2).
  destruct (legacy_degrees_same (evens bs) 180 _ Be (eq_sym of_int_lon) lon_range_bounded)
    as (Fx & Ex & Gx).
  destruct (legacy_degrees_same (odds bs) 90 _ Bo (eq_sym of_int_lat) lat_range_bounded)
    as (Fy & Ey & Gy).
  destruct (Gx 2 _ ltac:(lia) (depth_ok _ K1) G1) as [Fex Eex].
  destruct (Gy 1 _ ltac:(lia) (depth_ok _ K2) G2) as [Fey Eey].
  destruct (sonnet_geo._refine_interval (evens bs) sonnet_geo.LON_RANGE) as [i1 i2].
  destruct (sonnet_geo._refine_interval (odds bs) sonnet_geo.LAT_RANGE) as [j1 j2].
  cbn [fst snd] in *.
  destruct (grid_cell 2 _ i1 i2 ltac:(lia) (depth_ok _ K1) G1) as (_ & _ & Vc1 & Ve1 & _).
  destruct (grid_cell 1 _ j1 j2 ltac:(lia) (depth_ok _ K2) G2) as (_ & _ & Vc2 & Ve2 & _).
  destruct Kl as [Kl1 Kl2]. destruct Kt as [Kt1 Kt2]. cbn [fst snd] in *.
  set (dn := geohash.get_degrees (map bit_char (evens bs)) 180) in *.
  set (dt := geohash.get_degrees (map bit_char (odds bs)) 90) in *.
  exists h, (fst dt), (fst dn), (snd dt), (snd dn).
  do 3 (split; [ assumption | ]). split.
  - unfold geohash.decode. rewrite (get_geobits_same h bs Vh Uh).
    destruct (evens_odds_map bit_char bs) as [-> ->]. fold dn dt.
    destruct dn, dt. reflexivity.
  - split.
    + apply (within_error i1 i2 lon); try assumption; lra.
    + apply (within_error j1 j2 lat); try assumption; lra.
Qed.

Lemma legacy_encode_decode_within_error_witness :
  exists h lat_c lon_c lat_err lon_err,
    geohash.encode (-122.5)%float 37.75%float 7 = Ok h /\
    String.length h = Z.to_nat 7 /\ valid_geohash h = true /\
    geohash.decode h "pointerr" = geohash.PointErr [lat_c; lon_c; lat_err; lon_err] /\
    (abs (lon_c - (-122.5)) <=? lon_err)%float = true /\
    (abs (lat_c - 37.75) <=? lat_err)%float = true.
Proof.
  apply (legacy_encode_decode_within_error (-122.5)%float 37.75%float 7);
    [ reflexivity | reflexivity | reflexivity | reflexivity | lia ].
Defined.

End LegacyRoundTrip.

(** * The neighbours, cell by cell *)

Section Adjacent.
Import Bin64 Rounding sonnet_geo.

(** ** The index of a cell *)

Lemma grid_at_grid c k a itv : grid_at c k a itv -> grid c k itv.
Proof.
  intros (F1 & F2 & A1 & A2 & E1 & E2). split; [ exact F1 | ]. split; [ exact F2 | ].
  exists a. auto.
Qed.

Lemma grid_at_step c k x itv b :
  1 <= c <= 2 -> 0 <= k <= 47 -> bit b ->
  grid_at c k (2 * x - 2 ^ k) itv ->
  grid_at c (k + 1) (2 * (2 * x + b) - 2 ^ (k + 1)) (refine_bit itv b).
Proof.
  intros Hc Hk Hb (Fl & Fh & Ha1 & Ha2 & E1 & E2). destruct itv as [lo hi].
  cbn [fst snd] in *. set (a := 2 * x - 2 ^ k) in *.
  destruct (grid_mid c k lo hi a Hc Hk Fl Fh Ha1 Ha2 E1 E2) as [Fm Em].
  assert (Hp : 2 ^ (k + 1) = 2 * 2 ^ k) by (rewrite Z.pow_add_r by lia; lia).
  assert (R : forall m, (dy (45 * m) (c - k) == dy (45 * (m * 2)) (c - (k + 1)))%Q).
  { intros m. rewrite <- (dy_double (45 * m) (c - k)).
    replace (c - k - 1) with (c - (k + 1)) by lia. apply dy_eq. lia. }
  unfold refine_bit, grid_at. destruct Hb as [ -> | -> ]; cbn [Z.eqb negb fst snd].
  - split; [ exact Fl | ]. split; [ exact Fm | ].
    split; [ lia | ]. split; [ lia | ]. split.
    + rewrite E1, R. apply dy_eq. lia.
    + rewrite Em, R. apply dy_eq. lia.
  - split; [ exact Fm | ]. split; [ exact Fh | ].
    split; [ lia | ]. split; [ lia | ]. split.
    + rewrite Em, R. apply dy_eq. lia.
    + rewrite E2, R. apply dy_eq. lia.
Qed.

Lemma grid_at_refine c bits : forall k x itv,
  1 <= c <= 2 -> 0 <= k -> k + Z.of_nat (List.length bits) <= 48 ->
  Forall bit bits ->
  grid_at c k (2 * x - 2 ^ k) itv ->
  grid_at c (k + Z.of_nat (List.length bits))
    (2 * fold_left (fun n b => 2 * n + b) bits x
     - 2 ^ (k + Z.of_nat (List.length bits)))
    (_refine_interval bits itv).
Proof.
  unfold _refine_interval.
  induction bits as [ | b bits IH ]; intros k x itv Hc Hk Hl Hb G;
    cbn [fold_left List.length].
  - now rewrite Z.add_0_r.
  - inversion Hb as [ | ? ? Hb1 Hb2 ]; subst.
    cbn [List.length] in Hl. rewrite Nat2Z.inj_succ in *.
    replace (k + Z.succ (Z.of_nat (List.length bits)))
      with (k + 1 + Z.of_nat (List.length bits)) by lia.
    apply IH; [ assumption | lia | lia | assumption | ].
    apply grid_at_step; [ assumption | lia | assumption | assumption ].
Qed.

Lemma lon_range_grid_at : grid_at 2 0 (2 * 0 - 2 ^ 0) LON_RANGE.
Proof.
  unfold grid_at, LON_RANGE. cbn [fst snd].
  repeat split; try lia; vm_compute; reflexivity.
Qed.

Lemma lat_range_grid_at : grid_at 1 0 (2 * 0 - 2 ^ 0) LAT_RANGE.
Proof.
  unfold grid_at, LAT_RANGE. cbn [fst snd].
  repeat split; try lia; vm_compute; reflexivity.
Qed.

(** The cell of a list of at most 45 bits: its index is twice the
    number the bits spell, counted from [-2^k]. *)
Lemma axis_grid_at c bits itv :
  1 <= c <= 2 -> grid_at c 0 (2 * 0 - 2 ^ 0) itv ->
  Forall bit bits -> Z.of_nat (List.length bits) <= 45 ->
  grid_at c (Z.of_nat (List.length bits))
    (2 * bits_number bits - 2 ^ Z.of_nat (List.length bits))
    (_refine_interval bits itv).
Proof.
  intros Hc G Hb Hl.
  apply (grid_at_refine c bits 0 0 itv Hc ltac:(lia) ltac:(lia) Hb G).
Qed.

Lemma bits_number_range l :
  Forall bit l -> 0 <= bits_number l < 2 ^ Z.of_nat (List.length l).
Proof.
  unfold bits_number. intros H.
  assert (G : forall acc, 0 <= acc ->
            acc * 2 ^ Z.of_nat (List.length l)
            <= fold_left (fun n b => 2 * n + b) l acc
            < (acc + 1) * 2 ^ Z.of_nat (List.length l)).
  { induction H as [ | b l Hb Hl IH ]; intros acc Ha; cbn [fold_left List.length].
    - cbn. lia.
    - rewrite Nat2Z.inj_succ, Z.pow_succ_r by lia.
      specialize (IH (2 * acc + b) ltac:(destruct Hb; lia)).
      assert (0 < 2 ^ Z.of_nat (List.length l)) by (apply Z.pow_pos_nonneg; lia).
      destruct Hb; subst; nia. }
  specialize (G 0 ltac:(lia)). lia.
Qed.

(** ** Columns and rows again *)

Lemma bits_value_number l : forall acc,
  Forall bit l ->
  fold_left (fun n c => 2 * n + (if Ascii.eqb c "1" then 1 else 0)) (map bit_char l) acc
  = fold_left (fun n b => 2 * n + b) l acc.
Proof.
  induction l as [ | b l IH ]; intros acc H; cbn [map fold_left].
  - reflexivity.
  - inversion H as [ | ? ? Hb Hl ]; subst. rewrite IH by assumption.
    destruct Hb as [ -> | -> ]; reflexivity.
Qed.

Lemma legacy_cell_numbers g bg :
  valid_geohash g = true -> g <> ""%string -> _geohash_to_bits g = Ok bg ->
  legacy_column g = Ok (bits_number (evens bg)) /\
  legacy_row g = Ok (bits_number (odds bg)).
Proof.
  intros Vg Ng Eg.
  destruct (geohash_to_bits_ok g Vg) as (b' & E' & Hb & Hl & _).
  rewrite Eg in E'. injection E' as <-.
  destruct (evens_odds_bits bg Hb) as [Be Bo].
  pose proof (evens_odds_length bg) as [S1 S2].
  assert (Hn : (1 <= String.length g)%nat) by (destruct g; [ congruence | cbn; lia ]).
  unfold legacy_column, legacy_row. rewrite (get_geobits_same g bg Vg Eg).
  destruct (evens_odds_map bit_char bg) as [-> ->].
  destruct (get_geobits_valid g Vg) as [G1 _].
  rewrite (get_geobits_same g bg Vg Eg) in G1.
  destruct (evens_odds_forallb geohash.is_bit _ G1) as [G2 G3].
  destruct (evens_odds_map bit_char bg) as [M1 M2]. rewrite M1 in G2. rewrite M2 in G3.
  rewrite !int2_bits; try assumption.
  - unfold geohash.bits_value, bits_number. now rewrite !bits_value_number.
  - intros K. apply (f_equal (@List.length ascii)) in K.
    rewrite length_map in K. cbn in K. lia.
  - intros K. apply (f_equal (@List.length ascii)) in K.
    rewrite length_map in K. cbn in K. lia.
Qed.

(** ** A candidate is the centre of the adjacent cell *)

Lemma pow2_le_45 k : 0 <= k <= 45 -> 45 * (2 ^ k + 3) <= 2 ^ 53.
Proof.
  intros H. assert (2 ^ k <= 2 ^ 45) by (apply Z.pow_le_mono_r; lia).
  assert (1 <= 2 ^ k) by (apply (Z.pow_le_mono_r 2 0 k); lia).
  change (2 ^ 53) with (256 * 2 ^ 45). lia.
Qed.

Lemma candidate_exact c k a lo hi d :
  1 <= c <= 2 -> 0 <= k <= 45 -> grid_at c k a (lo, hi) -> In d [1; 0; -1] ->
  let x := ((lo + hi) / 2 + PyFloat.of_int d * ((hi - lo) / 2 * 2))%float in
  finite x = true /\ (B2Q x == dy (45 * (a + 1 + 2 * d)) (c - k))%Q.
Proof.
  intros Hc Hk G Hd x.
  pose proof (grid_at_grid _ _ _ _ G) as G'.
  destruct (axis_width c k lo hi Hc ltac:(lia) G') as (Fw & Ew & _ & W0 & W1).
  destruct G as (Fl & Fh & A1 & A2 & E1 & E2). cbn [fst snd] in *.
  destruct (grid_mid c k lo hi a Hc ltac:(lia) Fl Fh A1 A2 E1 E2) as [Fm Em].
  destruct (B2Q_of_int d Hd) as [Fd Ed].
  assert (Ep : (B2Q (PyFloat.of_int d) * B2Q ((hi - lo) / 2 * 2)
                == dy (90 * d) (c - k))%Q).
  { rewrite Ed, Ew. unfold dy. rewrite inject_Z_mult. ring. }
  assert (Bd : (-1 <= inject_Z d)%Q /\ (inject_Z d <= 1)%Q).
  { destruct Hd as [ <- | [ <- | [ <- | [] ] ] ]; split; vm_compute; discriminate. }
  destruct (mul_exact (PyFloat.of_int d) ((hi - lo) / 2 * 2) Fd Fw) as [Fp Vp].
  { apply (format_proper (dy (90 * d) (c - k))); [ now rewrite Ep | ].
    apply format_dy; [ | lia ].
    destruct Hd as [ <- | [ <- | [ <- | [] ] ] ]; cbn; lia. }
  { apply in_range_small; rewrite Ed; nra. }
  rewrite Ep in Vp.
  destruct (dy_45_bounds c (a + 1) k Hc ltac:(lia) ltac:(lia)) as [M1 M2].
  assert (Es : (B2Q ((lo + hi) / 2) + B2Q (PyFloat.of_int d * ((hi - lo) / 2 * 2))
                == dy (45 * (a + 1 + 2 * d)) (c - k))%Q).
  { rewrite Em, Vp, <- dy_add. apply dy_eq. lia. }
  assert (Bp : (-360 <= dy (90 * d) (c - k))%Q /\ (dy (90 * d) (c - k) <= 360)%Q).
  { rewrite <- Ep, Ed. nra. }
  pose proof (pow2_le_45 k Hk) as H45.
  destruct (add_exact ((lo + hi) / 2) (PyFloat.of_int d * ((hi - lo) / 2 * 2)) Fm Fp)
    as [Fx Vx].
  { apply (format_proper (dy (45 * (a + 1 + 2 * d)) (c - k))); [ now rewrite Es | ].
    apply format_dy; [ | lia ].
    destruct Hd as [ <- | [ <- | [ <- | [] ] ] ]; lia. }
  { apply in_range_small; rewrite Vp, Em; lra. }
  fold x in Fx, Vx. split; [ exact Fx | ]. now rewrite Vx.
Qed.

(** A candidate of [sonnet_geo.neighbors] encodes to the geohash of the
    adjacent column and row. *)
Lemma sonnet_neighbor_adjacent h bs g bg cell dx dy :
  valid_geohash h = true -> (1 <= String.length h <= 18)%nat ->
  _geohash_to_bits h = Ok bs -> decode h = Ok cell ->
  valid_geohash g = true -> String.length g = String.length h ->
  _geohash_to_bits g = Ok bg ->
  In dx [1; 0; -1] -> In dy [1; 0; -1] ->
  bits_number (evens bg) = bits_number (evens bs) + dx ->
  bits_number (odds bg) = bits_number (odds bs) + dy ->
  sonnet_neighbor cell (Z.of_nat (String.length h)) dx dy = Ok g.
Proof.
  intros Vh Lh Eh Ed Vg Lg Eg Hx Hy Nx Ny.
  destruct (geohash_to_bits_ok h Vh) as (b1 & E1 & Bh & Lbh & _).
  rewrite Eh in E1. injection E1 as <-.
  destruct (geohash_to_bits_ok g Vg) as (b2 & E2 & Bg & Lbg & _).
  rewrite Eg in E2. injection E2 as <-.
  destruct (evens_odds_bits bs Bh) as [Beh Boh].
  destruct (evens_odds_bits bg Bg) as [Beg Bog].
  pose proof (evens_odds_length bs) as [S1 S2].
  pose proof (evens_odds_length bg) as [T1 T2].
  assert (Ke : List.length (evens bg) = List.length (evens bs)) by lia.
  assert (Ko : List.length (odds bg) = List.length (odds bs)) by lia.
  set (kx := Z.of_nat (List.length (evens bs))) in *.
  set (ky := Z.of_nat (List.length (odds bs))) in *.
  assert (Kx : 0 <= kx <= 45) by lia. assert (Ky : 0 <= ky <= 45) by lia.
  pose proof (axis_grid_at 2 (evens bs) LON_RANGE ltac:(lia) lon_range_grid_at Beh
                ltac:(lia)) as Gh.
  pose proof (axis_grid_at 1 (odds bs) LAT_RANGE ltac:(lia) lat_range_grid_at Boh
                ltac:(lia)) as Hh.
  pose proof (axis_grid_at 2 (evens bg) LON_RANGE ltac:(lia) lon_range_grid_at Beg
                ltac:(lia)) as Gg.
  pose proof (axis_grid_at 1 (odds bg) LAT_RANGE ltac:(lia) lat_range_grid_at Bog
                ltac:(lia)) as Hg.
  rewrite Ke, Nx in Gg. rewrite Ko, Ny in Hg. fold kx in Gh, Gg. fold ky in Hh, Hg.
  unfold decode in Ed. rewrite (from_geohash_eq h bs Eh) in Ed. injection Ed as <-.
  unfold sonnet_neighbor. cbn [lon lat lon_err lat_err].
  assert (Hne : g <> ""%string) by (destruct g; [ cbn in Lg; lia | discriminate ]).
  pose proof (encode_reproduces g bg) as R. cbv zeta in R.
  rewrite Lg in R.
  destruct (_refine_interval (evens bs) LON_RANGE) as [i1 i2].
  destruct (_refine_interval (odds bs) LAT_RANGE) as [j1 j2].
  destruct (_refine_interval (evens bg) LON_RANGE) as [u1 u2].
  destruct (_refine_interval (odds bg) LAT_RANGE) as [v1 v2].
  cbn [fst snd] in *.
  destruct (candidate_exact 2 kx _ i1 i2 dx ltac:(lia) Kx Gh Hx) as [Fx Vx].
  destruct (candidate_exact 1 ky _ j1 j2 dy ltac:(lia) Ky Hh Hy) as [Fy Vy].
  pose proof (grid_at_grid _ _ _ _ Gg) as Gg'.
  pose proof (grid_at_grid _ _ _ _ Hg) as Hg'.
  pose proof (grid_centre_shift kx u1 u2 ltac:(lia) Gg') as Fs.
  destruct (grid_bounds 2 kx (u1, u2) ltac:(lia) ltac:(lia) Gg') as (U1 & U2 & U3).
  destruct Gg as (Fu1 & Fu2 & A1 & A2 & Eu1 & Eu2).
  destruct Hg as (Fv1 & Fv2 & B1 & B2 & Ev1 & Ev2).
  cbn [fst snd] in *.
  destruct (grid_mid 2 kx u1 u2 _ ltac:(lia) ltac:(lia) Fu1 Fu2 A1 A2 Eu1 Eu2) as [_ Mu].
  assert (E90 : (Bin64.dy 45 1 == 90)%Q) by reflexivity.
  destruct (dy_45_tight 1 (2 * (bits_number (odds bs) + dy) - 2 ^ ky) ky
              ltac:(lia) ltac:(lia)) as [P1 _].
  destruct (dy_45_tight 1 (2 * (bits_number (odds bs) + dy) - 2 ^ ky + 2) ky
              ltac:(lia) ltac:(lia)) as [_ P2].
  rewrite E90 in P1, P2.
  set (a := 2 * bits_number (evens bs) - 2 ^ kx) in *.
  set (b := 2 * bits_number (odds bs) - 2 ^ ky) in *.
  set (xc := ((i1 + i2) / 2 + PyFloat.of_int dx * ((i2 - i1) / 2 * 2))%float) in *.
  set (yc := ((j1 + j2) / 2 + PyFloat.of_int dy * ((j2 - j1) / 2 * 2))%float) in *.
  assert (Xl : (B2Q u1 < B2Q xc)%Q).
  { rewrite Eu1, Vx. apply dy_lt. lia. }
  assert (Xh : (B2Q xc < B2Q u2)%Q).
  { rewrite Eu2, Vx. apply dy_lt. lia. }
  assert (Yl : (B2Q v1 < B2Q yc)%Q).
  { rewrite Ev1, Vy. apply dy_lt. lia. }
  assert (Yh : (B2Q yc < B2Q v2)%Q).
  { rewrite Ev2, Vy. apply dy_lt. lia. }
  destruct (sonnet_wrap_range xc Fx ltac:(lra) ltac:(lra))
    as (r & Ew & Fr & _ & _ & Rid).
  assert (Er : (B2Q r == B2Q xc)%Q).
  { apply Rid; [ lra | lra | ].
    apply (format_proper (B2Q ((u1 + u2) / 2) + 180)); [ | exact Fs ].
    rewrite Mu, Vx. apply Qplus_inj_r. apply dy_eq. lia. }
  destruct (sonnet_clamp_range yc Fy) as (Fc & _ & _ & Cid & _).
  assert (Q1 : (-90 <= B2Q v1)%Q) by (rewrite Ev1; exact P1).
  assert (Q2 : (B2Q v2 <= 90)%Q) by (rewrite Ev2; exact P2).
  specialize (Cid ltac:(lra) ltac:(lra)).
  rewrite Ew. cbn [bind].
  apply (R r (_clamp_latitude yc) Eg Vg Hne Fr Fc); lra.
Qed.

(** X24: for a valid geohash of 1 to 18 symbols away from the first
    and last column and row, [sonnet_geo.neighbors], which encodes
    points one cell away from the centre, and [geohash.neighbors], which
    adds and subtracts one on the column and row numbers, return the
    same nine geohashes (the first row by row, the second column by
    column), the fifth being the geohash itself. *)
Theorem neighbors_agree_interior (h : string) (x y : Z) :
  valid_geohash h = true -> (1 <= String.length h <= 18)%nat ->
  legacy_column h = Ok x -> legacy_row h = Ok y ->
  0 < x -> x + 1 < 2 ^ Z.of_nat (List.length (evens (geohash.get_geobits h))) ->
  0 < y -> y + 1 < 2 ^ Z.of_nat (List.length (odds (geohash.get_geobits h))) ->
  exists nw n ne w e sw s se,
    neighbors h = Ok [nw; n; ne; w; h; e; sw; s; se] /\
    geohash.neighbors h = Ok [nw; w; sw; n; h; s; ne; e; se].
Proof.
  intros Hv Hl Cx Cy X1 X2 Y1 Y2.
  assert (Hne : h <> ""%string) by (destruct h; [ cbn in Hl; lia | discriminate ]).
  destruct (geohash_to_bits_ok h Hv) as (bs & Eh & _).
  destruct (legacy_cell_numbers h bs Hv Hne Eh) as [Nx Ny].
  rewrite Cx in Nx. rewrite Cy in Ny. injection Nx as Nx. injection Ny as Ny.
  destruct (get_geobits_valid h Hv) as [G1 G2].
  pose proof (evens_odds_length (geohash.get_geobits h)) as [L1 L2].
  set (a := List.length (evens (geohash.get_geobits h))) in *.
  set (b := List.length (odds (geohash.get_geobits h))) in *.
  destruct (sonnet_neighbors_rows h Hv Hne)
    as (cell & nw & n & ne & w & c & e & sw & s & se & Ed & En
        & A1 & A2 & A3 & A4 & A5 & A6 & A7 & A8 & A9 & _).
  assert (N : forall di dj, In di [1; 0; -1] -> In dj [1; 0; -1] ->
            exists g, legacy_neighbor a b (String.length h) (x + di) (y + dj) = Ok g /\
                      sonnet_neighbor cell (Z.of_nat (String.length h)) di dj = Ok g).
  { intros di dj Hi Hj.
    destruct (legacy_neighbor_cell a b (String.length h) (x + di) (y + dj))
      as (g & Eg & Lg & Vg & Cg & Rg); try lia.
    { destruct Hi as [ <- | [ <- | [ <- | [] ] ] ]; lia. }
    { destruct Hj as [ <- | [ <- | [ <- | [] ] ] ]; lia. }
    exists g. split; [ exact Eg | ].
    assert (Ng : g <> ""%string) by (destruct g; [ cbn in Lg; lia | discriminate ]).
    destruct (geohash_to_bits_ok g Vg) as (bg & Ebg & _).
    destruct (legacy_cell_numbers g bg Vg Ng Ebg) as [Mx My].
    rewrite Cg in Mx. rewrite Rg in My. injection Mx as Mx. injection My as My.
    apply (sonnet_neighbor_adjacent h bs g bg); try assumption; lia. }
  destruct (N (-1) 1) as (g1 & E1 & K1); [ cbn; tauto | cbn; tauto | ].
  destruct (N 0 1) as (g2 & E2 & K2); [ cbn; tauto | cbn; tauto | ].
  destruct (N 1 1) as (g3 & E3 & K3); [ cbn; tauto | cbn; tauto | ].
  destruct (N (-1) 0) as (g4 & E4 & K4); [ cbn; tauto | cbn; tauto | ].
  destruct (N 0 0) as (g5 & E5 & K5); [ cbn; tauto | cbn; tauto | ].
  destruct (N 1 0) as (g6 & E6 & K6); [ cbn; tauto | cbn; tauto | ].
  destruct (N (-1) (-1)) as (g7 & E7 & K7); [ cbn; tauto | cbn; tauto | ].
  destruct (N 0 (-1)) as (g8 & E8 & K8); [ cbn; tauto | cbn; tauto | ].
  destruct (N 1 (-1)) as (g9 & E9 & K9); [ cbn; tauto | cbn; tauto | ].
  rewrite A1 in K1. rewrite A2 in K2. rewrite A3 in K3. rewrite A4 in K4.
  rewrite A5 in K5. rewrite A6 in K6. rewrite A7 in K7. rewrite A8 in K8.
  rewrite A9 in K9.
  injection K1 as <-. injection K2 as <-. injection K3 as <-. injection K4 as <-.
  injection K5 as <-. injection K6 as <-. injection K7 as <-. injection K8 as <-.
  injection K9 as <-.
  assert (c = h) as ->.
  { destruct (legacy_neighbor_cell a b (String.length h) (x + 0) (y + 0))
      as (g & Eg & Lg & Vg & Cg & Rg); try lia.
    rewrite E5 in Eg. injection Eg as <-.
    rewrite Z.add_0_r in Cg, Rg. now apply (legacy_cell_inj c h x y). }
  exists nw, n, ne, w, e, sw, s, se. split; [ exact En | ].
  rewrite legacy_neighbors_unfold. cbv zeta. fold a b.
  unfold legacy_column in Cx. unfold legacy_row in Cy. rewrite Cx, Cy.
  cbn [bind mapM].
  replace (x + -1) with (x - 1) in * by lia. replace (y + -1) with (y - 1) in * by lia.
  replace (x + 0) with x in * by lia. replace (y + 0) with y in * by lia.
  rewrite E1, E2, E3, E4, E5, E6, E7, E8, E9. reflexivity.
Qed.

Lemma neighbors_agree_interior_witness :
  exists nw n ne w e sw s se,
    neighbors "9q" = Ok [nw; n; ne; w; "9q"%string; e; sw; s; se] /\
    geohash.neighbors "9q" = Ok [nw; w; sw; n; "9q"%string; s; ne; e; se].
Proof.
  apply (neighbors_agree_interior "9q"%string 5 22);
    [ reflexivity | cbn; lia | reflexivity | reflexivity
    | lia | vm_compute; reflexivity | lia | vm_compute; reflexivity ].
Defined.

End Adjacent.

(** * The neighbours at the edges of the map *)

Section Edges.
Import Bin64 Rounding sonnet_geo.

(** ** Wrapping by one turn *)

Lemma fmod_360_facts v :
  finite v = true ->
  let r := PyFloat.fmod v 360 in
  finite r = true /\
  (exists n : Z, B2Q r == B2Q v - inject_Z n * 360)%Q /\
  (-360 < B2Q r)%Q /\ (B2Q r < 360)%Q /\
  ((0 <= B2Q v)%Q -> (0 <= B2Q r)%Q) /\
  ((B2Q v <= 0)%Q -> (B2Q r <= 0)%Q) /\
  ((-360 < B2Q v)%Q -> (B2Q v < 360)%Q -> (B2Q r == B2Q v)%Q).
Proof.
  intros Fv r.
  assert (Hv : valid_binary (S754_finite false 6333186975989760 (-44)) = true) by reflexivity.
  pose proof (SFfmod_finite (Prim2SF v) _ _ (Prim2SF_valid v) Hv Fv) as H.
  cbv zeta in H. rewrite <- SF_360, <- fmod_spec in H. fold r in H.
  change (SF2Q (Prim2SF r)) with (B2Q r) in H.
  change (SFfinite (Prim2SF r)) with (finite r) in H.
  change (SF2Q (Prim2SF v)) with (B2Q v) in H.
  change (SF2Q (Prim2SF 360)) with (B2Q 360) in H.
  destruct H as (Fr & (n & Hn) & R1 & R2 & R3 & R4 & R5).
  rewrite B2Q_360 in *.
  split; [ exact Fr | ]. split; [ exists n; exact Hn | ].
  repeat split; assumption.
Qed.

Lemma mod_360_high v :
  finite v = true -> (360 <= B2Q v)%Q -> (B2Q v < 720)%Q ->
  exists m, PyFloat.mod_ v 360 = Ok m /\ finite m = true /\ (B2Q m == B2Q v - 360)%Q.
Proof.
  intros Fv V1 V2. unfold PyFloat.mod_.
  change (360 =? 0)%float with false. change (360 <? 0)%float with false.
  cbn match. cbn [xorb].
  destruct (fmod_360_facts v Fv) as (Fr & (n & Hn) & R1 & R2 & R3 & _).
  set (r := PyFloat.fmod v 360) in *.
  specialize (R3 ltac:(lra)).
  assert (En : n = 1).
  { destruct (Z_lt_le_dec n 1) as [ L | L ].
    - assert (H0 : (inject_Z n <= inject_Z 0)%Q) by (rewrite <- Zle_Qle; lia).
      change (inject_Z 0) with 0%Q in H0.
      exfalso. nra.
    - destruct (Z_lt_le_dec 1 n) as [ U | U ]; [ | lia ].
      assert (H2 : (inject_Z 2 <= inject_Z n)%Q) by (rewrite <- Zle_Qle; lia).
      change (inject_Z 2) with 2%Q in H2.
      exfalso. nra. }
  subst n. change (inject_Z 1) with 1%Q in Hn.
  assert (F0 : finite 0 = true) by reflexivity.
  assert (V0 : (B2Q 0 == 0)%Q) by reflexivity.
  pose proof (eqb_iff r 0 Fr F0) as He. pose proof (ltb_iff r 0 Fr F0) as Hl.
  rewrite V0 in He, Hl.
  destruct (r =? 0)%float; cbn [negb].
  - exists 0%float. split; [ reflexivity | ]. split; [ reflexivity | ].
    assert (B2Q r == 0)%Q by now apply He. rewrite V0. lra.
  - destruct (r <? 0)%float.
    + assert (B2Q r < 0)%Q by now apply Hl. lra.
    + exists r. split; [ reflexivity | ]. split; [ exact Fr | ]. lra.
Qed.

Lemma mod_360_low v :
  finite v = true -> (-360 < B2Q v)%Q -> (B2Q v < 0)%Q -> format (B2Q v + 360) ->
  exists m, PyFloat.mod_ v 360 = Ok m /\ finite m = true /\ (B2Q m == B2Q v + 360)%Q.
Proof.
  intros Fv V1 V2 Ff. unfold PyFloat.mod_.
  change (360 =? 0)%float with false. change (360 <? 0)%float with false.
  cbn match. cbn [xorb].
  destruct (fmod_360_facts v Fv) as (Fr & _ & _ & _ & _ & _ & R5).
  set (r := PyFloat.fmod v 360) in *.
  specialize (R5 V1 ltac:(lra)).
  assert (F0 : finite 0 = true) by reflexivity.
  assert (V0 : (B2Q 0 == 0)%Q) by reflexivity.
  pose proof (eqb_iff r 0 Fr F0) as He. pose proof (ltb_iff r 0 Fr F0) as Hl.
  rewrite V0 in He, Hl.
  destruct (r =? 0)%float; cbn [negb].
  - assert (B2Q r == 0)%Q by now apply He. lra.
  - destruct (r <? 0)%float eqn:L.
    + destruct (add_exact r 360 Fr eq_refl) as [Fs Vs].
      * apply (format_proper (B2Q v + 360)); [ rewrite B2Q_360, R5; ring | exact Ff ].
      * apply in_range_small; rewrite B2Q_360; lra.
      * eexists. split; [ reflexivity | ]. split; [ exact Fs | ].
        rewrite Vs, B2Q_360, R5. ring.
    + assert (K : (B2Q r < 0)%Q) by lra. apply Hl in K. discriminate K.
Qed.

(** [_wrap_longitude] on the centre of the column east of the last one
    and west of the first one: the centre of the first and of the last
    column. *)
Lemma sonnet_wrap_turn v k (m : Z) :
  0 <= k <= 45 -> finite v = true ->
  (B2Q v == dy (45 * m) (2 - k))%Q ->
  (m = 2 ^ k + 1 \/ m = - 2 ^ k - 1) ->
  exists r, _wrap_longitude v = Ok r /\ finite r = true /\
    (B2Q r == dy (45 * (if 0 <? m then m - 2 * 2 ^ k else m + 2 * 2 ^ k)) (2 - k))%Q.
Proof.
  intros Hk Fv Ev Hm.
  assert (P : 1 <= 2 ^ k) by (apply (Z.pow_le_mono_r 2 0 k); lia).
  assert (P45 : 2 ^ k <= 2 ^ 45) by (apply Z.pow_le_mono_r; lia).
  assert (P53 : 2 ^ 53 = 256 * 2 ^ 45) by reflexivity.
  assert (E180 : (180 == dy (45 * 2 ^ k) (2 - k))%Q).
  { rewrite dy_shift by lia. replace (2 - k + k) with 2 by lia. reflexivity. }
  assert (E360 : (360 == dy (45 * (2 * 2 ^ k)) (2 - k))%Q).
  { replace (45 * (2 * 2 ^ k)) with (90 * 2 ^ k) by lia.
    rewrite dy_shift by lia. replace (2 - k + k) with 2 by lia. reflexivity. }
  assert (D0 : (0 < dy 45 (2 - k))%Q) by (apply dy_pos; lia).
  assert (D1 : (dy 45 (2 - k) <= 180)%Q).
  { rewrite E180. apply dy_le. lia. }
  unfold _wrap_longitude, LON_RANGE, LON_SPAN. cbn [fst snd].
  destruct Hm as [ -> | -> ].
  - destruct (Z.ltb_spec 0 (2 ^ k + 1)) as [ _ | ]; [ | lia ].
    assert (Vv : (B2Q v == 180 + dy 45 (2 - k))%Q).
    { rewrite Ev, E180, <- dy_add. apply dy_eq. lia. }
    destruct (sub_exact v (-180) Fv eq_refl) as [Ft Vt].
    { apply (format_proper (dy (45 * (2 * 2 ^ k + 1)) (2 - k))).
      - rewrite B2Q_m180, Ev.
        setoid_replace (dy (45 * (2 ^ k + 1)) (2 - k) - -180)%Q
          with (dy (45 * (2 ^ k + 1)) (2 - k) + 180)%Q by ring.
        rewrite E180, <- dy_add. apply dy_eq. lia.
      - apply format_dy; lia. }
    { apply in_range_small; rewrite B2Q_m180; lra. }
    rewrite B2Q_m180 in Vt.
    destruct (mod_360_high _ Ft ltac:(lra) ltac:(lra)) as (q & Eq & Fq & Vq).
    rewrite Eq. cbn [bind].
    destruct (add_exact q (-180) Fq eq_refl) as [Fw Vw].
    { apply (format_proper (dy (45 * (1 - 2 ^ k)) (2 - k))).
      - rewrite B2Q_m180, Vq, Vt, Vv.
        setoid_replace (180 + dy 45 (2 - k) - -180 - 360 + -180)%Q
          with (dy 45 (2 - k) - 180)%Q by ring.
        rewrite E180. replace (45 * (1 - 2 ^ k)) with (45 + - (45 * 2 ^ k)) by lia.
        rewrite dy_add, dy_opp. ring.
      - apply format_dy; lia. }
    { apply in_range_small; rewrite B2Q_m180; lra. }
    rewrite B2Q_m180 in Vw.
    assert (Vr : (B2Q (q + -180) == dy 45 (2 - k) - 180)%Q) by (rewrite Vw; lra).
    destruct (wrap_special _ Fw ltac:(lra) ltac:(lra)) as (Fr & _ & _ & Rid).
    rewrite (Rid ltac:(lra)). eexists. split; [ reflexivity | ].
    split; [ exact Fw | ]. rewrite Vr, E180.
    replace (45 * (2 ^ k + 1 - 2 * 2 ^ k)) with (45 + - (45 * 2 ^ k)) by lia.
    rewrite dy_add, dy_opp. ring.
  - destruct (Z.ltb_spec 0 (- 2 ^ k - 1)) as [ | _ ]; [ lia | ].
    assert (Vv : (B2Q v == - 180 - dy 45 (2 - k))%Q).
    { rewrite Ev. replace (45 * (- 2 ^ k - 1)) with (- (45 * 2 ^ k + 45)) by lia.
      rewrite dy_opp, dy_add, <- E180. ring. }
    destruct (sub_exact v (-180) Fv eq_refl) as [Ft Vt].
    { apply (format_proper (dy (-45) (2 - k))).
      - rewrite B2Q_m180, Vv. rewrite (dy_opp 45). ring.
      - apply format_dy; lia. }
    { apply in_range_small; rewrite B2Q_m180; lra. }
    rewrite B2Q_m180 in Vt.
    destruct (mod_360_low _ Ft ltac:(lra) ltac:(lra)) as (q & Eq & Fq & Vq).
    { apply (format_proper (dy (45 * (2 * 2 ^ k - 1)) (2 - k))).
      - rewrite Vt, Vv, E360.
        replace (45 * (2 * 2 ^ k - 1)) with (45 * (2 * 2 ^ k) + - 45) by lia.
        rewrite dy_add, (dy_opp 45). ring.
      - apply format_dy; lia. }
    rewrite Eq. cbn [bind].
    destruct (add_exact q (-180) Fq eq_refl) as [Fw Vw].
    { apply (format_proper (dy (45 * (2 ^ k - 1)) (2 - k))).
      - rewrite B2Q_m180, Vq, Vt, Vv.
        setoid_replace (- 180 - dy 45 (2 - k) - -180 + 360 + -180)%Q
          with (180 - dy 45 (2 - k))%Q by ring.
        rewrite E180. replace (45 * (2 ^ k - 1)) with (45 * 2 ^ k + - 45) by lia.
        rewrite dy_add, (dy_opp 45). ring.
      - apply format_dy; lia. }
    { apply in_range_small; rewrite B2Q_m180; lra. }
    rewrite B2Q_m180 in Vw.
    assert (Vr : (B2Q (q + -180) == 180 - dy 45 (2 - k))%Q) by (rewrite Vw; lra).
    destruct (wrap_special _ Fw ltac:(lra) ltac:(lra)) as (Fr & _ & _ & Rid).
    rewrite (Rid ltac:(lra)). eexists. split; [ reflexivity | ].
    split; [ exact Fw | ]. rewrite Vr, E180.
    replace (45 * (- 2 ^ k - 1 + 2 * 2 ^ k)) with (45 * 2 ^ k + - 45) by lia.
    rewrite dy_add, (dy_opp 45). ring.
Qed.

(** ** A latitude at the top of the map *)

(** [encode_loop_reproduce] with the latitude at or above the top of its
    interval: the latitude bits are all 1. *)
Lemma encode_loop_top lon lat : forall new st,
  Forall bit new -> finite lon = true -> finite lat = true ->
  bounded_interval (lon_interval st) -> bounded_interval (lat_interval st) ->
  let I := _refine_interval (if use_lon st then evens new else odds new)
                            (lon_interval st) in
  (B2Q (fst I) <= B2Q lon)%Q -> (B2Q lon < B2Q (snd I))%Q ->
  Forall (fun b => b = 1) (if use_lon st then odds new else evens new) ->
  (B2Q (snd (lat_interval st)) <= B2Q lat)%Q ->
  bits (encode_loop (List.length new) lon lat st) = bits st ++ new.
Proof.
  induction new as [ | b new IH ]; intros st Hb Fn Ft Bn Bt I I1 I2 A T.
  - cbn [List.length encode_loop]. now rewrite app_nil_r.
  - cbn [List.length encode_loop].
    inversion Hb as [ | ? ? Hb1 Hb2 ]; subst.
    destruct (encode_step_spec lon lat st) as (b' & _ & E & T1 & T0).
    assert (Eb : b' = b).
    { destruct (use_lon st) eqn:U; cbn [evens odds] in I, A; cbv zeta in T1, T0.
      - subst I. rewrite refine_cons in I1, I2.
        pose proof (refine_nested (odds new) _ (refine_bit_bounded _ b Bn))
          as (_ & _ & N1 & _ & N3).
        destruct (lon_interval st) as [lo hi]. cbn [fst snd] in *.
        destruct (mid_bounds lo hi Bn) as (Fm & _).
        pose proof (leb_iff ((lo + hi) / 2) lon Fm Fn) as Hle.
        destruct Hb1 as [ -> | -> ];
          [ change (refine_bit (lo, hi) 0) with (lo, ((lo + hi) / 2)%float) in *
          | change (refine_bit (lo, hi) 1) with (((lo + hi) / 2)%float, hi) in * ];
          cbn [fst snd] in N1, N3.
        + apply T0. destruct ((lo + hi) / 2 <=? lon)%float; [ | reflexivity ].
          assert (B2Q ((lo + hi) / 2) <= B2Q lon)%Q by now apply Hle. lra.
        + apply T1. apply Hle. lra.
      - inversion A as [ | ? ? A1 A2 ]; subst.
        destruct (lat_interval st) as [lo hi]. cbn [fst snd] in *.
        destruct (mid_bounds lo hi Bt) as (Fm & _ & M2).
        apply T1. apply leb_iff; try assumption. lra. }
    subst b'. rewrite IH; try assumption.
    + rewrite E. cbn [bits]. now rewrite <- app_assoc.
    + rewrite E. cbn [lon_interval]. destruct (use_lon st); [ | exact Bn ].
      apply refine_bit_bounded, Bn.
    + rewrite E. cbn [lat_interval]. destruct (use_lon st); [ exact Bt | ].
      apply refine_bit_bounded, Bt.
    + rewrite E. cbn [lon_interval use_lon]. subst I.
      destruct (use_lon st); cbn [negb evens odds] in *; exact I1.
    + rewrite E. cbn [lon_interval use_lon]. subst I.
      destruct (use_lon st); cbn [negb evens odds] in *; exact I2.
    + rewrite E. cbn [use_lon].
      destruct (use_lon st); cbn [negb evens odds] in *; [ exact A | ].
      now inversion A.
    + rewrite E. cbn [lat_interval use_lon].
      destruct (use_lon st); [ exact T | ].
      inversion A as [ | ? ? A1 A2 ]; subst.
      destruct (lat_interval st) as [lo hi]. exact T.
Qed.

Lemma encode_reproduces_top h bs lon lat :
  _geohash_to_bits h = Ok bs -> valid_geohash h = true -> h <> ""%string ->
  finite lon = true -> finite lat = true ->
  let I := _refine_interval (evens bs) LON_RANGE in
  (B2Q (fst I) <= B2Q lon)%Q -> (B2Q lon < B2Q (snd I))%Q ->
  Forall (fun b => b = 1) (odds bs) -> (B2Q lat == 90)%Q ->
  encode lon lat (Z.of_nat (String.length h)) = Ok h.
Proof.
  intros Eb Hv Hne Fn Ft I I1 I2 A T.
  destruct (geohash_to_bits_ok h Hv) as (bs' & Eb' & Hb & Hl & Ep).
  rewrite Eb in Eb'. injection Eb' as <-.
  pose proof (refine_nested (evens bs) _ lon_range_bounded) as (_ & _ & N1 & _ & N3).
  fold I in N1, N3. unfold LON_RANGE in N1, N3. cbn [fst snd] in N1, N3.
  rewrite B2Q_m180 in N1. rewrite B2Q_180 in N3.
  destruct (in_range_test lon Fn) as [[R1 R2] _]; [ lra | lra | ].
  destruct (in_range_test lat Ft) as [_ [R3 R4]]; [ lra | lra | ].
  rewrite (sonnet_encode_unfold lon lat _ R3 R4 R1 R2 (nonempty_length h Hne)).
  replace (Z.to_nat (Z.of_nat (String.length h) * 5)) with (List.length bs) by lia.
  rewrite (encode_loop_top lon lat bs encode_start Hb Fn Ft
             lon_range_bounded lat_range_bounded I1 I2 A).
  - exact Ep.
  - cbn. rewrite B2Q_90. lra.
Qed.

Lemma bits_fold_range l : forall acc,
  Forall bit l -> 0 <= acc ->
  acc * 2 ^ Z.of_nat (List.length l)
  <= fold_left (fun n b => 2 * n + b) l acc
  < (acc + 1) * 2 ^ Z.of_nat (List.length l).
Proof.
  induction l as [ | b l IH ]; intros acc H Ha; cbn [fold_left List.length].
  - cbn. lia.
  - inversion H as [ | ? ? Hb Hl ]; subst.
    rewrite Nat2Z.inj_succ, Z.pow_succ_r by lia.
    specialize (IH (2 * acc + b) Hl ltac:(destruct Hb; lia)).
    assert (0 < 2 ^ Z.of_nat (List.length l)) by (apply Z.pow_pos_nonneg; lia).
    destruct Hb; subst; nia.
Qed.

Lemma bits_all_ones l : forall acc,
  Forall bit l -> 0 <= acc ->
  fold_left (fun n b => 2 * n + b) l acc = (acc + 1) * 2 ^ Z.of_nat (List.length l) - 1 ->
  Forall (fun b => b = 1) l.
Proof.
  induction l as [ | b l IH ]; intros acc H Ha E; [ constructor | ].
  inversion H as [ | ? ? Hb Hl ]; subst. cbn [fold_left List.length] in E.
  rewrite Nat2Z.inj_succ, Z.pow_succ_r in E by lia.
  pose proof (bits_fold_range l (2 * acc + b) Hl ltac:(destruct Hb; lia)) as R.
  assert (0 < 2 ^ Z.of_nat (List.length l)) by (apply Z.pow_pos_nonneg; lia).
  assert (b = 1) by (destruct Hb; subst; [ nia | reflexivity ]). subst b.
  constructor; [ reflexivity | ]. apply (IH (2 * acc + 1)); try assumption; lia.
Qed.

(** ** The candidates, axis by axis *)

Lemma lon_candidate_cell k x d i1 i2 u1 u2 :
  1 <= k <= 45 -> 0 <= x < 2 ^ k -> In d [1; 0; -1] ->
  grid_at 2 k (2 * x - 2 ^ k) (i1, i2) ->
  grid_at 2 k (2 * ((x + d) mod 2 ^ k) - 2 ^ k) (u1, u2) ->
  exists r,
    _wrap_longitude ((i1 + i2) / 2 + PyFloat.of_int d * ((i2 - i1) / 2 * 2))%float = Ok r /\
    finite r = true /\ (B2Q u1 <= B2Q r)%Q /\ (B2Q r < B2Q u2)%Q.
Proof.
  intros Hk Hx Hd Gi Gu.
  destruct (candidate_exact 2 k _ i1 i2 d ltac:(lia) ltac:(lia) Gi Hd) as [Fx Vx].
  set (xc := ((i1 + i2) / 2 + PyFloat.of_int d * ((i2 - i1) / 2 * 2))%float) in *.
  assert (P : 2 <= 2 ^ k) by (apply (Z.pow_le_mono_r 2 1 k); lia).
  assert (Hc : 0 <= x + d < 2 ^ k \/ x + d = 2 ^ k \/ x + d = -1)
    by (destruct Hd as [ <- | [ <- | [ <- | [] ] ] ]; lia).
  destruct Hc as [ Hc | [ Hc | Hc ] ].
  - rewrite (Z.mod_small _ _ Hc) in Gu.
    pose proof (grid_at_grid _ _ _ _ Gu) as Gu'.
    pose proof (grid_centre_shift k u1 u2 ltac:(lia) Gu') as Fs.
    destruct (grid_bounds 2 k (u1, u2) ltac:(lia) ltac:(lia) Gu') as (U1 & U2 & U3).
    destruct Gu as (Fu1 & Fu2 & A1 & A2 & Eu1 & Eu2). cbn [fst snd] in *.
    destruct (grid_mid 2 k u1 u2 _ ltac:(lia) ltac:(lia) Fu1 Fu2 A1 A2 Eu1 Eu2) as [_ Mu].
    assert (Xl : (B2Q u1 < B2Q xc)%Q) by (rewrite Eu1, Vx; apply dy_lt; lia).
    assert (Xh : (B2Q xc < B2Q u2)%Q) by (rewrite Eu2, Vx; apply dy_lt; lia).
    destruct (sonnet_wrap_range xc Fx ltac:(lra) ltac:(lra))
      as (r & Ew & Fr & _ & _ & Rid).
    assert (Er : (B2Q r == B2Q xc)%Q).
    { apply Rid; [ lra | lra | ].
      apply (format_proper (B2Q ((u1 + u2) / 2) + 180)); [ | exact Fs ].
      rewrite Mu, Vx. apply Qplus_inj_r. apply dy_eq. lia. }
    exists r. split; [ exact Ew | ]. split; [ exact Fr | ]. split; lra.
  - rewrite Hc, Z_mod_same_full in Gu.
    destruct (sonnet_wrap_turn xc k (2 ^ k + 1) ltac:(lia) Fx) as (r & Ew & Fr & Vr).
    { rewrite Vx. apply dy_eq. lia. }
    { now left. }
    destruct (Z.ltb_spec 0 (2 ^ k + 1)) as [ _ | ]; [ | lia ].
    destruct Gu as (Fu1 & Fu2 & A1 & A2 & Eu1 & Eu2). cbn [fst snd] in *.
    exists r. split; [ exact Ew | ]. split; [ exact Fr | ]. split.
    + apply Qlt_le_weak. rewrite Eu1, Vr. apply dy_lt. lia.
    + rewrite Eu2, Vr. apply dy_lt. lia.
  - assert (Em : (x + d) mod 2 ^ k = 2 ^ k - 1).
    { rewrite Hc. symmetry. apply (Z.mod_unique (-1) (2 ^ k) (-1)); lia. }
    rewrite Em in Gu.
    destruct (sonnet_wrap_turn xc k (- 2 ^ k - 1) ltac:(lia) Fx) as (r & Ew & Fr & Vr).
    { rewrite Vx. apply dy_eq. lia. }
    { now right. }
    destruct (Z.ltb_spec 0 (- 2 ^ k - 1)) as [ | _ ]; [ lia | ].
    destruct Gu as (Fu1 & Fu2 & A1 & A2 & Eu1 & Eu2). cbn [fst snd] in *.
    exists r. split; [ exact Ew | ]. split; [ exact Fr | ]. split.
    + apply Qlt_le_weak. rewrite Eu1, Vr. apply dy_lt. lia.
    + rewrite Eu2, Vr. apply dy_lt. lia.
Qed.

Lemma lat_candidate_cell k y d j1 j2 v1 v2 :
  1 <= k <= 45 -> 0 <= y < 2 ^ k -> In d [1; 0; -1] ->
  grid_at 1 k (2 * y - 2 ^ k) (j1, j2) ->
  grid_at 1 k (2 * Z.max 0 (Z.min (2 ^ k - 1) (y + d)) - 2 ^ k) (v1, v2) ->
  let c := _clamp_latitude
             ((j1 + j2) / 2 + PyFloat.of_int d * ((j2 - j1) / 2 * 2))%float in
  finite c = true /\
  (((B2Q v1 <= B2Q c)%Q /\ (B2Q c < B2Q v2)%Q) \/
   (y + d = 2 ^ k /\ (B2Q c == 90)%Q)).
Proof.
  intros Hk Hy Hd Gj Gv.
  destruct (candidate_exact 1 k _ j1 j2 d ltac:(lia) ltac:(lia) Gj Hd) as [Fy Vy].
  set (yc := ((j1 + j2) / 2 + PyFloat.of_int d * ((j2 - j1) / 2 * 2))%float) in *.
  assert (P : 2 <= 2 ^ k) by (apply (Z.pow_le_mono_r 2 1 k); lia).
  assert (E90 : (90 == Bin64.dy (45 * 2 ^ k) (1 - k))%Q).
  { rewrite dy_shift by lia. replace (1 - k + k) with 1 by lia. reflexivity. }
  destruct (sonnet_clamp_range yc Fy) as (Fc & _ & _ & Cid & Chi & Clo).
  cbv zeta. split; [ exact Fc | ].
  assert (Hc : 0 <= y + d < 2 ^ k \/ y + d = 2 ^ k \/ y + d = -1)
    by (destruct Hd as [ <- | [ <- | [ <- | [] ] ] ]; lia).
  destruct Hc as [ Hc | [ Hc | Hc ] ].
  - left. replace (Z.max 0 (Z.min (2 ^ k - 1) (y + d))) with (y + d) in Gv by lia.
    destruct Gv as (Fv1 & Fv2 & B1 & B2 & Ev1 & Ev2). cbn [fst snd] in *.
    destruct (dy_45_tight 1 (2 * (y + d) - 2 ^ k) k ltac:(lia) ltac:(lia)) as [P1 _].
    destruct (dy_45_tight 1 (2 * (y + d) - 2 ^ k + 2) k ltac:(lia) ltac:(lia)) as [_ P2].
    assert (E1 : (Bin64.dy 45 1 == 90)%Q) by reflexivity. rewrite E1 in P1, P2.
    assert (Yl : (B2Q v1 < B2Q yc)%Q) by (rewrite Ev1, Vy; apply dy_lt; lia).
    assert (Yh : (B2Q yc < B2Q v2)%Q) by (rewrite Ev2, Vy; apply dy_lt; lia).
    rewrite <- Ev1 in P1. rewrite <- Ev2 in P2.
    specialize (Cid ltac:(lra) ltac:(lra)). split; lra.
  - right. split; [ exact Hc | ]. apply Chi. rewrite Vy, E90. apply dy_le. lia.
  - left. replace (Z.max 0 (Z.min (2 ^ k - 1) (y + d))) with 0 in Gv by lia.
    destruct Gv as (Fv1 & Fv2 & B1 & B2 & Ev1 & Ev2). cbn [fst snd] in *.
    assert (Lo : (B2Q yc <= -90)%Q).
    { rewrite Vy. setoid_replace (-90)%Q with (- (90))%Q by reflexivity.
      rewrite E90, <- dy_opp. apply dy_le. lia. }
    rewrite (Clo Lo).
    assert (V1 : (B2Q v1 == -90)%Q).
    { rewrite Ev1. setoid_replace (-90)%Q with (- (90))%Q by reflexivity.
      rewrite E90, <- dy_opp. apply dy_eq. lia. }
    assert (V2 : (B2Q v1 < B2Q v2)%Q) by (rewrite Ev1, Ev2; apply dy_lt; lia).
    split; lra.
Qed.

(** A candidate of [sonnet_geo.neighbors] encodes to the geohash of the
    column next to the cell's, around the map, and of the row next to
    it, stopping at the first and last row. *)
Lemma sonnet_neighbor_general h bs g bg cell dx dy :
  valid_geohash h = true -> (1 <= String.length h <= 18)%nat ->
  _geohash_to_bits h = Ok bs -> decode h = Ok cell ->
  valid_geohash g = true -> String.length g = String.length h ->
  _geohash_to_bits g = Ok bg ->
  In dx [1; 0; -1] -> In dy [1; 0; -1] ->
  bits_number (evens bg)
  = (bits_number (evens bs) + dx) mod 2 ^ Z.of_nat (List.length (evens bs)) ->
  bits_number (odds bg)
  = Z.max 0 (Z.min (2 ^ Z.of_nat (List.length (odds bs)) - 1)
                   (bits_number (odds bs) + dy)) ->
  sonnet_neighbor cell (Z.of_nat (String.length h)) dx dy = Ok g.
Proof.
  intros Vh Lh Eh Ed Vg Lg Eg Hx Hy Nx Ny.
  destruct (geohash_to_bits_ok h Vh) as (b1 & E1 & Bh & Lbh & _).
  rewrite Eh in E1. injection E1 as <-.
  destruct (geohash_to_bits_ok g Vg) as (b2 & E2 & Bg & Lbg & _).
  rewrite Eg in E2. injection E2 as <-.
  destruct (evens_odds_bits bs Bh) as [Beh Boh].
  destruct (evens_odds_bits bg Bg) as [Beg Bog].
  pose proof (evens_odds_length bs) as [S1 S2].
  pose proof (evens_odds_length bg) as [T1 T2].
  assert (Ke : List.length (evens bg) = List.length (evens bs)) by lia.
  assert (Ko : List.length (odds bg) = List.length (odds bs)) by lia.
  pose proof (bits_number_range _ Beh) as Rx.
  pose proof (bits_number_range _ Boh) as Ry.
  set (kx := Z.of_nat (List.length (evens bs))) in *.
  set (ky := Z.of_nat (List.length (odds bs))) in *.
  assert (Kx : 1 <= kx <= 45) by lia. assert (Ky : 1 <= ky <= 45) by lia.
  pose proof (axis_grid_at 2 (evens bs) LON_RANGE ltac:(lia) lon_range_grid_at Beh
                ltac:(lia)) as Gh.
  pose proof (axis_grid_at 1 (odds bs) LAT_RANGE ltac:(lia) lat_range_grid_at Boh
                ltac:(lia)) as Hh.
  pose proof (axis_grid_at 2 (evens bg) LON_RANGE ltac:(lia) lon_range_grid_at Beg
                ltac:(lia)) as Gg.
  pose proof (axis_grid_at 1 (odds bg) LAT_RANGE ltac:(lia) lat_range_grid_at Bog
                ltac:(lia)) as Hg.
  rewrite Ke, Nx in Gg. rewrite Ko, Ny in Hg. fold kx in Gh, Gg. fold ky in Hh, Hg.
  unfold decode in Ed. rewrite (from_geohash_eq h bs Eh) in Ed. injection Ed as <-.
  unfold sonnet_neighbor. cbn [lon lat lon_err lat_err].
  assert (Hne : g <> ""%string) by (destruct g; [ cbn in Lg; lia | discriminate ]).
  pose proof (encode_reproduces g bg) as R. cbv zeta in R.
  pose proof (encode_reproduces_top g bg) as Rt. cbv zeta in Rt.
  rewrite Lg in R, Rt.
  assert (Top : bits_number (odds bs) + dy = 2 ^ ky -> Forall (fun b => b = 1) (odds bg)).
  { intros K. apply (bits_all_ones (odds bg) 0 Bog ltac:(lia)).
    fold (bits_number (odds bg)). rewrite Ny, Ko. fold ky. lia. }
  destruct (_refine_interval (evens bs) LON_RANGE) as [i1 i2].
  destruct (_refine_interval (odds bs) LAT_RANGE) as [j1 j2].
  destruct (_refine_interval (evens bg) LON_RANGE) as [u1 u2].
  destruct (_refine_interval (odds bg) LAT_RANGE) as [v1 v2].
  cbn [fst snd] in *.
  destruct (lon_candidate_cell kx _ dx i1 i2 u1 u2 Kx Rx Hx Gh Gg)
    as (r & Ew & Fr & U1 & U2).
  destruct (lat_candidate_cell ky _ dy j1 j2 v1 v2 Ky Ry Hy Hh Hg) as [Fc Hc].
  rewrite Ew. cbn [bind].
  destruct Hc as [ [V1 V2] | [K V] ].
  - apply (R r _ Eg Vg Hne Fr Fc); assumption.
  - apply (Rt r _ Eg Vg Hne Fr Fc); try assumption. now apply Top.
Qed.

(** X25: for a valid geohash of 1 to 18 symbols in column [x] and row
    [y], [sonnet_geo.neighbors] returns, row by row, the nine valid
    geohashes of the same length whose column is [x - 1], [x], [x + 1]
    taken around the map (modulo the number of columns) and whose row
    is [y + 1], [y], [y - 1] kept between the first and the last row:
    across the date line the neighbour is the cell on the other side
    of the map, and beyond a pole the row of the cell is repeated. *)
Theorem sonnet_neighbors_cells (h : string) (x y : Z) :
  valid_geohash h = true -> (1 <= String.length h <= 18)%nat ->
  legacy_column h = Ok x -> legacy_row h = Ok y ->
  exists nw n ne w c e sw s se,
    neighbors h = Ok [nw; n; ne; w; c; e; sw; s; se] /\
    Forall2
      (fun g d =>
         valid_geohash g = true /\ String.length g = String.length h /\
         legacy_column g
         = Ok ((x + fst d) mod 2 ^ Z.of_nat (List.length (evens (geohash.get_geobits h)))) /\
         legacy_row g
         = Ok (Z.max 0
                 (Z.min (2 ^ Z.of_nat (List.length (odds (geohash.get_geobits h))) - 1)
                        (y + snd d))))
      [nw; n; ne; w; c; e; sw; s; se]
      [(-1, 1); (0, 1); (1, 1); (-1, 0); (0, 0); (1, 0); (-1, -1); (0, -1); (1, -1)].
Proof.
  intros Hv Hl Cx Cy.
  assert (Hne : h <> ""%string) by (destruct h; [ cbn in Hl; lia | discriminate ]).
  destruct (geohash_to_bits_ok h Hv) as (bs & Eh & Hb & Hlb & _).
  destruct (legacy_cell_numbers h bs Hv Hne Eh) as [Nx Ny].
  rewrite Cx in Nx. rewrite Cy in Ny. injection Nx as Nx. injection Ny as Ny.
  rewrite (get_geobits_same h bs Hv Eh).
  destruct (evens_odds_map bit_char bs) as [-> ->]. rewrite !length_map.
  pose proof (evens_odds_length bs) as [L1 L2].
  destruct (evens_odds_bits bs Hb) as [Be Bo].
  pose proof (bits_number_range _ Be) as Rx.
  pose proof (bits_number_range _ Bo) as Ry.
  set (a := List.length (evens bs)) in *. set (b := List.length (odds bs)) in *.
  assert (Pa : 0 < 2 ^ Z.of_nat a) by (apply Z.pow_pos_nonneg; lia).
  destruct (sonnet_neighbors_rows h Hv Hne)
    as (cell & nw & n & ne & w & c & e & sw & s & se & Ed & En
        & A1 & A2 & A3 & A4 & A5 & A6 & A7 & A8 & A9 & _).
  assert (N : forall di dj g, In di [1; 0; -1] -> In dj [1; 0; -1] ->
            sonnet_neighbor cell (Z.of_nat (String.length h)) di dj = Ok g ->
            valid_geohash g = true /\ String.length g = String.length h /\
            legacy_column g = Ok ((x + di) mod 2 ^ Z.of_nat a) /\
            legacy_row g = Ok (Z.max 0 (Z.min (2 ^ Z.of_nat b - 1) (y + dj)))).
  { intros di dj g0 Hi Hj E0.
    destruct (legacy_neighbor_cell a b (String.length h)
                ((x + di) mod 2 ^ Z.of_nat a)
                (Z.max 0 (Z.min (2 ^ Z.of_nat b - 1) (y + dj))))
      as (g & Eg & Lg & Vg & Cg & Rg); try lia.
    { apply Z.mod_pos_bound. exact Pa. }
    assert (Ng : g <> ""%string) by (destruct g; [ cbn in Lg; lia | discriminate ]).
    destruct (geohash_to_bits_ok g Vg) as (bg & Ebg & _).
    destruct (legacy_cell_numbers g bg Vg Ng Ebg) as [Mx My].
    rewrite Cg in Mx. rewrite Rg in My. injection Mx as Mx. injection My as My.
    assert (K : sonnet_neighbor cell (Z.of_nat (String.length h)) di dj = Ok g).
    { apply (sonnet_neighbor_general h bs g bg); try assumption.
      - rewrite <- Mx, <- Nx. reflexivity.
      - rewrite <- My, <- Ny. reflexivity. }
    rewrite E0 in K. injection K as ->. auto. }
  exists nw, n, ne, w, c, e, sw, s, se. split; [ exact En | ].
  repeat (apply Forall2_cons; [ cbn [fst snd]; apply N; (cbn; tauto) || assumption | ]).
  apply Forall2_nil.
Qed.

Lemma sonnet_neighbors_cells_witness :
  exists nw n ne w c e sw s se,
    neighbors "8" = Ok [nw; n; ne; w; c; e; sw; s; se] /\
    Forall2
      (fun g d =>
         valid_geohash g = true /\ String.length g = String.length "8" /\
         legacy_column g
         = Ok ((0 + fst d)
               mod 2 ^ Z.of_nat (List.length (evens (geohash.get_geobits "8")))) /\
         legacy_row g
         = Ok (Z.max 0
                 (Z.min (2 ^ Z.of_nat (List.length (odds (geohash.get_geobits "8"))) - 1)
                        (2 + snd d))))
      [nw; n; ne; w; c; e; sw; s; se]
      [(-1, 1); (0, 1); (1, 1); (-1, 0); (0, 0); (1, 0); (-1, -1); (0, -1); (1, -1)].
Proof.
  apply (sonnet_neighbors_cells "8"%string 0 2);
    [ reflexivity | cbn; lia | reflexivity | reflexivity ].
Defined.

End Edges.

(** * [geohash.neighbors] in the first column *)

Section LegacyEdge.
Import geohash.

(** Five characters with a ['b'] in the middle are no binary numeral. *)
Lemma int2_bad c1 c3 :
  is_bit c1 = true ->
  int2 ["0"; c1; "b"; c3; "1"]%char
  = Raise (ValueError "invalid literal for int() with base 2").
Proof.
  intros H. destruct (is_bit_cases c1 H) as [ -> | -> ]; reflexivity.
Qed.

(** The loop of [neighbors] stops at the first group of five characters
    that [int] refuses. *)
Lemma pack_loop_raise k : forall i n geobits acc e,
  (forall t, (i <= t < i + k)%nat ->
             exists v, int2 (slice geobits (t * 5) (t * 5 + 5)) = Ok v /\ 0 <= v < 32) ->
  int2 (slice geobits ((i + k) * 5) ((i + k) * 5 + 5)) = Raise e ->
  (k < n)%nat ->
  pack_loop i n geobits acc = Raise e.
Proof.
  induction k as [ | k IH ]; intros i n geobits acc e Hg Hb Hn;
    destruct n as [ | n ]; try lia; cbn [pack_loop].
  - rewrite Nat.add_0_r in Hb. now rewrite Hb.
  - destruct (Hg i ltac:(lia)) as (v & Ev & Hv). rewrite Ev. cbn [bind].
    destruct (py_index_ok base32 v) as (c & Ec); [ cbn; lia | ].
    rewrite Ec. cbn [bind]. apply (IH (S i)).
    + intros t Ht. apply Hg. lia.
    + replace (S i + k)%nat with (i + S k)%nat by lia. exact Hb.
    + lia.
Qed.

Lemma zip_join_app a1 : forall b1 a2 b2,
  List.length a1 = List.length b1 ->
  zip_join (a1 ++ a2) (b1 ++ b2) = zip_join a1 b1 ++ zip_join a2 b2.
Proof.
  induction a1 as [ | x a1 IH ]; intros [ | y b1 ] a2 b2 H; try discriminate H.
  - reflexivity.
  - cbn [app zip_join]. rewrite IH by (cbn in H; lia). reflexivity.
Qed.

Lemma forallb_repeat_zero k : forallb is_bit (repeat "0"%char k) = true.
Proof. induction k as [ | k IH ]; [ reflexivity | exact IH ]. Qed.

(** [bin(j)[2:].zfill(w)] for a positive [j]: at least [w] binary
    digits. *)
Lemma bin_zfill_positive p (w : nat) :
  forallb is_bit (zfill (skipn 2 (bin (Z.pos p))) w) = true /\
  (w <= List.length (zfill (skipn 2 (bin (Z.pos p))) w))%nat.
Proof.
  cbn [bin list_ascii_of_string app skipn].
  destruct (pos_digits_bits p [] eq_refl) as [H1 H2]. cbn [List.length] in H2.
  rewrite zfill_bits_eq; [ | intros E; rewrite E in H2; cbn in H2;
                              destruct p; cbn in H2; lia | exact H1 ].
  rewrite forallb_app, forallb_repeat_zero, H1, length_app, repeat_length.
  split; [ reflexivity | lia ].
Qed.

(** The geohash west of the first column: its column number [-1] is
    written ['b1'], and the loop of [neighbors] fails on it. *)
Lemma legacy_neighbor_west (m : nat) j :
  0 < j ->
  legacy_neighbor (5 * m + 3) (5 * m + 2) (2 * m + 1) (-1) j
  = Raise (ValueError "invalid literal for int() with base 2").
Proof.
  intros Hj. unfold legacy_neighbor. cbv zeta.
  destruct j as [ | p | p ]; try lia.
  destruct (bin_zfill_positive p (5 * m + 2)) as [B L].
  set (lat := zfill (skipn 2 (bin (Z.pos p))) (5 * m + 2)) in *.
  assert (EA : zfill (skipn 2 (bin (-1))) (5 * m + 3)
               = repeat "0"%char (5 * m) ++ ["0"; "b"; "1"]%char).
  { cbn [bin list_ascii_of_string app skipn pos_digits]. unfold zfill.
    cbn [List.length Ascii.eqb Bool.eqb orb andb].
    replace (5 * m + 3 - 2)%nat with (5 * m + 1)%nat by lia.
    rewrite repeat_app. cbn [repeat]. rewrite <- app_assoc. reflexivity. }
  rewrite EA. rewrite <- (firstn_skipn (5 * m) lat).
  assert (L1 : List.length (firstn (5 * m) lat) = (5 * m)%nat)
    by (rewrite length_firstn; lia).
  assert (B1 : forallb is_bit (firstn (5 * m) lat) = true) by now apply forallb_firstn.
  assert (B2 : forallb is_bit (skipn (5 * m) lat) = true) by now apply forallb_skipn.
  assert (L2 : (2 <= List.length (skipn (5 * m) lat))%nat)
    by (rewrite length_skipn; lia).
  destruct (skipn (5 * m) lat) as [ | b0 [ | b1 rest ] ]; try (cbn in L2; lia).
  cbn [forallb] in B2. apply andb_true_iff in B2. destruct B2 as [Hb0 _].
  rewrite zip_join_app by (now rewrite repeat_length).
  set (G1 := zip_join (repeat "0"%char (5 * m)) (firstn (5 * m) lat)).
  destruct (zip_join_bits _ _ (forallb_repeat_zero (5 * m)) B1) as [C1 C2].
  fold G1 in C1, C2. rewrite repeat_length, L1 in C2.
  cbn [zip_join].
  set (post := match rest with [] => ["1"%char] | _ => _ end).
  assert (EG : "0"%char :: b0 :: "b"%char :: b1 :: post
               = ["0"; b0; "b"; b1]%char ++ post) by reflexivity.
  assert (Ep : exists post', post = "1"%char :: post').
  { unfold post. destruct rest; eexists; reflexivity. }
  destruct Ep as (post' & ->).
  rewrite (pack_loop_raise (2 * m) 0 (2 * m + 1) _ [] (ValueError "invalid literal for int() with base 2")).
  - reflexivity.
  - intros t Ht. apply int2_five.
    + unfold slice. rewrite length_firstn, length_skipn, length_app, C2.
      cbn [List.length]. lia.
    + unfold slice.
      replace (t * 5 + 5 - t * 5)%nat with 5%nat by lia.
      rewrite skipn_app. replace (t * 5 - List.length G1)%nat with 0%nat by lia.
      rewrite skipn_O, firstn_app, length_skipn.
      replace (5 - (List.length G1 - t * 5))%nat with 0%nat by lia.
      rewrite firstn_O, app_nil_r. apply forallb_firstn, forallb_skipn, C1.
  - unfold slice. cbn [Nat.add].
    replace (2 * m * 5 + 5 - 2 * m * 5)%nat with 5%nat by lia.
    rewrite skipn_app_exact by lia. cbn [firstn]. now apply int2_bad.
  - lia.
Qed.

(** X26: on a valid geohash of odd length in the first column (its
    longitude bits are all 0), [geohash.neighbors] raises [ValueError]:
    the column [-1] is written ['b1'] by [bin(-1)[2:]], and [int]
    refuses the group of five characters that holds the ['b']. *)
Theorem legacy_neighbors_first_column (h : string) (m : nat) :
  valid_geohash h = true -> String.length h = (2 * m + 1)%nat ->
  legacy_column h = Ok 0 ->
  exists msg, neighbors h = Raise (ValueError msg).
Proof.
  intros Hv Hl Cx.
  destruct (get_geobits_valid h Hv) as [G1 G2].
  pose proof (evens_odds_length (get_geobits h)) as [L1 L2].
  destruct (evens_odds_forallb is_bit _ G1) as [Be Bo].
  assert (La : List.length (evens (get_geobits h)) = (5 * m + 3)%nat) by lia.
  assert (Lb : List.length (odds (get_geobits h)) = (5 * m + 2)%nat) by lia.
  assert (Ey : int2 (odds (get_geobits h)) = Ok (bits_value (odds (get_geobits h)))).
  { apply int2_bits; [ | exact Bo ]. intros K. rewrite K in Lb. cbn in Lb. lia. }
  pose proof (bits_value_range (odds (get_geobits h))) as Ry.
  exists "invalid literal for int() with base 2"%string.
  rewrite legacy_neighbors_unfold. cbv zeta.
  unfold legacy_column in Cx. rewrite Cx, Ey, La, Lb, Hl. cbn [bind mapM].
  change (0 - 1) with (-1).
  rewrite legacy_neighbor_west by lia. reflexivity.
Qed.

Lemma legacy_neighbors_first_column_witness :
  exists msg, neighbors "8" = Raise (ValueError msg).
Proof.
  apply (legacy_neighbors_first_column "8"%string 0); reflexivity.
Defined.

End LegacyEdge.

(** * The candidates of [neighbors] are wrapped and clamped *)

Section WrapAndClamp.
Import Bin64 Rounding.

Lemma sub_coarse_wide x y E :
  finite x = true -> finite y = true -> -1074 <= E <= 900 ->
  (dy 1 (E + 53) <= 1000000)%Q ->
  let v := (B2Q x - B2Q y)%Q in
  (- dy 1 (E + 53) <= v)%Q -> (v <= dy 1 (E + 53))%Q ->
  finite (x - y) = true /\
  (v - dy 1 E <= B2Q (x - y))%Q /\ (B2Q (x - y) <= v + dy 1 E)%Q.
Proof.
  intros Fx Fy HE Hs v V1 V2.
  destruct (coarse_bounds v E HE V1 V2) as (a & b & Fa & Fb & A1 & B1 & A2 & B2 & D).
  destruct (sub_bounds x y a b Fx Fy Fa Fb) as (Fs & S1 & S2);
    try (unfold v in *; lra).
  - apply in_range_small; lra.
  - split; [ exact Fs | ]. split; lra.
Qed.

(** [v % 360.0] is [v] less a multiple of 360, up to the rounding of
    the sum that moves a negative remainder up. *)
Lemma mod_360_congruent v :
  finite v = true ->
  exists m (n : Z), PyFloat.mod_ v 360 = Ok m /\ finite m = true /\
    (0 <= B2Q m)%Q /\ (B2Q m <= 360)%Q /\
    (B2Q v - 360 * inject_Z n - dy 1 (-44) <= B2Q m)%Q /\
    (B2Q m <= B2Q v - 360 * inject_Z n + dy 1 (-44))%Q.
Proof.
  intros Fv. destruct (mod_360 v Fv) as (m & Em & Fm & M1 & M2 & _).
  exists m. revert Em. unfold PyFloat.mod_.
  change (360 =? 0)%float with false. change (360 <? 0)%float with false.
  cbn match. cbn [xorb].
  destruct (fmod_360_facts v Fv) as (Fr & (n & Hn) & R1 & R2 & _).
  set (r := PyFloat.fmod v 360) in *.
  assert (U : (0 < dy 1 (-44))%Q) by (apply dy_pos; lia).
  assert (F0 : finite 0 = true) by reflexivity.
  assert (V0 : (B2Q 0 == 0)%Q) by reflexivity.
  pose proof (eqb_iff r 0 Fr F0) as He. pose proof (ltb_iff r 0 Fr F0) as Hl.
  rewrite V0 in He, Hl.
  destruct (r =? 0)%float; cbn [negb].
  - intros Em. injection Em as <-. exists n.
    assert (B2Q r == 0)%Q by now apply He.
    split; [ reflexivity | ]. split; [ reflexivity | ]. rewrite V0.
    repeat split; lra.
  - destruct (r <? 0)%float.
    + intros Em. injection Em as <-. exists (n - 1).
      assert (B2Q r < 0)%Q by now apply Hl.
      destruct unit_45 as (_ & _ & _ & _ & E512 & _).
      destruct (add_coarse r 360 (-44) Fr eq_refl ltac:(lia)) as (Fs & S1 & S2).
      { change (-44 + 53) with 9. lra. }
      { change (-44 + 53) with 9. cbv zeta. rewrite B2Q_360. lra. }
      { change (-44 + 53) with 9. cbv zeta. rewrite B2Q_360. lra. }
      cbv zeta in S1, S2. rewrite B2Q_360 in S1, S2.
      assert (En : (inject_Z (n - 1) == inject_Z n - 1)%Q).
      { unfold Z.sub. rewrite inject_Z_plus. reflexivity. }
      split; [ reflexivity | ]. split; [ exact Fm | ].
      split; [ exact M1 | ]. split; [ exact M2 | ]. rewrite En. split; lra.
    + intros Em. injection Em as <-. exists n.
      split; [ reflexivity | ]. split; [ exact Fm | ].
      split; [ exact M1 | ]. split; [ exact M2 | ]. split; lra.
Qed.

(** [_wrap_longitude] returns a longitude of [[-180, 180)] that is the
    argument less a multiple of 360, up to the rounding of its three
    sums: [2^-41] of a degree at most. *)
Lemma sonnet_wrap_congruent v :
  finite v = true -> (-1000 <= B2Q v)%Q -> (B2Q v <= 1000)%Q ->
  exists r (n : Z),
    sonnet_geo._wrap_longitude v = Ok r /\ finite r = true /\
    (-180 <= B2Q r)%Q /\ (B2Q r < 180)%Q /\
    (Qabs (B2Q r - (B2Q v - 360 * inject_Z n)) <= dy 1 (-41))%Q.
Proof.
  intros Fv V1 V2.
  destruct unit_45 as (U0 & U1 & U2 & _ & _ & E256 & _).
  assert (U3 : (dy 1 (-42) == 8 * dy 1 (-45))%Q) by (vm_compute; reflexivity).
  assert (U4 : (dy 1 (-41) == 16 * dy 1 (-45))%Q) by (vm_compute; reflexivity).
  assert (E2048 : (dy 1 11 == 2048)%Q) by (vm_compute; reflexivity).
  set (U := dy 1 (-45)) in *.
  unfold sonnet_geo._wrap_longitude.
  unfold sonnet_geo.LON_RANGE, sonnet_geo.LON_SPAN. cbn [fst snd].
  destruct (sub_coarse_wide v (-180) (-42) Fv eq_refl ltac:(lia)) as (Ft & T1 & T2).
  { change (-42 + 53) with 11. lra. }
  { change (-42 + 53) with 11. cbv zeta. rewrite B2Q_m180. lra. }
  { change (-42 + 53) with 11. cbv zeta. rewrite B2Q_m180. lra. }
  cbv zeta in T1, T2. rewrite B2Q_m180, U3 in T1, T2.
  destruct (mod_360_congruent _ Ft) as (m & n & Em & Fm & M1 & M2 & C1 & C2).
  rewrite U2 in C1, C2.
  rewrite Em. cbn [bind].
  destruct (add_coarse m (-180) (-45) Fm eq_refl ltac:(lia)) as (Fw & W1 & W2).
  { change (-45 + 53) with 8. lra. }
  { change (-45 + 53) with 8. cbv zeta. rewrite B2Q_m180. lra. }
  { change (-45 + 53) with 8. cbv zeta. rewrite B2Q_m180. lra. }
  cbv zeta in W1, W2. rewrite B2Q_m180 in W1, W2. fold U in W1, W2.
  destruct (add_bounds m (-180) (-180) 180 Fm eq_refl format_m180 format_180)
    as (_ & W3 & W4); try (rewrite B2Q_m180; lra).
  { apply in_range_small; lra. }
  pose proof (eqb_iff (m + -180) 180 Fw eq_refl) as He. rewrite B2Q_180 in He.
  destruct (m + -180 =? 180)%float.
  - assert (E : (B2Q (m + -180) == 180)%Q) by now apply He.
    exists (-180)%float, (n + 1). split; [ reflexivity | ]. split; [ reflexivity | ].
    rewrite B2Q_m180. split; [ lra | ]. split; [ lra | ].
    rewrite inject_Z_plus. change (inject_Z 1) with 1%Q.
    apply Qabs_Qle_condition. rewrite U4. split; lra.
  - assert (E : ~ (B2Q (m + -180) == 180)%Q) by (intros K; apply He in K; discriminate).
    exists (m + -180)%float, n. split; [ reflexivity | ]. split; [ exact Fw | ].
    split; [ lra | ]. split; [ lra | ].
    apply Qabs_Qle_condition. rewrite U4. split; lra.
Qed.

(** On the grid of a geohash of at most 18 symbols the three sums are
    exact: the candidate comes back as it is, or one turn to the west
    or to the east of it. *)
Lemma lon_candidate_turn k x d i1 i2 :
  0 <= k <= 45 -> 0 <= x < 2 ^ k -> In d [1; 0; -1] ->
  grid_at 2 k (2 * x - 2 ^ k) (i1, i2) ->
  let xc := ((i1 + i2) / 2 + PyFloat.of_int d * ((i2 - i1) / 2 * 2))%float in
  exists r (n : Z),
    sonnet_geo._wrap_longitude xc = Ok r /\ finite r = true /\ -1 <= n <= 1 /\
    (B2Q r == B2Q xc - 360 * inject_Z n)%Q.
Proof.
  intros Hk Hx Hd Gi xc.
  destruct (candidate_exact 2 k _ i1 i2 d ltac:(lia) ltac:(lia) Gi Hd) as [Fx Vx].
  fold xc in Fx, Vx.
  assert (P : 1 <= 2 ^ k) by (apply (Z.pow_le_mono_r 2 0 k); lia).
  assert (P45 : 2 ^ k <= 2 ^ 45) by (apply Z.pow_le_mono_r; lia).
  assert (P53 : 2 ^ 53 = 256 * 2 ^ 45) by reflexivity.
  assert (E180 : (180 == dy (45 * 2 ^ k) (2 - k))%Q).
  { rewrite dy_shift by lia. replace (2 - k + k) with 2 by lia. reflexivity. }
  assert (E360 : (360 == dy (45 * (2 * 2 ^ k)) (2 - k))%Q).
  { replace (45 * (2 * 2 ^ k)) with (90 * 2 ^ k) by lia.
    rewrite dy_shift by lia. replace (2 - k + k) with 2 by lia. reflexivity. }
  assert (Hc : 0 <= x + d < 2 ^ k \/ x + d = 2 ^ k \/ x + d = -1)
    by (destruct Hd as [ <- | [ <- | [ <- | [] ] ] ]; lia).
  destruct Hc as [ Hc | [ Hc | Hc ] ].
  - destruct (dy_45_bounds 2 (2 * x - 2 ^ k + 1 + 2 * d) k ltac:(lia) ltac:(lia)
                ltac:(lia)) as [B1 _].
    assert (B2 : (B2Q xc < 180)%Q) by (rewrite Vx, E180; apply dy_lt; lia).
    rewrite <- Vx in B1.
    destruct (sonnet_wrap_range xc Fx ltac:(lra) ltac:(lra))
      as (r & Ew & Fr & _ & _ & Rid).
    exists r, 0. split; [ exact Ew | ]. split; [ exact Fr | ]. split; [ lia | ].
    change (inject_Z 0) with 0%Q.
    rewrite Rid; [ ring | exact B1 | exact B2 | ].
    apply (format_proper (dy (45 * (2 * (x + d) + 1)) (2 - k))).
    + rewrite Vx, E180, <- dy_add. apply dy_eq. lia.
    + apply format_dy; lia.
  - destruct (sonnet_wrap_turn xc k (2 ^ k + 1) ltac:(lia) Fx) as (r & Ew & Fr & Vr).
    { rewrite Vx. apply dy_eq. lia. }
    { now left. }
    destruct (Z.ltb_spec 0 (2 ^ k + 1)) as [ _ | ]; [ | lia ].
    exists r, 1. split; [ exact Ew | ]. split; [ exact Fr | ]. split; [ lia | ].
    change (inject_Z 1) with 1%Q. rewrite Vr, Vx.
    setoid_replace (360 * 1)%Q with (dy (45 * (2 * 2 ^ k)) (2 - k)) by (rewrite <- E360; ring).
    unfold Qminus. rewrite <- dy_opp, <- dy_add. apply dy_eq. lia.
  - destruct (sonnet_wrap_turn xc k (- 2 ^ k - 1) ltac:(lia) Fx) as (r & Ew & Fr & Vr).
    { rewrite Vx. apply dy_eq. lia. }
    { now right. }
    destruct (Z.ltb_spec 0 (- 2 ^ k - 1)) as [ | _ ]; [ lia | ].
    exists r, (-1). split; [ exact Ew | ]. split; [ exact Fr | ]. split; [ lia | ].
    rewrite Vr, Vx.
    setoid_replace (dy (45 * (2 * x - 2 ^ k + 1 + 2 * d)) (2 - k) - 360 * inject_Z (-1))%Q
      with (dy (45 * (2 * x - 2 ^ k + 1 + 2 * d)) (2 - k) + dy (45 * (2 * 2 ^ k)) (2 - k))%Q
      by (rewrite <- E360; change (inject_Z (-1)) with (-1 # 1)%Q; ring).
    rewrite <- dy_add. apply dy_eq. lia.
Qed.

(** The longitude that [sonnet_geo.neighbors] wraps, [dx] columns from
    the cell of [h]. *)
Lemma sonnet_candidate_wrapped h cell d :
  valid_geohash h = true -> sonnet_geo.decode h = Ok cell -> In d [1; 0; -1] ->
  let c := (sonnet_geo.lon cell
            + PyFloat.of_int d * (sonnet_geo.lon_err cell * 2))%float in
  finite c = true /\
  exists lon' (n : Z),
    sonnet_geo._wrap_longitude c = Ok lon' /\ finite lon' = true /\
    (-180 <= B2Q lon')%Q /\ (B2Q lon' < 180)%Q /\
    (Qabs (B2Q lon' - (B2Q c - 360 * inject_Z n)) <= dy 1 (-41))%Q /\
    ((String.length h <= 18)%nat ->
     -1 <= n <= 1 /\ (B2Q lon' == B2Q c - 360 * inject_Z n)%Q).
Proof.
  intros Hv Ed Hd c.
  destruct (sonnet_decode_centred h Hv) as (cell' & Ed' & Cn & _).
  rewrite Ed in Ed'. injection Ed' as <-.
  destruct Cn as (Fc & Fe & C1 & C2 & E1 & E2).
  destruct (candidate_bounds _ _ d Fc ltac:(lra) ltac:(lra) Fe E1 E2 Hd)
    as (Fx & X1 & X2 & _).
  fold c in Fx, X1, X2. split; [ exact Fx | ].
  destruct (le_dec (String.length h) 18) as [ Hl | Hl ].
  - destruct (geohash_to_bits_ok h Hv) as (bs & Eh & Hb & Hlb & _).
    destruct (evens_odds_bits bs Hb) as [Be _].
    pose proof (evens_odds_length bs) as [S1 S2].
    pose proof (bits_number_range _ Be) as Rx.
    pose proof (axis_grid_at 2 (evens bs) sonnet_geo.LON_RANGE ltac:(lia)
                  lon_range_grid_at Be ltac:(lia)) as Gh.
    unfold sonnet_geo.decode in Ed. rewrite (from_geohash_eq h bs Eh) in Ed.
    injection Ed as <-. cbn [sonnet_geo.lon sonnet_geo.lon_err] in *.
    destruct (sonnet_geo._refine_interval (evens bs) sonnet_geo.LON_RANGE) as [i1 i2].
    cbn [fst snd] in *.
    destruct (lon_candidate_turn (Z.of_nat (List.length (evens bs))) (bits_number (evens bs))
                d i1 i2 ltac:(lia) Rx Hd Gh)
      as (r & n & Ew & Fr & Hn & Vr).
    fold c in Ew, Vr.
    destruct (sonnet_wrap_range c Fx X1 X2) as (r' & Ew' & _ & R1 & R2 & _).
    rewrite Ew in Ew'. injection Ew' as <-.
    exists r, n. split; [ exact Ew | ]. split; [ exact Fr | ].
    split; [ exact R1 | ]. split; [ exact R2 | ]. split.
    + assert (U : (0 < dy 1 (-41))%Q) by (apply dy_pos; lia).
      apply Qabs_Qle_condition. split; lra.
    + intros _. split; assumption.
  - destruct (sonnet_wrap_congruent c Fx X1 X2) as (r & n & Ew & Fr & R1 & R2 & R3).
    exists r, n. split; [ exact Ew | ]. split; [ exact Fr | ].
    split; [ exact R1 | ]. split; [ exact R2 | ]. split; [ exact R3 | ].
    intros K. exfalso. apply Hl. exact K.
Qed.

(** The same for [codex_geo.neighbors]. *)
Lemma codex_candidate_wrapped h cell d :
  valid_geohash h = true -> codex_geo.decode_cell h = Ok cell -> In d [1; 0; -1] ->
  let c := (codex_geo.lon cell
            + PyFloat.of_int d * (codex_geo.lon_err cell * 2))%float in
  finite c = true /\
  exists lon' (n : Z),
    codex_geo._wrap_longitude c = Ok lon' /\ finite lon' = true /\
    (-180 <= B2Q lon')%Q /\ (B2Q lon' < 180)%Q /\
    (Qabs (B2Q lon' - (B2Q c - 360 * inject_Z n)) <= dy 1 (-41))%Q /\
    ((String.length h <= 18)%nat ->
     -1 <= n <= 1 /\ (B2Q lon' == B2Q c - 360 * inject_Z n)%Q).
Proof.
  intros Hv Ed Hd. cbv zeta.
  destruct (decode_cells_same h Hv)
    as (cell0 & cell' & Es & Ed' & Cn & _ & Cn' & _ & Ex & _ & Ee & _).
  rewrite Ed in Ed'. injection Ed' as <-.
  destruct (sonnet_candidate_wrapped h cell0 d Hv Es Hd)
    as (Fx & lon' & n & Ew & Fl & R1 & R2 & R3 & R4).
  cbv zeta in Fx, Ew, R3, R4. rewrite Ee.
  set (c0 := (sonnet_geo.lon cell0
              + PyFloat.of_int d * (sonnet_geo.lon_err cell0 * 2))%float) in *.
  destruct Cn as (Fc & _). destruct Cn' as (Fc' & _).
  destruct (add_same _ (codex_geo.lon cell) _ Fc Fc' ltac:(lra)
              (add_finite_r _ _ Fx) Fx) as [Fx' Vx].
  fold c0 in Vx.
  set (c := (codex_geo.lon cell
             + PyFloat.of_int d * (sonnet_geo.lon_err cell0 * 2))%float) in *.
  split; [ exact Fx' | ].
  exists lon', n. split.
  { rewrite (codex_wrap_same c0 c Fx Fx' Vx), <- wrap_agree. exact Ew. }
  split; [ exact Fl | ]. split; [ exact R1 | ]. split; [ exact R2 | ]. split.
  - apply Qabs_Qle_condition. apply Qabs_Qle_condition in R3. rewrite Vx. exact R3.
  - intros K. destruct (R4 K) as [N1 N2]. split; [ exact N1 | ]. rewrite Vx. exact N2.
Qed.

(** C6: in [neighbors] of [sonnet_geo] and of [codex_geo], for every
    geohash and every step of -1, 0 or 1, the longitude that is encoded
    is the wrapped one: it lies in [[-180, 180)] and is the candidate
    less a whole number [n] of turns of 360, up to the rounding of the
    three sums of [_wrap_longitude] ([2^-41] of a degree), and exactly
    so, with [n] of -1, 0 or 1, for a geohash of at most 18 symbols.
    The latitude that is encoded is the clamped one: it lies in
    [[-90, 90]], and is the candidate itself, 90 for a candidate beyond
    the north pole and -90 for one beyond the south pole.  The entries
    of [neighbors] are [encode] of these wrapped and clamped values.  A
    wrapped value of 180 becomes -180, and a latitude is never wrapped:
    one beyond a pole stays at the pole. *)
Theorem neighbors_wrap_clamp (h : string) :
  valid_geohash h = true ->
  (exists cell,
     sonnet_geo.decode h = Ok cell /\
     (forall lon_delta lat_delta,
        In lon_delta [-1; 0; 1] -> In lat_delta [1; 0; -1] ->
        let lon := (sonnet_geo.lon cell
                    + PyFloat.of_int lon_delta * (sonnet_geo.lon_err cell * 2))%float in
        let lat := (sonnet_geo.lat cell
                    + PyFloat.of_int lat_delta * (sonnet_geo.lat_err cell * 2))%float in
        exists candidate_lon (n : Z),
          sonnet_geo._wrap_longitude lon = Ok candidate_lon /\
          (-180 <=? candidate_lon)%float = true /\
          (candidate_lon <? 180)%float = true /\
          (Qabs (B2Q candidate_lon - (B2Q lon - 360 * inject_Z n)) <= dy 1 (-41))%Q /\
          ((String.length h <= 18)%nat ->
           -1 <= n <= 1 /\ (B2Q candidate_lon == B2Q lon - 360 * inject_Z n)%Q) /\
          let candidate_lat := sonnet_geo._clamp_latitude lat in
          (-90 <=? candidate_lat)%float = true /\
          (candidate_lat <=? 90)%float = true /\
          ((-90 <= B2Q lat)%Q -> (B2Q lat <= 90)%Q ->
           (B2Q candidate_lat == B2Q lat)%Q) /\
          ((90 <= B2Q lat)%Q -> (B2Q candidate_lat == 90)%Q) /\
          ((B2Q lat <= -90)%Q -> (B2Q candidate_lat == -90)%Q)) /\
     (h <> ""%string ->
      exists gs,
        sonnet_geo.neighbors h = Ok gs /\
        Forall2
          (fun g d =>
             exists candidate_lon,
               sonnet_geo._wrap_longitude
                 (sonnet_geo.lon cell
                  + PyFloat.of_int (fst d) * (sonnet_geo.lon_err cell * 2))
               = Ok candidate_lon /\
               sonnet_geo.encode candidate_lon
                 (sonnet_geo._clamp_latitude
                    (sonnet_geo.lat cell
                     + PyFloat.of_int (snd d) * (sonnet_geo.lat_err cell * 2)))
                 (Z.of_nat (String.length h))
               = Ok g)
          gs
          [(-1, 1); (0, 1); (1, 1); (-1, 0); (0, 0); (1, 0); (-1, -1); (0, -1); (1, -1)])) /\
  (exists cell,
     codex_geo.decode_cell h = Ok cell /\
     (forall lon_delta lat_delta,
        In lon_delta [-1; 0; 1] -> In lat_delta [1; 0; -1] ->
        let lon := (codex_geo.lon cell
                    + PyFloat.of_int lon_delta * (codex_geo.lon_err cell * 2))%float in
        let lat := (codex_geo.lat cell
                    + PyFloat.of_int lat_delta * (codex_geo.lat_err cell * 2))%float in
        exists candidate_lon (n : Z),
          codex_geo._wrap_longitude lon = Ok candidate_lon /\
          (-180 <=? candidate_lon)%float = true /\
          (candidate_lon <? 180)%float = true /\
          (Qabs (B2Q candidate_lon - (B2Q lon - 360 * inject_Z n)) <= dy 1 (-41))%Q /\
          ((String.length h <= 18)%nat ->
           -1 <= n <= 1 /\ (B2Q candidate_lon == B2Q lon - 360 * inject_Z n)%Q) /\
          let candidate_lat := PyFloat.max (PyFloat.min lat 90) (-90) in
          (-90 <=? candidate_lat)%float = true /\
          (candidate_lat <=? 90)%float = true /\
          ((-90 <= B2Q lat)%Q -> (B2Q lat <= 90)%Q ->
           (B2Q candidate_lat == B2Q lat)%Q) /\
          ((90 <= B2Q lat)%Q -> (B2Q candidate_lat == 90)%Q) /\
          ((B2Q lat <= -90)%Q -> (B2Q candidate_lat == -90)%Q)) /\
     (h <> ""%string ->
      exists gs,
        codex_geo.neighbors h = Ok gs /\
        Forall2
          (fun g d =>
             exists candidate_lon,
               codex_geo._wrap_longitude
                 (codex_geo.lon cell
                  + PyFloat.of_int (fst d) * (codex_geo.lon_err cell * 2))
               = Ok candidate_lon /\
               codex_geo.encode candidate_lon
                 (PyFloat.max
                    (PyFloat.min
                       (codex_geo.lat cell
                        + PyFloat.of_int (snd d) * (codex_geo.lat_err cell * 2)) 90)
                    (-90))
                 (Z.of_nat (String.length h))
               = Ok g)
          gs
          [(-1, 1); (-1, 0); (-1, -1); (0, 1); (0, 0); (0, -1); (1, 1); (1, 0); (1, -1)])) /\
  sonnet_geo._wrap_longitude 180 = Ok (-180)%float /\
  codex_geo._wrap_longitude 180 = Ok (-180)%float /\
  (forall lon m,
     PyFloat.mod_ (lon - -180) 360 = Ok m -> (m + -180 =? 180)%float = true ->
     sonnet_geo._wrap_longitude lon = Ok (-180)%float) /\
  (forall lon m,
     PyFloat.mod_ (lon + 180) 360 = Ok m -> (m - 180 =? 180)%float = true ->
     codex_geo._wrap_longitude lon = Ok (-180)%float) /\
  (forall lat, finite lat = true ->
     ((90 <= B2Q lat)%Q ->
      (B2Q (sonnet_geo._clamp_latitude lat) == 90)%Q /\
      (B2Q (PyFloat.max (PyFloat.min lat 90) (-90)) == 90)%Q) /\
     ((B2Q lat <= -90)%Q ->
      (B2Q (sonnet_geo._clamp_latitude lat) == -90)%Q /\
      (B2Q (PyFloat.max (PyFloat.min lat 90) (-90)) == -90)%Q) /\
     ((-90 <= B2Q lat)%Q -> (B2Q lat <= 90)%Q ->
      (B2Q (sonnet_geo._clamp_latitude lat) == B2Q lat)%Q /\
      (B2Q (PyFloat.max (PyFloat.min lat 90) (-90)) == B2Q lat)%Q)).
Proof.
  intros Hv.
  split; [ | split; [ | split; [ | split; [ | split; [ | split ] ] ] ] ].
  - destruct (sonnet_decode_centred h Hv) as (cell & Ed & Cn & Ct).
    exists cell. split; [ exact Ed | ]. split.
    + intros dx dy Hx Hy.
      assert (Hx' : In dx [1; 0; -1]) by (cbn in *; tauto).
      destruct (sonnet_candidate_wrapped h cell dx Hv Ed Hx')
        as (Fx & lon' & n & Ew & Fl & _ & _ & R3 & R4).
      destruct (sonnet_neighbor_ok cell 1 dx dy Cn Ct ltac:(lia) Hx' Hy)
        as (lon'' & s & Ew' & T1 & T2 & T3 & T4 & _).
      cbv zeta in Ew, R3, R4, T3, T4.
      rewrite Ew in Ew'. injection Ew' as <-.
      destruct Ct as (Fc' & Fe' & C1' & C2' & E1' & E2').
      destruct (candidate_bounds _ _ dy Fc' ltac:(lra) ltac:(lra) Fe' E1' E2' Hy)
        as (Fy & _).
      destruct (sonnet_clamp_range _ Fy) as (_ & _ & _ & A1 & A2 & A3).
      cbv zeta in *. exists lon', n.
      do 5 (split; [ assumption | ]). do 4 (split; [ assumption | ]). assumption.
    + intros Hne.
      destruct (sonnet_neighbors_rows h Hv Hne)
        as (cell' & nw & n & ne & w & c & e & sw & s & se & Ed' & En
            & A1 & A2 & A3 & A4 & A5 & A6 & A7 & A8 & A9 & _).
      rewrite Ed in Ed'. injection Ed' as <-.
      assert (N : forall dx dy g,
                sonnet_neighbor cell (Z.of_nat (String.length h)) dx dy = Ok g ->
                exists candidate_lon,
                  sonnet_geo._wrap_longitude
                    (sonnet_geo.lon cell
                     + PyFloat.of_int dx * (sonnet_geo.lon_err cell * 2))
                  = Ok candidate_lon /\
                  sonnet_geo.encode candidate_lon
                    (sonnet_geo._clamp_latitude
                       (sonnet_geo.lat cell
                        + PyFloat.of_int dy * (sonnet_geo.lat_err cell * 2)))
                    (Z.of_nat (String.length h))
                  = Ok g).
      { intros dx dy g. unfold sonnet_neighbor.
        destruct (sonnet_geo._wrap_longitude _) as [ lon' | err ]; cbn [bind]; intros K.
        - exists lon'. split; [ reflexivity | exact K ].
        - discriminate K. }
      exists [nw; n; ne; w; c; e; sw; s; se]. split; [ exact En | ].
      repeat (apply Forall2_cons; [ cbn [fst snd]; apply N; assumption | ]).
      apply Forall2_nil.
  - destruct (codex_decode_centred h Hv) as (cell & Ed & Cn & Ct).
    exists cell. split; [ exact Ed | ]. split.
    + intros dx dy Hx Hy.
      assert (Hx' : In dx [1; 0; -1]) by (cbn in *; tauto).
      destruct (codex_candidate_wrapped h cell dx Hv Ed Hx')
        as (Fx & lon' & n & Ew & Fl & _ & _ & R3 & R4).
      destruct (codex_neighbor_ok cell 1 dx dy Cn Ct ltac:(lia) Hx' Hy)
        as (lon'' & s & Ew' & T1 & T2 & T3 & T4 & _).
      cbv zeta in Ew, R3, R4, T3, T4.
      rewrite Ew in Ew'. injection Ew' as <-.
      destruct Ct as (Fc' & Fe' & C1' & C2' & E1' & E2').
      destruct (candidate_bounds _ _ dy Fc' ltac:(lra) ltac:(lra) Fe' E1' E2' Hy)
        as (Fy & _).
      destruct (codex_clamp_range _ Fy) as (_ & _ & _ & A1 & A2 & A3).
      cbv zeta in *. exists lon', n.
      do 5 (split; [ assumption | ]). do 4 (split; [ assumption | ]). assumption.
    + intros Hne.
      destruct (codex_neighbors_columns h Hv Hne)
        as (cell' & nw & n & ne & w & c & e & sw & s & se & Ed' & En
            & A1 & A2 & A3 & A4 & A5 & A6 & A7 & A8 & A9 & _).
      rewrite Ed in Ed'. injection Ed' as <-.
      assert (N : forall dx dy g,
                codex_neighbor cell (Z.of_nat (String.length h)) dx dy = Ok g ->
                exists candidate_lon,
                  codex_geo._wrap_longitude
                    (codex_geo.lon cell
                     + PyFloat.of_int dx * (codex_geo.lon_err cell * 2))
                  = Ok candidate_lon /\
                  codex_geo.encode candidate_lon
                    (PyFloat.max
                       (PyFloat.min
                          (codex_geo.lat cell
                           + PyFloat.of_int dy * (codex_geo.lat_err cell * 2)) 90)
                       (-90))
                    (Z.of_nat (String.length h))
                  = Ok g).
      { intros dx dy g. unfold codex_neighbor.
        destruct (codex_geo._wrap_longitude _) as [ lon' | err ]; cbn [bind]; intros K.
        - exists lon'. split; [ reflexivity | exact K ].
        - discriminate K. }
      exists [nw; w; sw; n; c; s; ne; e; se]. split; [ exact En | ].
      repeat (apply Forall2_cons; [ cbn [fst snd]; apply N; assumption | ]).
      apply Forall2_nil.
  - reflexivity.
  - reflexivity.
  - intros lon m E1 E2. unfold sonnet_geo._wrap_longitude.
    unfold sonnet_geo.LON_RANGE, sonnet_geo.LON_SPAN. cbn [fst snd].
    rewrite E1. cbn [bind]. now rewrite E2.
  - intros lon m E1 E2. unfold codex_geo._wrap_longitude.
    rewrite E1. cbn [bind]. now rewrite E2.
  - intros lat Fl.
    destruct (sonnet_clamp_range lat Fl) as (_ & _ & _ & A1 & A2 & A3).
    destruct (codex_clamp_range lat Fl) as (_ & _ & _ & B1 & B2 & B3).
    cbv zeta in *. repeat split; auto.
Qed.

Lemma neighbors_wrap_clamp_witness :
  exists cell candidate_lon (n : Z) gs,
    sonnet_geo.decode "z" = Ok cell /\
    let lon := (sonnet_geo.lon cell
                + PyFloat.of_int 1 * (sonnet_geo.lon_err cell * 2))%float in
    let lat := (sonnet_geo.lat cell
                + PyFloat.of_int 1 * (sonnet_geo.lat_err cell * 2))%float in
    (180 <= B2Q lon)%Q /\
    sonnet_geo._wrap_longitude lon = Ok candidate_lon /\
    (-180 <=? candidate_lon)%float = true /\ (candidate_lon <? 180)%float = true /\
    -1 <= n <= 1 /\ (B2Q candidate_lon == B2Q lon - 360 * inject_Z n)%Q /\
    (90 <= B2Q lat)%Q /\
    (B2Q (sonnet_geo._clamp_latitude lat) == 90)%Q /\
    sonnet_geo.neighbors "z" = Ok gs /\
    Forall2
      (fun g d =>
         exists candidate_lon,
           sonnet_geo._wrap_longitude
             (sonnet_geo.lon cell
              + PyFloat.of_int (fst d) * (sonnet_geo.lon_err cell * 2))
           = Ok candidate_lon /\
           sonnet_geo.encode candidate_lon
             (sonnet_geo._clamp_latitude
                (sonnet_geo.lat cell
                 + PyFloat.of_int (snd d) * (sonnet_geo.lat_err cell * 2)))
             (Z.of_nat (String.length "z"))
           = Ok g)
      gs
      [(-1, 1); (0, 1); (1, 1); (-1, 0); (0, 0); (1, 0); (-1, -1); (0, -1); (1, -1)].
Proof.
  destruct (neighbors_wrap_clamp "z" eq_refl) as ((cell & Ed & N & L) & _).
  destruct (N 1 1 ltac:(cbn; tauto) ltac:(cbn; tauto))
    as (lon' & n & Ew & T1 & T2 & _ & R4 & _ & _ & _ & A2 & _).
  destruct (R4 ltac:(cbn; lia)) as [Hn Vn].
  destruct (L ltac:(discriminate)) as (gs & En & F).
  vm_compute in Ed. injection Ed as <-.
  cbn [sonnet_geo.lon sonnet_geo.lat sonnet_geo.lon_err sonnet_geo.lat_err] in *.
  assert (B : (90 <= B2Q (67.5 + PyFloat.of_int 1 * (22.5 * 2)))%Q)
    by (vm_compute; discriminate).
  exists (sonnet_geo.mkCell 157.5 67.5 22.5 22.5 "z"), lon', n, gs.
  cbn [sonnet_geo.lon sonnet_geo.lat sonnet_geo.lon_err sonnet_geo.lat_err].
  split; [ vm_compute; reflexivity | ].
  split; [ vm_compute; discriminate | ].
  split; [ exact Ew | ]. split; [ exact T1 | ]. split; [ exact T2 | ].
  split; [ exact Hn | ]. split; [ exact Vn | ]. split; [ exact B | ].
  split; [ exact (A2 B) | ]. split; [ exact En | exact F ].
Defined.

(** Just west of the antimeridian the remainder rounds up to 360, the
    sum to 180, and the special case maps it to -180. *)
Example wrap_rounds_to_180 :
  PyFloat.mod_ (-0x1.6800000000001p+7 - -180) 360 = Ok 360%float /\
  sonnet_geo._wrap_longitude (-0x1.6800000000001p+7) = Ok (-180)%float /\
  codex_geo._wrap_longitude (-0x1.6800000000001p+7) = Ok (-180)%float.
Proof. repeat split; vm_compute; reflexivity. Qed.

End WrapAndClamp.
